(** * asyncmux: an asynchronous readers-writer mutex

    Shallow embedding of [src/asyncmux.ts] (queue items, the per-instance
    decorator/manual form, the keyed [Asyncmux] class, [AsyncmuxLock]) and of
    [src/_singleton.ts].

    Promises are embedded by their observable state: a promise is a [bool]
    (pending / settled), a resolver sets it, and a reaction registered with
    [then]/[finally] is an event of the transition system that is enabled
    once the promise it hangs on is settled and that fires at most once.
    The order in which enabled reactions fire is left open: every theorem
    quantified over event lists holds for every schedule of the microtask
    queue, the real one included.

    Queue items are objects shared between queues and closures (a barrier
    item sits in the global queue and at the head of per-key queues; [next]
    keeps a reference to its item after the item left the queue), so items
    live in a store and queues hold references into it.  Contexts and queue
    arrays are stored the same way.  The synchronous part of a call, up to
    the promise it returns, is one transition: no [await] occurs in it. *)

From Stdlib Require Import ZArith Lia.
From stdpp Require Import base option list strings gmap.

Local Open Scope Z_scope.

(** ** Errors raised or propagated by the library *)

Inductive error : Type :=
  | LockEscalationError
  | UnreachableError
  | AbortReason (reason : string).

Inductive outcome : Type :=
  | Pending
  | Fulfilled
  | Rejected (e : error).

(** ** Queue items ([QueueItemW], [QueueItemR], [QueueItemG]) *)

Inductive tag : Type := TW | TR | TG.

Global Instance tag_eq_dec : EqDecision tag.
Proof. solve_decision. Defined.

(** An element of [QueueItemW.steps]: either the [next] closure of the
    acquirer that found [steps] empty (it captures the very item it is pushed
    on, so running it is running [next] again), or the resolver of the
    [stepPromise] of acquirer [a]. *)
Inductive step : Type :=
  | StepNext
  | StepResolve (a : nat).

(** [ready] is the state of the item's [ready] promise; [start] resolves it. *)
Inductive item : Type :=
  | ItemW (ready : bool) (steps : list step)
  | ItemR (ready : bool) (count : Z)
  | ItemG (ready : bool).

Definition item_tag (it : item) : tag :=
  match it with
  | ItemW _ _ => TW
  | ItemR _ _ => TR
  | ItemG _ => TG
  end.

Definition item_ready (it : item) : bool :=
  match it with
  | ItemW r _ => r
  | ItemR r _ => r
  | ItemG r => r
  end.

(** [item.start()] *)
Definition item_start (it : item) : item :=
  match it with
  | ItemW _ s => ItemW true s
  | ItemR _ c => ItemR true c
  | ItemG _ => ItemG true
  end.

(** [const step = writableItem.steps.shift(); if (step) step() else ...]:
    the steps left, and the acquirer whose [stepPromise] got resolved, if
    any; [None] is the [else] branch (steps exhausted). *)
Fixpoint pop_step (steps : list step) : list step * option nat :=
  match steps with
  | [] => ([], None)
  | StepResolve a :: rest => (rest, Some a)
  | StepNext :: rest => pop_step rest
  end.

(** The tag of [queue[queue.length - 1]] in the item store: [None] when the
    queue is empty ([undefined]). *)
Definition latest (items : list item) (q : list nat) : option (nat * item) :=
  i ← last q; it ← items !! i; Some (i, it).

(** ** [AsyncmuxLock] *)

Module Lock.

(** [resolved] is the state of the promise [#resolve] settles, [calls]
    counts the invocations of [#resolve]. *)
Record t : Type := mk {
  unlockCalled : bool;
  resolved : bool;
  calls : nat;
}.

Definition create : t := mk false false 0.

Definition resolve (l : t) : t := mk (unlockCalled l) true (S (calls l)).

Definition unlock (l : t) : t :=
  resolve (mk true (resolved l) (calls l)).

Definition dispose (l : t) : t :=
  if unlockCalled l then l else resolve l.

End Lock.

(** ** The instance form: [asyncmuxDecorator], [asyncmuxReadonlyDecorator],
    [manualLock], [initializeInstance] *)

Module Instance.

(** [AsyncmuxContext]: [lockType] is [null] ([None]), ["W"] or ["R"];
    [queue] holds references into the item store. *)
Record context : Type := mkContext {
  lockType : option tag;
  queue : list nat;
}.

(** [new AsyncmuxContext(lockType)] *)
Definition new_context (lt : option tag) : context := mkContext lt [].

Inductive phase : Type :=
  | Waiting      (* [readyPromise] not yet reacted to *)
  | Running      (* the [then] callback ran: the method is executing *)
  | Finished.    (* the [finally] callback ran *)

(** The part of an acquisition that only [manualLock] has: the promise it
    returns, the lock object handed out, the abort signal's reason. *)
Record manual : Type := mkManual {
  m_result : outcome;
  m_lock : Lock.t;
  m_signal : option string;
}.

(** One call of a decorated method (or of [manualLock]) that reached the
    queue.  [a_step] is [stepPromise]: [None] for [undefined], [Some b]
    for a promise, settled iff [b]. *)
Record acquirer : Type := mkAcquirer {
  a_kind : tag;
  a_ctx : nat;
  a_item : nat;
  a_step : option bool;
  a_phase : phase;
  a_manual : option manual;
}.

(** [owner] is the value of [this[CONTEXT]]: [None] while the property is
    not defined, else a reference into the store of contexts. *)
Record state : Type := mkState {
  items : list item;
  ctxs : list context;
  owner : option nat;
  acqs : list acquirer;
}.

Definition init : state := mkState [] [] None [].

Definition set_items (f : list item -> list item) (s : state) : state :=
  mkState (f (items s)) (ctxs s) (owner s) (acqs s).
Definition set_ctxs (f : list context -> list context) (s : state) : state :=
  mkState (items s) (f (ctxs s)) (owner s) (acqs s).
Definition set_owner (o : option nat) (s : state) : state :=
  mkState (items s) (ctxs s) o (acqs s).
Definition set_acqs (f : list acquirer -> list acquirer) (s : state) : state :=
  mkState (items s) (ctxs s) (owner s) (f (acqs s)).

Definition set_queue (f : list nat -> list nat) (c : context) : context :=
  mkContext (lockType c) (f (queue c)).
Definition set_step (b : option bool) (a : acquirer) : acquirer :=
  mkAcquirer (a_kind a) (a_ctx a) (a_item a) b (a_phase a) (a_manual a).
Definition set_phase (p : phase) (a : acquirer) : acquirer :=
  mkAcquirer (a_kind a) (a_ctx a) (a_item a) (a_step a) p (a_manual a).
Definition set_manual (f : manual -> manual) (a : acquirer) : acquirer :=
  mkAcquirer (a_kind a) (a_ctx a) (a_item a) (a_step a) (a_phase a)
    (f <$> a_manual a).

(** [initializeInstance]: does nothing when the owner has the property,
    else defines it over a fresh context with [lockType = null]. *)
Definition initializeInstance (s : state) : state :=
  match owner s with
  | Some _ => s
  | None =>
      set_owner (Some (length (ctxs s)))
        (set_ctxs (fun cs => cs ++ [new_context None]) s)
  end.

(** The setter of the property: [this[CONTEXT] = value]. *)
Definition assign_context (c : nat) (s : state) : state :=
  set_owner (Some c) s.

(** What a call returns to its caller synchronously: the acquirer that
    was queued, or the error the returned promise is rejected with. *)
Inductive reply : Type :=
  | Queued (a : nat)
  | Threw (e : error).

(** [context.queue.shift(); context.queue[0]?.start()] *)
Definition advance (c : nat) (s : state) : state :=
  let s1 := set_ctxs (alter (set_queue (drop 1)) c) s in
  match ctxs s1 !! c ≫= (fun cx => head (queue cx)) with
  | Some i => set_items (alter item_start i) s1
  | None => s1
  end.

(** [next] of [asyncmuxClassMethod], closed over [writableItem = i] and
    [context = c]. *)
Definition next_w (i c : nat) (s : state) : state :=
  match items s !! i with
  | Some (ItemW r steps) =>
      let '(rest, woken) := pop_step steps in
      let s1 := set_items (<[i := ItemW r rest]>) s in
      match woken with
      | Some a => set_acqs (alter (set_step (Some true)) a) s1
      | None => advance c s1
      end
  | _ => s
  end.

(** [next] of [asyncmuxReadonlyClassMethod], closed over
    [readonlyItem = i] and [context = c]. *)
Definition next_r (i c : nat) (s : state) : state :=
  match items s !! i with
  | Some (ItemR r n) =>
      let s1 := set_items (<[i := ItemR r (n - 1)]>) s in
      if decide (n - 1 = 0) then advance c s1 else s1
  | _ => s
  end.

Definition next (k : tag) (i c : nat) (s : state) : state :=
  match k with
  | TW => next_w i c s
  | _ => next_r i c s
  end.

(** The synchronous part of [asyncmuxClassMethod] after the escalation
    check, on context [c]: find or push the writer item, push the step. *)
Definition arrive_w (c : nat) (cx : context) (m : option manual)
    (s : state) : state * reply :=
  let a := length (acqs s) in
  let enqueue (i : nat) (s1 : state) : state * reply :=
    match items s1 !! i with
    | Some (ItemW r []) =>
        (set_acqs (fun l => l ++ [mkAcquirer TW c i None Waiting m])
           (set_items (<[i := ItemW r [StepNext]]>) s1), Queued a)
    | Some (ItemW r steps) =>
        (set_acqs (fun l => l ++ [mkAcquirer TW c i (Some false) Waiting m])
           (set_items (<[i := ItemW r (steps ++ [StepResolve a])]>) s1),
         Queued a)
    | _ => (s, Threw UnreachableError)
    end in
  let push (it : item) : state * reply :=
    enqueue (length (items s))
      (set_ctxs (alter (set_queue (fun q => q ++ [length (items s)])) c)
         (set_items (fun l => l ++ [it]) s)) in
  match last (queue cx) with
  | None => push (ItemW true [])
  | Some i =>
      match items s !! i with
      | Some (ItemR _ _) => push (ItemW false [])
      | Some (ItemW _ _) => enqueue i s
      | _ => (s, Threw UnreachableError)
      end
  end.

(** The synchronous part of [asyncmuxReadonlyClassMethod]. *)
Definition arrive_r (c : nat) (cx : context) (m : option manual)
    (s : state) : state * reply :=
  let a := length (acqs s) in
  let enqueue (i : nat) (s1 : state) : state * reply :=
    match items s1 !! i with
    | Some (ItemR r n) =>
        (set_acqs (fun l => l ++ [mkAcquirer TR c i None Waiting m])
           (set_items (<[i := ItemR r (n + 1)]>) s1), Queued a)
    | _ => (s, Threw UnreachableError)
    end in
  let push (it : item) : state * reply :=
    enqueue (length (items s))
      (set_ctxs (alter (set_queue (fun q => q ++ [length (items s)])) c)
         (set_items (fun l => l ++ [it]) s)) in
  match last (queue cx) with
  | None => push (ItemR true 0)
  | Some i =>
      match items s !! i with
      | Some (ItemW _ _) => push (ItemR false 0)
      | Some (ItemR _ _) => enqueue i s
      | _ => (s, Threw UnreachableError)
      end
  end.

(** [asyncmuxClassMethod] (kind [TW]) and [asyncmuxReadonlyClassMethod]
    (any other kind) up to the promise they return. *)
Definition classMethod (k : tag) (m : option manual) (s : state)
    : state * reply :=
  match owner s ≫= (fun c => (c,.) <$> ctxs s !! c) with
  | None => (s, Threw UnreachableError)
  | Some (c, cx) =>
      match k with
      | TW =>
          match lockType cx with
          | Some TR => (s, Threw LockEscalationError)
          | Some TW | None => arrive_w c cx m s
          | Some TG => (s, Threw UnreachableError)
          end
      | _ => arrive_r c cx m s
      end
  end.

(** An [AbortSignal] as [manualLock] sees it: whether it is aborted at
    the time of the call, and its reason. *)
Record signal : Type := mkSignal {
  aborted : bool;
  reason : string;
}.

(** [manualLock] up to the promise it returns. *)
Definition manualLock (k : tag) (sig : option signal) (s : state)
    : state * reply :=
  match sig with
  | Some (mkSignal true r) => (s, Threw (AbortReason r))
  | _ =>
      classMethod k (Some (mkManual Pending Lock.create (reason <$> sig)))
        (initializeInstance s)
  end.

(** [readyPromise] of an acquirer is settled. *)
Definition acq_ready (s : state) (a : acquirer) : bool :=
  match items s !! a_item a with
  | Some it =>
      item_ready it && match a_step a with Some b => b | None => true end
  | None => false
  end.

(** The transitions of one owner.  [Construct] is the construction of the
    instance, which runs the initializer the decorators registered;
    [Call] and [Manual] are calls from user code; [Start] is the callback
    of [readyPromise.then], [Finish] the one of [finally], which runs when
    the method's promise settles; [Abort] is the abort event of the
    signal; [Unlock] and [Dispose] are the methods of the lock handed
    out. *)
Inductive event : Type :=
  | Construct
  | Call (k : tag)
  | Manual (k : tag) (sig : option signal)
  | Start (a : nat)
  | Finish (a : nat)
  | Abort (a : nat)
  | Unlock (a : nat)
  | Dispose (a : nat).

(** [this[CONTEXT] = new AsyncmuxContext(k)], then the method runs; for
    [manualLock] the method is [waitForUnlock], whose [ready()] settles
    the race of [errorPromise] and [readyPromise] unless it is settled. *)
Definition start (n : nat) (a : acquirer) (s : state) : state :=
  let fulfil (m : manual) :=
    match m_result m with
    | Pending => mkManual Fulfilled (m_lock m) (m_signal m)
    | _ => m
    end in
  set_acqs (<[n := set_manual fulfil (set_phase Running a)]>)
    (assign_context (length (ctxs s))
       (set_ctxs (fun cs => cs ++ [new_context (Some (a_kind a))]) s)).

(** [this[CONTEXT] = context; next()] *)
Definition finish (n : nat) (a : acquirer) (s : state) : state :=
  next (a_kind a) (a_item a) (a_ctx a)
    (set_acqs (<[n := set_phase Finished a]>)
       (assign_context (a_ctx a) s)).

Definition on_lock (f : Lock.t -> Lock.t) (m : manual) : manual :=
  mkManual (m_result m) (f (m_lock m)) (m_signal m).

(** [fire e s] is [None] when [e] cannot happen in [s]. *)
Definition fire (e : event) (s : state) : option state :=
  match e with
  | Construct => Some (initializeInstance s)
  | Call k => Some (classMethod k None s).1
  | Manual k sig => Some (manualLock k sig s).1
  | Start n =>
      a ← acqs s !! n;
      match a_phase a with
      | Waiting => if acq_ready s a then Some (start n a s) else None
      | _ => None
      end
  | Finish n =>
      a ← acqs s !! n;
      match a_phase a, a_manual a with
      | Running, None => Some (finish n a s)
      | Running, Some m =>
          if Lock.resolved (m_lock m) then Some (finish n a s) else None
      | _, _ => None
      end
  | Abort n =>
      a ← acqs s !! n;
      m ← a_manual a;
      match m_result m, m_signal m with
      | Pending, Some r =>
          Some (set_acqs (alter (set_manual (fun m =>
            mkManual (Rejected (AbortReason r)) (Lock.resolve (m_lock m))
              (m_signal m))) n) s)
      | _, _ => None
      end
  | Unlock n =>
      a ← acqs s !! n;
      m ← a_manual a;
      match m_result m with
      | Fulfilled => Some (set_acqs (alter (set_manual (on_lock Lock.unlock)) n) s)
      | _ => None
      end
  | Dispose n =>
      a ← acqs s !! n;
      m ← a_manual a;
      match m_result m with
      | Fulfilled => Some (set_acqs (alter (set_manual (on_lock Lock.dispose)) n) s)
      | _ => None
      end
  end.

Fixpoint run (es : list event) (s : state) : option state :=
  match es with
  | [] => Some s
  | e :: es' => fire e s ≫= run es'
  end.

End Instance.

(** ** The keyed form: class [Asyncmux] *)

Module Keyed.

(** One turn of the [for] loop of [lock]/[rLock]: the entry
    [[key, queue]] it ran on, the item it chose, and [stepPromise]
    ([rLock] has none: [true]). *)
Record slot : Type := mkSlot {
  s_key : option string;
  s_queue : nat;
  s_item : nat;
  s_step : bool;
}.

(** One call of [lock] or [rLock]. [a_result] is the promise the call
    returns, [a_lock] the lock object and its [unlockPromise],
    [a_released] tells whether the [finally(next)] reaction has run. *)
Record acquirer : Type := mkAcquirer {
  a_kind : tag;
  a_slots : list slot;
  a_result : outcome;
  a_lock : Lock.t;
  a_signal : option string;
  a_released : bool;
}.

(** The reaction [globalItem.ready.then(next)] of [#getQueueEntries],
    closed over [globalItem], [queue] and [key]. *)
Record barrier : Type := mkBarrier {
  b_item : nat;
  b_queue : nat;
  b_key : string;
  b_fired : bool;
}.

(** [queues] is the store of queue arrays; [queues !! 0] is
    [#globalQueue].  [partialQueue] is the [Map], in insertion order, from
    keys to references into [queues]. *)
Record state : Type := mkState {
  items : list item;
  queues : list (list nat);
  partialQueue : list (string * nat);
  barriers : list barrier;
  acqs : list acquirer;
}.

Definition globalQueue : nat := 0%nat.

(** [new Asyncmux()] *)
Definition init : state := mkState [] [[]] [] [] [].

Definition set_items (f : list item -> list item) (s : state) : state :=
  mkState (f (items s)) (queues s) (partialQueue s) (barriers s) (acqs s).
Definition set_queues (f : list (list nat) -> list (list nat)) (s : state)
    : state :=
  mkState (items s) (f (queues s)) (partialQueue s) (barriers s) (acqs s).
Definition set_partial (f : list (string * nat) -> list (string * nat))
    (s : state) : state :=
  mkState (items s) (queues s) (f (partialQueue s)) (barriers s) (acqs s).
Definition set_barriers (f : list barrier -> list barrier) (s : state)
    : state :=
  mkState (items s) (queues s) (partialQueue s) (f (barriers s)) (acqs s).
Definition set_acqs (f : list acquirer -> list acquirer) (s : state)
    : state :=
  mkState (items s) (queues s) (partialQueue s) (barriers s) (f (acqs s)).

(** [Map.prototype.get], [delete] on the association list. *)
Definition map_get (k : string) (m : list (string * nat)) : option nat :=
  (fun r => r.2.2) <$> list_find (fun e => e.1 = k) m.
Definition map_delete (k : string) (m : list (string * nat))
    : list (string * nat) :=
  filter (fun e => e.1 ≠ k) m.

(** [queue.push(it)] with a fresh item. *)
Definition push_item (q : nat) (it : item) (s : state) : state :=
  set_queues (alter (fun l => l ++ [length (items s)]) q)
    (set_items (fun l => l ++ [it]) s).

(** [#getQueueEntries(key)]: the entries it yields, and the state after
    the generator ran to completion. *)
Definition getQueueEntries (key : option string) (s : state)
    : state * list (option string * nat) :=
  match key with
  | None =>
      match partialQueue s with
      | [] => (s, [(None, globalQueue)])
      | m => (s, (fun e => (Some e.1, e.2)) <$> m)
      end
  | Some k =>
      match map_get k (partialQueue s) with
      | Some q => (s, [(Some k, q)])
      | None =>
          let gq := default [] (queues s !! globalQueue) in
          let '(g, s1) :=
            match last gq with
            | None => (length (items s), push_item globalQueue (ItemG true) s)
            | Some i =>
                match items s !! i with
                | Some (ItemG _) => (i, s)
                | _ => (length (items s),
                        push_item globalQueue (ItemG false) s)
                end
            end in
          let q := length (queues s1) in
          (set_partial (fun m => m ++ [(k, q)])
             (set_barriers (fun l => l ++ [mkBarrier g q k false])
                (set_queues (fun l => l ++ [[g]]) s1)),
           [(Some k, q)])
      end
  end.

(** [queue.shift(); const item = queue[0]; if (item) item.start(); else
    if (typeof key === "string") this.#partialQueue.delete(key)] *)
Definition advance (key : option string) (q : nat) (s : state) : state :=
  let s1 := set_queues (alter (drop 1) q) s in
  match queues s1 !! q ≫= head with
  | Some i => set_items (alter item_start i) s1
  | None =>
      match key with
      | Some k => set_partial (map_delete k) s1
      | None => s1
      end
  end.

(** The body of the [for] loop of [lock] on the entry [[key, q]], for the
    acquirer numbered [a]: the state, and the slot whose [next] and
    [readyPromise] go to [nextFuncList] and [readyPromiseList]. *)
Definition arrive_w (a : nat) (entry : option string * nat) (s : state)
    : state * slot :=
  let '(key, q) := entry in
  let '(i, s1) :=
    match last (default [] (queues s !! q)) with
    | None => (length (items s), push_item q (ItemW true []) s)
    | Some l =>
        match items s !! l with
        | Some (ItemW _ _) => (l, s)
        | _ => (length (items s), push_item q (ItemW false []) s)
        end
    end in
  match items s1 !! i with
  | Some (ItemW r []) =>
      (set_items (<[i := ItemW r [StepNext]]>) s1, mkSlot key q i true)
  | Some (ItemW r steps) =>
      (set_items (<[i := ItemW r (steps ++ [StepResolve a])]>) s1,
       mkSlot key q i false)
  | _ => (s1, mkSlot key q i false)
  end.

(** The body of the [for] loop of [rLock]. *)
Definition arrive_r (a : nat) (entry : option string * nat) (s : state)
    : state * slot :=
  let '(key, q) := entry in
  let '(i, s1) :=
    match last (default [] (queues s !! q)) with
    | None => (length (items s), push_item q (ItemR true 0) s)
    | Some l =>
        match items s !! l with
        | Some (ItemR _ _) => (l, s)
        | _ => (length (items s), push_item q (ItemR false 0) s)
        end
    end in
  match items s1 !! i with
  | Some (ItemR r n) =>
      (set_items (<[i := ItemR r (n + 1)]>) s1, mkSlot key q i true)
  | _ => (s1, mkSlot key q i true)
  end.

Fixpoint arrive_all (k : tag) (a : nat) (entries : list (option string * nat))
    (s : state) : state * list slot :=
  match entries with
  | [] => (s, [])
  | e :: rest =>
      let '(s1, sl) :=
        match k with TW => arrive_w a e s | _ => arrive_r a e s end in
      let '(s2, sls) := arrive_all k a rest s1 in
      (s2, sl :: sls)
  end.

(** An [AbortSignal] as the call sees it. *)
Record signal : Type := mkSignal {
  aborted : bool;
  reason : string;
}.

(** What the call of [lock]/[rLock] does before it returns its promise:
    [lock] for [k = TW], [rLock] otherwise.  [inr e]: the call throws [e]
    (the promise of the [async] method is rejected with it). *)
Definition acquire (k : tag) (key : option string) (sig : option signal)
    (s : state) : state * (nat + error) :=
  match sig with
  | Some (mkSignal true r) => (s, inr (AbortReason r))
  | _ =>
      let a := length (acqs s) in
      let '(s1, entries) := getQueueEntries key s in
      let '(s2, slots) := arrive_all k a entries s1 in
      (set_acqs (fun l => l ++
         [mkAcquirer k slots Pending Lock.create (reason <$> sig) false]) s2,
       inl a)
  end.

Definition lock := acquire TW.
Definition rLock := acquire TR.

(** The resolver [lock] pushed on the steps of item [i] for an acquirer
    settles the [stepPromise] of that acquirer's slot on [i]. *)
Definition resolve_step (i : nat) (a : acquirer) : acquirer :=
  mkAcquirer (a_kind a)
    ((fun sl => if decide (s_item sl = i)
                then mkSlot (s_key sl) (s_queue sl) (s_item sl) true
                else sl) <$> a_slots a)
    (a_result a) (a_lock a) (a_signal a) (a_released a).

(** [next] of one turn of the loop of [lock]. *)
Definition next_w (sl : slot) (s : state) : state :=
  match items s !! s_item sl with
  | Some (ItemW r steps) =>
      let '(rest, woken) := pop_step steps in
      let s1 := set_items (<[s_item sl := ItemW r rest]>) s in
      match woken with
      | Some a => set_acqs (alter (resolve_step (s_item sl)) a) s1
      | None => advance (s_key sl) (s_queue sl) s1
      end
  | _ => s
  end.

(** [next] of one turn of the loop of [rLock]. *)
Definition next_r (sl : slot) (s : state) : state :=
  match items s !! s_item sl with
  | Some (ItemR r n) =>
      let s1 := set_items (<[s_item sl := ItemR r (n - 1)]>) s in
      if decide (n - 1 = 0) then advance (s_key sl) (s_queue sl) s1 else s1
  | _ => s
  end.

(** [nextFuncList.forEach(next => next())] *)
Definition next_all (k : tag) (sls : list slot) (s : state) : state :=
  foldl (fun s sl => match k with TW => next_w sl s | _ => next_r sl s end)
    s sls.

Definition slot_ready (s : state) (sl : slot) : bool :=
  match items s !! s_item sl with
  | Some it => item_ready it && s_step sl
  | None => false
  end.

(** [Promise.all(readyPromiseList)] is settled. *)
Definition acq_ready (s : state) (a : acquirer) : bool :=
  forallb (slot_ready s) (a_slots a).

Definition set_result (o : outcome) (a : acquirer) : acquirer :=
  mkAcquirer (a_kind a) (a_slots a) o (a_lock a) (a_signal a) (a_released a).
Definition on_lock (f : Lock.t -> Lock.t) (a : acquirer) : acquirer :=
  mkAcquirer (a_kind a) (a_slots a) (a_result a) (f (a_lock a)) (a_signal a)
    (a_released a).
Definition set_released (a : acquirer) : acquirer :=
  mkAcquirer (a_kind a) (a_slots a) (a_result a) (a_lock a) (a_signal a) true.
Definition set_fired (b : barrier) : barrier :=
  mkBarrier (b_item b) (b_queue b) (b_key b) true.

(** The transitions of one [Asyncmux].  [Lock] and [RLock] are the calls;
    [Barrier n] is the reaction [globalItem.ready.then(next)] numbered
    [n]; [Ready a] is the race won by [readyPromise] (the call's promise
    is fulfilled with the lock object), [Abort a] the race won by
    [abortPromise]; [Unlock] and [Dispose] are the methods of the lock
    object; [Release a] is the reaction
    [readyPromise.then(() => unlockPromise).finally(next)]. *)
Inductive event : Type :=
  | Lock (key : option string) (sig : option signal)
  | RLock (key : option string) (sig : option signal)
  | Barrier (n : nat)
  | Ready (a : nat)
  | Abort (a : nat)
  | Unlock (a : nat)
  | Dispose (a : nat)
  | Release (a : nat).

Definition fire (e : event) (s : state) : option state :=
  match e with
  | Lock key sig => Some (lock key sig s).1
  | RLock key sig => Some (rLock key sig s).1
  | Barrier n =>
      b ← barriers s !! n;
      it ← items s !! b_item b;
      if item_ready it && negb (b_fired b)
      then Some (advance (Some (b_key b)) (b_queue b)
                   (set_barriers (<[n := set_fired b]>) s))
      else None
  | Ready n =>
      a ← acqs s !! n;
      match a_result a with
      | Pending =>
          if acq_ready s a
          then Some (set_acqs (<[n := set_result Fulfilled a]>) s)
          else None
      | _ => None
      end
  | Abort n =>
      a ← acqs s !! n;
      match a_result a, a_signal a with
      | Pending, Some r =>
          Some (set_acqs (<[n := on_lock Lock.resolve
                                   (set_result (Rejected (AbortReason r)) a)]>) s)
      | _, _ => None
      end
  | Unlock n =>
      a ← acqs s !! n;
      match a_result a with
      | Fulfilled => Some (set_acqs (<[n := on_lock Lock.unlock a]>) s)
      | _ => None
      end
  | Dispose n =>
      a ← acqs s !! n;
      match a_result a with
      | Fulfilled => Some (set_acqs (<[n := on_lock Lock.dispose a]>) s)
      | _ => None
      end
  | Release n =>
      a ← acqs s !! n;
      if acq_ready s a && Lock.resolved (a_lock a) && negb (a_released a)
      then Some (next_all (a_kind a) (a_slots a)
                   (set_acqs (<[n := set_released a]>) s))
      else None
  end.

Fixpoint run (es : list event) (s : state) : option state :=
  match es with
  | [] => Some s
  | e :: es' => fire e s ≫= run es'
  end.

End Keyed.

(** ** [singleton] of [src/_singleton.ts] *)

Module Singleton.

(** What the cache holds under a key: a plain value, or the promise of
    the [async] wrapper numbered [p]. *)
Inductive cached : Type :=
  | Value (v : nat)
  | Promise (p : nat).

(** What the call [fn()] does: throw, return a value that is not
    promise-like, or return a promise-like. *)
Inductive behaviour : Type :=
  | Throws (e : string)
  | Returns (v : nat)
  | ReturnsPromise.

(** The [async] wrapper around [await returns]: the key it closes over
    and whether its continuation has run. *)
Record wrapper : Type := mkWrapper {
  w_key : string;
  w_settled : bool;
}.

(** [cache] is [globalThis.asyncmux__singleton] (an absent map and an
    empty one behave alike); [executed] lists the keys [fn] was run
    for, latest first. *)
Record state : Type := mkState {
  cache : gmap string cached;
  wrappers : list wrapper;
  executed : list string;
}.

Definition init : state := mkState ∅ [] [].

(** [singleton(key, fn)]: the state after the call and what the call
    returns ([inl]) or throws ([inr]). *)
Definition singleton (key : string) (fn : behaviour) (s : state)
    : state * (cached + string) :=
  match cache s !! key with
  | Some c => (s, inl c)
  | None =>
      match fn with
      | Throws e =>
          (mkState (cache s) (wrappers s) (key :: executed s), inr e)
      | Returns v =>
          (mkState (<[key := Value v]> (cache s)) (wrappers s)
             (key :: executed s), inl (Value v))
      | ReturnsPromise =>
          let p := length (wrappers s) in
          (mkState (<[key := Promise p]> (cache s))
             (wrappers s ++ [mkWrapper key false]) (key :: executed s),
           inl (Promise p))
      end
  end.

(** The promise wrapper [p] awaits settles: with a value ([inl],
    [cache.set(key, value)]) or with an error ([inr],
    [cache.delete(key)]). [None] when [p] is no pending wrapper. *)
Definition settle (p : nat) (r : nat + string) (s : state) : option state :=
  w ← wrappers s !! p;
  if w_settled w then None
  else
    let ws := <[p := mkWrapper (w_key w) true]> (wrappers s) in
    Some match r with
         | inl v => mkState (<[w_key w := Value v]> (cache s)) ws (executed s)
         | inr _ => mkState (delete (w_key w) (cache s)) ws (executed s)
         end.

(** How many times [fn] was run for [key]. *)
Definition runs (key : string) (s : state) : nat :=
  length (filter (fun k => k = key) (executed s)).

End Singleton.

(** * Predicates on states *)

(** The tag of the item a queue entry refers to. *)
Definition tag_at (its : list item) (i : nat) : option tag :=
  item_tag <$> its !! i.

(** Every entry is a tag, and neighbours differ. *)
Fixpoint alternating (l : list (option tag)) : Prop :=
  match l with
  | [] => True
  | x :: rest =>
      is_Some x
      /\ match rest with [] => True | y :: _ => x <> y end
      /\ alternating rest
  end.

(** A queue over the item store [its] refers to items only, and no two
    neighbours have the same tag. *)
Definition queue_ok (its : list item) (q : list nat) : Prop :=
  alternating (tag_at its <$> q).

(** Every queue of every context of an owner is well formed. *)
Definition instance_queues_ok (s : Instance.state) : Prop :=
  Forall (fun cx => queue_ok (Instance.items s) (Instance.queue cx))
    (Instance.ctxs s).

(** The global queue and every per-key queue ever created are well
    formed. *)
Definition keyed_queues_ok (s : Keyed.state) : Prop :=
  Forall (queue_ok (Keyed.items s)) (Keyed.queues s).

Module InstanceInv.
Import Instance.

(** The queue side of an owner: the item store, the contexts with their
    queues, and the context the owner points to. *)
Definition queues_of (s : state)
    : list item * list context * option nat :=
  (items s, ctxs s, owner s).

(** The acquirer an event is about, if any. *)
Definition about (e : event) : option nat :=
  match e with
  | Construct | Call _ | Manual _ _ => None
  | Start n | Finish n | Abort n | Unlock n | Dispose n => Some n
  end.

(** Overwrite the promise [manualLock] returned and its lock object. *)
Definition retag_manual (o : outcome) (l : Lock.t) (m : manual) : manual :=
  mkManual o l (m_signal m).
Definition retag (n : nat) (o : outcome) (l : Lock.t) (s : state) : state :=
  set_acqs (alter (set_manual (retag_manual o l)) n) s.

(** What a call or a reaction that is not about an acquirer leaves alone
    in it: everything but its step promise. *)
Definition same_call (a b : acquirer) : Prop :=
  a_kind a = a_kind b /\ a_ctx a = a_ctx b /\ a_item a = a_item b
  /\ a_phase a = a_phase b /\ a_manual a = a_manual b.

(** While the promise of [manualLock] is pending the acquirer waits in the
    queue and nobody holds its lock object. *)
Definition pending_waits (a : acquirer) : Prop :=
  forall m, a_manual a = Some m -> m_result m = Pending ->
    a_phase a = Waiting /\ Lock.resolved (m_lock m) = false.

(** What one event keeps of the acquirer numbered [n]: its signal, a
    settled result of [manualLock], and, when the event is not about [n],
    everything but its step promise. *)
Definition kept (e : event) (n : nat) (a a' : acquirer) : Prop :=
  (m_signal <$> a_manual a') = (m_signal <$> a_manual a)
  /\ (forall m, a_manual a = Some m -> m_result m <> Pending ->
        exists m', a_manual a' = Some m' /\ m_result m' = m_result m)
  /\ (about e <> Some n -> same_call a a').

End InstanceInv.

Module KeyedInv.
Import Keyed.

(** What a call or a reaction leaves alone in an acquirer: everything but
    the step promises of its slots. *)
Definition same_call (a b : acquirer) : Prop :=
  a_result a = a_result b /\ a_signal a = a_signal b
  /\ a_lock a = a_lock b /\ a_released a = a_released b
  /\ a_kind a = a_kind b.

(** A rejected call was rejected with the reason of its own signal. *)
Definition rejected_by_signal (a : acquirer) : Prop :=
  forall e, a_result a = Rejected e ->
    exists r, a_signal a = Some r /\ e = AbortReason r.

(** The queue side of a state: the item store, the queue arrays and the
    map of per-key queues. *)
Definition queues_of (s : state) : list item * list (list nat) * list (string * nat) :=
  (items s, queues s, partialQueue s).

(** The acquirer an event is about, if any. *)
Definition about (e : event) : option nat :=
  match e with
  | Lock _ _ | RLock _ _ | Barrier _ => None
  | Ready n | Abort n | Unlock n | Dispose n | Release n => Some n
  end.

(** Overwrite the returned promise and the lock object of acquirer [n]. *)
Definition retag_acq (o : outcome) (l : Lock.t) (a : acquirer) : acquirer :=
  mkAcquirer (a_kind a) (a_slots a) o l (a_signal a) (a_released a).
Definition retag (n : nat) (o : outcome) (l : Lock.t) (s : state) : state :=
  set_acqs (alter (retag_acq o l) n) s.

(** While the promise of a call is pending nobody holds its lock object:
    [unlockPromise] is unsettled and the release reaction has not run. *)
Definition pending_unreleased (a : acquirer) : Prop :=
  a_result a = Pending ->
  Lock.resolved (a_lock a) = false /\ a_released a = false.

End KeyedInv.

(** * Writers launched together on one owner *)

Module Serial.
Import Instance.

(** The owner is constructed and [N] calls of one decorated (exclusive)
    method are made before any reaction runs. *)
Definition launch (N : nat) : list event :=
  Construct :: replicate N (Call TW).

(** The state those calls leave, for [N = S n]. *)
Definition launched (n : nat) : state :=
  mkState
    [ItemW true (StepNext :: (StepResolve <$> seq 1 n))]
    [mkContext None [0%nat]]
    (Some 0%nat)
    ((fun i => mkAcquirer TW 0 0 (if (i =? 0)%nat then None else Some false)
                 Waiting None) <$> seq 0 (S n)).

(** The serial schedule: body [0] starts and finishes, then body [1], and
    so on in the order of arrival. *)
Definition schedule (N : nat) : list event :=
  flat_map (fun i => [Start i; Finish i]) (seq 0 N).

(** Events of the reactions that start and end the bodies. *)
Definition body_event (e : event) : Prop :=
  match e with
  | Start _ | Finish _ => True
  | _ => False
  end.

(** [N] writers on the root context, of which the first [k] have
    finished; [running] tells whether writer [k] is inside its body. *)
Definition shape (N k : nat) (running : bool) (s : state) : Prop :=
  length (acqs s) = N
  /\ (k <= N)%nat
  /\ (running = true -> (k < N)%nat)
  /\ (forall i a, acqs s !! i = Some a ->
        a_kind a = TW /\ a_ctx a = 0%nat /\ a_item a = 0%nat
        /\ a_manual a = None
        /\ a_phase a = (if (i <? k)%nat then Finished
                        else if (i =? k)%nat && running then Running
                        else Waiting)
        /\ a_step a = (if (i =? 0)%nat then None else Some (i <=? k)%nat))
  /\ items s !! 0%nat
     = Some (ItemW true ((if (k =? 0)%nat then [StepNext] else [])
                         ++ (StepResolve <$> seq (S k) (N - S k))))
  /\ (exists lt, ctxs s !! 0%nat
        = Some (mkContext lt (if (k <? N)%nat then [0%nat] else []))).

(** What is left of the serial schedule when [k] bodies are done and
    body [k] is running or not. *)
Definition rest (N k : nat) (running : bool) : list event :=
  if running
  then Finish k :: flat_map (fun i => [Start i; Finish i]) (seq (S k) (N - S k))
  else flat_map (fun i => [Start i; Finish i]) (seq k (N - k)).

(** Bodies run one at a time and in the order of arrival: whoever has
    left the waiting phase finds every earlier acquirer finished. *)
Definition fifo (s : state) : Prop :=
  forall i j ai aj, (i < j)%nat ->
    acqs s !! i = Some ai -> acqs s !! j = Some aj ->
    a_phase aj <> Waiting -> a_phase ai = Finished.

End Serial.

(** * Writers launched together on one key *)

Module SerialKeyed.
Import Keyed.

(** [N] calls of [lock(key)] on a new mux, before any reaction runs. *)
Definition launch (key : string) (N : nat) : list event :=
  replicate N (Lock (Some key) None).

(** The state those calls leave, for [N = S n]. *)
Definition launched (key : string) (n : nat) : state :=
  mkState
    [ItemG true; ItemW false (StepNext :: (StepResolve <$> seq 1 n))]
    [[0%nat]; [0%nat; 1%nat]]
    [(key, 1%nat)]
    [mkBarrier 0 1 key false]
    ((fun i => mkAcquirer TW [mkSlot (Some key) 1 1 (i =? 0)%nat] Pending
                 Lock.create None false) <$> seq 0 (S n)).

(** The serial schedule: the barrier reaction, then for each call in the
    order of arrival: its promise is fulfilled, the holder unlocks, the
    release reaction runs. *)
Definition schedule (N : nat) : list event :=
  Barrier 0 :: flat_map (fun i => [Ready i; Unlock i; Release i]) (seq 0 N).

(** [N] writers on the queue of [key], of which the first [k] are
    released; [fired] tells whether the barrier reaction has run. *)
Definition shape (key : string) (N k : nat) (fired : bool) (s : state)
    : Prop :=
  length (acqs s) = N
  /\ (0 < N)%nat /\ (k <= N)%nat
  /\ (fired = false -> k = 0%nat)
  /\ (forall i a, acqs s !! i = Some a ->
        a_kind a = TW
        /\ a_slots a = [mkSlot (Some key) 1 1 (i <=? k)%nat]
        /\ a_signal a = None
        /\ a_released a = (i <? k)%nat
        /\ (a_result a = Pending \/ a_result a = Fulfilled)
        /\ (a_result a = Pending -> Lock.resolved (a_lock a) = false)
        /\ ((i < k)%nat ->
            a_result a = Fulfilled /\ Lock.resolved (a_lock a) = true)
        /\ ((k < i)%nat \/ fired = false -> a_result a = Pending))
  /\ items s !! 0%nat = Some (ItemG true)
  /\ items s !! 1%nat
     = Some (ItemW fired ((if (k =? 0)%nat then [StepNext] else [])
                          ++ (StepResolve <$> seq (S k) (N - S k))))
  /\ queues s !! 1%nat
     = Some (if fired then (if (k <? N)%nat then [1%nat] else [])
             else [0%nat; 1%nat])
  /\ barriers s = [mkBarrier 0 1 key fired].

(** A call is fulfilled only when every earlier call has been unlocked
    and released. *)
Definition fifo (s : state) : Prop :=
  forall i j ai aj, (i < j)%nat ->
    acqs s !! i = Some ai -> acqs s !! j = Some aj ->
    a_result aj = Fulfilled ->
    Lock.resolved (a_lock ai) = true /\ a_released ai = true.

End SerialKeyed.

(** * Scenarios used as concrete inputs *)

(** A reader is running its body. *)
Definition reader_running : Instance.state :=
  default Instance.init
    (Instance.run [Instance.Construct; Instance.Call TR; Instance.Start 0%nat]
       Instance.init).

(** Two writers on one key, the second one with a signal that fires while
    it waits. *)
Definition keyed_abort_events : list Keyed.event :=
  [Keyed.Lock (Some "k"%string) None;
   Keyed.Lock (Some "k"%string) (Some (Keyed.mkSignal false "stop"%string));
   Keyed.Abort 1%nat].

Definition keyed_abort_state : Keyed.state :=
  default Keyed.init (Keyed.run keyed_abort_events Keyed.init).

(** One writer was called on a constructed owner. *)
Definition writer_called : Instance.state :=
  default Instance.init
    (Instance.run [Instance.Construct; Instance.Call TW] Instance.init).

(** The writer runs its body and calls a writer of the same owner. *)
Definition nested_writer_events : list Instance.event :=
  [Instance.Construct; Instance.Call TW; Instance.Start 0%nat;
   Instance.Call TW].

(** An unkeyed lock was taken and its lock object is held. *)
Definition unkeyed_held : Keyed.state :=
  default Keyed.init
    (Keyed.run [Keyed.Lock None None; Keyed.Ready 0%nat] Keyed.init).

(** A keyed lock is taken and released, its per-key queue is deleted, and
    then an unkeyed lock is requested. *)
Definition keyed_then_unkeyed_events : list Keyed.event :=
  [Keyed.Lock (Some "k"%string) None; Keyed.Barrier 0%nat; Keyed.Ready 0%nat;
   Keyed.Unlock 0%nat; Keyed.Release 0%nat; Keyed.Lock None None].

Definition keyed_then_unkeyed : Keyed.state :=
  default Keyed.init (Keyed.run keyed_then_unkeyed_events Keyed.init).

(** Events that are not new calls of [lock] or [rLock]. *)
Definition no_call (e : Keyed.event) : bool :=
  match e with
  | Keyed.Lock _ _ | Keyed.RLock _ _ => false
  | _ => true
  end.

(** Two writers queue on one key, the second with a signal; then the first
    one is acquired, unlocked and released. *)
Definition two_writers_one_key : list Keyed.event :=
  [Keyed.Lock (Some "k"%string) None;
   Keyed.Lock (Some "k"%string) (Some (Keyed.mkSignal false "stop"%string))].

Definition first_writer_done : list Keyed.event :=
  [Keyed.Barrier 0%nat; Keyed.Ready 0%nat; Keyed.Unlock 0%nat;
   Keyed.Release 0%nat].

(** Scenario S3 on one owner, up to the finish of the first two writers,
    and scenario S6 on a keyed mux, up to the release of the first barrier. *)
Definition mixed_events : list Instance.event :=
  [Instance.Construct; Instance.Call TW; Instance.Call TW; Instance.Call TR;
   Instance.Call TR; Instance.Call TW; Instance.Call TR;
   Instance.Start 0%nat; Instance.Finish 0%nat;
   Instance.Start 1%nat; Instance.Finish 1%nat].

Definition barrier_events : list Keyed.event :=
  [Keyed.Lock None None; Keyed.Lock (Some "key1"%string) None;
   Keyed.Lock (Some "key2"%string) None; Keyed.Lock None None;
   Keyed.Lock (Some "key1"%string) None;
   Keyed.Ready 0%nat; Keyed.Unlock 0%nat; Keyed.Release 0%nat].

(** Scenario S1 up to the start of the second writer's body. *)
Definition three_writers_partial : list Instance.event :=
  [Instance.Start 0%nat; Instance.Finish 0%nat; Instance.Start 1%nat].

(** * Histories of [singleton] *)

Module SingletonRuns.
Import Singleton.

(** What happens to the cache over time: a call [singleton(key, fn)], or
    the promise awaited by wrapper [p] settling. *)
Inductive op : Type :=
  | Call (key : string) (fn : behaviour)
  | Settle (p : nat) (r : nat + string).

Definition step (o : op) (s : state) : option state :=
  match o with
  | Call key fn => Some (singleton key fn s).1
  | Settle p r => settle p r s
  end.

Fixpoint run (ops : list op) (s : state) : option state :=
  match ops with
  | [] => Some s
  | o :: rest => step o s ≫= run rest
  end.

(** [o] is a failure for [key] in state [s]: a call whose function runs
    and throws, or the rejection of the promise a pending wrapper of [key]
    awaits. *)
Definition fails (key : string) (o : op) (s : state) : bool :=
  match o with
  | Call k (Throws _) =>
      bool_decide (k = key) && bool_decide (cache s !! k = None)
  | Settle p (inr _) =>
      match wrappers s !! p with
      | Some w => bool_decide (w_key w = key) && negb (w_settled w)
      | None => false
      end
  | _ => false
  end.

(** The number of failures for [key] along a history from [s]. *)
Fixpoint failures (key : string) (ops : list op) (s : state) : nat :=
  match ops with
  | [] => 0
  | o :: rest =>
      ((if fails key o s then 1 else 0)
       + match step o s with
         | Some s' => failures key rest s'
         | None => 0
         end)%nat
  end.

(** 1 when [key] has a cache entry, else 0. *)
Definition has_entry (key : string) (s : state) : nat :=
  match cache s !! key with Some _ => 1%nat | None => 0%nat end.

(** The entry of a key is the promise of wrapper [p] exactly when wrapper
    [p] belongs to the key and has not settled. *)
Definition promises_match (s : state) : Prop :=
  forall k p,
    cache s !! k = Some (Promise p)
    <-> wrappers s !! p = Some (mkWrapper k false).

End SingletonRuns.

(** * Well-formed owners *)

Module InstanceWf.
Import Instance.

(** What every state of an owner satisfies: the property, once defined,
    refers to a context of the store; contexts are tagged [null], ["W"] or
    ["R"]; the items are writer and reader items; every acquirer is an
    exclusive or a shared one and remembers a context of the store. *)
Definition well_formed (s : state) : Prop :=
  match owner s with
  | Some c => (c < length (ctxs s))%nat
  | None => True
  end
  /\ Forall (fun cx => lockType cx <> Some TG) (ctxs s)
  /\ Forall (fun it => item_tag it <> TG) (items s)
  /\ Forall (fun a => a_kind a <> TG /\ (a_ctx a < length (ctxs s))%nat)
       (acqs s).

(** What a call of a decorated method of kind [k] answers on an owner
    whose current context is tagged [lt]. *)
Definition expected_reply (k : tag) (lt : option tag) (a : nat) : reply :=
  match k, lt with
  | TW, Some TR => Threw LockEscalationError
  | _, _ => Queued a
  end.

End InstanceWf.

(** * Readers launched together on one owner, and a writer behind them *)

Module Cohort.
Import Instance.

(** The owner is constructed, [N] calls of one shared method are made and
    then one call of an exclusive method, before any reaction runs. *)
Definition launch (N : nat) : list event :=
  Construct :: replicate N (Call TR) ++ [Call TW].

(** A reader of the cohort and the writer behind it, in phase [p]. *)
Definition reader_at (p : phase) : acquirer :=
  mkAcquirer TR 0 0 None p None.
Definition writer_at (p : phase) : acquirer :=
  mkAcquirer TW 0 1 None p None.

(** The state [j] calls of the shared method leave on a constructed owner,
    for [j > 0]. *)
Definition readers_called (j : nat) : state :=
  mkState [ItemR true (Z.of_nat j)] [mkContext None [0%nat]] (Some 0%nat)
    (reader_at <$> replicate j Waiting).

(** How many of the phases are [Finished]. *)
Fixpoint finished (ps : list phase) : nat :=
  match ps with
  | [] => 0
  | Finished :: rest => S (finished rest)
  | _ :: rest => finished rest
  end.

(** [N] readers with phases [ps] share the reader item, whose counter is
    the number of readers not finished; the writer item behind it is
    started when the counter reaches zero. *)
Definition shape (N : nat) (s : state) : Prop :=
  exists (ps : list phase) (pw : phase) (lt : option tag)
         (cs : list context),
    length ps = N
    /\ acqs s = (reader_at <$> ps) ++ [writer_at pw]
    /\ items s
       = [ItemR true (Z.of_nat N - Z.of_nat (finished ps));
          ItemW (bool_decide (finished ps = N))
            (match pw with Finished => [] | _ => [StepNext] end)]
    /\ ctxs s
       = mkContext lt
           (if (finished ps <? N)%nat then [0%nat; 1%nat]
            else match pw with Finished => [] | _ => [1%nat] end) :: cs
    /\ (pw <> Waiting -> finished ps = N).

End Cohort.

(** * Unkeyed readers launched together on a mux, and a writer behind them *)

Module GlobalCohort.
Import Keyed.

(** [N] calls of [rLock()] and then one call of [lock()] on a new mux,
    before any reaction runs. *)
Definition launch (N : nat) : list event :=
  replicate N (RLock None None) ++ [Lock None None].

(** What changes in a call over time: the promise it returned, its lock
    object, and whether its release reaction has run. *)
Record hold : Type := mkHold {
  h_result : outcome;
  h_lock : Lock.t;
  h_released : bool;
}.

Definition fresh : hold := mkHold Pending Lock.create false.

(** A reader of the cohort and the writer behind it. *)
Definition reader_of (h : hold) : acquirer :=
  mkAcquirer TR [mkSlot None 0 0 true] (h_result h) (h_lock h) None
    (h_released h).
Definition writer_of (h : hold) : acquirer :=
  mkAcquirer TW [mkSlot None 0 1 true] (h_result h) (h_lock h) None
    (h_released h).

(** The state [j] calls of [rLock()] leave on a new mux, for [j > 0]. *)
Definition readers_called (j : nat) : state :=
  mkState [ItemR true (Z.of_nat j)] [[0%nat]] [] []
    (reader_of <$> replicate j fresh).

(** How many of the calls are released. *)
Fixpoint released (hs : list hold) : nat :=
  match hs with
  | [] => 0
  | h :: rest => ((if h_released h then 1 else 0) + released rest)%nat
  end.

(** A call is released only after its lock object was unlocked, and its
    lock object is unlocked only after the call was fulfilled. *)
Definition in_order (h : hold) : Prop :=
  (h_released h = true -> Lock.resolved (h_lock h) = true)
  /\ (Lock.resolved (h_lock h) = true -> h_result h = Fulfilled)
  /\ (h_result h = Pending \/ h_result h = Fulfilled).

(** [N] readers share the reader item, whose counter is the number of
    readers not released; the writer item behind it is started when the
    counter reaches zero. *)
Definition shape (N : nat) (s : state) : Prop :=
  exists (hs : list hold) (hw : hold),
    length hs = N
    /\ Forall in_order hs /\ in_order hw
    /\ acqs s = (reader_of <$> hs) ++ [writer_of hw]
    /\ items s
       = [ItemR true (Z.of_nat N - Z.of_nat (released hs));
          ItemW (bool_decide (released hs = N))
            (if h_released hw then [] else [StepNext])]
    /\ queues s
       = [if (released hs <? N)%nat then [0%nat; 1%nat]
          else if h_released hw then [] else [1%nat]]
    /\ partialQueue s = []
    /\ barriers s = []
    /\ (h_result hw = Fulfilled -> released hs = N).

End GlobalCohort.

(** * The map of per-key queues *)

Module KeyedMap.
Import Keyed.

(** The store of queue arrays holds the global queue, and every entry of
    the map refers to a queue array other than the global queue. *)
Definition map_ok (s : state) : Prop :=
  (1 <= length (queues s))%nat
  /\ Forall (fun e => (1 <= e.2 < length (queues s))%nat) (partialQueue s).

(** The entry a slot was taken on. *)
Definition slot_entry (sl : slot) : option string * nat :=
  (s_key sl, s_queue sl).

(** A call whose signal, if any, is not aborted. *)
Definition live (sig : option signal) : Prop :=
  match sig with
  | Some g => aborted g = false
  | None => True
  end.

(** What arriving on the entry [(key, q)] leaves alone. *)
Definition fans (q : nat) (s s1 : state) : Prop :=
  (forall q', q' <> q -> queues s1 !! q' = queues s !! q')
  /\ partialQueue s1 = partialQueue s
  /\ barriers s1 = barriers s.

End KeyedMap.

(** * A mux used with keys only *)

Module KeyedOnly.
Import Keyed.

(** Every call names a key. *)
Definition keyed_only (e : event) : bool :=
  match e with
  | Lock None _ | RLock None _ => false
  | _ => true
  end.

(** Started barrier items stay as they are. *)
Definition keeps (s s1 : state) : Prop :=
  forall g, items s !! g = Some (ItemG true) ->
            items s1 !! g = Some (ItemG true).

(** No slot of the call was taken on the global queue. *)
Definition slots_free (a : acquirer) : Prop :=
  Forall (fun sl => s_queue sl <> globalQueue) (a_slots a).

(** The global queue holds at most started barrier items at its tail, and
    no reaction is closed over the global queue. *)
Definition unkeyed_free (s : state) : Prop :=
  (forall g, last (default [] (queues s !! globalQueue)) = Some g ->
             items s !! g = Some (ItemG true))
  /\ Forall (fun b => b_queue b <> globalQueue) (barriers s)
  /\ Forall slots_free (acqs s).

(** The first call on a key, the barrier reaction it registers, and the
    reaction that fulfils it. *)
Definition first_on_key (exclusive : bool) (key : string) (s : state)
    : list event :=
  [if exclusive then Lock (Some key) None else RLock (Some key) None;
   Barrier (length (barriers s)); Ready (length (acqs s))].

End KeyedOnly.

(** * A writer that arrives late on a key *)

(** Two writers call [lock] on one key; the first one is granted,
    unlocks and is released, and the second one is granted. *)
Definition two_writers_one_key_plain : list Keyed.event :=
  SerialKeyed.launch "k" 2.

Definition second_writer_holds : list Keyed.event :=
  [Keyed.Barrier 0%nat; Keyed.Ready 0%nat; Keyed.Unlock 0%nat;
   Keyed.Release 0%nat; Keyed.Ready 1%nat].

Module LateArrival.
Import Keyed.

(** The queue array numbered 1 exists, and while it is not empty the map
    holds it under [key] and holds nothing else. *)
Definition mapped (key : string) (s : state) : Prop :=
  is_Some (queues s !! 1%nat)
  /\ (queues s !! 1%nat <> Some [] -> partialQueue s = [(key, 1%nat)]).

(** A call of [lock(key)] and the reaction of its ready promise. *)
Definition late_call (key : string) (s : state) : list event :=
  [Lock (Some key) None; Ready (length (acqs s))].

End LateArrival.

(** * Who waits on a writer item *)

Module Admission.

(** An acquirer is taken here as the item it arrived on and whether its
    step promise is still unsettled.  [waiters i ks base] lists the
    acquirers with an unsettled step promise on item [i], in the order of
    arrival; the first element of [ks] is acquirer [base]. *)
Fixpoint waiters (i : nat) (ks : list (nat * bool)) (base : nat) : list nat :=
  match ks with
  | [] => []
  | k :: rest =>
      (if (k.1 =? i)%nat && k.2 then [base] else [])
      ++ waiters i rest (S base)
  end.

Definition steps_of (it : item) : list step :=
  match it with
  | ItemW _ st => st
  | _ => []
  end.

(** The steps of every item are, after at most one [next] closure, the
    resolvers of the acquirers that wait on it, in the order of arrival. *)
Definition steps_match (its : list item) (ks : list (nat * bool)) : Prop :=
  forall i it, its !! i = Some it ->
    exists pre, (pre = [] \/ pre = [StepNext])
      /\ steps_of it = pre ++ (StepResolve <$> waiters i ks 0).

(** Every acquirer arrived on an item of the store. *)
Definition in_store (its : list item) (ks : list (nat * bool)) : Prop :=
  Forall (fun k : nat * bool => (k.1 < length its)%nat) ks.

(** On every item, an acquirer whose step promise is settled finds the
    step promise of every earlier acquirer settled. *)
Definition in_order (ks : list (nat * bool)) : Prop :=
  forall a b (ka kb : nat * bool), (a < b)%nat ->
    ks !! a = Some ka -> ks !! b = Some kb ->
    ka.1 = kb.1 -> kb.2 = false -> ka.2 = false.

Definition ok (its : list item) (ks : list (nat * bool)) : Prop :=
  steps_match its ks /\ in_store its ks /\ in_order ks.

(** The step promise of acquirer [a] is settled. *)
Definition wake (a : nat) (ks : list (nat * bool)) : list (nat * bool) :=
  alter (fun k : nat * bool => (k.1, false)) a ks.

End Admission.

(** * Admission on an owner *)

Module InstanceAdmission.
Import Instance Admission.

(** The step promise of the acquirer is unsettled. *)
Definition waiting (x : acquirer) : bool :=
  match a_step x with
  | Some false => true
  | _ => false
  end.

Definition keys (s : state) : list (nat * bool) :=
  (fun x => (a_item x, waiting x)) <$> acqs s.

(** The steps of the items follow the waiters, and an acquirer that left
    the waiting phase has its step promise settled. *)
Definition admitted_ok (s : state) : Prop :=
  ok (items s) (keys s)
  /\ Forall (fun x => a_phase x <> Waiting -> waiting x = false) (acqs s).

End InstanceAdmission.

(** * Admission on a mux used with keys *)

Module KeyedAdmission.
Import Keyed Admission.

(** The item a call with one slot arrived on, and whether the step
    promise of that slot is unsettled. *)
Definition key_of (x : acquirer) : nat * bool :=
  match a_slots x with
  | [sl] => (s_item sl, negb (s_step sl))
  | _ => (0%nat, false)
  end.

Definition keys (s : state) : list (nat * bool) := key_of <$> acqs s.

(** A fulfilled call has the step promises of all its slots settled. *)
Definition granted_settled (x : acquirer) : Prop :=
  a_result x = Fulfilled -> forallb s_step (a_slots x) = true.

Definition admitted_ok (s : state) : Prop :=
  ok (items s) (keys s) /\ Forall granted_settled (acqs s).

End KeyedAdmission.

(** * Keyed calls behind an unkeyed holder *)

Module GlobalHold.
Import Keyed.

(** Keyed calls and reactions other than the release reaction of the
    first call. *)
Definition quiet (e : event) : bool :=
  match e with
  | Lock None _ | RLock None _ => false
  | Release 0 => false
  | _ => true
  end.

(** The first call of a mux. *)
Definition first_call (exclusive : bool) : event :=
  if exclusive then Lock None None else RLock None None.

(** The item of the first call heads the global queue; nothing else is
    started: every other item is not ready, the per-key queues are not
    empty and hold such items only, and every later call has a slot on
    such an item and is not fulfilled. *)
Definition waits_behind (s : state) : Prop :=
  (exists gq, queues s !! globalQueue = Some (0%nat :: gq))
  /\ (forall q l, (1 <= q)%nat -> queues s !! q = Some l ->
        l <> [] /\ Forall (fun i => (1 <= i)%nat) l)
  /\ (exists it0, items s !! 0%nat = Some it0 /\ item_tag it0 <> TG)
  /\ (forall i it, (1 <= i)%nat -> items s !! i = Some it ->
        item_ready it = false)
  /\ Forall (fun b => (1 <= b_item b)%nat) (barriers s)
  /\ (forall n x, (1 <= n)%nat -> acqs s !! n = Some x ->
        a_result x <> Fulfilled
        /\ exists sl, sl ∈ a_slots x /\ (1 <= s_item sl)%nat).

End GlobalHold.

(** * Later calls behind the first holder of a key *)

Module KeyHold.
Import Keyed.

(** Everything but the release reaction of the first call. *)
Definition quiet (e : event) : bool :=
  match e with
  | Release 0 => false
  | _ => true
  end.

(** The queue array of the first key. *)
Definition queue1 (s : state) : list nat := default [] (queues s !! 1%nat).

(** An item that waits in the queue of the first key. *)
Definition blocked (s : state) (i : nat) : Prop :=
  i <> 0%nat /\ i ∈ queue1 s.

(** A slot that cannot be ready: it waits for its step on the first
    writer item, or it was taken on an item behind that one. *)
Definition slot_blocked (s : state) (sl : slot) : Prop :=
  (s_item sl = 1%nat /\ s_step sl = false)
  \/ (s_item sl <> 1%nat /\ blocked s (s_item sl)).

(** The queue side of a mux whose first call was [lock(k)] and whose
    release reaction has not run: the global queue holds the started
    barrier item; the queue of [k] holds the first writer item, which has
    steps, and behind it items that are not ready and occur in no other
    queue; [k] stays in the map. *)
Record core (k : string) (s : state) : Prop := mkCore {
  c_global : queues s !! 0%nat = Some [0%nat];
  c_queue1 : exists f rest,
    barriers s !! 0%nat = Some (mkBarrier 0 1 k f)
    /\ queues s !! 1%nat
       = Some ((if f then [] else [0%nat]) ++ 1%nat :: rest);
  c_others : forall q l i, (2 <= q)%nat -> queues s !! q = Some l ->
    i ∈ l -> i <> 0%nat -> i ∉ queue1 s;
  c_bound : forall q l i, queues s !! q = Some l -> i ∈ l ->
    (i < length (items s))%nat;
  c_item0 : items s !! 0%nat = Some (ItemG true);
  c_item1 : exists r st, items s !! 1%nat = Some (ItemW r (StepNext :: st));
  c_unready : forall i it, blocked s i -> i <> 1%nat ->
    items s !! i = Some it -> item_ready it = false;
  c_map : Forall (fun e : string * nat =>
                    (e.1 = k <-> e.2 = 1%nat)
                    /\ (1 <= e.2 < length (queues s))%nat)
            (partialQueue s);
  c_mapped : map_get k (partialQueue s) = Some 1%nat;
  c_barriers : forall n b, (1 <= n)%nat -> barriers s !! n = Some b ->
    (2 <= b_queue b)%nat /\ b_key b <> k;
}.

(** What holds of every slot. *)
Definition slot_inv (k : string) (s : state) (sl : slot) : Prop :=
  (s_item sl < length (items s))%nat
  /\ (1 <= s_queue sl)%nat
  /\ (s_key sl = Some k <-> s_queue sl = 1%nat)
  /\ (s_queue sl <> 1%nat ->
      s_item sl = 0%nat \/ s_item sl ∉ queue1 s).

(** What holds of the calls: the slots of later calls on the queue of [k]
    cannot be ready, and such calls are not fulfilled. *)
Definition calls_held (k : string) (s : state) : Prop :=
  (forall n x sl, acqs s !! n = Some x -> sl ∈ a_slots x -> slot_inv k s sl)
  /\ (forall n x sl, (1 <= n)%nat -> acqs s !! n = Some x ->
        sl ∈ a_slots x -> s_queue sl = 1%nat ->
        slot_blocked s sl /\ a_result x <> Fulfilled)
  /\ (forall x sl, acqs s !! 0%nat = Some x -> sl ∈ a_slots x ->
        s_item sl = 1%nat).

Definition held (k : string) (s : state) : Prop :=
  core k s /\ calls_held k s.

(** From [s] to [s1] the item store grew, and the items that wait in the
    queue of [k] are the same ones and fresh ones. *)
Definition grows (s s1 : state) : Prop :=
  (length (items s) <= length (items s1))%nat
  /\ (forall i, i <> 0%nat -> (i < length (items s))%nat ->
        (i ∈ queue1 s1 <-> i ∈ queue1 s)).

(** An entry that [#getQueueEntries] yields while [k] is mapped: it has a
    key, and its queue is the one of [k] for [k] only. *)
Definition entry_ok (k : string) (s : state) (e : option string * nat)
    : Prop :=
  (exists k', e.1 = Some k' /\ (k' = k <-> e.2 = 1%nat))
  /\ (1 <= e.2 < length (queues s))%nat.

(** A slot as the loop of [lock]/[rLock] leaves it. *)
Definition slot_held (k : string) (s : state) (sl : slot) : Prop :=
  slot_inv k s sl /\ (s_queue sl = 1%nat -> slot_blocked s sl).

(** A call that asks for [k] or for every key, with a signal that is not
    aborted. *)
Definition covers (k : string) (e : event) : Prop :=
  match e with
  | Lock key sig | RLock key sig =>
      (key = Some k \/ key = None) /\ KeyedMap.live sig
  | _ => False
  end.

(** The call numbered [n] went through the loop on the entry of [k]. *)
Definition on_key (k : string) (n : nat) (s : state) : Prop :=
  exists x sl, acqs s !! n = Some x /\ sl ∈ a_slots x /\ s_key sl = Some k.

End KeyHold.

(** * What stays resolved on a mux *)

Module KeyedReady.
Import Keyed.

(** Items keep their place in the store, and a resolved [ready] promise
    stays resolved. *)
Definition items_kept (its its' : list item) : Prop :=
  forall i it, its !! i = Some it ->
    exists it', its' !! i = Some it'
      /\ (item_ready it = true -> item_ready it' = true).

(** A slot keeps its item, and a settled step promise stays settled. *)
Definition slot_kept (sl sl' : slot) : Prop :=
  s_item sl' = s_item sl /\ (s_step sl = true -> s_step sl' = true).

Definition kept (s s' : state) : Prop :=
  items_kept (items s) (items s')
  /\ forall n a, acqs s !! n = Some a ->
       exists a', acqs s' !! n = Some a'
         /\ Forall2 slot_kept (a_slots a) (a_slots a').

(** Every fulfilled call has all its ready promises settled. *)
Definition granted_ready (s : state) : Prop :=
  Forall (fun a => a_result a = Fulfilled -> acq_ready s a = true) (acqs s).

End KeyedReady.

(** * What the release bookkeeping does *)

Module InstanceEffect.
Import Instance.

(** A fulfilled [manualLock] is past its waiting phase. *)
Definition granted_started (a : acquirer) : Prop :=
  forall m, a_manual a = Some m -> m_result m = Fulfilled ->
    a_phase a <> Waiting.

(** The acquirer is an exclusive or a shared one and its item is of its
    kind. *)
Definition item_of_kind (its : list item) (a : acquirer) : Prop :=
  a_kind a <> TG /\ tag_at its (a_item a) = Some (a_kind a).

(** [context.queue.shift()] on context [c]. *)
Definition shifted (c : nat) (s s' : state) : Prop :=
  queue <$> ctxs s' !! c = (fun cx => drop 1 (queue cx)) <$> ctxs s !! c.

(** [next] of a shared acquisition: the count of its item went down by
    one, and the queue lost its head when the count reached zero. *)
Definition reader_released (a : acquirer) (s s' : state) : Prop :=
  exists r c r',
    items s !! a_item a = Some (ItemR r c)
    /\ items s' !! a_item a = Some (ItemR r' (c - 1))
    /\ (c - 1 = 0 -> shifted (a_ctx a) s s').

(** [next] of an exclusive acquisition: the steps of its item were
    consumed up to and including the first resolver, whose acquirer has
    its step promise settled; when no resolver was left the queue lost its
    head. *)
Definition writer_released (a : acquirer) (s s' : state) : Prop :=
  exists r steps r',
    items s !! a_item a = Some (ItemW r steps)
    /\ items s' !! a_item a = Some (ItemW r' (pop_step steps).1)
    /\ match (pop_step steps).2 with
       | Some w => forall x, acqs s' !! w = Some x -> a_step x = Some true
       | None => shifted (a_ctx a) s s'
       end.

Definition released (a : acquirer) (s s' : state) : Prop :=
  match a_kind a with
  | TW => writer_released a s s'
  | _ => reader_released a s s'
  end.

End InstanceEffect.

Module KeyedEffect.
Import Keyed.

(** The tag of the items a call of kind [k] takes its slots on. *)
Definition kind_tag (k : tag) : tag :=
  match k with TW => TW | _ => TR end.

(** The slot was taken on an item of the kind of the call. *)
Definition slot_of_kind (its : list item) (k : tag) (sl : slot) : Prop :=
  tag_at its (s_item sl) = Some (kind_tag k).

(** The slots were taken on pairwise different items and queues. *)
Definition apart (sls : list slot) : Prop :=
  NoDup (s_item <$> sls) /\ NoDup (s_queue <$> sls).

(** [queue.shift()] on the queue array [q]. *)
Definition shifted (q : nat) (s s' : state) : Prop :=
  queues s' !! q = drop 1 <$> queues s !! q.

(** [next] of one turn of the loop of [rLock]. *)
Definition reader_released (sl : slot) (s s' : state) : Prop :=
  exists r c r',
    items s !! s_item sl = Some (ItemR r c)
    /\ items s' !! s_item sl = Some (ItemR r' (c - 1))
    /\ (c - 1 = 0 -> shifted (s_queue sl) s s').

(** [next] of one turn of the loop of [lock]. *)
Definition writer_released (sl : slot) (s s' : state) : Prop :=
  exists r steps r',
    items s !! s_item sl = Some (ItemW r steps)
    /\ items s' !! s_item sl = Some (ItemW r' (pop_step steps).1)
    /\ match (pop_step steps).2 with
       | Some w =>
           forall x sl', acqs s' !! w = Some x -> sl' ∈ a_slots x ->
             s_item sl' = s_item sl -> s_step sl' = true
       | None => shifted (s_queue sl) s s'
       end.

Definition slot_released (k : tag) (sl : slot) (s s' : state) : Prop :=
  match k with
  | TW => writer_released sl s s'
  | _ => reader_released sl s s'
  end.

(** [nextFuncList.forEach(next => next())] did its work on every slot. *)
Definition released (k : tag) (sls : list slot) (s s' : state) : Prop :=
  Forall (fun sl => slot_released k sl s s') sls.

(** Two items that differ at most in their [ready] promise. *)
Definition alike (it it' : item) : Prop :=
  match it, it' with
  | ItemW _ st, ItemW _ st' => st = st'
  | ItemR _ c, ItemR _ c' => c = c'
  | ItemG _, ItemG _ => True
  | _, _ => False
  end.

(** From [s] to [s'] only the item [i] and the queue [q] were worked
    on. *)
Definition off (i q : nat) (s s' : state) : Prop :=
  (forall j, j <> i ->
     match items s !! j, items s' !! j with
     | Some it, Some it' => alike it it'
     | None, None => True
     | _, _ => False
     end)
  /\ (forall q', q' <> q -> queues s' !! q' = queues s !! q').

End KeyedEffect.

(** * Slots of one call are on different items and queues *)

Module KeyedApart.
Import Keyed KeyedEffect.

(** Every queue entry refers to an item of the store. *)
Definition bounded (s : state) : Prop :=
  forall q l i, queues s !! q = Some l -> i ∈ l ->
    (i < length (items s))%nat.

(** Only barrier items occur in two queue arrays. *)
Definition shared_barriers (s : state) : Prop :=
  forall q1 q2 l1 l2 i, q1 <> q2 ->
    queues s !! q1 = Some l1 -> queues s !! q2 = Some l2 ->
    i ∈ l1 -> i ∈ l2 -> tag_at (items s) i = Some TG.

(** The map refers to pairwise different queue arrays. *)
Definition queues_apart (s : state) : Prop :=
  NoDup (partialQueue s).*2 /\ bounded s /\ shared_barriers s.

(** Every call took its slots on items of its kind, on pairwise
    different items and queues. *)
Definition slots_ok (s : state) : Prop :=
  Forall (fun a => apart (a_slots a)
                   /\ Forall (slot_of_kind (items s) (a_kind a)) (a_slots a))
    (acqs s).

(** The items of [s] are in [s'] with the same tags. *)
Definition tags_kept (s s' : state) : Prop :=
  forall j, is_Some (tag_at (items s) j) ->
    tag_at (items s') j = tag_at (items s) j.

(** The store of [s'] has the items of [s], with the same tags, and no
    others. *)
Definition same_tags (s s' : state) : Prop :=
  length (items s') = length (items s)
  /\ forall j, tag_at (items s') j = tag_at (items s) j.

(** The slot is on an item of its queue. *)
Definition slot_queued (s : state) (sl : slot) : Prop :=
  exists l, queues s !! s_queue sl = Some l /\ s_item sl ∈ l.

(** Nothing left a queue from [s] to [s']. *)
Definition members_kept (s s' : state) : Prop :=
  forall q l i, queues s !! q = Some l -> i ∈ l ->
    exists l', queues s' !! q = Some l' /\ i ∈ l'.

End KeyedApart.

(** * Properties *)

(** ** The lock object *)

Lemma Lock_unlock_resolved (l : Lock.t) : Lock.resolved (Lock.unlock l) = true.
Proof. reflexivity. Qed.

Lemma Lock_dispose_after_unlock (l : Lock.t) :
  Lock.dispose (Lock.unlock l) = Lock.unlock l.
Proof. reflexivity. Qed.

Lemma Lock_dispose_resolved (l : Lock.t) :
  Lock.resolved (Lock.dispose l) = true \/ Lock.unlockCalled l = true.
Proof. unfold Lock.dispose. destruct (Lock.unlockCalled l); auto. Qed.

(** ** Escalation in the instance form *)

(** C2: an exclusive acquisition made while the owner's current context has
    [lockType = "R"] is rejected with [LockEscalationError] and leaves the
    whole state (items, contexts and their queues, acquirers) as it was,
    through the decorated method and through [manualLock] alike. *)
Theorem escalation_leaves_queue_untouched
    (s : Instance.state) (c : nat) (cx : Instance.context) :
  Instance.owner s = Some c ->
  Instance.ctxs s !! c = Some cx ->
  Instance.lockType cx = Some TR ->
  (forall m, Instance.classMethod TW m s = (s, Instance.Threw LockEscalationError))
  /\ (forall r, Instance.manualLock TW (Some (Instance.mkSignal false r)) s
                = (s, Instance.Threw LockEscalationError))
  /\ Instance.manualLock TW None s = (s, Instance.Threw LockEscalationError)
  /\ Instance.fire (Instance.Call TW) s = Some s.
Proof.
  intros Ho Hc Hl.
  assert (Hm : forall m, Instance.classMethod TW m s
                         = (s, Instance.Threw LockEscalationError)).
  { intros m. unfold Instance.classMethod. rewrite Ho. simpl. rewrite Hc.
    simpl. rewrite Hl. reflexivity. }
  assert (Hi : Instance.initializeInstance s = s).
  { unfold Instance.initializeInstance. rewrite Ho. reflexivity. }
  repeat split.
  - exact Hm.
  - intros r. unfold Instance.manualLock. rewrite Hi. apply Hm.
  - unfold Instance.manualLock. rewrite Hi. apply Hm.
  - simpl. rewrite Hm. reflexivity.
Qed.

Lemma escalation_leaves_queue_untouched_witness :
  Instance.fire (Instance.Call TW) reader_running = Some reader_running.
Proof.
  apply (escalation_leaves_queue_untouched reader_running 1%nat
           (Instance.mkContext (Some TR) [])); reflexivity.
Defined.

(** ** The keyed form never escalates *)

Section KeyedAcquirers.
Import Keyed KeyedInv.

Lemma acqs_advance key q s : acqs (advance key q s) = acqs s.
Proof. unfold advance. repeat case_match; reflexivity. Qed.

Lemma acqs_getQueueEntries key s : acqs (getQueueEntries key s).1 = acqs s.
Proof. unfold getQueueEntries. repeat case_match; simplify_eq; reflexivity. Qed.

Lemma acqs_arrive_w a e s : acqs (arrive_w a e s).1 = acqs s.
Proof. unfold arrive_w. repeat case_match; simplify_eq; reflexivity. Qed.

Lemma acqs_arrive_r a e s : acqs (arrive_r a e s).1 = acqs s.
Proof. unfold arrive_r. repeat case_match; simplify_eq; reflexivity. Qed.

Lemma acqs_arrive_all k a es s : acqs (arrive_all k a es s).1 = acqs s.
Proof.
  revert s. induction es as [|e es IH]; intros s; simpl; [reflexivity|].
  destruct (match k with TW => arrive_w a e s | _ => arrive_r a e s end)
    as [s1 sl] eqn:E1.
  destruct (arrive_all k a es s1) as [s2 sls] eqn:E2. simpl.
  specialize (IH s1). rewrite E2 in IH. simpl in IH. rewrite IH.
  destruct k.
  - pose proof (acqs_arrive_w a e s) as H. rewrite E1 in H. exact H.
  - pose proof (acqs_arrive_r a e s) as H. rewrite E1 in H. exact H.
  - pose proof (acqs_arrive_r a e s) as H. rewrite E1 in H. exact H.
Qed.

Lemma same_call_refl a : same_call a a.
Proof. repeat split. Qed.

Lemma same_call_resolve_step i a : same_call a (resolve_step i a).
Proof. repeat split. Qed.

Lemma Forall2_same_call_refl l : Forall2 same_call l l.
Proof. induction l; constructor; auto using same_call_refl. Qed.

Lemma Forall2_same_call_alter i n l :
  Forall2 same_call l (alter (resolve_step i) n l).
Proof.
  revert n. induction l as [|a l IH]; intros [|n]; cbn; constructor;
    auto using same_call_refl, same_call_resolve_step, Forall2_same_call_refl.
Qed.

Lemma same_call_next_w sl s : Forall2 same_call (acqs s) (acqs (next_w sl s)).
Proof.
  unfold next_w. repeat case_match; simpl;
    rewrite ?acqs_advance; simpl;
    auto using Forall2_same_call_refl, Forall2_same_call_alter.
Qed.

Lemma same_call_next_r sl s : Forall2 same_call (acqs s) (acqs (next_r sl s)).
Proof.
  unfold next_r. repeat case_match; simpl;
    rewrite ?acqs_advance; simpl; auto using Forall2_same_call_refl.
Qed.

Lemma same_call_trans a b c : same_call a b -> same_call b c -> same_call a c.
Proof. unfold same_call. intuition congruence. Qed.

Lemma Forall2_same_call_trans l1 l2 l3 :
  Forall2 same_call l1 l2 -> Forall2 same_call l2 l3 -> Forall2 same_call l1 l3.
Proof.
  intros H. revert l3. induction H; intros l3 H3; inversion H3; subst;
    constructor; eauto using same_call_trans.
Qed.

Lemma same_call_next_all k sls s :
  Forall2 same_call (acqs s) (acqs (next_all k sls s)).
Proof.
  unfold next_all. revert s.
  induction sls as [|sl sls IH]; intros s; simpl.
  - apply Forall2_same_call_refl.
  - eapply Forall2_same_call_trans; [|apply IH].
    destruct k; auto using same_call_next_w, same_call_next_r.
Qed.

Lemma rejected_by_signal_same a b :
  same_call a b -> rejected_by_signal a -> rejected_by_signal b.
Proof.
  intros (Hr & Hs & _) H e He. rewrite <- Hr in He. rewrite <- Hs. auto.
Qed.

Lemma Forall_rejected_same l1 l2 :
  Forall2 same_call l1 l2 ->
  Forall rejected_by_signal l1 -> Forall rejected_by_signal l2.
Proof.
  induction 1; intros HF; inversion HF; subst; constructor;
    eauto using rejected_by_signal_same.
Qed.

Lemma run_invariant (P : state -> Prop) :
  (forall e s s', P s -> fire e s = Some s' -> P s') ->
  forall es s s', P s -> run es s = Some s' -> P s'.
Proof.
  intros Hstep es. induction es as [|e es IH]; intros s s' Hs Hrun; simpl in *.
  - congruence.
  - destruct (fire e s) as [s1|] eqn:E; simpl in Hrun; [|discriminate].
    eauto.
Qed.

End KeyedAcquirers.

Section KeyedNoEscalation.
Import Keyed KeyedInv.

Lemma acquire_throws k key sig s e :
  (acquire k key sig s).2 = inr e ->
  exists r, sig = Some (mkSignal true r) /\ e = AbortReason r.
Proof.
  unfold acquire. destruct sig as [[[] r]|]; simpl.
  - intros [= <-]. eauto.
  - repeat case_match; discriminate.
  - repeat case_match; discriminate.
Qed.

Lemma acquire_acqs k key sig s :
  acqs (acquire k key sig s).1 = acqs s
  \/ exists sls, acqs (acquire k key sig s).1
       = acqs s ++ [mkAcquirer k sls Pending Lock.create (reason <$> sig) false].
Proof.
  unfold acquire. destruct sig as [[[] r]|]; simpl; auto.
  - destruct (getQueueEntries key s) as [s1 es] eqn:E1.
    destruct (arrive_all k (length (acqs s)) es s1) as [s2 sls] eqn:E2.
    simpl. right. exists sls.
    pose proof (acqs_arrive_all k (length (acqs s)) es s1) as H2.
    pose proof (acqs_getQueueEntries key s) as H1.
    rewrite E2 in H2. rewrite E1 in H1. simpl in *. congruence.
  - destruct (getQueueEntries key s) as [s1 es] eqn:E1.
    destruct (arrive_all k (length (acqs s)) es s1) as [s2 sls] eqn:E2.
    simpl. right. exists sls.
    pose proof (acqs_arrive_all k (length (acqs s)) es s1) as H2.
    pose proof (acqs_getQueueEntries key s) as H1.
    rewrite E2 in H2. rewrite E1 in H1. simpl in *. congruence.
Qed.

Lemma rejected_by_signal_step e s s' :
  Forall rejected_by_signal (acqs s) -> fire e s = Some s' ->
  Forall rejected_by_signal (acqs s').
Proof.
  intros HF Hfire.
  assert (Hnew : forall k key sig,
             Forall rejected_by_signal (acqs (acquire k key sig s).1)).
  { intros k key sig. destruct (acquire_acqs k key sig s) as [->|[sls ->]];
      [exact HF|].
    apply Forall_app. split; [exact HF|]. constructor; [|constructor].
    intros e0 He0. discriminate. }
  destruct e as [key sig|key sig|n|n|n|n|n|n]; simpl in Hfire.
  - injection Hfire as <-. apply Hnew.
  - injection Hfire as <-. apply Hnew.
  - destruct (barriers s !! n) as [b|]; simpl in Hfire; [|discriminate].
    destruct (items s !! b_item b) as [it|]; simpl in Hfire; [|discriminate].
    case_match; [|discriminate]. injection Hfire as <-.
    rewrite acqs_advance. exact HF.
  - destruct (acqs s !! n) as [a|] eqn:Ea; simpl in Hfire; [|discriminate].
    repeat case_match; try discriminate. injection Hfire as <-. simpl.
    apply Forall_insert; [exact HF|]. intros e0 He0. discriminate.
  - destruct (acqs s !! n) as [a|] eqn:Ea; simpl in Hfire; [|discriminate].
    repeat case_match; try discriminate. injection Hfire as <-. simpl.
    apply Forall_insert; [exact HF|]. intros e0 He0. simpl in *.
    injection He0 as <-. eauto.
  - destruct (acqs s !! n) as [a|] eqn:Ea; simpl in Hfire; [|discriminate].
    repeat case_match; try discriminate. injection Hfire as <-. simpl.
    apply Forall_insert; [exact HF|].
    eapply (Forall_lookup_1 _ _ _ _ HF Ea).
  - destruct (acqs s !! n) as [a|] eqn:Ea; simpl in Hfire; [|discriminate].
    repeat case_match; try discriminate. injection Hfire as <-. simpl.
    apply Forall_insert; [exact HF|].
    eapply (Forall_lookup_1 _ _ _ _ HF Ea).
  - destruct (acqs s !! n) as [a|] eqn:Ea; simpl in Hfire; [|discriminate].
    case_match; [|discriminate]. injection Hfire as <-.
    eapply Forall_rejected_same; [apply same_call_next_all|]. simpl.
    apply Forall_insert; [exact HF|].
    eapply (Forall_lookup_1 _ _ _ _ HF Ea).
Qed.

End KeyedNoEscalation.

(** C10: the keyed mux keeps no holder kind; on every state reachable from
    [new Asyncmux()] no call of [lock] or [rLock] has been rejected with
    [LockEscalationError], a rejected call was rejected with the reason of
    its own abort signal, and a call that throws at once throws the reason
    of a signal that was aborted when the call was made. *)
Theorem keyed_never_escalates (es : list Keyed.event) (s : Keyed.state) :
  Keyed.run es Keyed.init = Some s ->
  Forall KeyedInv.rejected_by_signal (Keyed.acqs s)
  /\ (forall n a, Keyed.acqs s !! n = Some a ->
        Keyed.a_result a <> Rejected LockEscalationError)
  /\ (forall k key sig e, (Keyed.acquire k key sig s).2 = inr e ->
        e <> LockEscalationError
        /\ exists r, sig = Some (Keyed.mkSignal true r) /\ e = AbortReason r).
Proof.
  intros Hrun.
  assert (HF : Forall KeyedInv.rejected_by_signal (Keyed.acqs s)).
  { eapply (run_invariant
              (fun s => Forall KeyedInv.rejected_by_signal (Keyed.acqs s)));
      [| |exact Hrun].
    - intros e s1 s2. apply rejected_by_signal_step.
    - constructor. }
  split; [exact HF|]. split.
  - intros n a Ha Hr.
    destruct (Forall_lookup_1 _ _ _ _ HF Ha _ Hr) as (r & _ & Hr').
    discriminate.
  - intros k key sig e He.
    destruct (acquire_throws _ _ _ _ _ He) as (r & -> & ->).
    split; [discriminate|eauto].
Qed.

Lemma keyed_never_escalates_witness :
  Keyed.run keyed_abort_events Keyed.init = Some keyed_abort_state
  /\ (Keyed.a_result <$> Keyed.acqs keyed_abort_state
      = [Pending; Rejected (AbortReason "stop"%string)])
  /\ Forall KeyedInv.rejected_by_signal (Keyed.acqs keyed_abort_state).
Proof.
  split; [reflexivity|]. split; [reflexivity|].
  apply (keyed_never_escalates keyed_abort_events keyed_abort_state).
  reflexivity.
Defined.

(** ** [singleton] *)




(** ** Contexts of the instance form *)

Section InstanceContexts.
Import Instance.

Lemma owner_advance c s : owner (advance c s) = owner s.
Proof. unfold advance. repeat case_match; reflexivity. Qed.

Lemma ctxs_length_advance c s : length (ctxs (advance c s)) = length (ctxs s).
Proof.
  unfold advance. repeat case_match; simpl; apply length_alter.
Qed.

Lemma owner_next k i c s : owner (next k i c s) = owner s.
Proof.
  destruct k; simpl; unfold next_w, next_r; repeat case_match; simpl;
    rewrite ?owner_advance; reflexivity.
Qed.

Lemma owner_classMethod k m s : owner (classMethod k m s).1 = owner s.
Proof.
  unfold classMethod, arrive_w, arrive_r.
  repeat case_match; simplify_eq; reflexivity.
Qed.

Lemma initializeInstance_idem s :
  initializeInstance (initializeInstance s) = initializeInstance s.
Proof.
  unfold initializeInstance.
  destruct (owner s) eqn:E; simpl; rewrite ?E; reflexivity.
Qed.


End InstanceContexts.


(** C8 (as the code has it): [initializeInstance] gives the owner a context
    only when it has none and leaves an existing one alone; a call never
    changes which context the owner points to; the [then] callback of an
    acquisition points the owner to a fresh context tagged with the kind
    acquired, and the [finally] callback points it back to the context the
    acquisition captured when it was called. *)
Theorem context_swapped_while_body_runs (s : Instance.state) :
  (is_Some (Instance.owner s) -> Instance.initializeInstance s = s)
  /\ (Instance.owner s = None ->
      Instance.owner (Instance.initializeInstance s)
        = Some (length (Instance.ctxs s))
      /\ Instance.ctxs (Instance.initializeInstance s)
         = Instance.ctxs s ++ [Instance.new_context None])
  /\ (forall k m, Instance.owner (Instance.classMethod k m s).1
                  = Instance.owner s)
  /\ (forall n a s', Instance.acqs s !! n = Some a ->
        Instance.fire (Instance.Start n) s = Some s' ->
        Instance.owner s' = Some (length (Instance.ctxs s))
        /\ Instance.ctxs s'
           = Instance.ctxs s
             ++ [Instance.new_context (Some (Instance.a_kind a))])
  /\ (forall n a s', Instance.acqs s !! n = Some a ->
        Instance.fire (Instance.Finish n) s = Some s' ->
        Instance.owner s' = Some (Instance.a_ctx a)).
Proof.
  repeat split.
  - intros [c Hc]. unfold Instance.initializeInstance. rewrite Hc. reflexivity.
  - unfold Instance.initializeInstance. rewrite H. reflexivity.
  - unfold Instance.initializeInstance. rewrite H. reflexivity.
  - intros k m. apply owner_classMethod.
  - simpl in H0. rewrite H in H0. simpl in H0.
    repeat case_match; try discriminate. injection H0 as <-. reflexivity.
  - simpl in H0. rewrite H in H0. simpl in H0.
    repeat case_match; try discriminate. injection H0 as <-. reflexivity.
  - intros n a s' Ha Hfire. simpl in Hfire. rewrite Ha in Hfire.
    simpl in Hfire.
    repeat case_match; try discriminate; injection Hfire as <-;
      unfold Instance.finish; rewrite owner_next; reflexivity.
Qed.



Lemma context_swapped_while_body_runs_witness :
  Instance.initializeInstance reader_running = reader_running.
Proof.
  apply (proj1 (context_swapped_while_body_runs reader_running)).
  vm_compute. eauto.
Defined.

(** The call made while the first acquisition runs its body finds context
    1, not the context 0 the first acquisition found. *)
Lemma later_acquisition_finds_other_context :
  (fun s => (Instance.owner s, Instance.a_ctx <$> Instance.acqs s))
    <$> Instance.run nested_writer_events Instance.init
  = Some (Some 1%nat, [0%nat; 1%nat])
  /\ Instance.owner writer_called = Some 0%nat.
Proof. split; reflexivity. Qed.

(** ** Releasing a lock once and more than once *)

Section KeyedViews.
Import Keyed KeyedInv.

Lemma queues_of_inv s s' :
  queues_of s = queues_of s' ->
  items s = items s' /\ queues s = queues s'
  /\ partialQueue s = partialQueue s'.
Proof. unfold queues_of. intros [= -> -> ->]. auto. Qed.

Lemma queues_of_set_acqs f s : queues_of (set_acqs f s) = queues_of s.
Proof. reflexivity. Qed.

Lemma queues_of_advance key q s s' :
  queues_of s = queues_of s' ->
  queues_of (advance key q s) = queues_of (advance key q s').
Proof.
  intros (Hi & Hq & Hp)%queues_of_inv.
  unfold advance, queues_of. simpl. rewrite Hq.
  repeat case_match; simpl; congruence.
Qed.

Lemma queues_of_next_w sl s s' :
  queues_of s = queues_of s' ->
  queues_of (next_w sl s) = queues_of (next_w sl s').
Proof.
  intros H. pose proof H as (Hi & Hq & Hp)%queues_of_inv.
  unfold next_w. rewrite Hi.
  destruct (items s' !! s_item sl) as [[r steps|r c|r]|]; try exact H.
  destruct (pop_step steps) as [rest [a|]].
  - unfold queues_of. simpl. congruence.
  - apply queues_of_advance. unfold queues_of. simpl. congruence.
Qed.

Lemma queues_of_next_r sl s s' :
  queues_of s = queues_of s' ->
  queues_of (next_r sl s) = queues_of (next_r sl s').
Proof.
  intros H. pose proof H as (Hi & Hq & Hp)%queues_of_inv.
  unfold next_r. rewrite Hi.
  destruct (items s' !! s_item sl) as [[r steps|r c|r]|]; try exact H.
  case_decide.
  - apply queues_of_advance. unfold queues_of. simpl. congruence.
  - unfold queues_of. simpl. congruence.
Qed.

Lemma queues_of_next_all k sls s s' :
  queues_of s = queues_of s' ->
  queues_of (next_all k sls s) = queues_of (next_all k sls s').
Proof.
  unfold next_all. revert s s'.
  induction sls as [|sl sls IH]; intros s s' H; simpl; [exact H|].
  apply IH. destruct k; auto using queues_of_next_w, queues_of_next_r.
Qed.

Lemma acq_ready_items s s' a :
  items s = items s' -> acq_ready s a = acq_ready s' a.
Proof.
  intros H. unfold acq_ready, slot_ready. rewrite H. reflexivity.
Qed.

Lemma released_stays k sls s n a :
  acqs s !! n = Some a -> a_released a = true ->
  exists a', acqs (next_all k sls s) !! n = Some a' /\ a_released a' = true.
Proof.
  intros Ha Hr.
  pose proof (same_call_next_all k sls s) as HF.
  destruct (Forall2_lookup_l _ _ _ _ _ HF Ha) as (a' & Ha' & Hs).
  exists a'. split; [exact Ha'|].
  destruct Hs as (_ & _ & _ & <- & _). exact Hr.
Qed.

End KeyedViews.

Section KeyedRelease.
Import Keyed KeyedInv.

Lemma fire_Release_released s n a :
  acqs s !! n = Some a -> a_released a = true -> fire (Release n) s = None.
Proof.
  intros Ha Hr. simpl. rewrite Ha. simpl. rewrite Hr.
  rewrite andb_false_r. reflexivity.
Qed.

Lemma fire_on_lock_inv (f : Lock.t -> Lock.t) s n s' :
  (a ← acqs s !! n;
   match a_result a with
   | Fulfilled => Some (set_acqs (<[n := on_lock f a]>) s)
   | _ => None
   end) = Some s' ->
  exists a, acqs s !! n = Some a /\ a_result a = Fulfilled
            /\ s' = set_acqs (<[n := on_lock f a]>) s
            /\ acqs s' !! n = Some (on_lock f a).
Proof.
  destruct (acqs s !! n) as [a|] eqn:Ha; simpl; [|discriminate].
  destruct (a_result a) eqn:Hr; try discriminate.
  intros [= <-]. exists a. repeat split; auto.
  simpl. apply list_lookup_insert_eq. eapply lookup_lt_Some, Ha.
Qed.

Lemma fire_Release_on_lock (f : Lock.t -> Lock.t) s n a :
  acqs s !! n = Some a ->
  Lock.resolved (f (a_lock a)) = Lock.resolved (a_lock a) ->
  queues_of <$> fire (Release n) (set_acqs (<[n := on_lock f a]>) s)
  = queues_of <$> fire (Release n) s.
Proof.
  intros Ha Hres. simpl. rewrite Ha.
  rewrite list_lookup_insert_eq by (eapply lookup_lt_Some, Ha). simpl.
  rewrite Hres.
  rewrite (acq_ready_items _ s (on_lock f a)) by reflexivity.
  change (acq_ready s (on_lock f a)) with (acq_ready s a).
  destruct (acq_ready s a && Lock.resolved (a_lock a) && negb (a_released a));
    [|reflexivity].
  simpl. f_equal. apply queues_of_next_all. reflexivity.
Qed.

End KeyedRelease.

(** Release through the lock object of the keyed mux. *)
Lemma keyed_unlock_twice_releases_once (s s1 : Keyed.state) (n : nat) :
  Keyed.fire (Keyed.Unlock n) s = Some s1 ->
  Keyed.fire (Keyed.Dispose n) s1 = Some s1
  /\ (exists s2, Keyed.fire (Keyed.Unlock n) s1 = Some s2
        /\ KeyedInv.queues_of s2 = KeyedInv.queues_of s1
        /\ KeyedInv.queues_of <$> Keyed.fire (Keyed.Release n) s2
           = KeyedInv.queues_of <$> Keyed.fire (Keyed.Release n) s1)
  /\ (forall s3, Keyed.fire (Keyed.Release n) s1 = Some s3 ->
        Keyed.fire (Keyed.Release n) s3 = None
        /\ forall e s4, e = Keyed.Unlock n \/ e = Keyed.Dispose n ->
             Keyed.fire e s3 = Some s4 ->
             KeyedInv.queues_of s4 = KeyedInv.queues_of s3
             /\ Keyed.fire (Keyed.Release n) s4 = None).
Proof.
  intros Hfire.
  apply (fire_on_lock_inv Lock.unlock) in Hfire
    as (a & Ha & Hres & -> & Ha1).
  set (s1 := Keyed.set_acqs (<[n := Keyed.on_lock Lock.unlock a]>) s) in *.
  assert (Hlt : (n < length (Keyed.acqs s))%nat)
    by (eapply lookup_lt_Some, Ha).
  split; [|split].
  - simpl. rewrite list_lookup_insert_eq by exact Hlt. simpl. rewrite Hres.
    destruct s. unfold Keyed.set_acqs. simpl in *.
    rewrite list_insert_insert_eq. reflexivity.
  - exists (Keyed.set_acqs
              (<[n := Keyed.on_lock Lock.unlock
                        (Keyed.on_lock Lock.unlock a)]>) s1).
    split; [|split].
    + change (Keyed.fire (Keyed.Unlock n) s1)
        with (a0 ← Keyed.acqs s1 !! n;
              match Keyed.a_result a0 with
              | Fulfilled =>
                  Some (Keyed.set_acqs (<[n := Keyed.on_lock Lock.unlock a0]>) s1)
              | _ => None
              end).
      rewrite Ha1. simpl. rewrite Hres. reflexivity.
    + reflexivity.
    + apply (fire_Release_on_lock Lock.unlock s1 n _ Ha1). reflexivity.
  - intros s3 Hrel.
    assert (Hs3 : exists a3, Keyed.acqs s3 !! n = Some a3
                             /\ Keyed.a_released a3 = true).
    { simpl in Hrel. rewrite list_lookup_insert_eq in Hrel by exact Hlt.
      simpl in Hrel. case_match; [|discriminate]. injection Hrel as <-.
      eapply released_stays;
        [simpl; rewrite list_insert_insert_eq;
         apply list_lookup_insert_eq; exact Hlt
        |reflexivity]. }
    destruct Hs3 as (a3 & Ha3 & Hr3).
    split; [eapply fire_Release_released; eauto|].
    intros e s4 [->| ->] He.
    + apply (fire_on_lock_inv Lock.unlock) in He as (a4 & Ha4 & _ & -> & Ha4').
      split; [reflexivity|].
      eapply fire_Release_released; [exact Ha4'|].
      simpl. congruence.
    + apply (fire_on_lock_inv Lock.dispose) in He as (a4 & Ha4 & _ & -> & Ha4').
      split; [reflexivity|].
      eapply fire_Release_released; [exact Ha4'|].
      simpl. congruence.
Qed.


(** ** An unkeyed acquisition after a keyed one *)

Section KeyedWedge.
Import Keyed.

(** The states the mux can be in after the scenario when no new call is
    made: only the lock object of the released acquisition can differ. *)
Lemma keyed_then_unkeyed_stuck (l0 : Lock.t) (e : event) (s' : state) :
  no_call e = true ->
  fire e (set_acqs (alter (on_lock (fun _ => l0)) 0%nat) keyed_then_unkeyed)
    = Some s' ->
  exists l1,
    s' = set_acqs (alter (on_lock (fun _ => l1)) 0%nat) keyed_then_unkeyed.
Proof.
  intros Hnc Hfire.
  destruct e as [key sig|key sig|n|n|n|n|n|n]; try discriminate;
    destruct n as [|[|n]]; try discriminate Hfire.
  - injection Hfire as <-. exists (Lock.unlock l0). reflexivity.
  - injection Hfire as <-. exists (Lock.dispose l0). reflexivity.
  - simpl in Hfire. rewrite andb_false_r in Hfire. discriminate.
Qed.

End KeyedWedge.

(** C3 at the failing input: [lock("k")] is acquired and unlocked, and the
    release reaction [finally(next)] of that call has run before [lock()]
    is called (a turn of the event loop lies between [unlock()] and
    [lock()]), so the per-key queue has drained and its map entry is
    deleted.  The call of [lock()] then arrives on the global queue behind
    the barrier item the keyed call left there; the new writer item is not
    ready, no reaction of the mux is enabled, and as long as no further
    call is made the acquisition stays pending. *)
Theorem unkeyed_lock_after_keyed_release_hangs :
  Keyed.run keyed_then_unkeyed_events Keyed.init = Some keyed_then_unkeyed
  /\ Keyed.partialQueue keyed_then_unkeyed = []
  /\ Keyed.queues keyed_then_unkeyed !! Keyed.globalQueue = Some [0%nat; 2%nat]
  /\ Keyed.items keyed_then_unkeyed
     = [ItemG true; ItemW true []; ItemW false [StepNext]]
  /\ (forall es s', forallb no_call es = true ->
        Keyed.run es keyed_then_unkeyed = Some s' ->
        Keyed.a_result <$> Keyed.acqs s' !! 1%nat = Some Pending).
Proof.
  repeat split.
  intros es s' Hes Hrun.
  assert (Hgen : forall es l0 s', forallb no_call es = true ->
    Keyed.run es (Keyed.set_acqs (alter (Keyed.on_lock (fun _ => l0)) 0%nat)
                    keyed_then_unkeyed) = Some s' ->
    Keyed.a_result <$> Keyed.acqs s' !! 1%nat = Some Pending).
  { clear. induction es as [|e es IH]; intros l0 s' Hes Hrun; simpl in *.
    - injection Hrun as <-. reflexivity.
    - apply andb_prop in Hes as [He Hes].
      destruct (Keyed.fire e _) as [s1|] eqn:E; [|discriminate].
      simpl in Hrun.
      destruct (keyed_then_unkeyed_stuck l0 e s1 He E) as [l1 ->].
      eapply IH; eauto. }
  apply (Hgen es (Lock.unlock Lock.create) s' Hes). exact Hrun.
Qed.

(** When [lock()] is called in the same turn as [unlock()], before the
    release reaction has run, the key is still in the map: the call takes
    its slot on the writer item of the keyed call, the release reaction
    wakes it, and it is fulfilled. *)
Lemma unkeyed_lock_before_release_is_granted :
  (fun s => (Keyed.partialQueue s, Keyed.a_result <$> Keyed.acqs s))
    <$> Keyed.run [Keyed.Lock (Some "k"%string) None; Keyed.Barrier 0%nat;
                   Keyed.Ready 0%nat; Keyed.Unlock 0%nat] Keyed.init
  = Some ([("k"%string, 1%nat)], [Fulfilled])
  /\ Keyed.a_result
       <$> Keyed.acqs
             (default Keyed.init
                (Keyed.run [Keyed.Lock (Some "k"%string) None;
                            Keyed.Barrier 0%nat; Keyed.Ready 0%nat;
                            Keyed.Unlock 0%nat; Keyed.Lock None None;
                            Keyed.Release 0%nat; Keyed.Ready 1%nat]
                   Keyed.init))
     = [Fulfilled; Fulfilled].
Proof. split; reflexivity. Qed.

(** ** Cancellation on the keyed mux *)

Section KeyedCommute.
Import Keyed KeyedInv.

Lemma alter_comm {A} (f g : A -> A) (i j : nat) (l : list A) :
  (forall x, f (g x) = g (f x)) ->
  alter f i (alter g j l) = alter g j (alter f i l).
Proof.
  intros Hfg. revert i j.
  induction l as [|x l IH]; intros [|i] [|j]; cbn; f_equal; auto.
Qed.

Lemma insert_alter_ne {A} (f : A -> A) (i j : nat) (x : A) (l : list A) :
  i <> j -> <[i := x]> (alter f j l) = alter f j (<[i := x]> l).
Proof.
  revert i j. induction l as [|y l IH]; intros [|i] [|j] Hne; cbn;
    try congruence; f_equal; auto.
Qed.

Lemma insert_as_alter {A} (f : A -> A) (i : nat) (x : A) (l : list A) :
  l !! i = Some x -> <[i := f x]> l = alter f i l.
Proof.
  revert i. induction l as [|y l IH]; intros [|i] H; cbn in *;
    try congruence; f_equal; auto.
Qed.

Variable g : list acquirer -> list acquirer.

Lemma advance_set_acqs key q s :
  advance key q (set_acqs g s) = set_acqs g (advance key q s).
Proof.
  destruct s as [its qs pq bs acs].
  unfold advance, set_partial, set_items, set_queues, set_acqs. simpl.
  repeat case_match; reflexivity.
Qed.

Lemma getQueueEntries_set_acqs key s :
  getQueueEntries key (set_acqs g s)
  = (set_acqs g (getQueueEntries key s).1, (getQueueEntries key s).2).
Proof.
  destruct s as [its qs pq bs acs].
  unfold getQueueEntries, push_item, set_partial, set_barriers, set_items,
    set_queues, set_acqs. simpl.
  repeat case_match; simplify_eq; reflexivity.
Qed.

Lemma arrive_w_set_acqs a e s :
  arrive_w a e (set_acqs g s)
  = (set_acqs g (arrive_w a e s).1, (arrive_w a e s).2).
Proof.
  destruct s as [its qs pq bs acs], e as [key q].
  unfold arrive_w, push_item, set_items, set_queues, set_acqs. simpl.
  repeat (case_match; simpl in *; simplify_eq); reflexivity.
Qed.

Lemma arrive_r_set_acqs a e s :
  arrive_r a e (set_acqs g s)
  = (set_acqs g (arrive_r a e s).1, (arrive_r a e s).2).
Proof.
  destruct s as [its qs pq bs acs], e as [key q].
  unfold arrive_r, push_item, set_items, set_queues, set_acqs. simpl.
  repeat (case_match; simpl in *; simplify_eq); reflexivity.
Qed.

Lemma arrive_all_set_acqs k a es s :
  arrive_all k a es (set_acqs g s)
  = (set_acqs g (arrive_all k a es s).1, (arrive_all k a es s).2).
Proof.
  revert s. induction es as [|e es IH]; intros s; simpl; [reflexivity|].
  assert (H1 : match k with
               | TW => arrive_w a e (set_acqs g s)
               | _ => arrive_r a e (set_acqs g s)
               end
               = (set_acqs g (match k with TW => arrive_w a e s
                              | _ => arrive_r a e s end).1,
                  (match k with TW => arrive_w a e s
                   | _ => arrive_r a e s end).2)).
  { destruct k; auto using arrive_w_set_acqs, arrive_r_set_acqs. }
  rewrite H1.
  destruct (match k with TW => arrive_w a e s | _ => arrive_r a e s end)
    as [s1 sl]. simpl.
  rewrite IH. destruct (arrive_all k a es s1) as [s2 sls]. reflexivity.
Qed.

End KeyedCommute.

Section KeyedRetag.
Import Keyed KeyedInv.

Variable f : acquirer -> acquirer.
Hypothesis f_resolve : forall i a, f (resolve_step i a) = resolve_step i (f a).

Lemma next_w_alter n sl s :
  next_w sl (set_acqs (alter f n) s) = set_acqs (alter f n) (next_w sl s).
Proof.
  unfold next_w.
  change (items (set_acqs (alter f n) s)) with (items s).
  destruct (items s !! s_item sl) as [[r steps|r c|r]|]; try reflexivity.
  destruct (pop_step steps) as [rest [a|]].
  - destruct s as [its qs pq bs acs]. unfold set_acqs, set_items. simpl.
    f_equal. apply alter_comm. intros x. symmetry. apply f_resolve.
  - rewrite <- advance_set_acqs. reflexivity.
Qed.

Lemma next_r_alter n sl s :
  next_r sl (set_acqs (alter f n) s) = set_acqs (alter f n) (next_r sl s).
Proof.
  unfold next_r.
  change (items (set_acqs (alter f n) s)) with (items s).
  destruct (items s !! s_item sl) as [[r steps|r c|r]|]; try reflexivity.
  case_decide; [|reflexivity].
  rewrite <- advance_set_acqs. reflexivity.
Qed.

Lemma next_all_alter n k sls s :
  next_all k sls (set_acqs (alter f n) s)
  = set_acqs (alter f n) (next_all k sls s).
Proof.
  unfold next_all. revert s.
  induction sls as [|sl sls IH]; intros s; simpl; [reflexivity|].
  destruct k; rewrite ?next_w_alter, ?next_r_alter; apply IH.
Qed.

End KeyedRetag.

Section KeyedCancel.
Import Keyed KeyedInv.

Lemma retag_resolve o l i a :
  retag_acq o l (resolve_step i a) = resolve_step i (retag_acq o l a).
Proof. reflexivity. Qed.

Lemma acquire_retag n o l k key sig s :
  (n < length (acqs s))%nat ->
  (acquire k key sig (retag n o l s)).1 = retag n o l (acquire k key sig s).1.
Proof.
  intros Hn. unfold acquire, retag.
  destruct sig as [[[] r]|]; simpl; try reflexivity.
  - rewrite getQueueEntries_set_acqs.
    destruct (getQueueEntries key s) as [s1 es] eqn:E1. simpl.
    rewrite length_alter, arrive_all_set_acqs.
    destruct (arrive_all k (length (acqs s)) es s1) as [s2 sls] eqn:E2. simpl.
    pose proof (acqs_arrive_all k (length (acqs s)) es s1) as H2.
    pose proof (acqs_getQueueEntries key s) as H1.
    rewrite E2 in H2. rewrite E1 in H1. simpl in *.
    destruct s2 as [its qs pq bs acs]. unfold set_acqs. simpl in *.
    f_equal. rewrite alter_app_l by congruence. reflexivity.
  - rewrite getQueueEntries_set_acqs.
    destruct (getQueueEntries key s) as [s1 es] eqn:E1. simpl.
    rewrite length_alter, arrive_all_set_acqs.
    destruct (arrive_all k (length (acqs s)) es s1) as [s2 sls] eqn:E2. simpl.
    pose proof (acqs_arrive_all k (length (acqs s)) es s1) as H2.
    pose proof (acqs_getQueueEntries key s) as H1.
    rewrite E2 in H2. rewrite E1 in H1. simpl in *.
    destruct s2 as [its qs pq bs acs]. unfold set_acqs. simpl in *.
    f_equal. rewrite alter_app_l by congruence. reflexivity.
Qed.

Lemma retag_insert n m o l x s :
  m <> n ->
  set_acqs (<[m := x]>) (retag n o l s) = retag n o l (set_acqs (<[m := x]>) s).
Proof.
  intros Hne. destruct s as [its qs pq bs acs]. unfold retag, set_acqs. simpl.
  f_equal. apply insert_alter_ne. exact Hne.
Qed.

Lemma fire_retag n o l e s :
  (n < length (acqs s))%nat -> about e <> Some n ->
  fire e (retag n o l s) = retag n o l <$> fire e s.
Proof.
  intros Hn Hab.
  destruct e as [key sig|key sig|m|m|m|m|m|m]; simpl in Hab.
  - simpl. f_equal. apply acquire_retag. exact Hn.
  - simpl. f_equal. apply acquire_retag. exact Hn.
  - simpl. destruct (barriers s !! m) as [b|]; simpl; [|reflexivity].
    destruct (items s !! b_item b) as [it|]; simpl; [|reflexivity].
    case_match; [|reflexivity]. simpl. f_equal.
    unfold retag. rewrite <- advance_set_acqs. reflexivity.
  - assert (Hne : m <> n) by congruence.
    simpl. rewrite list_lookup_alter_ne by congruence.
    destruct (acqs s !! m) as [a|]; simpl; [|reflexivity].
    destruct (a_result a); try reflexivity.
    rewrite (acq_ready_items (retag n o l s) s a) by reflexivity.
    destruct (acq_ready s a); [|reflexivity].
    simpl. f_equal. apply (retag_insert n m o l _ s Hne).
  - assert (Hne : m <> n) by congruence.
    simpl. rewrite list_lookup_alter_ne by congruence.
    destruct (acqs s !! m) as [a|]; simpl; [|reflexivity].
    destruct (a_result a), (a_signal a); try reflexivity.
    simpl. f_equal. apply (retag_insert n m o l _ s Hne).
  - assert (Hne : m <> n) by congruence.
    simpl. rewrite list_lookup_alter_ne by congruence.
    destruct (acqs s !! m) as [a|]; simpl; [|reflexivity].
    destruct (a_result a); try reflexivity.
    simpl. f_equal. apply (retag_insert n m o l _ s Hne).
  - assert (Hne : m <> n) by congruence.
    simpl. rewrite list_lookup_alter_ne by congruence.
    destruct (acqs s !! m) as [a|]; simpl; [|reflexivity].
    destruct (a_result a); try reflexivity.
    simpl. f_equal. apply (retag_insert n m o l _ s Hne).
  - assert (Hne : m <> n) by congruence.
    simpl. rewrite list_lookup_alter_ne by congruence.
    destruct (acqs s !! m) as [a|]; simpl; [|reflexivity].
    rewrite (acq_ready_items (retag n o l s) s a) by reflexivity.
    case_match; [|reflexivity]. simpl. f_equal.
    rewrite (retag_insert n m o l _ s Hne). unfold retag.
    apply next_all_alter. apply retag_resolve.
Qed.

End KeyedCancel.

Section KeyedAcquirerHistory.
Import Keyed KeyedInv.

(** How one event can change the acquirer numbered [n]. *)
Lemma fire_acq e s s' n a :
  fire e s = Some s' -> acqs s !! n = Some a ->
  exists a', acqs s' !! n = Some a'
    /\ a_signal a' = a_signal a
    /\ (a_result a <> Pending -> a_result a' = a_result a)
    /\ (about e <> Some n -> same_call a a').
Proof.
  intros Hfire Ha.
  assert (Hlt : (n < length (acqs s))%nat) by (eapply lookup_lt_Some, Ha).
  assert (Hsame : acqs s' !! n = Some a ->
    exists a', acqs s' !! n = Some a' /\ a_signal a' = a_signal a
      /\ (a_result a <> Pending -> a_result a' = a_result a)
      /\ (about e <> Some n -> same_call a a')).
  { intros H. exists a. auto using same_call_refl. }
  assert (Hins : forall m am x, acqs s !! m = Some am ->
    acqs s' = <[m := x]> (acqs s) ->
    a_signal x = a_signal am ->
    (a_result am <> Pending -> a_result x = a_result am) ->
    about e = Some m ->
    exists a', acqs s' !! n = Some a' /\ a_signal a' = a_signal a
      /\ (a_result a <> Pending -> a_result a' = a_result a)
      /\ (about e <> Some n -> same_call a a')).
  { intros m am x Hm Hs' Hsig Hres Hab.
    destruct (decide (m = n)) as [->|Hne].
    - exists x. rewrite Hs', list_lookup_insert_eq by exact Hlt.
      assert (am = a) by congruence. subst am.
      split; [reflexivity|]. split; [exact Hsig|]. split; [exact Hres|].
      intros Hc. congruence.
    - apply Hsame. rewrite Hs', list_lookup_insert_ne by exact Hne.
      exact Ha. }
  destruct e as [key sig|key sig|m|m|m|m|m|m]; simpl in Hfire.
  - injection Hfire as <-. apply Hsame.
    destruct (acquire_acqs TW key sig s) as [H|[sls H]];
      unfold lock; rewrite H; [exact Ha|].
    rewrite lookup_app_l by exact Hlt. exact Ha.
  - injection Hfire as <-. apply Hsame.
    destruct (acquire_acqs TR key sig s) as [H|[sls H]];
      unfold rLock; rewrite H; [exact Ha|].
    rewrite lookup_app_l by exact Hlt. exact Ha.
  - destruct (barriers s !! m) as [b|]; simpl in Hfire; [|discriminate].
    destruct (items s !! b_item b) as [it|]; simpl in Hfire; [|discriminate].
    case_match; [|discriminate]. injection Hfire as <-.
    apply Hsame. rewrite acqs_advance. exact Ha.
  - destruct (acqs s !! m) as [am|] eqn:Hm; simpl in Hfire; [|discriminate].
    destruct (a_result am) eqn:Hr; try discriminate.
    destruct (acq_ready s am); [|discriminate]. injection Hfire as <-.
    eapply (Hins m am); eauto. intros Hc. congruence.
  - destruct (acqs s !! m) as [am|] eqn:Hm; simpl in Hfire; [|discriminate].
    destruct (a_result am) eqn:Hr, (a_signal am); try discriminate.
    injection Hfire as <-.
    eapply (Hins m am); eauto. intros Hc. congruence.
  - destruct (acqs s !! m) as [am|] eqn:Hm; simpl in Hfire; [|discriminate].
    destruct (a_result am) eqn:Hr; try discriminate.
    injection Hfire as <-. eapply (Hins m am); eauto.
  - destruct (acqs s !! m) as [am|] eqn:Hm; simpl in Hfire; [|discriminate].
    destruct (a_result am) eqn:Hr; try discriminate.
    injection Hfire as <-. eapply (Hins m am); eauto.
  - destruct (acqs s !! m) as [am|] eqn:Hm; simpl in Hfire; [|discriminate].
    case_match; [|discriminate]. injection Hfire as <-.
    pose proof (same_call_next_all (a_kind am) (a_slots am)
                  (set_acqs (<[m := set_released am]>) s)) as HF.
    simpl in HF.
    destruct (decide (m = n)) as [->|Hne].
    + assert (am = a) by congruence. subst am.
      assert (Hx : <[n := set_released a]> (acqs s) !! n
                   = Some (set_released a))
        by (apply list_lookup_insert_eq; exact Hlt).
      destruct (Forall2_lookup_l _ _ _ _ _ HF Hx) as (a' & Ha' & Hs).
      exists a'. split; [exact Ha'|].
      destruct Hs as (Hr' & Hsg & _). simpl in *.
      split; [congruence|]. split; [congruence|].
      intros Hc. congruence.
    + assert (Hx : <[m := set_released am]> (acqs s) !! n = Some a)
        by (rewrite list_lookup_insert_ne by exact Hne; exact Ha).
      destruct (Forall2_lookup_l _ _ _ _ _ HF Hx) as (a' & Ha' & Hs).
      exists a'. split; [exact Ha'|].
      pose proof Hs as (Hr' & Hsg & _).
      split; [congruence|]. split; [congruence|]. intros _. exact Hs.
Qed.

End KeyedAcquirerHistory.

Section KeyedCancelRuns.
Import Keyed KeyedInv.

Lemma run_acq es s s' n a :
  run es s = Some s' -> acqs s !! n = Some a ->
  exists a', acqs s' !! n = Some a'
    /\ a_signal a' = a_signal a
    /\ (a_result a <> Pending -> a_result a' = a_result a)
    /\ (Forall (fun e => about e <> Some n) es -> same_call a a').
Proof.
  revert s a. induction es as [|e es IH]; intros s a Hrun Ha; simpl in Hrun.
  - injection Hrun as <-. exists a. auto using same_call_refl.
  - destruct (fire e s) as [s1|] eqn:E; simpl in Hrun; [|discriminate].
    destruct (fire_acq e s s1 n a E Ha) as (a1 & Ha1 & Hsg1 & Hr1 & Hc1).
    destruct (IH s1 a1 Hrun Ha1) as (a' & Ha' & Hsg & Hr & Hc).
    exists a'. split; [exact Ha'|]. split; [congruence|]. split.
    + intros Hne. rewrite Hr by (rewrite Hr1; auto). auto.
    + intros HF. inversion HF; subst.
      eapply same_call_trans; eauto.
Qed.

Lemma run_retag n o l es s :
  (n < length (acqs s))%nat ->
  Forall (fun e => about e <> Some n) es ->
  run es (retag n o l s) = retag n o l <$> run es s.
Proof.
  revert s. induction es as [|e es IH]; intros s Hn HF; simpl.
  - reflexivity.
  - inversion HF; subst.
    rewrite fire_retag by assumption.
    destruct (fire e s) as [s1|] eqn:E; simpl; [|reflexivity].
    apply IH; [|assumption].
    destruct (lookup_lt_is_Some_2 (acqs s) n Hn) as [a Ha].
    destruct (fire_acq e s s1 n a E Ha) as (a1 & Ha1 & _).
    eapply lookup_lt_Some, Ha1.
Qed.

Lemma pending_unreleased_same a b :
  same_call a b -> pending_unreleased a -> pending_unreleased b.
Proof.
  intros (Hr & _ & Hl & Hrel & _) H Hp.
  rewrite <- Hl, <- Hrel. apply H. congruence.
Qed.

Lemma Forall_pending_same l1 l2 :
  Forall2 same_call l1 l2 ->
  Forall pending_unreleased l1 -> Forall pending_unreleased l2.
Proof.
  induction 1; intros HF; inversion HF; subst; constructor;
    eauto using pending_unreleased_same.
Qed.

Lemma pending_unreleased_step e s s' :
  Forall pending_unreleased (acqs s) -> fire e s = Some s' ->
  Forall pending_unreleased (acqs s').
Proof.
  intros HF Hfire.
  assert (Hnew : forall k key sig,
             Forall pending_unreleased (acqs (acquire k key sig s).1)).
  { intros k key sig. destruct (acquire_acqs k key sig s) as [->|[sls ->]];
      [exact HF|].
    apply Forall_app. split; [exact HF|]. constructor; [|constructor].
    intros _. split; reflexivity. }
  destruct e as [key sig|key sig|n|n|n|n|n|n]; simpl in Hfire.
  - injection Hfire as <-. apply Hnew.
  - injection Hfire as <-. apply Hnew.
  - destruct (barriers s !! n) as [b|]; simpl in Hfire; [|discriminate].
    destruct (items s !! b_item b) as [it|]; simpl in Hfire; [|discriminate].
    case_match; [|discriminate]. injection Hfire as <-.
    rewrite acqs_advance. exact HF.
  - destruct (acqs s !! n) as [a|] eqn:Ea; simpl in Hfire; [|discriminate].
    repeat case_match; try discriminate. injection Hfire as <-. simpl.
    apply Forall_insert; [exact HF|]. intros Hp. discriminate.
  - destruct (acqs s !! n) as [a|] eqn:Ea; simpl in Hfire; [|discriminate].
    repeat case_match; try discriminate. injection Hfire as <-. simpl.
    apply Forall_insert; [exact HF|]. intros Hp. discriminate.
  - destruct (acqs s !! n) as [a|] eqn:Ea; simpl in Hfire; [|discriminate].
    destruct (a_result a) eqn:Hr; try discriminate.
    injection Hfire as <-. simpl.
    apply Forall_insert; [exact HF|]. intros Hp. simpl in Hp. congruence.
  - destruct (acqs s !! n) as [a|] eqn:Ea; simpl in Hfire; [|discriminate].
    destruct (a_result a) eqn:Hr; try discriminate.
    injection Hfire as <-. simpl.
    apply Forall_insert; [exact HF|]. intros Hp. simpl in Hp. congruence.
  - destruct (acqs s !! n) as [a|] eqn:Ea; simpl in Hfire; [|discriminate].
    destruct (acq_ready s a && Lock.resolved (a_lock a) && negb (a_released a))
      eqn:Hc; [|discriminate].
    injection Hfire as <-.
    eapply Forall_pending_same; [apply same_call_next_all|]. simpl.
    apply Forall_insert; [exact HF|]. intros Hp. simpl in Hp.
    apply andb_prop in Hc as [Hc _]. apply andb_prop in Hc as [_ Hc].
    destruct (Forall_lookup_1 _ _ _ _ HF Ea Hp) as [Hl _]. congruence.
Qed.

End KeyedCancelRuns.

Section KeyedCancelTheorem.
Import Keyed KeyedInv.

Lemma fire_Abort_inv s n s1 :
  fire (Abort n) s = Some s1 ->
  exists a r, acqs s !! n = Some a /\ a_result a = Pending
    /\ a_signal a = Some r
    /\ s1 = retag n (Rejected (AbortReason r)) (Lock.resolve (a_lock a)) s.
Proof.
  simpl. destruct (acqs s !! n) as [a|] eqn:Ha; simpl; [|discriminate].
  destruct (a_result a) eqn:Hr, (a_signal a) as [r|] eqn:Hs;
    try discriminate.
  intros [= <-]. exists a, r. repeat split; auto.
  unfold retag, set_acqs. f_equal.
  exact (insert_as_alter
           (retag_acq (Rejected (AbortReason r)) (Lock.resolve (a_lock a)))
           n a (acqs s) Ha).
Qed.

Lemma fire_Release_eq s n a :
  acqs s !! n = Some a ->
  fire (Release n) s
  = if acq_ready s a && Lock.resolved (a_lock a) && negb (a_released a)
    then Some (next_all (a_kind a) (a_slots a)
                 (set_acqs (<[n := set_released a]>) s))
    else None.
Proof. intros Ha. simpl. rewrite Ha. reflexivity. Qed.

Lemma fire_Ready_eq s n a :
  acqs s !! n = Some a -> a_result a = Pending ->
  fire (Ready n) s
  = if acq_ready s a
    then Some (set_acqs (<[n := set_result Fulfilled a]>) s) else None.
Proof. intros Ha Hr. simpl. rewrite Ha. simpl. rewrite Hr. reflexivity. Qed.

Lemma fire_Unlock_eq s n a :
  acqs s !! n = Some a -> a_result a = Fulfilled ->
  fire (Unlock n) s = Some (set_acqs (<[n := on_lock Lock.unlock a]>) s).
Proof. intros Ha Hr. simpl. rewrite Ha. simpl. rewrite Hr. reflexivity. Qed.

Lemma release_after_cancel_or_unlock s n a o l :
  acqs s !! n = Some a -> a_result a = Pending -> Lock.resolved l = true ->
  queues_of <$> fire (Release n) (retag n o l s)
  = queues_of <$> run [Ready n; Unlock n; Release n] s.
Proof.
  intros Ha Hres Hl.
  assert (Hlt : (n < length (acqs s))%nat) by (eapply lookup_lt_Some, Ha).
  rewrite (fire_Release_eq (retag n o l s) n (retag_acq o l a))
    by (unfold retag; simpl; rewrite list_lookup_alter_eq, Ha; reflexivity).
  rewrite (acq_ready_items _ s (retag_acq o l a)) by reflexivity.
  change (acq_ready s (retag_acq o l a)) with (acq_ready s a).
  change (a_lock (retag_acq o l a)) with l.
  change (a_released (retag_acq o l a)) with (a_released a).
  rewrite Hl.
  cbn [run]. rewrite (fire_Ready_eq s n a Ha Hres).
  destruct (acq_ready s a) eqn:Hrd; [|reflexivity].
  cbn [mbind option_bind andb].
  set (s1 := set_acqs (<[n := set_result Fulfilled a]>) s).
  assert (H1 : acqs s1 !! n = Some (set_result Fulfilled a))
    by (apply list_lookup_insert_eq; exact Hlt).
  rewrite (fire_Unlock_eq s1 n _ H1) by reflexivity.
  cbn [mbind option_bind].
  set (s2 := set_acqs (<[n := on_lock Lock.unlock (set_result Fulfilled a)]>) s1).
  assert (H2 : acqs s2 !! n
               = Some (on_lock Lock.unlock (set_result Fulfilled a))).
  { apply list_lookup_insert_eq. unfold s1. simpl.
    rewrite length_insert. exact Hlt. }
  rewrite (fire_Release_eq s2 n _ H2).
  rewrite (acq_ready_items s2 s _) by reflexivity.
  change (acq_ready s (on_lock Lock.unlock (set_result Fulfilled a)))
    with (acq_ready s a).
  rewrite Hrd.
  change (Lock.resolved (a_lock (on_lock Lock.unlock (set_result Fulfilled a))))
    with true.
  change (a_released (on_lock Lock.unlock (set_result Fulfilled a)))
    with (a_released a).
  cbn [andb].
  destruct (negb (a_released a)); cbn [mbind option_bind fmap option_fmap option_map];
    [|reflexivity].
  f_equal. apply queues_of_next_all. reflexivity.
Qed.

End KeyedCancelTheorem.

(** Cancellation on the keyed mux. *)
Lemma keyed_canceled_waiter_still_releases
    (es0 es : list Keyed.event) (s0 s1 s' : Keyed.state) (n : nat) :
  Keyed.run es0 Keyed.init = Some s0 ->
  Keyed.fire (Keyed.Abort n) s0 = Some s1 ->
  Forall (fun e => KeyedInv.about e <> Some n) es ->
  Keyed.run es s1 = Some s' ->
  exists r a s'',
    Keyed.acqs s' !! n = Some a
    /\ Keyed.a_signal a = Some r
    /\ Keyed.a_result a = Rejected (AbortReason r)
    /\ Keyed.run es s0 = Some s''
    /\ KeyedInv.queues_of s' = KeyedInv.queues_of s''
    /\ KeyedInv.queues_of <$> Keyed.fire (Keyed.Release n) s'
       = KeyedInv.queues_of
           <$> Keyed.run [Keyed.Ready n; Keyed.Unlock n; Keyed.Release n] s''
    /\ (Keyed.acq_ready s' a = true ->
        is_Some (Keyed.fire (Keyed.Release n) s'))
    /\ (forall es' t, Keyed.run es' s' = Some t ->
          Keyed.a_result <$> Keyed.acqs t !! n
          = Some (Rejected (AbortReason r))).
Proof.
  intros Hreach Habort Hes Hrun.
  apply fire_Abort_inv in Habort as (a0 & r & Ha0 & Hres0 & Hsig0 & ->).
  assert (Hlt : (n < length (Keyed.acqs s0))%nat)
    by (eapply lookup_lt_Some, Ha0).
  rewrite run_retag in Hrun by assumption.
  destruct (Keyed.run es s0) as [s''|] eqn:Hrun0; [|discriminate].
  injection Hrun as <-.
  destruct (run_acq es s0 s'' n a0 Hrun0 Ha0) as (a'' & Ha'' & Hsg & _ & Hsame).
  specialize (Hsame Hes). destruct Hsame as (Hr'' & _ & Hl'' & Hrel'' & _).
  assert (Hinv : Forall KeyedInv.pending_unreleased (Keyed.acqs s'')).
  { eapply (run_invariant
              (fun s => Forall KeyedInv.pending_unreleased (Keyed.acqs s)));
      [| |exact Hrun0].
    - intros e t t'. apply pending_unreleased_step.
    - eapply (run_invariant
                (fun s => Forall KeyedInv.pending_unreleased (Keyed.acqs s)));
        [| |exact Hreach].
      + intros e t t'. apply pending_unreleased_step.
      + constructor. }
  assert (Hp'' : Keyed.a_result a'' = Pending) by congruence.
  destruct (Forall_lookup_1 _ _ _ _ Hinv Ha'' Hp'') as [_ Hnr].
  set (o := Rejected (AbortReason r)).
  set (l := Lock.resolve (Keyed.a_lock a0)).
  assert (Ha : Keyed.acqs (KeyedInv.retag n o l s'') !! n
               = Some (KeyedInv.retag_acq o l a'')).
  { unfold KeyedInv.retag. simpl. rewrite list_lookup_alter_eq, Ha''.
    reflexivity. }
  exists r, (KeyedInv.retag_acq o l a''), s''.
  split; [exact Ha|]. split; [simpl; congruence|]. split; [reflexivity|].
  split; [reflexivity|]. split; [reflexivity|]. split; [|split].
  - apply (release_after_cancel_or_unlock s'' n a'' o l Ha'' Hp'').
    reflexivity.
  - intros Hrd. rewrite (fire_Release_eq _ n _ Ha).
    rewrite Hrd. simpl. rewrite Hnr. simpl. eauto.
  - intros es' t Ht.
    destruct (run_acq es' _ t n _ Ht Ha) as (at' & Hat & _ & Hst & _).
    rewrite Hat. simpl. f_equal. apply Hst. discriminate.
Qed.


(** ** Neighbours in a queue have different tags *)

Section Alternating.

Lemma alternating_drop1 l : alternating l -> alternating (drop 1 l).
Proof. destruct l as [|x l]; simpl; [auto|]. rewrite drop_0. tauto. Qed.

Lemma alternating_snoc l t :
  alternating l ->
  (forall t', last l = Some t' -> t' <> Some t) ->
  alternating (l ++ [Some t]).
Proof.
  induction l as [|x l IH]; intros Hl Hlast; simpl.
  - eauto.
  - destruct Hl as (Hx & Hn & Hl). split; [exact Hx|].
    destruct l as [|y l]; simpl.
    + split; [|eauto]. apply Hlast. reflexivity.
    + split; [exact Hn|]. apply IH; [exact Hl|].
      intros t' Ht'. apply Hlast. rewrite last_cons_cons. exact Ht'.
Qed.

Lemma alternating_lookup l i x : alternating l -> l !! i = Some x -> is_Some x.
Proof.
  revert i. induction l as [|y l IH]; intros [|i] Hl H; simpl in *;
    try discriminate.
  - injection H as <-. tauto.
  - eapply IH; [tauto|exact H].
Qed.

Lemma tag_at_insert its i x j :
  (forall old, its !! i = Some old -> item_tag x = item_tag old) ->
  tag_at (<[i := x]> its) j = tag_at its j.
Proof.
  intros Hx. unfold tag_at.
  destruct (decide (i = j)) as [->|Hne].
  - destruct (its !! j) as [old|] eqn:E.
    + rewrite list_lookup_insert_eq by (eapply lookup_lt_Some, E).
      simpl. f_equal. auto.
    + rewrite list_insert_ge by (apply lookup_ge_None; exact E).
      rewrite E. reflexivity.
  - rewrite list_lookup_insert_ne by exact Hne. reflexivity.
Qed.

Lemma tag_at_start its i j : tag_at (alter item_start i its) j = tag_at its j.
Proof.
  unfold tag_at. destruct (decide (i = j)) as [->|Hne].
  - rewrite list_lookup_alter_eq. destruct (its !! j) as [[]|]; reflexivity.
  - rewrite list_lookup_alter_ne by exact Hne. reflexivity.
Qed.

Lemma tag_at_app its x j :
  is_Some (tag_at its j) -> tag_at (its ++ [x]) j = tag_at its j.
Proof.
  unfold tag_at. intros [t Ht].
  destruct (its !! j) as [it|] eqn:E; [|discriminate].
  rewrite (lookup_app_l_Some _ _ _ _ E). reflexivity.
Qed.

Lemma tag_at_new its x : tag_at (its ++ [x]) (length its) = Some (item_tag x).
Proof.
  unfold tag_at. rewrite lookup_app_r by lia. rewrite Nat.sub_diag.
  reflexivity.
Qed.

Lemma queue_ok_ext its its' q :
  (forall j, is_Some (tag_at its j) -> tag_at its' j = tag_at its j) ->
  queue_ok its q -> queue_ok its' q.
Proof.
  intros Hext Hq. unfold queue_ok in *.
  assert (Heq : tag_at its' <$> q = tag_at its <$> q); [|rewrite Heq; exact Hq].
  apply list_eq. intros i. rewrite !list_lookup_fmap.
  destruct (q !! i) as [j|] eqn:E; simpl; [|reflexivity].
  f_equal. apply Hext. eapply alternating_lookup; [exact Hq|].
  rewrite list_lookup_fmap, E. reflexivity.
Qed.

Lemma queue_ok_drop1 its q : queue_ok its q -> queue_ok its (drop 1 q).
Proof. unfold queue_ok. rewrite fmap_drop. apply alternating_drop1. Qed.

Lemma queue_ok_singleton its i : is_Some (tag_at its i) -> queue_ok its [i].
Proof. unfold queue_ok. simpl. tauto. Qed.

(** [queue.push(x)] with a fresh item whose tag differs from the tail's. *)
Lemma queue_ok_push its q x :
  queue_ok its q ->
  (forall i, last q = Some i -> tag_at its i <> Some (item_tag x)) ->
  queue_ok (its ++ [x]) (q ++ [length its]).
Proof.
  intros Hq Hlast. unfold queue_ok. rewrite fmap_app. simpl.
  rewrite tag_at_new.
  assert (Heq : tag_at (its ++ [x]) <$> q = tag_at its <$> q).
  { apply list_eq. intros i. rewrite !list_lookup_fmap.
    destruct (q !! i) as [j|] eqn:E; simpl; [|reflexivity].
    f_equal. apply tag_at_app. eapply alternating_lookup; [exact Hq|].
    rewrite list_lookup_fmap, E. reflexivity. }
  rewrite Heq. apply alternating_snoc; [exact Hq|].
  intros t' Ht'. rewrite fmap_last in Ht'.
  destruct (last q) as [i|]; simpl in Ht'; [|discriminate].
  injection Ht' as <-. auto.
Qed.

End Alternating.

Section InstanceAlternating.
Import Instance.

Lemma instance_ok_items (its : list item) s :
  (forall j, is_Some (tag_at (items s) j) -> tag_at its j = tag_at (items s) j) ->
  instance_queues_ok s ->
  instance_queues_ok (mkState its (ctxs s) (owner s) (acqs s)).
Proof.
  intros Hext Hs. unfold instance_queues_ok in *. simpl.
  eapply Forall_impl; [exact Hs|]. intros cx Hcx.
  eapply queue_ok_ext; eauto.
Qed.

Lemma instance_ok_acqs f s :
  instance_queues_ok s -> instance_queues_ok (set_acqs f s).
Proof. auto. Qed.

Lemma instance_ok_owner o s :
  instance_queues_ok s -> instance_queues_ok (set_owner o s).
Proof. auto. Qed.

Lemma instance_ok_new_context lt s :
  instance_queues_ok s ->
  instance_queues_ok (set_ctxs (fun cs => cs ++ [new_context lt]) s).
Proof.
  intros Hs. unfold instance_queues_ok in *. simpl.
  apply Forall_app. split; [exact Hs|]. repeat constructor.
Qed.

Lemma instance_ok_insert i x s :
  (forall old, items s !! i = Some old -> item_tag x = item_tag old) ->
  instance_queues_ok s -> instance_queues_ok (set_items (<[i := x]>) s).
Proof.
  intros Hx Hs. apply (instance_ok_items _ s); [|exact Hs].
  intros j _. apply tag_at_insert. exact Hx.
Qed.

Lemma instance_ok_advance c s :
  instance_queues_ok s -> instance_queues_ok (advance c s).
Proof.
  intros Hs. unfold advance.
  set (s1 := set_ctxs (alter (set_queue (drop 1)) c) s).
  assert (H1 : instance_queues_ok s1).
  { unfold instance_queues_ok in *. simpl. apply Forall_alter; [exact Hs|].
    intros cx _ Hcx. simpl. apply queue_ok_drop1. exact Hcx. }
  destruct (ctxs s1 !! c ≫= _) as [i|]; [|exact H1].
  apply (instance_ok_items _ s1); [|exact H1].
  intros j _. apply tag_at_start.
Qed.

Lemma instance_ok_next k i c s :
  instance_queues_ok s -> instance_queues_ok (next k i c s).
Proof.
  intros Hs.
  assert (Hw : instance_queues_ok (next_w i c s)).
  { unfold next_w. destruct (items s !! i) as [[r steps|r n|r]|] eqn:E;
      try exact Hs.
    destruct (pop_step steps) as [rest [a|]].
    - apply instance_ok_acqs, instance_ok_insert; [|exact Hs].
      intros old Hold. rewrite E in Hold. injection Hold as <-. reflexivity.
    - apply instance_ok_advance, instance_ok_insert; [|exact Hs].
      intros old Hold. rewrite E in Hold. injection Hold as <-. reflexivity. }
  assert (Hr : instance_queues_ok (next_r i c s)).
  { unfold next_r. destruct (items s !! i) as [[r steps|r n|r]|] eqn:E;
      try exact Hs.
    assert (H1 : instance_queues_ok (set_items (<[i := ItemR r (n - 1)]>) s)).
    { apply instance_ok_insert; [|exact Hs].
      intros old Hold. rewrite E in Hold. injection Hold as <-. reflexivity. }
    case_decide; [apply instance_ok_advance|]; exact H1. }
  destruct k; assumption.
Qed.

(** [context.queue.push(it)] on context [c]. *)
Lemma instance_ok_push c cx it s :
  ctxs s !! c = Some cx ->
  (forall i, last (queue cx) = Some i ->
     tag_at (items s) i <> Some (item_tag it)) ->
  instance_queues_ok s ->
  instance_queues_ok
    (set_ctxs (alter (set_queue (fun q => q ++ [length (items s)])) c)
       (set_items (fun l => l ++ [it]) s)).
Proof.
  intros Hc Hlast Hs. unfold instance_queues_ok in *. simpl.
  apply Forall_alter.
  - eapply Forall_impl; [exact Hs|]. intros cx' Hcx'.
    eapply queue_ok_ext; [|exact Hcx']. intros j Hj. apply tag_at_app, Hj.
  - intros cx' Hcx' _. assert (cx' = cx) by congruence. subst cx'. simpl.
    apply queue_ok_push; [|exact Hlast].
    exact (Forall_lookup_1
             (fun cx => queue_ok (items s) (queue cx)) _ _ _ Hs Hc).
Qed.

End InstanceAlternating.

Section InstanceAlternatingSteps.
Import Instance.

Lemma lookup_pushed c it s :
  items (set_ctxs (alter (set_queue (fun q => q ++ [length (items s)])) c)
           (set_items (fun l => l ++ [it]) s)) !! length (items s)
  = Some it.
Proof. simpl. rewrite lookup_app_r by lia. rewrite Nat.sub_diag. reflexivity. Qed.

Lemma instance_ok_arrive_w c cx m s :
  ctxs s !! c = Some cx ->
  instance_queues_ok s -> instance_queues_ok (arrive_w c cx m s).1.
Proof.
  intros Hc Hs. unfold arrive_w.
  destruct (last (queue cx)) as [i|] eqn:El.
  - destruct (items s !! i) as [[r st|r n|r]|] eqn:Ei; try exact Hs.
    + destruct st; simpl;
        apply instance_ok_acqs, instance_ok_insert; auto;
        intros old Hold; rewrite Ei in Hold; injection Hold as <-;
        reflexivity.
    + rewrite lookup_pushed. simpl.
      apply instance_ok_acqs, instance_ok_insert.
      * intros old Hold. rewrite lookup_pushed in Hold.
        injection Hold as <-. reflexivity.
      * apply (instance_ok_push c cx); [exact Hc| |exact Hs].
        intros j Hj. assert (j = i) by congruence. subst j.
        unfold tag_at. rewrite Ei. simpl. discriminate.
  - rewrite lookup_pushed. simpl.
    apply instance_ok_acqs, instance_ok_insert.
    + intros old Hold. rewrite lookup_pushed in Hold.
      injection Hold as <-. reflexivity.
    + apply (instance_ok_push c cx); [exact Hc| |exact Hs].
      intros j Hj. congruence.
Qed.

Lemma instance_ok_arrive_r c cx m s :
  ctxs s !! c = Some cx ->
  instance_queues_ok s -> instance_queues_ok (arrive_r c cx m s).1.
Proof.
  intros Hc Hs. unfold arrive_r.
  destruct (last (queue cx)) as [i|] eqn:El.
  - destruct (items s !! i) as [[r st|r n|r]|] eqn:Ei; try exact Hs.
    + rewrite lookup_pushed. simpl.
      apply instance_ok_acqs, instance_ok_insert.
      * intros old Hold. rewrite lookup_pushed in Hold.
        injection Hold as <-. reflexivity.
      * apply (instance_ok_push c cx); [exact Hc| |exact Hs].
        intros j Hj. assert (j = i) by congruence. subst j.
        unfold tag_at. rewrite Ei. simpl. discriminate.
    + simpl.
      apply instance_ok_acqs, instance_ok_insert; auto.
      intros old Hold. rewrite Ei in Hold. injection Hold as <-.
      reflexivity.
  - rewrite lookup_pushed. simpl.
    apply instance_ok_acqs, instance_ok_insert.
    + intros old Hold. rewrite lookup_pushed in Hold.
      injection Hold as <-. reflexivity.
    + apply (instance_ok_push c cx); [exact Hc| |exact Hs].
      intros j Hj. congruence.
Qed.

Lemma instance_ok_classMethod k m s :
  instance_queues_ok s -> instance_queues_ok (classMethod k m s).1.
Proof.
  intros Hs. unfold classMethod.
  destruct (owner s) as [c|]; simpl; [|exact Hs].
  destruct (ctxs s !! c) as [cx|] eqn:Hc; simpl; [|exact Hs].
  destruct k; try (apply instance_ok_arrive_r; assumption).
  destruct (lockType cx) as [[]|]; try exact Hs;
    apply instance_ok_arrive_w; assumption.
Qed.

Lemma instance_ok_initializeInstance s :
  instance_queues_ok s -> instance_queues_ok (initializeInstance s).
Proof.
  intros Hs. unfold initializeInstance. destruct (owner s); [exact Hs|].
  apply instance_ok_owner, instance_ok_new_context, Hs.
Qed.

Lemma instance_ok_step e s s' :
  instance_queues_ok s -> fire e s = Some s' -> instance_queues_ok s'.
Proof.
  intros Hs Hfire.
  destruct e as [|k|k sig|n|n|n|n|n]; simpl in Hfire.
  - injection Hfire as <-. apply instance_ok_initializeInstance, Hs.
  - injection Hfire as <-. apply instance_ok_classMethod, Hs.
  - injection Hfire as <-. unfold manualLock.
    destruct sig as [[[] r]|]; try exact Hs;
      apply instance_ok_classMethod, instance_ok_initializeInstance, Hs.
  - destruct (acqs s !! n) as [a|]; simpl in Hfire; [|discriminate].
    repeat case_match; try discriminate. injection Hfire as <-.
    unfold start. apply instance_ok_acqs. unfold assign_context.
    apply instance_ok_owner, instance_ok_new_context, Hs.
  - destruct (acqs s !! n) as [a|]; simpl in Hfire; [|discriminate].
    repeat case_match; try discriminate; injection Hfire as <-;
      unfold finish; apply instance_ok_next, instance_ok_acqs;
      unfold assign_context; apply instance_ok_owner, Hs.
  - destruct (acqs s !! n) as [a|]; simpl in Hfire; [|discriminate].
    destruct (a_manual a) as [m|]; simpl in Hfire; [|discriminate].
    repeat case_match; try discriminate. injection Hfire as <-.
    apply instance_ok_acqs, Hs.
  - destruct (acqs s !! n) as [a|]; simpl in Hfire; [|discriminate].
    destruct (a_manual a) as [m|]; simpl in Hfire; [|discriminate].
    repeat case_match; try discriminate. injection Hfire as <-.
    apply instance_ok_acqs, Hs.
  - destruct (acqs s !! n) as [a|]; simpl in Hfire; [|discriminate].
    destruct (a_manual a) as [m|]; simpl in Hfire; [|discriminate].
    repeat case_match; try discriminate. injection Hfire as <-.
    apply instance_ok_acqs, Hs.
Qed.

Lemma instance_run_invariant (P : state -> Prop) :
  (forall e s s', P s -> fire e s = Some s' -> P s') ->
  forall es s s', P s -> run es s = Some s' -> P s'.
Proof.
  intros Hstep es. induction es as [|e es IH]; intros s s' Hs Hrun; simpl in *.
  - congruence.
  - destruct (fire e s) as [s1|] eqn:E; simpl in Hrun; [|discriminate].
    eauto.
Qed.

End InstanceAlternatingSteps.

Section KeyedAlternating.
Import Keyed.

Lemma keyed_ok_items (its : list item) s :
  (forall j, is_Some (tag_at (items s) j) -> tag_at its j = tag_at (items s) j) ->
  keyed_queues_ok s ->
  keyed_queues_ok (mkState its (queues s) (partialQueue s) (barriers s) (acqs s)).
Proof.
  intros Hext Hs. unfold keyed_queues_ok in *. simpl.
  eapply Forall_impl; [exact Hs|]. intros q Hq.
  eapply queue_ok_ext; eauto.
Qed.

Lemma keyed_ok_acqs f s : keyed_queues_ok s -> keyed_queues_ok (set_acqs f s).
Proof. auto. Qed.

Lemma keyed_ok_partial f s :
  keyed_queues_ok s -> keyed_queues_ok (set_partial f s).
Proof. auto. Qed.

Lemma keyed_ok_barriers f s :
  keyed_queues_ok s -> keyed_queues_ok (set_barriers f s).
Proof. auto. Qed.

Lemma keyed_ok_insert i x s :
  (forall old, items s !! i = Some old -> item_tag x = item_tag old) ->
  keyed_queues_ok s -> keyed_queues_ok (set_items (<[i := x]>) s).
Proof.
  intros Hx Hs. apply (keyed_ok_items _ s); [|exact Hs].
  intros j _. apply tag_at_insert. exact Hx.
Qed.

Lemma keyed_ok_advance key q s :
  keyed_queues_ok s -> keyed_queues_ok (advance key q s).
Proof.
  intros Hs. unfold advance.
  set (s1 := set_queues (alter (drop 1) q) s).
  assert (H1 : keyed_queues_ok s1).
  { unfold keyed_queues_ok in *. simpl. apply Forall_alter; [exact Hs|].
    intros l _ Hl. apply queue_ok_drop1. exact Hl. }
  destruct (queues s1 !! q ≫= head) as [i|].
  - apply (keyed_ok_items _ s1); [|exact H1].
    intros j _. apply tag_at_start.
  - destruct key; [apply keyed_ok_partial|]; exact H1.
Qed.

Lemma keyed_ok_push q it s :
  (forall i, last (default [] (queues s !! q)) = Some i ->
     tag_at (items s) i <> Some (item_tag it)) ->
  keyed_queues_ok s -> keyed_queues_ok (push_item q it s).
Proof.
  intros Hlast Hs. unfold keyed_queues_ok, push_item in *. simpl.
  apply Forall_alter.
  - eapply Forall_impl; [exact Hs|]. intros l Hl.
    eapply queue_ok_ext; [|exact Hl]. intros j Hj. apply tag_at_app, Hj.
  - intros l Hq _. apply queue_ok_push.
    + exact (Forall_lookup_1 _ _ _ _ Hs Hq).
    + rewrite Hq in Hlast. exact Hlast.
Qed.

Lemma items_push_item q it s :
  items (push_item q it s) !! length (items s) = Some it.
Proof. simpl. rewrite lookup_app_r by lia. rewrite Nat.sub_diag. reflexivity. Qed.

Lemma keyed_ok_next_w sl s : keyed_queues_ok s -> keyed_queues_ok (next_w sl s).
Proof.
  intros Hs. unfold next_w.
  destruct (items s !! s_item sl) as [[r steps|r n|r]|] eqn:E; try exact Hs.
  destruct (pop_step steps) as [rest [a|]].
  - apply keyed_ok_acqs, keyed_ok_insert; [|exact Hs].
    intros old Hold. rewrite E in Hold. injection Hold as <-. reflexivity.
  - apply keyed_ok_advance, keyed_ok_insert; [|exact Hs].
    intros old Hold. rewrite E in Hold. injection Hold as <-. reflexivity.
Qed.

Lemma keyed_ok_next_r sl s : keyed_queues_ok s -> keyed_queues_ok (next_r sl s).
Proof.
  intros Hs. unfold next_r.
  destruct (items s !! s_item sl) as [[r steps|r n|r]|] eqn:E; try exact Hs.
  assert (H1 : keyed_queues_ok
                 (set_items (<[s_item sl := ItemR r (n - 1)]>) s)).
  { apply keyed_ok_insert; [|exact Hs].
    intros old Hold. rewrite E in Hold. injection Hold as <-. reflexivity. }
  case_decide; [apply keyed_ok_advance|]; exact H1.
Qed.

Lemma keyed_ok_next_all k sls s :
  keyed_queues_ok s -> keyed_queues_ok (next_all k sls s).
Proof.
  unfold next_all. revert s.
  induction sls as [|sl sls IH]; intros s Hs; simpl; [exact Hs|].
  apply IH. destruct k; auto using keyed_ok_next_w, keyed_ok_next_r.
Qed.

End KeyedAlternating.

Section KeyedAlternatingSteps.
Import Keyed.

Lemma keyed_ok_pushed_w q r s :
  (forall i, last (default [] (queues s !! q)) = Some i ->
     tag_at (items s) i <> Some TW) ->
  keyed_queues_ok s ->
  keyed_queues_ok
    (set_items (<[length (items s) := ItemW r [StepNext]]>)
       (push_item q (ItemW r []) s)).
Proof.
  intros Hlast Hs. apply keyed_ok_insert.
  - intros old Hold. rewrite items_push_item in Hold.
    injection Hold as <-. reflexivity.
  - apply keyed_ok_push; assumption.
Qed.

Lemma keyed_ok_pushed_r q r s :
  (forall i, last (default [] (queues s !! q)) = Some i ->
     tag_at (items s) i <> Some TR) ->
  keyed_queues_ok s ->
  keyed_queues_ok
    (set_items (<[length (items s) := ItemR r (0 + 1)]>)
       (push_item q (ItemR r 0) s)).
Proof.
  intros Hlast Hs. apply keyed_ok_insert.
  - intros old Hold. rewrite items_push_item in Hold.
    injection Hold as <-. reflexivity.
  - apply keyed_ok_push; assumption.
Qed.

Lemma keyed_ok_arrive_w a e s :
  keyed_queues_ok s -> keyed_queues_ok (arrive_w a e s).1.
Proof.
  intros Hs. destruct e as [key q]. unfold arrive_w.
  destruct (last (default [] (queues s !! q))) as [l|] eqn:El.
  - destruct (items s !! l) as [[r st|r n|r]|] eqn:Ei.
    + rewrite Ei. destruct st; simpl; apply keyed_ok_insert; auto;
        intros old Hold; rewrite Ei in Hold; injection Hold as <-;
        reflexivity.
    + rewrite items_push_item. simpl. apply keyed_ok_pushed_w; [|exact Hs].
      intros i Hi. assert (i = l) by congruence. subst i.
      unfold tag_at. rewrite Ei. discriminate.
    + rewrite items_push_item. simpl. apply keyed_ok_pushed_w; [|exact Hs].
      intros i Hi. assert (i = l) by congruence. subst i.
      unfold tag_at. rewrite Ei. discriminate.
    + rewrite items_push_item. simpl. apply keyed_ok_pushed_w; [|exact Hs].
      intros i Hi. assert (i = l) by congruence. subst i.
      unfold tag_at. rewrite Ei. discriminate.
  - rewrite items_push_item. simpl. apply keyed_ok_pushed_w; [|exact Hs].
    intros i Hi. congruence.
Qed.

Lemma keyed_ok_arrive_r a e s :
  keyed_queues_ok s -> keyed_queues_ok (arrive_r a e s).1.
Proof.
  intros Hs. destruct e as [key q]. unfold arrive_r.
  destruct (last (default [] (queues s !! q))) as [l|] eqn:El.
  - destruct (items s !! l) as [[r st|r n|r]|] eqn:Ei.
    + rewrite items_push_item. simpl. apply keyed_ok_pushed_r; [|exact Hs].
      intros i Hi. assert (i = l) by congruence. subst i.
      unfold tag_at. rewrite Ei. discriminate.
    + rewrite Ei. simpl. apply keyed_ok_insert; auto.
      intros old Hold. rewrite Ei in Hold. injection Hold as <-.
      reflexivity.
    + rewrite items_push_item. simpl. apply keyed_ok_pushed_r; [|exact Hs].
      intros i Hi. assert (i = l) by congruence. subst i.
      unfold tag_at. rewrite Ei. discriminate.
    + rewrite items_push_item. simpl. apply keyed_ok_pushed_r; [|exact Hs].
      intros i Hi. assert (i = l) by congruence. subst i.
      unfold tag_at. rewrite Ei. discriminate.
  - rewrite items_push_item. simpl. apply keyed_ok_pushed_r; [|exact Hs].
    intros i Hi. congruence.
Qed.

Lemma keyed_ok_arrive_all k a es s :
  keyed_queues_ok s -> keyed_queues_ok (arrive_all k a es s).1.
Proof.
  revert s. induction es as [|e es IH]; intros s Hs; simpl; [exact Hs|].
  destruct (match k with TW => arrive_w a e s | _ => arrive_r a e s end)
    as [s1 sl] eqn:E1.
  assert (H1 : keyed_queues_ok s1).
  { destruct k.
    - pose proof (keyed_ok_arrive_w a e s Hs) as H. rewrite E1 in H. exact H.
    - pose proof (keyed_ok_arrive_r a e s Hs) as H. rewrite E1 in H. exact H.
    - pose proof (keyed_ok_arrive_r a e s Hs) as H. rewrite E1 in H. exact H. }
  specialize (IH s1 H1).
  destruct (arrive_all k a es s1) as [s2 sls]. exact IH.
Qed.

Lemma keyed_ok_new_queue g s :
  is_Some (tag_at (items s) g) ->
  keyed_queues_ok s ->
  keyed_queues_ok (set_queues (fun l => l ++ [[g]]) s).
Proof.
  intros Hg Hs. unfold keyed_queues_ok in *. simpl.
  apply Forall_app. split; [exact Hs|].
  constructor; [|constructor]. apply queue_ok_singleton, Hg.
Qed.

Lemma keyed_ok_getQueueEntries key s :
  keyed_queues_ok s -> keyed_queues_ok (getQueueEntries key s).1.
Proof.
  intros Hs. unfold getQueueEntries.
  destruct key as [k|]; [|destruct (partialQueue s); exact Hs].
  destruct (map_get k (partialQueue s)); [exact Hs|].
  destruct (last (default [] (queues s !! globalQueue))) as [i|] eqn:El.
  - destruct (items s !! i) as [[r st|r n|r]|] eqn:Ei; simpl;
      apply keyed_ok_partial, keyed_ok_barriers.
    + apply keyed_ok_new_queue.
      * unfold tag_at. rewrite items_push_item. simpl. eauto.
      * apply keyed_ok_push; [|exact Hs].
        intros j Hj. assert (j = i) by congruence. subst j.
        unfold tag_at. rewrite Ei. discriminate.
    + apply keyed_ok_new_queue.
      * unfold tag_at. rewrite items_push_item. simpl. eauto.
      * apply keyed_ok_push; [|exact Hs].
        intros j Hj. assert (j = i) by congruence. subst j.
        unfold tag_at. rewrite Ei. discriminate.
    + apply keyed_ok_new_queue; [|exact Hs].
      unfold tag_at. rewrite Ei. simpl. eauto.
    + apply keyed_ok_new_queue.
      * unfold tag_at. rewrite items_push_item. simpl. eauto.
      * apply keyed_ok_push; [|exact Hs].
        intros j Hj. assert (j = i) by congruence. subst j.
        unfold tag_at. rewrite Ei. discriminate.
  - simpl. apply keyed_ok_partial, keyed_ok_barriers.
    apply keyed_ok_new_queue.
    + unfold tag_at. rewrite items_push_item. simpl. eauto.
    + apply keyed_ok_push; [|exact Hs]. intros j Hj. congruence.
Qed.

End KeyedAlternatingSteps.

Section KeyedAlternatingFire.
Import Keyed.

Lemma keyed_ok_acquire k key sig s :
  keyed_queues_ok s -> keyed_queues_ok (acquire k key sig s).1.
Proof.
  intros Hs. unfold acquire.
  destruct sig as [[[] r]|]; simpl; try exact Hs.
  - pose proof (keyed_ok_getQueueEntries key s Hs) as H1.
    destruct (getQueueEntries key s) as [s1 es].
    pose proof (keyed_ok_arrive_all k (length (acqs s)) es s1 H1) as H2.
    destruct (arrive_all k (length (acqs s)) es s1) as [s2 sls].
    apply keyed_ok_acqs, H2.
  - pose proof (keyed_ok_getQueueEntries key s Hs) as H1.
    destruct (getQueueEntries key s) as [s1 es].
    pose proof (keyed_ok_arrive_all k (length (acqs s)) es s1 H1) as H2.
    destruct (arrive_all k (length (acqs s)) es s1) as [s2 sls].
    apply keyed_ok_acqs, H2.
Qed.

Lemma keyed_ok_step e s s' :
  keyed_queues_ok s -> fire e s = Some s' -> keyed_queues_ok s'.
Proof.
  intros Hs Hfire.
  destruct e as [key sig|key sig|n|n|n|n|n|n]; simpl in Hfire.
  - injection Hfire as <-. apply keyed_ok_acquire, Hs.
  - injection Hfire as <-. apply keyed_ok_acquire, Hs.
  - destruct (barriers s !! n) as [b|]; simpl in Hfire; [|discriminate].
    destruct (items s !! b_item b) as [it|]; simpl in Hfire; [|discriminate].
    case_match; [|discriminate]. injection Hfire as <-.
    apply keyed_ok_advance, keyed_ok_barriers, Hs.
  - destruct (acqs s !! n) as [a|]; simpl in Hfire; [|discriminate].
    repeat case_match; try discriminate. injection Hfire as <-.
    apply keyed_ok_acqs, Hs.
  - destruct (acqs s !! n) as [a|]; simpl in Hfire; [|discriminate].
    repeat case_match; try discriminate. injection Hfire as <-.
    apply keyed_ok_acqs, Hs.
  - destruct (acqs s !! n) as [a|]; simpl in Hfire; [|discriminate].
    repeat case_match; try discriminate. injection Hfire as <-.
    apply keyed_ok_acqs, Hs.
  - destruct (acqs s !! n) as [a|]; simpl in Hfire; [|discriminate].
    repeat case_match; try discriminate. injection Hfire as <-.
    apply keyed_ok_acqs, Hs.
  - destruct (acqs s !! n) as [a|]; simpl in Hfire; [|discriminate].
    case_match; [|discriminate]. injection Hfire as <-.
    apply keyed_ok_next_all, keyed_ok_acqs, Hs.
Qed.

End KeyedAlternatingFire.

Section Coalescing.

Lemma tag_at_W its i : tag_at its i = Some TW -> exists r st, its !! i = Some (ItemW r st).
Proof.
  unfold tag_at. destruct (its !! i) as [[r st|r n|r]|]; try discriminate.
  eauto.
Qed.

Lemma tag_at_R its i : tag_at its i = Some TR -> exists r n, its !! i = Some (ItemR r n).
Proof.
  unfold tag_at. destruct (its !! i) as [[r st|r n|r]|]; try discriminate.
  eauto.
Qed.

(** An arrival whose kind is the tag of the tail pushes no item: the queues
    are as before and the item store keeps its length. *)
Lemma instance_arrival_coalesces k c cx m s i :
  last (Instance.queue cx) = Some i ->
  tag_at (Instance.items s) i = Some k -> k <> TG ->
  let s' := (match k with
             | TW => Instance.arrive_w c cx m s
             | _ => Instance.arrive_r c cx m s
             end).1 in
  Instance.ctxs s' = Instance.ctxs s
  /\ length (Instance.items s') = length (Instance.items s).
Proof.
  intros Hl Ht Hk. destruct k; [| |congruence].
  - destruct (tag_at_W _ _ Ht) as (r & st & Hi).
    unfold Instance.arrive_w. rewrite Hl, Hi.
    destruct st; cbn; rewrite length_insert; auto.
  - destruct (tag_at_R _ _ Ht) as (r & n & Hi).
    unfold Instance.arrive_r. rewrite Hl, Hi.
    cbn. rewrite length_insert. auto.
Qed.

Lemma keyed_arrival_coalesces k a key q s i :
  last (default [] (Keyed.queues s !! q)) = Some i ->
  tag_at (Keyed.items s) i = Some k -> k <> TG ->
  let s' := (match k with
             | TW => Keyed.arrive_w a (key, q) s
             | _ => Keyed.arrive_r a (key, q) s
             end).1 in
  Keyed.queues s' = Keyed.queues s
  /\ length (Keyed.items s') = length (Keyed.items s).
Proof.
  intros Hl Ht Hk. destruct k; [| |congruence].
  - destruct (tag_at_W _ _ Ht) as (r & st & Hi).
    unfold Keyed.arrive_w. rewrite Hl, Hi. cbn. rewrite Hi.
    destruct st; cbn; rewrite length_insert; auto.
  - destruct (tag_at_R _ _ Ht) as (r & n & Hi).
    unfold Keyed.arrive_r. rewrite Hl, Hi. cbn. rewrite Hi.
    cbn. rewrite length_insert. auto.
Qed.

End Coalescing.

(** C5: in every state an owner of the instance form can reach, every
    queue of every context refers to items of the store and no two
    neighbouring items have the same tag; in every state a keyed mux can
    reach the same holds for the global queue and for every per-key queue.
    The transitions quantified over are all calls, reactions, aborts,
    unlocks and disposals, in any order.  An arriving writer (reader) that
    finds a writer (reader) item at the tail pushes no item: the queues are
    as before and the item store keeps its length. *)
Theorem adjacent_items_differ :
  (forall es s, Instance.run es Instance.init = Some s -> instance_queues_ok s)
  /\ (forall es s, Keyed.run es Keyed.init = Some s -> keyed_queues_ok s)
  /\ (forall k c cx m s i,
        last (Instance.queue cx) = Some i ->
        tag_at (Instance.items s) i = Some k -> k <> TG ->
        let s' := (match k with
                   | TW => Instance.arrive_w c cx m s
                   | _ => Instance.arrive_r c cx m s
                   end).1 in
        Instance.ctxs s' = Instance.ctxs s
        /\ length (Instance.items s') = length (Instance.items s))
  /\ (forall k a key q s i,
        last (default [] (Keyed.queues s !! q)) = Some i ->
        tag_at (Keyed.items s) i = Some k -> k <> TG ->
        let s' := (match k with
                   | TW => Keyed.arrive_w a (key, q) s
                   | _ => Keyed.arrive_r a (key, q) s
                   end).1 in
        Keyed.queues s' = Keyed.queues s
        /\ length (Keyed.items s') = length (Keyed.items s)).
Proof.
  split; [|split; [|split]].
  - intros es s Hrun.
    eapply (instance_run_invariant instance_queues_ok); [| |exact Hrun].
    + intros e s1 s2. apply instance_ok_step.
    + constructor.
  - intros es s Hrun.
    eapply (run_invariant keyed_queues_ok); [| |exact Hrun].
    + intros e s1 s2. apply keyed_ok_step.
    + repeat constructor.
  - apply instance_arrival_coalesces.
  - apply keyed_arrival_coalesces.
Qed.

Lemma adjacent_items_differ_witness :
  instance_queues_ok
    (default Instance.init (Instance.run mixed_events Instance.init))
  /\ keyed_queues_ok
       (default Keyed.init (Keyed.run barrier_events Keyed.init)).
Proof.
  split.
  - apply (proj1 adjacent_items_differ mixed_events). reflexivity.
  - apply (proj1 (proj2 adjacent_items_differ) barrier_events). reflexivity.
Defined.

(** ** Writers launched together run one after the other *)

Section SerialLaunch.
Import Instance Serial.

Lemma pop_step_resolves (k m : nat) :
  pop_step (StepResolve <$> seq k m)
  = match m with
    | O => ([], None)
    | S m' => (StepResolve <$> seq (S k) m', Some k)
    end.
Proof. destruct m; reflexivity. Qed.

Lemma seq_snoc (a n : nat) : seq a (S n) = seq a n ++ [(a + n)%nat].
Proof. apply seq_S. Qed.





End SerialLaunch.

Ltac nat_cases :=
  repeat match goal with
    | |- context [(?a <? ?b)%nat] => destruct (Nat.ltb_spec a b)
    | |- context [(?a <=? ?b)%nat] => destruct (Nat.leb_spec a b)
    | |- context [(?a =? ?b)%nat] => destruct (Nat.eqb_spec a b)
    end; cbn -[Nat.ltb Nat.leb Nat.eqb];
  try reflexivity; try lia; try discriminate.

Section SerialShape.
Import Instance Serial.




End SerialShape.

Section SerialSteps.
Import Instance Serial.




End SerialSteps.

Section SerialFinish.
Import Instance Serial.

Lemma pop_step_pre (b : bool) (l : list step) :
  pop_step ((if b then [StepNext] else []) ++ l) = pop_step l.
Proof. destruct b; reflexivity. Qed.




End SerialFinish.

Section SerialFinishShape.
Import Instance Serial.




End SerialFinishShape.

Section SerialRuns.
Import Instance Serial.

Lemma run_app es1 es2 s : run (es1 ++ es2) s = run es1 s ≫= run es2.
Proof.
  revert s. induction es1 as [|e es1 IH]; intros s; simpl; [reflexivity|].
  destruct (fire e s) as [s1|]; simpl; [apply IH|reflexivity].
Qed.







End SerialRuns.

(** ** Writers launched together on one key run one after the other *)

Section SerialKeyedLaunch.
Import Keyed SerialKeyed.
Variable key : string.

Lemma map_get_head (q : nat) (m : list (string * nat)) :
  map_get key ((key, q) :: m) = Some q.
Proof.
  unfold map_get. cbn. rewrite decide_True by reflexivity. reflexivity.
Qed.

Lemma lock_on_held_item (r : bool) (st : list step) (acs : list acquirer)
    (qs : list (list nat)) (bs : list barrier) :
  (lock (Some key) None
     (mkState [ItemG true; ItemW r (StepNext :: st)]
        ([0%nat] :: [0%nat; 1%nat] :: qs) [(key, 1%nat)] bs acs)).1
  = mkState [ItemG true;
             ItemW r (StepNext :: st ++ [StepResolve (length acs)])]
      ([0%nat] :: [0%nat; 1%nat] :: qs) [(key, 1%nat)] bs
      (acs ++ [mkAcquirer TW [mkSlot (Some key) 1 1 false] Pending
                 Lock.create None false]).
Proof.
  unfold lock, acquire, getQueueEntries. cbn [partialQueue fmap option_fmap].
  rewrite map_get_head. reflexivity.
Qed.

Lemma first_lock :
  (lock (Some key) None init).1 = launched key 0.
Proof. reflexivity. Qed.

Lemma keyed_call_launched n :
  (lock (Some key) None (launched key n)).1 = launched key (S n).
Proof.
  unfold launched. rewrite lock_on_held_item.
  rewrite length_fmap, length_seq.
  rewrite (seq_snoc 1 n), (seq_snoc 0 (S n)), !fmap_app. reflexivity.
Qed.

Lemma keyed_launch_launched n : run (launch key (S n)) init = Some (launched key n).
Proof.
  unfold launch. cbn [replicate run fire mbind option_bind].
  rewrite first_lock.
  induction n as [|n IH]; [reflexivity|].
  change (S n) with (1 + n)%nat at 1. rewrite Nat.add_comm.
  rewrite replicate_add.
  assert (Happ : forall es1 es2 s, run (es1 ++ es2) s = run es1 s ≫= run es2).
  { clear. induction es1 as [|e es1 IH]; intros es2 s; simpl; [reflexivity|].
    destruct (fire e s) as [s1|]; simpl; [apply IH|reflexivity]. }
  rewrite Happ, IH. cbn [mbind option_bind replicate run fire].
  rewrite keyed_call_launched. reflexivity.
Qed.

End SerialKeyedLaunch.

Section SerialKeyedShape.
Import Keyed SerialKeyed.
Variable key : string.

Lemma keyed_shape_launched n : shape key (S n) 0 false (launched key n).
Proof.
  unfold shape, launched. cbn [acqs items queues barriers].
  split; [rewrite length_fmap, length_seq; reflexivity|].
  split; [lia|]. split; [lia|]. split; [reflexivity|].
  split; [|repeat split].
  - intros i a Ha. rewrite list_lookup_fmap in Ha.
    destruct (seq 0 (S n) !! i) as [j|] eqn:Ej; [|discriminate].
    apply lookup_seq in Ej as [-> _]. injection Ha as <-.
    cbn -[Nat.ltb Nat.leb Nat.eqb].
    repeat split; auto; try lia; nat_cases.
  - cbn -[Nat.ltb Nat.leb Nat.eqb]. rewrite Nat.sub_0_r. reflexivity.
Qed.

Lemma keyed_shape_ready N k b s i a :
  shape key N k b s -> acqs s !! i = Some a ->
  acq_ready s a = b && (i <=? k)%nat.
Proof.
  intros (_ & _ & _ & _ & Hp & _ & Hit & _) Ha.
  destruct (Hp i a Ha) as (_ & Hsl & _).
  unfold acq_ready, slot_ready. rewrite Hsl. cbn [forallb s_item s_step].
  rewrite Hit. cbn [item_ready]. rewrite andb_true_r. reflexivity.
Qed.


(** The barrier reaction. *)
Lemma keyed_shape_Barrier N k b s m s' :
  shape key N k b s -> fire (Barrier m) s = Some s' ->
  m = 0%nat /\ b = false /\ shape key N 0 true s'.
Proof.
  intros (Hlen & HN & Hk & Hb & Hp & Hi0 & Hi1 & Hq & Hbs) Hfire.
  cbn [fire] in Hfire. rewrite Hbs in Hfire.
  destruct m as [|m]; [|destruct m; discriminate].
  cbn [lookup list_lookup mbind option_bind b_item] in Hfire.
  rewrite Hi0 in Hfire.
  cbn [mbind option_bind item_ready b_fired andb b_key b_queue] in Hfire.
  destruct b; [discriminate|]. cbn [negb] in Hfire.
  injection Hfire as <-. specialize (Hb eq_refl). subst k.
  split; [reflexivity|]. split; [reflexivity|].
  unfold advance. cbn [queues set_queues set_barriers].
  rewrite list_lookup_alter_eq, Hq. cbn [fmap option_fmap option_map drop head mbind option_bind].
  unfold shape. cbn [acqs items queues barriers set_items set_queues
                       set_barriers].
  split; [exact Hlen|]. split; [exact HN|]. split; [lia|].
  split; [discriminate|]. split; [|split; [|split; [|split]]].
  - intros i a Ha.
    destruct (Hp i a Ha) as (H1 & H2 & H3 & H4 & H5 & H6 & H7 & H8).
    repeat split; auto; try lia.
  - rewrite list_lookup_alter_ne by lia. exact Hi0.
  - rewrite list_lookup_alter_eq, Hi1. reflexivity.
  - rewrite list_lookup_alter_eq, Hq.
    destruct (Nat.ltb_spec 0 N); [reflexivity|lia].
  - rewrite Hbs. reflexivity.
Qed.

End SerialKeyedShape.

Section SerialKeyedHandle.
Import Keyed SerialKeyed.
Variable key : string.

(** Replacing one acquirer by one that differs at most in its promise and
    its lock object. *)
Lemma keyed_shape_update N k b s i a x :
  shape key N k b s -> acqs s !! i = Some a ->
  a_kind x = a_kind a -> a_slots x = a_slots a ->
  a_signal x = a_signal a -> a_released x = a_released a ->
  (a_result x = Pending \/ a_result x = Fulfilled) ->
  (a_result x = Pending -> Lock.resolved (a_lock x) = false) ->
  ((i < k)%nat -> a_result x = Fulfilled /\ Lock.resolved (a_lock x) = true) ->
  ((k < i)%nat \/ b = false -> a_result x = Pending) ->
  shape key N k b (set_acqs (<[i := x]>) s).
Proof.
  intros (Hlen & HN & Hk & Hb & Hp & Hi0 & Hi1 & Hq & Hbs) Ha
    E1 E2 E3 E4 E5 E6 E7 E8.
  assert (Hlt : (i < length (acqs s))%nat) by (eapply lookup_lt_Some, Ha).
  unfold shape. cbn [acqs items queues barriers set_acqs].
  split; [rewrite length_insert; exact Hlen|].
  split; [exact HN|]. split; [exact Hk|]. split; [exact Hb|].
  split; [|auto].
  intros j c Hc. destruct (decide (j = i)) as [->|Hne].
  - rewrite list_lookup_insert_eq in Hc by exact Hlt. injection Hc as <-.
    destruct (Hp i a Ha) as (H1 & H2 & H3 & H4 & _).
    rewrite E1, E2, E3, E4. auto 10.
  - rewrite list_lookup_insert_ne in Hc by congruence. apply Hp, Hc.
Qed.

Lemma keyed_shape_Ready N k b s i s' :
  shape key N k b s -> fire (Ready i) s = Some s' ->
  i = k /\ b = true /\ shape key N k b s'.
Proof.
  intros Hs Hfire. cbn [fire] in Hfire.
  destruct (acqs s !! i) as [a|] eqn:Ha; [|discriminate].
  cbn [mbind option_bind] in Hfire.
  destruct (a_result a) eqn:Hr; try discriminate.
  rewrite (keyed_shape_ready key N k b s i a Hs Ha) in Hfire.
  destruct b; [|discriminate]. cbn [andb] in Hfire.
  destruct (Nat.leb_spec i k) as [Hle|]; [|discriminate].
  injection Hfire as <-.
  pose proof Hs as (_ & _ & _ & _ & Hp & _).
  destruct (Hp i a Ha) as (_ & _ & _ & _ & _ & _ & H7 & _).
  assert (i = k).
  { destruct (Nat.eq_dec i k) as [|Hne]; [assumption|].
    destruct H7 as [H7 _]; [lia|congruence]. }
  subst i. split; [reflexivity|]. split; [reflexivity|].
  apply (keyed_shape_update N k true s k a); auto; try discriminate; try lia.
Qed.

Lemma keyed_shape_no_Abort N k b s i :
  shape key N k b s -> fire (Abort i) s = None.
Proof.
  intros (_ & _ & _ & _ & Hp & _). cbn [fire].
  destruct (acqs s !! i) as [a|] eqn:Ha; [|reflexivity].
  cbn [mbind option_bind].
  destruct (Hp i a Ha) as (_ & _ & -> & _).
  destruct (a_result a); reflexivity.
Qed.

Lemma keyed_shape_on_lock (f : Lock.t -> Lock.t) N k b s i a :
  (forall l, Lock.resolved l = true -> Lock.resolved (f l) = true) ->
  shape key N k b s -> acqs s !! i = Some a -> a_result a = Fulfilled ->
  shape key N k b (set_acqs (<[i := on_lock f a]>) s).
Proof.
  intros Hf Hs Ha Hr.
  pose proof Hs as (_ & _ & _ & _ & Hp & _).
  destruct (Hp i a Ha) as (_ & _ & _ & _ & _ & _ & H7 & H8).
  apply (keyed_shape_update N k b s i a); auto.
  - intros Hc. simpl in Hc. congruence.
  - intros Hlt. destruct (H7 Hlt) as [_ Hres]. split; [exact Hr|].
    simpl. apply Hf, Hres.
Qed.

Lemma keyed_shape_Unlock N k b s i s' :
  shape key N k b s -> fire (Unlock i) s = Some s' -> shape key N k b s'.
Proof.
  intros Hs Hfire. cbn [fire] in Hfire.
  destruct (acqs s !! i) as [a|] eqn:Ha; [|discriminate].
  cbn [mbind option_bind] in Hfire.
  destruct (a_result a) eqn:Hr; try discriminate.
  injection Hfire as <-.
  apply (keyed_shape_on_lock Lock.unlock N k b s i a); auto.
Qed.

Lemma keyed_shape_Dispose N k b s i s' :
  shape key N k b s -> fire (Dispose i) s = Some s' -> shape key N k b s'.
Proof.
  intros Hs Hfire. cbn [fire] in Hfire.
  destruct (acqs s !! i) as [a|] eqn:Ha; [|discriminate].
  cbn [mbind option_bind] in Hfire.
  destruct (a_result a) eqn:Hr; try discriminate.
  injection Hfire as <-.
  apply (keyed_shape_on_lock Lock.dispose N k b s i a); auto.
  intros l Hl. unfold Lock.dispose. destruct (Lock.unlockCalled l); auto.
Qed.

End SerialKeyedHandle.

Section SerialKeyedRelease.
Import Keyed SerialKeyed.
Variable key : string.

Lemma keyed_shape_Release_enabled N k b s i s' :
  shape key N k b s -> fire (Release i) s = Some s' ->
  i = k /\ b = true /\ (k < N)%nat
  /\ exists a, acqs s !! k = Some a /\ a_result a = Fulfilled
       /\ Lock.resolved (a_lock a) = true
       /\ s' = next_w (mkSlot (Some key) 1 1 true)
                 (set_acqs (<[k := set_released a]>) s).
Proof.
  intros Hs Hfire. cbn [fire] in Hfire.
  destruct (acqs s !! i) as [a|] eqn:Ha; [|discriminate].
  cbn [mbind option_bind] in Hfire.
  rewrite (keyed_shape_ready key N k b s i a Hs Ha) in Hfire.
  pose proof Hs as (Hlen & _ & _ & _ & Hp & _).
  destruct (Hp i a Ha) as (H1 & H2 & _ & H4 & H5 & H6 & _).
  rewrite H4, H1, H2 in Hfire.
  destruct b; [|discriminate]. cbn [andb] in Hfire.
  destruct (Nat.leb_spec i k) as [Hle|]; [|discriminate].
  destruct (Lock.resolved (a_lock a)) eqn:Hres; [|discriminate].
  destruct (Nat.ltb_spec i k) as [|Hge]; [discriminate|].
  cbn [andb negb] in Hfire. injection Hfire as <-.
  assert (i = k) by lia. subst i.
  split; [reflexivity|]. split; [reflexivity|].
  split; [rewrite <- Hlen; eapply lookup_lt_Some, Ha|].
  exists a. split; [exact Ha|]. split; [|split; [exact Hres|]].
  - destruct H5 as [H5|H5]; [|exact H5]. specialize (H6 H5). discriminate.
  - reflexivity.
Qed.

End SerialKeyedRelease.

Section SerialKeyedReleaseShape.
Import Keyed SerialKeyed.
Variable key : string.

Lemma keyed_shape_Release N k b s i s' :
  shape key N k b s -> fire (Release i) s = Some s' ->
  i = k /\ shape key N (S k) true s'.
Proof.
  intros Hs Hfire.
  destruct (keyed_shape_Release_enabled key N k b s i s' Hs Hfire)
    as (-> & -> & HkN & a & Ha & Hr & Hres & ->).
  split; [reflexivity|].
  destruct Hs as (Hlen & HN & Hk & Hb & Hp & Hi0 & Hi1 & Hq & Hbs).
  assert (Hlt : (k < length (acqs s))%nat) by (eapply lookup_lt_Some, Ha).
  destruct (Hp k a Ha) as (A1 & A2 & A3 & A4 & A5 & A6 & A7 & A8).
  unfold next_w. cbn [s_item s_key s_queue items set_acqs].
  rewrite Hi1, pop_step_pre, pop_step_resolves.
  destruct (N - S k)%nat as [|m] eqn:Em.
  - unfold advance. cbn [queues set_queues set_items set_acqs].
    rewrite list_lookup_alter_eq, Hq.
    destruct (Nat.ltb_spec k N); [|lia].
    cbn [fmap option_fmap option_map drop head mbind option_bind].
    unfold shape.
    cbn [acqs items queues barriers set_partial set_queues set_items set_acqs].
    split; [rewrite length_insert; exact Hlen|].
    split; [exact HN|]. split; [lia|]. split; [discriminate|].
    split; [|split; [|split; [|split]]].
    + intros j c Hc.
      assert (Hj : (j < N)%nat).
      { rewrite <- Hlen. apply lookup_lt_Some in Hc.
        rewrite length_insert in Hc. exact Hc. }
      destruct (decide (j = k)) as [->|Hne].
      * rewrite list_lookup_insert_eq in Hc by exact Hlt.
        injection Hc as <-.
        cbn [a_kind a_slots a_signal a_released a_result a_lock set_released].
        rewrite A2. repeat split; auto; try lia; try congruence; nat_cases.
      * rewrite list_lookup_insert_ne in Hc by congruence.
        destruct (Hp j c Hc) as (H1 & H2 & H3 & H4 & H5 & H6 & H7 & H8).
        rewrite H2, H4. repeat split; auto; try lia; nat_cases;
          try (apply H7; lia);
          try (intros [Hx|Hx]; [apply H8; left; lia|discriminate]).
    + rewrite list_lookup_insert_ne by lia. exact Hi0.
    + rewrite list_lookup_insert_eq by (eapply lookup_lt_Some, Hi1).
      replace (N - S (S k))%nat with 0%nat by lia. reflexivity.
    + rewrite list_lookup_alter_eq, Hq.
      destruct (Nat.ltb_spec k N), (Nat.ltb_spec (S k) N); try lia.
      reflexivity.
    + exact Hbs.
  - unfold shape. cbn [acqs items queues barriers set_items set_acqs].
    split; [rewrite length_alter, length_insert; exact Hlen|].
    split; [exact HN|]. split; [lia|]. split; [discriminate|].
    split; [|split; [|split; [|split]]].
    + intros j c Hc. destruct (decide (j = S k)) as [->|Hne1].
      * rewrite list_lookup_alter_eq, list_lookup_insert_ne in Hc by lia.
        destruct (acqs s !! S k) as [c0|] eqn:Hc0; [|discriminate].
        injection Hc as <-.
        destruct (Hp (S k) c0 Hc0) as (H1 & H2 & H3 & H4 & H5 & H6 & H7 & H8).
        cbn [a_kind a_slots a_signal a_released a_result a_lock resolve_step].
        rewrite H2, H4. cbn -[Nat.ltb Nat.leb Nat.eqb].
        repeat split; auto; try lia; nat_cases.
      * rewrite list_lookup_alter_ne in Hc by congruence.
        destruct (decide (j = k)) as [->|Hne].
        -- rewrite list_lookup_insert_eq in Hc by exact Hlt.
           injection Hc as <-.
           cbn [a_kind a_slots a_signal a_released a_result a_lock set_released].
           rewrite A2. repeat split; auto; try lia; try congruence; nat_cases.
        -- rewrite list_lookup_insert_ne in Hc by congruence.
           destruct (Hp j c Hc) as (H1 & H2 & H3 & H4 & H5 & H6 & H7 & H8).
           rewrite H2, H4. repeat split; auto; try lia; nat_cases;
             try (apply H7; lia);
             try (intros [Hx|Hx]; [apply H8; left; lia|discriminate]).
    + rewrite list_lookup_insert_ne by lia. exact Hi0.
    + rewrite list_lookup_insert_eq by (eapply lookup_lt_Some, Hi1).
      replace (N - S (S k))%nat with m by lia. reflexivity.
    + rewrite Hq.
      destruct (Nat.ltb_spec k N), (Nat.ltb_spec (S k) N); try lia.
      reflexivity.
    + exact Hbs.
Qed.

End SerialKeyedReleaseShape.

Section SerialKeyedRuns.
Import Keyed SerialKeyed.
Variable key : string.

Lemma keyed_run_app es1 es2 s : run (es1 ++ es2) s = run es1 s ≫= run es2.
Proof.
  revert s. induction es1 as [|e es1 IH]; intros s; simpl; [reflexivity|].
  destruct (fire e s) as [s1|]; simpl; [apply IH|reflexivity].
Qed.

Lemma keyed_shape_step N k b s e s' :
  shape key N k b s -> no_call e = true -> fire e s = Some s' ->
  exists k' b', shape key N k' b' s'.
Proof.
  intros Hs Hnc Hfire.
  destruct e as [? ?|? ?|m|i|i|i|i|i]; try discriminate.
  - destruct (keyed_shape_Barrier key N k b s m s' Hs Hfire) as (_ & _ & H).
    eauto.
  - destruct (keyed_shape_Ready key N k b s i s' Hs Hfire) as (_ & _ & H).
    eauto.
  - rewrite (keyed_shape_no_Abort key N k b s i Hs) in Hfire. discriminate.
  - eauto using keyed_shape_Unlock.
  - eauto using keyed_shape_Dispose.
  - destruct (keyed_shape_Release key N k b s i s' Hs Hfire) as (_ & H).
    eauto.
Qed.



End SerialKeyedRuns.

Section SerialKeyedComplete.
Import Keyed SerialKeyed.
Variable key : string.




End SerialKeyedComplete.



(** ** Cancellation and release through [manualLock] *)

Section InstanceCommute.
Import Instance InstanceInv.

Variable g : list acquirer -> list acquirer.

Lemma instance_advance_set_acqs c s :
  advance c (set_acqs g s) = set_acqs g (advance c s).
Proof.
  destruct s as [its cxs ow acs].
  unfold advance, set_items, set_ctxs, set_acqs. simpl.
  repeat case_match; reflexivity.
Qed.

End InstanceCommute.

Section InstanceRetag.
Import Instance InstanceInv.

Variable f : acquirer -> acquirer.
Hypothesis f_step : forall b a, f (set_step b a) = set_step b (f a).

Lemma instance_next_alter n k i c s :
  next k i c (set_acqs (alter f n) s) = set_acqs (alter f n) (next k i c s).
Proof.
  assert (Hw : next_w i c (set_acqs (alter f n) s)
               = set_acqs (alter f n) (next_w i c s)).
  { unfold next_w.
    change (items (set_acqs (alter f n) s)) with (items s).
    destruct (items s !! i) as [[r steps|r m|r]|]; try reflexivity.
    destruct (pop_step steps) as [rest [a|]].
    - destruct s as [its cxs ow acs]. unfold set_acqs, set_items. simpl.
      f_equal. apply alter_comm. intros x. symmetry. apply f_step.
    - rewrite <- instance_advance_set_acqs. reflexivity. }
  assert (Hr : next_r i c (set_acqs (alter f n) s)
               = set_acqs (alter f n) (next_r i c s)).
  { unfold next_r.
    change (items (set_acqs (alter f n) s)) with (items s).
    destruct (items s !! i) as [[r steps|r m|r]|]; try reflexivity.
    case_decide; [|reflexivity].
    rewrite <- instance_advance_set_acqs. reflexivity. }
  destruct k; assumption.
Qed.

End InstanceRetag.

Section InstanceRetagCalls.
Import Instance InstanceInv.

Variable f : acquirer -> acquirer.

Lemma arrive_w_alter n c cx m s :
  (n < length (acqs s))%nat ->
  (arrive_w c cx m (set_acqs (alter f n) s)).1
  = set_acqs (alter f n) (arrive_w c cx m s).1.
Proof.
  intros Hn. destruct s as [its cxs ow acs]. simpl in Hn.
  unfold arrive_w, set_items, set_ctxs, set_acqs. simpl.
  rewrite length_alter.
  repeat (case_match; simpl in *; simplify_eq); try reflexivity;
    f_equal; rewrite alter_app_l by exact Hn; reflexivity.
Qed.

Lemma arrive_r_alter n c cx m s :
  (n < length (acqs s))%nat ->
  (arrive_r c cx m (set_acqs (alter f n) s)).1
  = set_acqs (alter f n) (arrive_r c cx m s).1.
Proof.
  intros Hn. destruct s as [its cxs ow acs]. simpl in Hn.
  unfold arrive_r, set_items, set_ctxs, set_acqs. simpl.
  repeat (case_match; simpl in *; simplify_eq); try reflexivity;
    f_equal; rewrite alter_app_l by exact Hn; reflexivity.
Qed.

Lemma classMethod_alter n k m s :
  (n < length (acqs s))%nat ->
  (classMethod k m (set_acqs (alter f n) s)).1
  = set_acqs (alter f n) (classMethod k m s).1.
Proof.
  intros Hn. unfold classMethod.
  change (owner (set_acqs (alter f n) s)) with (owner s).
  change (ctxs (set_acqs (alter f n) s)) with (ctxs s).
  destruct (owner s ≫= _) as [[c cx]|]; [|reflexivity].
  destruct k; try (apply arrive_r_alter; exact Hn).
  destruct (lockType cx) as [[]|]; try reflexivity;
    apply arrive_w_alter; exact Hn.
Qed.

Lemma initializeInstance_alter n s :
  initializeInstance (set_acqs (alter f n) s)
  = set_acqs (alter f n) (initializeInstance s).
Proof.
  unfold initializeInstance.
  change (owner (set_acqs (alter f n) s)) with (owner s).
  destruct (owner s); reflexivity.
Qed.

Lemma acqs_initializeInstance s : acqs (initializeInstance s) = acqs s.
Proof. unfold initializeInstance. destruct (owner s); reflexivity. Qed.

Lemma manualLock_alter n k sig s :
  (n < length (acqs s))%nat ->
  (manualLock k sig (set_acqs (alter f n) s)).1
  = set_acqs (alter f n) (manualLock k sig s).1.
Proof.
  intros Hn. unfold manualLock.
  destruct sig as [[[] r]|]; try reflexivity;
    rewrite initializeInstance_alter; apply classMethod_alter;
    rewrite acqs_initializeInstance; exact Hn.
Qed.

End InstanceRetagCalls.

Section InstanceCancel.
Import Instance InstanceInv.

Lemma retag_manual_step o l b a :
  set_manual (retag_manual o l) (set_step b a)
  = set_step b (set_manual (retag_manual o l) a).
Proof. reflexivity. Qed.

Lemma instance_retag_insert n m o l x s :
  m <> n ->
  set_acqs (<[m := x]>) (retag n o l s) = retag n o l (set_acqs (<[m := x]>) s).
Proof.
  intros Hne. destruct s as [its cxs ow acs]. unfold retag, set_acqs. simpl.
  f_equal. apply insert_alter_ne. exact Hne.
Qed.

Lemma instance_retag_alter n m o l h s :
  m <> n ->
  set_acqs (alter h m) (retag n o l s) = retag n o l (set_acqs (alter h m) s).
Proof.
  intros Hne. destruct s as [its cxs ow acs]. unfold retag, set_acqs. simpl.
  f_equal. apply list_alter_alter_ne. exact Hne.
Qed.

Lemma instance_acqs_retag n o l s :
  acqs (retag n o l s) = alter (set_manual (retag_manual o l)) n (acqs s).
Proof. reflexivity. Qed.

Lemma instance_fire_retag n o l e s :
  (n < length (acqs s))%nat -> about e <> Some n ->
  fire e (retag n o l s) = retag n o l <$> fire e s.
Proof.
  intros Hn Hab.
  destruct e as [|k|k sig|m|m|m|m|m]; simpl in Hab.
  - simpl. f_equal. apply initializeInstance_alter.
  - simpl. f_equal. apply classMethod_alter. exact Hn.
  - simpl. f_equal. apply manualLock_alter. exact Hn.
  - assert (Hne : m <> n) by congruence.
    cbn [fire]. rewrite instance_acqs_retag.
    rewrite list_lookup_alter_ne by congruence.
    destruct (acqs s !! m) as [a|]; [|reflexivity].
    cbn [mbind option_bind].
    destruct (a_phase a); try reflexivity.
    change (acq_ready (retag n o l s) a) with (acq_ready s a).
    destruct (acq_ready s a); [|reflexivity].
    cbn [fmap option_fmap option_map]. f_equal.
    unfold start, assign_context.
    change (ctxs (retag n o l s)) with (ctxs s).
    exact (instance_retag_insert n m o l _
             (set_owner (Some (length (ctxs s)))
                (set_ctxs (fun cs => cs ++ [new_context (Some (a_kind a))]) s))
             Hne).
  - assert (Hne : m <> n) by congruence.
    cbn [fire]. rewrite instance_acqs_retag.
    rewrite list_lookup_alter_ne by congruence.
    destruct (acqs s !! m) as [a|]; [|reflexivity].
    cbn [mbind option_bind].
    assert (Hfin : finish m a (retag n o l s) = retag n o l (finish m a s)).
    { unfold finish, assign_context.
      unfold retag at 2.
      rewrite <- (instance_next_alter _ (retag_manual_step o l)).
      f_equal.
      exact (instance_retag_insert n m o l _ (set_owner (Some (a_ctx a)) s) Hne). }
    destruct (a_phase a), (a_manual a) as [mm|]; try reflexivity.
    + destruct (Lock.resolved (m_lock mm)); [|reflexivity].
      cbn [fmap option_fmap option_map]. f_equal. exact Hfin.
    + cbn [fmap option_fmap option_map]. f_equal. exact Hfin.
  - assert (Hne : m <> n) by congruence.
    cbn [fire]. rewrite instance_acqs_retag.
    rewrite list_lookup_alter_ne by congruence.
    destruct (acqs s !! m) as [a|]; [|reflexivity].
    cbn [mbind option_bind].
    destruct (a_manual a) as [mm|]; [|reflexivity].
    cbn [mbind option_bind].
    destruct (m_result mm), (m_signal mm); try reflexivity.
    cbn [fmap option_fmap option_map]. f_equal.
    apply (instance_retag_alter n m o l _ _ Hne).
  - assert (Hne : m <> n) by congruence.
    cbn [fire]. rewrite instance_acqs_retag.
    rewrite list_lookup_alter_ne by congruence.
    destruct (acqs s !! m) as [a|]; [|reflexivity].
    cbn [mbind option_bind].
    destruct (a_manual a) as [mm|]; [|reflexivity].
    cbn [mbind option_bind].
    destruct (m_result mm); try reflexivity.
    cbn [fmap option_fmap option_map]. f_equal.
    apply (instance_retag_alter n m o l _ _ Hne).
  - assert (Hne : m <> n) by congruence.
    cbn [fire]. rewrite instance_acqs_retag.
    rewrite list_lookup_alter_ne by congruence.
    destruct (acqs s !! m) as [a|]; [|reflexivity].
    cbn [mbind option_bind].
    destruct (a_manual a) as [mm|]; [|reflexivity].
    cbn [mbind option_bind].
    destruct (m_result mm); try reflexivity.
    cbn [fmap option_fmap option_map]. f_equal.
    apply (instance_retag_alter n m o l _ _ Hne).
Qed.

End InstanceCancel.

Section InstanceHistory.
Import Instance InstanceInv.

Lemma instance_same_call_refl a : same_call a a.
Proof. repeat split. Qed.

Lemma instance_same_call_trans a b c :
  same_call a b -> same_call b c -> same_call a c.
Proof. unfold same_call. intuition congruence. Qed.

Lemma instance_Forall2_same_refl l : Forall2 same_call l l.
Proof. induction l; constructor; auto using instance_same_call_refl. Qed.

Lemma instance_Forall2_same_alter b n l :
  Forall2 same_call l (alter (set_step b) n l).
Proof.
  revert n. induction l as [|a l IH]; intros [|n]; cbn; constructor;
    auto using instance_same_call_refl, instance_Forall2_same_refl.
  repeat split.
Qed.

Lemma instance_acqs_advance c s : acqs (advance c s) = acqs s.
Proof. unfold advance. repeat case_match; reflexivity. Qed.

Lemma instance_same_call_next k i c s :
  Forall2 same_call (acqs s) (acqs (next k i c s)).
Proof.
  destruct k; simpl; unfold next_w, next_r; repeat case_match; simpl;
    rewrite ?instance_acqs_advance; simpl;
    auto using instance_Forall2_same_refl, instance_Forall2_same_alter.
Qed.

Lemma acqs_classMethod k m s :
  acqs (classMethod k m s).1 = acqs s
  \/ exists a, acqs (classMethod k m s).1 = acqs s ++ [a]
       /\ a_phase a = Waiting /\ a_manual a = m.
Proof.
  unfold classMethod, arrive_w, arrive_r.
  repeat (case_match; simpl in *; simplify_eq); auto; right; eexists;
    (split; [reflexivity|split; reflexivity]).
Qed.

Lemma acqs_manualLock k sig s :
  acqs (manualLock k sig s).1 = acqs s
  \/ exists a, acqs (manualLock k sig s).1 = acqs s ++ [a]
       /\ a_phase a = Waiting
       /\ a_manual a = Some (mkManual Pending Lock.create (reason <$> sig)).
Proof.
  unfold manualLock. destruct sig as [[[] r]|]; auto.
  - destruct (acqs_classMethod k
      (Some (mkManual Pending Lock.create (reason <$> Some (mkSignal false r))))
      (initializeInstance s)) as [H|(a & H & H1 & H2)];
      rewrite acqs_initializeInstance in H; eauto.
  - destruct (acqs_classMethod k
      (Some (mkManual Pending Lock.create (reason <$> None)))
      (initializeInstance s)) as [H|(a & H & H1 & H2)];
      rewrite acqs_initializeInstance in H; eauto.
Qed.

End InstanceHistory.

Section InstanceAcquirerHistory.
Import Instance InstanceInv.

Lemma kept_refl e n a : kept e n a a.
Proof.
  split; [reflexivity|]. split; [eauto|]. intros _.
  apply instance_same_call_refl.
Qed.

Lemma kept_same e n a a' : same_call a a' -> kept e n a a'.
Proof.
  intros Hs. pose proof Hs as (_ & _ & _ & _ & Hm).
  split; [rewrite Hm; reflexivity|]. split; [|auto].
  intros m Ha _. exists m. split; [congruence|reflexivity].
Qed.

Lemma instance_fire_acq e s s' n a :
  fire e s = Some s' -> acqs s !! n = Some a ->
  exists a', acqs s' !! n = Some a' /\ kept e n a a'.
Proof.
  intros Hfire Ha.
  assert (Hlt : (n < length (acqs s))%nat) by (eapply lookup_lt_Some, Ha).
  assert (Hsame : acqs s' !! n = Some a ->
                  exists a', acqs s' !! n = Some a' /\ kept e n a a').
  { intros H. exists a. split; [exact H|apply kept_refl]. }
  assert (Happ : forall x, acqs s' = acqs s \/ acqs s' = acqs s ++ [x] ->
                 exists a', acqs s' !! n = Some a' /\ kept e n a a').
  { intros x [H|H]; apply Hsame; rewrite H; [exact Ha|].
    rewrite lookup_app_l by exact Hlt. exact Ha. }
  assert (Halt : forall m h, about e = Some m ->
    acqs s' = alter (set_manual h) m (acqs s) ->
    (forall mm, a_manual a = Some mm -> m_signal (h mm) = m_signal mm) ->
    (forall mm, m = n -> a_manual a = Some mm -> m_result mm <> Pending ->
       m_result (h mm) = m_result mm) ->
    exists a', acqs s' !! n = Some a' /\ kept e n a a').
  { intros m h Hab Hs' Hsig Hres.
    destruct (decide (m = n)) as [->|Hne].
    - exists (set_manual h a). rewrite Hs', list_lookup_alter_eq, Ha.
      split; [reflexivity|]. split; [|split].
      + cbn. destruct (a_manual a) as [mm|]; cbn; [|reflexivity].
        f_equal. auto.
      + intros mm Hmm Hp. exists (h mm). cbn. rewrite Hmm. cbn. auto.
      + intros Hc. congruence.
    - apply Hsame. rewrite Hs', list_lookup_alter_ne by exact Hne. exact Ha. }
  destruct e as [|k|k sig|m|m|m|m|m]; cbn [fire] in Hfire.
  - injection Hfire as <-. apply Hsame.
    rewrite acqs_initializeInstance. exact Ha.
  - injection Hfire as <-.
    destruct (acqs_classMethod k None s) as [H|(x & H & _)];
      [apply (Happ a)|apply (Happ x)]; auto.
  - injection Hfire as <-.
    destruct (acqs_manualLock k sig s) as [H|(x & H & _)];
      [apply (Happ a)|apply (Happ x)]; auto.
  - destruct (acqs s !! m) as [am|] eqn:Hm; [|discriminate].
    cbn [mbind option_bind] in Hfire.
    destruct (a_phase am); try discriminate.
    destruct (acq_ready s am); [|discriminate]. injection Hfire as <-.
    destruct (decide (m = n)) as [->|Hne].
    + assert (am = a) by congruence. subst am.
      eexists. split.
      { unfold start. cbn [acqs set_acqs assign_context set_owner set_ctxs].
        apply list_lookup_insert_eq. exact Hlt. }
      split; [|split].
      * cbn. destruct (a_manual a) as [mm|]; cbn; [|reflexivity].
        destruct (m_result mm); reflexivity.
      * intros mm Hmm Hp. cbn. rewrite Hmm. cbn.
        destruct (m_result mm) eqn:Hr; try congruence; eauto.
      * intros Hc. cbn in Hc. congruence.
    + apply Hsame. unfold start.
      cbn [acqs set_acqs assign_context set_owner set_ctxs].
      rewrite list_lookup_insert_ne by exact Hne. exact Ha.
  - destruct (acqs s !! m) as [am|] eqn:Hm; [|discriminate].
    cbn [mbind option_bind] in Hfire.
    assert (Hs' : s' = finish m am s).
    { destruct (a_phase am), (a_manual am) as [mm|]; try discriminate;
        [destruct (Lock.resolved (m_lock mm)); [|discriminate]|];
        injection Hfire as <-; reflexivity. }
    subst s'. unfold finish.
    pose proof (instance_same_call_next (a_kind am) (a_item am) (a_ctx am)
                  (set_acqs (<[m := set_phase Finished am]>)
                     (assign_context (a_ctx am) s))) as HF.
    cbn [acqs set_acqs assign_context set_owner] in HF.
    destruct (decide (m = n)) as [->|Hne].
    + assert (am = a) by congruence. subst am.
      assert (Hx : <[n := set_phase Finished a]> (acqs s) !! n
                   = Some (set_phase Finished a))
        by (apply list_lookup_insert_eq; exact Hlt).
      destruct (Forall2_lookup_l _ _ _ _ _ HF Hx) as (a' & Ha' & Hs).
      exists a'. split; [exact Ha'|].
      destruct Hs as (_ & _ & _ & _ & Hman). cbn in Hman.
      split; [rewrite <- Hman; reflexivity|]. split.
      * intros mm Hmm _. exists mm. split; [congruence|reflexivity].
      * intros Hc. cbn in Hc. congruence.
    + assert (Hx : <[m := set_phase Finished am]> (acqs s) !! n = Some a)
        by (rewrite list_lookup_insert_ne by exact Hne; exact Ha).
      destruct (Forall2_lookup_l _ _ _ _ _ HF Hx) as (a' & Ha' & Hs).
      exists a'. split; [exact Ha'|]. apply kept_same, Hs.
  - destruct (acqs s !! m) as [am|] eqn:Hm; [|discriminate].
    cbn [mbind option_bind] in Hfire.
    destruct (a_manual am) as [mm|] eqn:Hmm; [|discriminate].
    cbn [mbind option_bind] in Hfire.
    destruct (m_result mm) eqn:Hr, (m_signal mm); try discriminate.
    injection Hfire as <-.
    eapply (Halt m); [reflexivity|reflexivity|reflexivity|].
    intros mm' -> Hmm' Hp. assert (am = a) by congruence. subst am.
    assert (mm' = mm) by congruence. subst mm'. congruence.
  - destruct (acqs s !! m) as [am|] eqn:Hm; [|discriminate].
    cbn [mbind option_bind] in Hfire.
    destruct (a_manual am) as [mm|] eqn:Hmm; [|discriminate].
    cbn [mbind option_bind] in Hfire.
    destruct (m_result mm) eqn:Hr; try discriminate.
    injection Hfire as <-.
    eapply (Halt m); [reflexivity|reflexivity|reflexivity|reflexivity].
  - destruct (acqs s !! m) as [am|] eqn:Hm; [|discriminate].
    cbn [mbind option_bind] in Hfire.
    destruct (a_manual am) as [mm|] eqn:Hmm; [|discriminate].
    cbn [mbind option_bind] in Hfire.
    destruct (m_result mm) eqn:Hr; try discriminate.
    injection Hfire as <-.
    eapply (Halt m); [reflexivity|reflexivity|reflexivity|reflexivity].
Qed.

End InstanceAcquirerHistory.

Section InstanceCancelRuns.
Import Instance InstanceInv.

Lemma instance_run_acq es s s' n a :
  run es s = Some s' -> acqs s !! n = Some a ->
  exists a', acqs s' !! n = Some a'
    /\ (m_signal <$> a_manual a') = (m_signal <$> a_manual a)
    /\ (forall m, a_manual a = Some m -> m_result m <> Pending ->
          exists m', a_manual a' = Some m' /\ m_result m' = m_result m)
    /\ (Forall (fun e => about e <> Some n) es -> same_call a a').
Proof.
  revert s a. induction es as [|e es IH]; intros s a Hrun Ha; simpl in Hrun.
  - injection Hrun as <-. exists a. split; [exact Ha|].
    split; [reflexivity|]. split; [eauto|].
    intros _. apply instance_same_call_refl.
  - destruct (fire e s) as [s1|] eqn:E; simpl in Hrun; [|discriminate].
    destruct (instance_fire_acq e s s1 n a E Ha) as (a1 & Ha1 & K1 & K2 & K3).
    destruct (IH s1 a1 Hrun Ha1) as (a' & Ha' & L1 & L2 & L3).
    exists a'. split; [exact Ha'|]. split; [congruence|]. split.
    + intros m Hm Hp. destruct (K2 m Hm Hp) as (m1 & Hm1 & Hr1).
      destruct (L2 m1 Hm1) as (m' & Hm' & Hr'); [congruence|].
      exists m'. split; [exact Hm'|congruence].
    + intros HF. inversion HF; subst.
      eapply instance_same_call_trans; eauto.
Qed.

Lemma instance_run_retag n o l es s :
  (n < length (acqs s))%nat ->
  Forall (fun e => about e <> Some n) es ->
  run es (retag n o l s) = retag n o l <$> run es s.
Proof.
  revert s. induction es as [|e es IH]; intros s Hn HF; simpl.
  - reflexivity.
  - inversion HF; subst.
    rewrite instance_fire_retag by assumption.
    destruct (fire e s) as [s1|] eqn:E; simpl; [|reflexivity].
    apply IH; [|assumption].
    destruct (lookup_lt_is_Some_2 (acqs s) n Hn) as [a Ha].
    destruct (instance_fire_acq e s s1 n a E Ha) as (a1 & Ha1 & _).
    eapply lookup_lt_Some, Ha1.
Qed.

Lemma instance_fire_Abort_inv s n s1 :
  fire (Abort n) s = Some s1 ->
  exists a m r, acqs s !! n = Some a /\ a_manual a = Some m
    /\ m_result m = Pending /\ m_signal m = Some r
    /\ s1 = retag n (Rejected (AbortReason r)) (Lock.resolve (m_lock m)) s.
Proof.
  cbn [fire]. destruct (acqs s !! n) as [a|] eqn:Ha; [|discriminate].
  cbn [mbind option_bind].
  destruct (a_manual a) as [m|] eqn:Hm; [|discriminate].
  cbn [mbind option_bind].
  destruct (m_result m) eqn:Hr, (m_signal m) as [r|] eqn:Hs; try discriminate.
  intros [= <-]. exists a, m, r. repeat split; auto.
  unfold retag, set_acqs. f_equal.
  apply list_eq. intros i. destruct (decide (i = n)) as [->|Hne].
  - rewrite !list_lookup_alter_eq, Ha. cbn. unfold set_manual, retag_manual.
    rewrite Hm. cbn. rewrite Hs. reflexivity.
  - rewrite !list_lookup_alter_ne by congruence. reflexivity.
Qed.

End InstanceCancelRuns.

Section InstanceCancelRelease.
Import Instance InstanceInv.

Lemma instance_queues_of_advance c s s' :
  queues_of s = queues_of s' ->
  queues_of (advance c s) = queues_of (advance c s').
Proof.
  unfold queues_of. intros [= Hi Hc Ho].
  unfold advance. simpl. rewrite Hc.
  repeat case_match; simpl; congruence.
Qed.

Lemma instance_queues_of_next k i c s s' :
  queues_of s = queues_of s' ->
  queues_of (next k i c s) = queues_of (next k i c s').
Proof.
  intros H. pose proof H as Hq. unfold queues_of in Hq.
  injection Hq as Hi Hc Ho.
  assert (Hw : queues_of (next_w i c s) = queues_of (next_w i c s')).
  { unfold next_w. rewrite Hi.
    destruct (items s' !! i) as [[r steps|r m|r]|]; try exact H.
    destruct (pop_step steps) as [rest [a|]].
    - unfold queues_of. simpl. congruence.
    - apply instance_queues_of_advance. unfold queues_of. simpl. congruence. }
  assert (Hr : queues_of (next_r i c s) = queues_of (next_r i c s')).
  { unfold next_r. rewrite Hi.
    destruct (items s' !! i) as [[r steps|r m|r]|]; try exact H.
    case_decide.
    - apply instance_queues_of_advance. unfold queues_of. simpl. congruence.
    - unfold queues_of. simpl. congruence. }
  destruct k; assumption.
Qed.

Lemma instance_fire_Start_eq s n a :
  acqs s !! n = Some a -> a_phase a = Waiting ->
  fire (Start n) s = if acq_ready s a then Some (start n a s) else None.
Proof. intros Ha Hp. cbn [fire]. rewrite Ha. cbn. rewrite Hp. reflexivity. Qed.

Lemma instance_fire_Finish_eq s n a m :
  acqs s !! n = Some a -> a_phase a = Running -> a_manual a = Some m ->
  fire (Finish n) s
  = if Lock.resolved (m_lock m) then Some (finish n a s) else None.
Proof.
  intros Ha Hp Hm. cbn [fire]. rewrite Ha. cbn. rewrite Hp, Hm. reflexivity.
Qed.

Lemma instance_fire_Unlock_eq s n a m :
  acqs s !! n = Some a -> a_manual a = Some m -> m_result m = Fulfilled ->
  fire (Unlock n) s
  = Some (set_acqs (alter (set_manual (on_lock Lock.unlock)) n) s).
Proof.
  intros Ha Hm Hr. cbn [fire]. rewrite Ha. cbn. rewrite Hm. cbn.
  rewrite Hr. reflexivity.
Qed.

Lemma queues_of_finish n a b s s' :
  queues_of s = queues_of s' ->
  a_kind a = a_kind b -> a_item a = a_item b -> a_ctx a = a_ctx b ->
  queues_of (finish n a s) = queues_of (finish n b s').
Proof.
  intros H Hk Hi Hc. unfold finish. rewrite Hk, Hi, Hc.
  apply instance_queues_of_next.
  unfold queues_of in *. simpl. congruence.
Qed.

End InstanceCancelRelease.

Section InstanceCancelEquiv.
Import Instance InstanceInv.

Lemma acqs_start_lookup n a s :
  acqs s !! n = Some a ->
  exists a1, acqs (start n a s) !! n = Some a1
    /\ a_kind a1 = a_kind a /\ a_item a1 = a_item a /\ a_ctx a1 = a_ctx a
    /\ a_phase a1 = Running
    /\ a_manual a1
       = (fun m => match m_result m with
                   | Pending => mkManual Fulfilled (m_lock m) (m_signal m)
                   | _ => m
                   end) <$> a_manual a.
Proof.
  intros Ha. eexists. split.
  - unfold start. cbn [acqs set_acqs assign_context set_owner set_ctxs].
    apply list_lookup_insert_eq. eapply lookup_lt_Some, Ha.
  - repeat split.
Qed.

Lemma instance_release_after_cancel s n a m e l :
  acqs s !! n = Some a -> a_manual a = Some m -> m_result m = Pending ->
  a_phase a = Waiting -> Lock.resolved l = true ->
  queues_of <$> run [Start n; Finish n] (retag n (Rejected e) l s)
  = queues_of <$> run [Start n; Unlock n; Finish n] s
  /\ (acq_ready s a = true ->
      is_Some (run [Start n; Finish n] (retag n (Rejected e) l s))).
Proof.
  intros Ha Hm Hr Hp Hl.
  set (ar := set_manual (retag_manual (Rejected e) l) a).
  assert (Har : acqs (retag n (Rejected e) l s) !! n = Some ar).
  { rewrite instance_acqs_retag, list_lookup_alter_eq, Ha. reflexivity. }
  cbn [run].
  rewrite (instance_fire_Start_eq _ n ar Har Hp).
  rewrite (instance_fire_Start_eq s n a Ha Hp).
  change (acq_ready (retag n (Rejected e) l s) ar) with (acq_ready s a).
  destruct (acq_ready s a); [|split; [reflexivity|discriminate]].
  cbn [mbind option_bind].
  destruct (acqs_start_lookup n ar _ Har)
    as (aL & HaL & KL & IL & CL & PL & ML).
  destruct (acqs_start_lookup n a s Ha) as (a1 & Ha1 & K1 & I1 & C1 & P1 & M1).
  assert (ML' : a_manual aL = Some (mkManual (Rejected e) l (m_signal m))).
  { rewrite ML. unfold ar. cbn. rewrite Hm. reflexivity. }
  assert (M1' : a_manual a1 = Some (mkManual Fulfilled (m_lock m) (m_signal m))).
  { rewrite M1, Hm. cbn. rewrite Hr. reflexivity. }
  rewrite (instance_fire_Finish_eq _ n aL _ HaL PL ML'). cbn [m_lock].
  rewrite Hl.
  rewrite (instance_fire_Unlock_eq _ n a1 _ Ha1 M1' eq_refl).
  cbn [mbind option_bind].
  set (t2 := set_acqs (alter (set_manual (on_lock Lock.unlock)) n) (start n a s)).
  assert (Ha2 : acqs t2 !! n = Some (set_manual (on_lock Lock.unlock) a1)).
  { unfold t2. cbn [acqs set_acqs]. rewrite list_lookup_alter_eq, Ha1.
    reflexivity. }
  assert (M2 : a_manual (set_manual (on_lock Lock.unlock) a1)
               = Some (on_lock Lock.unlock
                         (mkManual Fulfilled (m_lock m) (m_signal m)))).
  { cbn. rewrite M1'. reflexivity. }
  rewrite (instance_fire_Finish_eq t2 n _ _ Ha2 P1 M2).
  cbn [m_lock on_lock Lock.unlock Lock.resolve Lock.resolved].
  cbn [mbind option_bind fmap option_fmap option_map].
  split; [|eauto]. f_equal.
  apply queues_of_finish; [reflexivity| | |];
    cbn [a_kind a_item a_ctx set_manual];
    rewrite ?KL, ?IL, ?CL, ?K1, ?I1, ?C1; reflexivity.
Qed.

End InstanceCancelEquiv.

Section InstancePendingWaits.
Import Instance InstanceInv.

Lemma pending_waits_same a b :
  same_call a b -> pending_waits a -> pending_waits b.
Proof.
  intros (_ & _ & _ & Hp & Hm) H m Hbm Hr. rewrite <- Hp.
  apply H; congruence.
Qed.

Lemma Forall_pending_waits_same l1 l2 :
  Forall2 same_call l1 l2 ->
  Forall pending_waits l1 -> Forall pending_waits l2.
Proof.
  induction 1; intros HF; inversion HF; subst; constructor;
    eauto using pending_waits_same.
Qed.

Lemma pending_waits_step e s s' :
  Forall pending_waits (acqs s) -> fire e s = Some s' ->
  Forall pending_waits (acqs s').
Proof.
  intros HF Hfire.
  assert (Happ : forall x, a_phase x = Waiting ->
                 (forall m, a_manual x = Some m -> m_result m = Pending ->
                            Lock.resolved (m_lock m) = false) ->
                 Forall pending_waits (acqs s ++ [x])).
  { intros x Hp Hl. apply Forall_app. split; [exact HF|].
    constructor; [|constructor]. intros m Hm Hr. split; eauto. }
  assert (Halt : forall n h,
    (forall m, m_result (h m) = Pending -> False) ->
    Forall pending_waits (alter (set_manual h) n (acqs s))).
  { intros n h Hh. apply Forall_alter; [exact HF|].
    intros a _ _ m Hm Hr. exfalso. cbn in Hm.
    destruct (a_manual a) as [m0|]; [|discriminate].
    injection Hm as <-. eauto. }
  destruct e as [|k|k sig|n|n|n|n|n]; cbn [fire] in Hfire.
  - injection Hfire as <-. rewrite acqs_initializeInstance. exact HF.
  - injection Hfire as <-.
    destruct (acqs_classMethod k None s) as [->|(x & -> & Hp & Hm)];
      [exact HF|].
    apply Happ; [exact Hp|]. intros m Hxm. congruence.
  - injection Hfire as <-.
    destruct (acqs_manualLock k sig s) as [->|(x & -> & Hp & Hm)];
      [exact HF|].
    apply Happ; [exact Hp|]. intros m Hxm _. rewrite Hm in Hxm.
    injection Hxm as <-. reflexivity.
  - destruct (acqs s !! n) as [a|] eqn:Ha; [|discriminate].
    cbn [mbind option_bind] in Hfire.
    destruct (a_phase a); try discriminate.
    destruct (acq_ready s a); [|discriminate]. injection Hfire as <-.
    unfold start. cbn [acqs set_acqs assign_context set_owner set_ctxs].
    apply Forall_insert; [exact HF|].
    intros m Hm Hr. exfalso. cbn in Hm.
    destruct (a_manual a) as [m0|]; [|discriminate].
    injection Hm as <-. destruct (m_result m0) eqn:E; cbn in Hr; congruence.
  - destruct (acqs s !! n) as [a|] eqn:Ha; [|discriminate].
    cbn [mbind option_bind] in Hfire.
    assert (Hs' : a_phase a = Running /\ s' = finish n a s).
    { destruct (a_phase a), (a_manual a) as [mm|]; try discriminate;
        [destruct (Lock.resolved (m_lock mm)); [|discriminate]|];
        injection Hfire as <-; auto. }
    destruct Hs' as [Hrun ->]. unfold finish.
    eapply Forall_pending_waits_same; [apply instance_same_call_next|].
    cbn [acqs set_acqs assign_context set_owner].
    apply Forall_insert; [exact HF|].
    intros m Hm Hr. cbn in Hm.
    destruct (Forall_lookup_1 _ _ _ _ HF Ha m Hm Hr) as [Hw _]. congruence.
  - destruct (acqs s !! n) as [a|] eqn:Ha; [|discriminate].
    cbn [mbind option_bind] in Hfire.
    destruct (a_manual a) as [mm|] eqn:Hmm; [|discriminate].
    cbn [mbind option_bind] in Hfire.
    destruct (m_result mm) eqn:Hr, (m_signal mm); try discriminate.
    injection Hfire as <-. apply Halt. intros m. discriminate.
  - destruct (acqs s !! n) as [a|] eqn:Ha; [|discriminate].
    cbn [mbind option_bind] in Hfire.
    destruct (a_manual a) as [mm|] eqn:Hmm; [|discriminate].
    cbn [mbind option_bind] in Hfire.
    destruct (m_result mm) eqn:Hr; try discriminate.
    injection Hfire as <-. cbn [acqs set_acqs].
    apply Forall_alter; [exact HF|].
    intros a0 Ha0 Hpw m Hm Hr0. cbn in Hm.
    assert (a0 = a) by congruence. subst a0. rewrite Hmm in Hm.
    injection Hm as <-. cbn in Hr0. congruence.
  - destruct (acqs s !! n) as [a|] eqn:Ha; [|discriminate].
    cbn [mbind option_bind] in Hfire.
    destruct (a_manual a) as [mm|] eqn:Hmm; [|discriminate].
    cbn [mbind option_bind] in Hfire.
    destruct (m_result mm) eqn:Hr; try discriminate.
    injection Hfire as <-. cbn [acqs set_acqs].
    apply Forall_alter; [exact HF|].
    intros a0 Ha0 Hpw m Hm Hr0. cbn in Hm.
    assert (a0 = a) by congruence. subst a0. rewrite Hmm in Hm.
    injection Hm as <-. cbn in Hr0. congruence.
Qed.

End InstancePendingWaits.

Section InstanceCancelTheorem.
Import Instance InstanceInv.

(** Cancellation through [manualLock]. *)
Lemma manual_canceled_waiter_still_releases
    (es0 es : list event) (s0 s1 s' : state) (n : nat) :
  run es0 init = Some s0 ->
  fire (Abort n) s0 = Some s1 ->
  Forall (fun e => about e <> Some n) es ->
  run es s1 = Some s' ->
  exists r a m s'',
    acqs s' !! n = Some a
    /\ a_manual a = Some m
    /\ m_signal m = Some r
    /\ m_result m = Rejected (AbortReason r)
    /\ run es s0 = Some s''
    /\ queues_of s' = queues_of s''
    /\ queues_of <$> run [Start n; Finish n] s'
       = queues_of <$> run [Start n; Unlock n; Finish n] s''
    /\ (acq_ready s' a = true -> is_Some (run [Start n; Finish n] s'))
    /\ (forall es' t, run es' s' = Some t ->
          exists a' m', acqs t !! n = Some a' /\ a_manual a' = Some m'
            /\ m_result m' = Rejected (AbortReason r)).
Proof.
  intros Hreach Habort Hes Hrun.
  apply instance_fire_Abort_inv in Habort
    as (a0 & m0 & r & Ha0 & Hm0 & Hres0 & Hsig0 & ->).
  assert (Hlt : (n < length (acqs s0))%nat) by (eapply lookup_lt_Some, Ha0).
  rewrite instance_run_retag in Hrun by assumption.
  destruct (run es s0) as [s''|] eqn:Hrun0; [|discriminate].
  injection Hrun as <-.
  destruct (instance_run_acq es s0 s'' n a0 Hrun0 Ha0)
    as (a'' & Ha'' & _ & _ & Hsame).
  destruct (Hsame Hes) as (_ & _ & _ & Hph & Hman).
  assert (Hinv : Forall pending_waits (acqs s0)).
  { eapply (instance_run_invariant
              (fun s => Forall pending_waits (acqs s))); [| |exact Hreach].
    - intros e t t'. apply pending_waits_step.
    - constructor. }
  destruct (Forall_lookup_1 _ _ _ _ Hinv Ha0 m0 Hm0 Hres0) as [Hw0 _].
  assert (Hm'' : a_manual a'' = Some m0) by congruence.
  assert (Hw'' : a_phase a'' = Waiting) by congruence.
  set (o := Rejected (AbortReason r)).
  set (l := Lock.resolve (m_lock m0)).
  assert (Ha : acqs (retag n o l s'') !! n
               = Some (set_manual (retag_manual o l) a'')).
  { rewrite instance_acqs_retag, list_lookup_alter_eq, Ha''. reflexivity. }
  destruct (instance_release_after_cancel s'' n a'' m0 (AbortReason r) l
              Ha'' Hm'' Hres0 Hw'' eq_refl) as [Heq Hen].
  exists r, (set_manual (retag_manual o l) a''), (retag_manual o l m0), s''.
  split; [exact Ha|].
  split; [cbn; rewrite Hm''; reflexivity|].
  split; [exact Hsig0|]. split; [reflexivity|]. split; [reflexivity|].
  split; [reflexivity|]. split; [exact Heq|]. split; [exact Hen|].
  intros es' t Ht.
  destruct (instance_run_acq es' _ t n _ Ht Ha) as (at' & Hat & _ & Hst & _).
  destruct (Hst (retag_manual o l m0)) as (m' & Hm' & Hr').
  - cbn. rewrite Hm''. reflexivity.
  - discriminate.
  - exists at', m'. auto.
Qed.

End InstanceCancelTheorem.

Section InstanceRelease.
Import Instance InstanceInv.

Lemma instance_fire_on_lock_inv (f : Lock.t -> Lock.t) s n s' :
  (a ← acqs s !! n; m ← a_manual a;
   match m_result m with
   | Fulfilled => Some (set_acqs (alter (set_manual (on_lock f)) n) s)
   | _ => None
   end) = Some s' ->
  exists a m, acqs s !! n = Some a /\ a_manual a = Some m
    /\ m_result m = Fulfilled
    /\ s' = set_acqs (alter (set_manual (on_lock f)) n) s
    /\ acqs s' !! n = Some (set_manual (on_lock f) a).
Proof.
  destruct (acqs s !! n) as [a|] eqn:Ha; [|discriminate].
  cbn [mbind option_bind].
  destruct (a_manual a) as [m|] eqn:Hm; [|discriminate].
  cbn [mbind option_bind].
  destruct (m_result m) eqn:Hr; try discriminate.
  intros [= <-]. exists a, m. repeat split; auto.
  cbn [acqs set_acqs]. rewrite list_lookup_alter_eq, Ha. reflexivity.
Qed.

Lemma instance_fire_Finish_finished s n a :
  acqs s !! n = Some a -> a_phase a = Finished -> fire (Finish n) s = None.
Proof. intros Ha Hp. cbn [fire]. rewrite Ha. cbn. rewrite Hp. reflexivity. Qed.

Lemma instance_fire_Finish_inv s n s' :
  fire (Finish n) s = Some s' ->
  exists a, acqs s !! n = Some a /\ a_phase a = Running
    /\ s' = finish n a s
    /\ exists a', acqs s' !! n = Some a' /\ a_phase a' = Finished
         /\ a_manual a' = a_manual a.
Proof.
  cbn [fire]. destruct (acqs s !! n) as [a|] eqn:Ha; [|discriminate].
  cbn [mbind option_bind]. intros Hfire.
  assert (Hs' : a_phase a = Running /\ s' = finish n a s).
  { destruct (a_phase a), (a_manual a) as [mm|]; try discriminate;
      [destruct (Lock.resolved (m_lock mm)); [|discriminate]|];
      injection Hfire as <-; auto. }
  destruct Hs' as [Hrun ->]. exists a. repeat split; auto.
  unfold finish.
  pose proof (instance_same_call_next (a_kind a) (a_item a) (a_ctx a)
                (set_acqs (<[n := set_phase Finished a]>)
                   (assign_context (a_ctx a) s))) as HF.
  cbn [acqs set_acqs assign_context set_owner] in HF.
  assert (Hx : <[n := set_phase Finished a]> (acqs s) !! n
               = Some (set_phase Finished a))
    by (apply list_lookup_insert_eq; eapply lookup_lt_Some, Ha).
  destruct (Forall2_lookup_l _ _ _ _ _ HF Hx) as (a' & Ha' & Hs).
  exists a'. split; [exact Ha'|].
  destruct Hs as (_ & _ & _ & Hp & Hm). cbn in Hp, Hm. auto.
Qed.

(** Release through the lock object of [manualLock]. *)
Lemma manual_unlock_twice_releases_once (s s1 : state) (n : nat) :
  fire (Unlock n) s = Some s1 ->
  fire (Dispose n) s1 = Some s1
  /\ (exists s2, fire (Unlock n) s1 = Some s2
        /\ queues_of s2 = queues_of s1
        /\ queues_of <$> fire (Finish n) s2 = queues_of <$> fire (Finish n) s1)
  /\ (forall s3, fire (Finish n) s1 = Some s3 ->
        fire (Finish n) s3 = None
        /\ forall e s4, e = Unlock n \/ e = Dispose n ->
             fire e s3 = Some s4 ->
             queues_of s4 = queues_of s3 /\ fire (Finish n) s4 = None).
Proof.
  intros Hfire.
  apply (instance_fire_on_lock_inv Lock.unlock) in Hfire
    as (a & m & Ha & Hm & Hres & -> & Ha1).
  set (s1 := set_acqs (alter (set_manual (on_lock Lock.unlock)) n) s) in *.
  set (a1 := set_manual (on_lock Lock.unlock) a) in *.
  assert (Hm1 : a_manual a1 = Some (on_lock Lock.unlock m))
    by (unfold a1; cbn; rewrite Hm; reflexivity).
  split; [|split].
  - cbn [fire]. rewrite Ha1. cbn [mbind option_bind]. rewrite Hm1.
    cbn [mbind option_bind m_result on_lock]. rewrite Hres.
    f_equal. destruct s as [its cxs ow acs]. unfold s1, set_acqs. cbn.
    f_equal. rewrite list_alter_alter_eq.
    apply list_alter_ext; [|reflexivity].
    intros x _. cbn. unfold set_manual. cbn. destruct (a_manual x); reflexivity.
  - exists (set_acqs (alter (set_manual (on_lock Lock.unlock)) n) s1).
    split; [|split].
    + apply (instance_fire_Unlock_eq s1 n a1 _ Ha1 Hm1). exact Hres.
    + reflexivity.
    + cbn [fire acqs set_acqs]. rewrite list_lookup_alter_eq.
      fold s1. rewrite Ha1. cbn [fmap option_fmap option_map mbind option_bind].
      change (a_phase (set_manual (on_lock Lock.unlock) a1)) with (a_phase a1).
      destruct (a_phase a1); try reflexivity.
      change (a_manual (set_manual (on_lock Lock.unlock) a1))
        with (on_lock Lock.unlock <$> a_manual a1).
      rewrite Hm1. cbn [fmap option_fmap option_map m_lock on_lock Lock.unlock
                          Lock.resolve Lock.resolved].
      f_equal. apply queues_of_finish; reflexivity.
  - intros s3 Hfin.
    destruct (instance_fire_Finish_inv s1 n s3 Hfin)
      as (b & Hb & _ & _ & a3 & Ha3 & Hp3 & Hm3).
    split; [eapply instance_fire_Finish_finished; eauto|].
    intros e s4 [->| ->] He.
    + apply (instance_fire_on_lock_inv Lock.unlock) in He
        as (a4 & m4 & Ha4 & _ & _ & -> & Ha4').
      split; [reflexivity|].
      eapply instance_fire_Finish_finished; [exact Ha4'|].
      cbn. congruence.
    + apply (instance_fire_on_lock_inv Lock.dispose) in He
        as (a4 & m4 & Ha4 & _ & _ & -> & Ha4').
      split; [reflexivity|].
      eapply instance_fire_Finish_finished; [exact Ha4'|].
      cbn. congruence.
Qed.

End InstanceRelease.

(** A writer called while another writer's body runs does not wait for
    it: it arrives on the fresh context of the running body and starts at
    once.  Serial execution is a property of acquisitions that are all
    called before the first body starts. *)
Lemma late_writer_overlaps :
  Instance.a_phase
    <$> Instance.acqs
          (default Instance.init
             (Instance.run (nested_writer_events ++ [Instance.Start 1%nat])
                Instance.init))
  = [Instance.Running; Instance.Running].
Proof. reflexivity. Qed.

(** * Further properties *)

(** ** [singleton]: how often the function runs *)

Section SingletonHistory.
Import Singleton SingletonRuns.

Lemma runs_cons_eq (key : string) l : length (filter (fun k => k = key) (key :: l))
                           = S (length (filter (fun k => k = key) l)).
Proof. rewrite filter_cons_True by reflexivity. reflexivity. Qed.

Lemma runs_cons_ne (key k : string) l :
  k <> key ->
  length (filter (fun k => k = key) (k :: l))
  = length (filter (fun k => k = key) l).
Proof. intros H. rewrite filter_cons_False by exact H. reflexivity. Qed.

Lemma has_entry_le key s : (has_entry key s <= 1)%nat.
Proof. unfold has_entry. destruct (cache s !! key); lia. Qed.

(** One operation: executions grow by at most the failure it is plus the
    cache entry it creates. *)
Lemma singleton_step_budget key o s s' :
  step o s = Some s' ->
  (runs key s' + has_entry key s
   <= runs key s + (if fails key o s then 1 else 0) + has_entry key s')%nat.
Proof.
  destruct o as [k fn|p r]; cbn [step].
  - intros [= <-]. unfold singleton, has_entry, runs, fails.
    destruct (cache s !! k) as [c|] eqn:Ek.
    + cbn. destruct fn; cbn; lia.
    + destruct (decide (k = key)) as [->|Hne].
      * rewrite Ek.
        destruct fn; cbn [fst cache executed];
          rewrite ?runs_cons_eq, ?lookup_insert_eq, ?Ek;
          rewrite ?bool_decide_eq_true_2 by reflexivity; cbn; lia.
      * destruct fn; cbn [fst cache executed];
          rewrite ?runs_cons_ne, ?lookup_insert_ne by congruence;
          rewrite ?bool_decide_eq_false_2 by congruence;
          cbn; destruct (cache s !! key); lia.
  - unfold settle. destruct (wrappers s !! p) as [w|] eqn:Ew; [|discriminate].
    cbn [mbind option_bind]. destruct (w_settled w) eqn:Hs; [discriminate|].
    intros [= <-]. unfold has_entry, runs, fails. rewrite Ew, Hs.
    destruct (decide (w_key w = key)) as [->|Hne].
    + destruct r; cbn [cache executed];
        rewrite ?lookup_insert_eq, ?lookup_delete_eq;
        rewrite ?bool_decide_eq_true_2 by reflexivity;
        cbn; destruct (cache s !! key); lia.
    + destruct r; cbn [cache executed];
        rewrite ?lookup_insert_ne, ?lookup_delete_ne by congruence;
        rewrite ?bool_decide_eq_false_2 by congruence;
        cbn; destruct (cache s !! key); lia.
Qed.

Lemma singleton_run_budget key ops : forall s s',
  run ops s = Some s' ->
  (runs key s' + has_entry key s
   <= runs key s + failures key ops s + has_entry key s')%nat.
Proof.
  induction ops as [|o ops IH]; intros s s' Hrun; cbn [run failures] in *.
  - injection Hrun as <-. lia.
  - destruct (step o s) as [s1|] eqn:E; [|discriminate].
    cbn [mbind option_bind] in Hrun.
    pose proof (singleton_step_budget key o s s1 E).
    pose proof (IH s1 s' Hrun). lia.
Qed.

(** X1: For every key and every history of calls and settlements from the
    empty cache, the function was run for the key at most once more than
    the number of failures for the key (synchronous throws and rejections),
    and not more often than the failures while the key has no entry. *)
Theorem singleton_runs_once_per_failure (key : string) (ops : list op)
    (s : state) :
  run ops init = Some s ->
  (runs key s <= failures key ops init + has_entry key s)%nat
  /\ (runs key s <= S (failures key ops init))%nat.
Proof.
  intros Hrun. pose proof (singleton_run_budget key ops init s Hrun) as H.
  pose proof (has_entry_le key s).
  change (runs key init) with 0%nat in H.
  change (has_entry key init) with 0%nat in H. lia.
Qed.

Lemma singleton_runs_once_per_failure_witness :
  (runs "db"
     (mkState {["db" := Value 1]} [mkWrapper "db" true] ["db"; "db"; "db"])
   <= S (failures "db"
           [Call "db" (Throws "boom"); Call "db" ReturnsPromise;
            Settle 0 (inr "late"); Call "db" (Returns 1);
            Call "db" (Returns 2)] init))%nat.
Proof.
  refine (proj2 (singleton_runs_once_per_failure "db"
    [Call "db" (Throws "boom"); Call "db" ReturnsPromise;
     Settle 0 (inr "late"); Call "db" (Returns 1); Call "db" (Returns 2)]
    (mkState {["db" := Value 1]} [mkWrapper "db" true]
       ["db"; "db"; "db"]) _)).
  vm_compute. reflexivity.
Defined.

Lemma promises_match_init : promises_match init.
Proof.
  intros k p. unfold init. cbn [cache wrappers].
  rewrite lookup_empty, lookup_nil. split; discriminate.
Qed.

Lemma promises_match_step o s s' :
  promises_match s -> step o s = Some s' -> promises_match s'.
Proof.
  intros Hinv. destruct o as [k fn|p0 r]; cbn [step].
  - intros [= <-]. unfold singleton.
    destruct (cache s !! k) as [c|] eqn:Ek; [exact Hinv|].
    assert (Hno : forall p, wrappers s !! p <> Some (mkWrapper k false)).
    { intros p Hp. apply Hinv in Hp. congruence. }
    destruct fn; cbn [fst]; [exact Hinv| |]; intros k0 p;
      cbn [cache wrappers]; destruct (decide (k0 = k)) as [->|Hne].
    + rewrite lookup_insert_eq. split; [discriminate|].
      intros Hp. destruct (Hno p Hp).
    + rewrite lookup_insert_ne by congruence. apply Hinv.
    + rewrite lookup_insert_eq.
      destruct (decide (p < length (wrappers s))%nat) as [Hlt|Hge].
      * rewrite lookup_app_l by exact Hlt. split.
        -- intros [= Hp]. lia.
        -- intros Hp. destruct (Hno p Hp).
      * rewrite lookup_app_r by lia.
        destruct (p - length (wrappers s))%nat as [|d] eqn:Ed; cbn.
        -- split; [reflexivity|]. intros _. f_equal. f_equal. lia.
        -- split; [|discriminate]. intros [= Hp]. lia.
    + rewrite lookup_insert_ne by congruence.
      rewrite (Hinv k0 p).
      destruct (decide (p < length (wrappers s))%nat) as [Hlt|Hge].
      * rewrite lookup_app_l by exact Hlt. reflexivity.
      * rewrite lookup_app_r by lia.
        rewrite (proj2 (lookup_ge_None (wrappers s) p)) by lia.
        destruct (p - length (wrappers s))%nat as [|d]; cbn;
          split; try discriminate. intros [= ?]. congruence.
  - unfold settle. destruct (wrappers s !! p0) as [[kw b]|] eqn:Ew;
      [|discriminate].
    cbn [mbind option_bind w_settled w_key].
    destruct b; [discriminate|]. intros [= <-].
    pose proof (proj2 (Hinv kw p0) Ew) as Hc.
    pose proof (lookup_lt_Some _ _ _ Ew) as Hlt.
    assert (Hcache : forall k0 p,
      match r with
      | inl v => <[kw := Value v]> (cache s)
      | inr _ => delete kw (cache s)
      end !! k0 = Some (Promise p)
      <-> <[p0 := mkWrapper kw true]> (wrappers s) !! p
          = Some (mkWrapper k0 false)).
    { intros k0 p. destruct (decide (p = p0)) as [->|Hp].
      - rewrite list_lookup_insert_eq by exact Hlt.
        destruct (decide (k0 = kw)) as [->|Hne].
        + destruct r; rewrite ?lookup_insert_eq, ?lookup_delete_eq;
            split; discriminate.
        + destruct r;
            rewrite ?lookup_insert_ne, ?lookup_delete_ne by congruence;
            rewrite (Hinv k0 p0), Ew; split; intros [= ?]; congruence.
      - rewrite list_lookup_insert_ne by congruence.
        destruct (decide (k0 = kw)) as [->|Hne].
        + destruct r; rewrite ?lookup_insert_eq, ?lookup_delete_eq;
            (split; [discriminate|]); intros Hq; apply Hinv in Hq;
            congruence.
        + destruct r;
            rewrite ?lookup_insert_ne, ?lookup_delete_ne by congruence;
            apply Hinv. }
    intros k0 p. destruct r; cbn [cache wrappers]; apply Hcache.
Qed.

Lemma promises_match_run ops : forall s s',
  promises_match s -> run ops s = Some s' -> promises_match s'.
Proof.
  induction ops as [|o ops IH]; intros s s' Hinv Hrun; cbn [run] in Hrun.
  - injection Hrun as <-. exact Hinv.
  - destruct (step o s) as [s1|] eqn:E; [|discriminate].
    cbn [mbind option_bind] in Hrun.
    exact (IH s1 s' (promises_match_step o s s1 Hinv E) Hrun).
Qed.

(** X2: After every history of calls and settlements from the empty cache, a
    key's entry is the promise of wrapper [p] exactly when [p] is the
    key's wrapper and still pending; so no key has two promises in flight,
    and a settlement finds its own promise in the cache. *)
Theorem singleton_one_promise_in_flight (ops : list op) (s : state) :
  run ops init = Some s ->
  (forall k p, cache s !! k = Some (Promise p)
               <-> wrappers s !! p = Some (mkWrapper k false))
  /\ (forall k p q,
        wrappers s !! p = Some (mkWrapper k false) ->
        wrappers s !! q = Some (mkWrapper k false) -> p = q).
Proof.
  intros Hrun.
  pose proof (promises_match_run ops init s promises_match_init Hrun) as H.
  split; [exact H|]. intros k p q Hp Hq.
  apply H in Hp. apply H in Hq. congruence.
Qed.

Lemma singleton_one_promise_in_flight_witness :
  forall k p,
    cache (mkState {["a" := Promise 1]}
             [mkWrapper "a" true; mkWrapper "a" false] ["a"; "a"]) !! k
      = Some (Promise p)
    <-> [mkWrapper "a" true; mkWrapper "a" false] !! p
        = Some (mkWrapper k false).
Proof.
  refine (proj1 (singleton_one_promise_in_flight
    [Call "a" ReturnsPromise; Settle 0 (inr "x"); Call "a" ReturnsPromise]
    (mkState {["a" := Promise 1]}
       [mkWrapper "a" true; mkWrapper "a" false] ["a"; "a"]) _)).
  vm_compute. reflexivity.
Defined.

Lemma singleton_value_step k v o s s' :
  promises_match s -> cache s !! k = Some (Value v) ->
  step o s = Some s' ->
  cache s' !! k = Some (Value v) /\ runs k s' = runs k s.
Proof.
  intros Hinv Hk. destruct o as [k1 fn|p0 r]; cbn [step].
  - intros [= <-]. unfold singleton, runs.
    destruct (cache s !! k1) as [c|] eqn:Ek; [split; [exact Hk|reflexivity]|].
    assert (Hne : k1 <> k) by congruence.
    destruct fn; cbn [fst cache executed];
      rewrite ?lookup_insert_ne by exact Hne;
      rewrite runs_cons_ne by exact Hne; split; auto.
  - unfold settle. destruct (wrappers s !! p0) as [[kw b]|] eqn:Ew;
      [|discriminate].
    cbn [mbind option_bind w_settled w_key].
    destruct b; [discriminate|]. intros [= <-].
    pose proof (proj2 (Hinv kw p0) Ew) as Hc.
    assert (Hne : kw <> k) by congruence.
    unfold runs. destruct r; cbn [cache executed];
      rewrite ?lookup_insert_ne, ?lookup_delete_ne by exact Hne;
      split; auto.
Qed.

(** X3: Once a value is cached under a key, it stays: after a history from
    the empty cache that left value [v] under [key], whatever calls and
    settlements follow, the entry is still [v] and the function was not
    run for [key] again. *)
Theorem singleton_value_is_final (key : string) (v : nat)
    (before after : list op) (s s' : state) :
  run before init = Some s ->
  cache s !! key = Some (Value v) ->
  run after s = Some s' ->
  cache s' !! key = Some (Value v) /\ runs key s' = runs key s.
Proof.
  intros Hb. pose proof (promises_match_run _ _ _ promises_match_init Hb) as H.
  clear Hb. revert s H. induction after as [|o ops IH]; intros s H Hk Hrun;
    cbn [run] in Hrun.
  - injection Hrun as <-. split; [exact Hk|reflexivity].
  - destruct (step o s) as [s1|] eqn:E; [|discriminate].
    cbn [mbind option_bind] in Hrun.
    destruct (singleton_value_step key v o s s1 H Hk E) as [Hk1 Hr1].
    destruct (IH s1 (promises_match_step o s s1 H E) Hk1 Hrun) as [Hk2 Hr2].
    split; [exact Hk2|congruence].
Qed.

Lemma singleton_value_is_final_witness :
  cache (mkState {["a" := Value 5]} [mkWrapper "a" true] ["a"]) !! "a"
    = Some (Value 5)
  /\ runs "a" (mkState {["a" := Value 5]} [mkWrapper "a" true] ["a"])
     = runs "a" (mkState {["a" := Value 5]} [mkWrapper "a" true] ["a"]).
Proof.
  apply (singleton_value_is_final "a" 5
    [Call "a" ReturnsPromise; Settle 0 (inl 5%nat)]
    [Call "a" (Returns 9); Call "a" (Throws "x")]
    (mkState {["a" := Value 5]} [mkWrapper "a" true] ["a"])
    (mkState {["a" := Value 5]} [mkWrapper "a" true] ["a"]));
    vm_compute; reflexivity.
Defined.

End SingletonHistory.

(** ** Calls on an owner never reach the unreachable branches *)

Section InstanceWellFormed.
Import Instance InstanceWf.

Lemma wf_set_acqs f s :
  well_formed s ->
  Forall (fun a => a_kind a <> TG /\ (a_ctx a < length (ctxs s))%nat)
    (f (acqs s)) ->
  well_formed (set_acqs f s).
Proof. intros (Ho & Hc & Hi & _) Ha. repeat split; assumption. Qed.

Lemma wf_set_items f s :
  well_formed s ->
  Forall (fun it => item_tag it <> TG) (f (items s)) ->
  well_formed (set_items f s).
Proof. intros (Ho & Hc & _ & Ha) Hi. repeat split; assumption. Qed.

Lemma wf_set_queue f c s :
  well_formed s -> well_formed (set_ctxs (alter (set_queue f) c) s).
Proof.
  intros (Ho & Hc & Hi & Ha). unfold well_formed.
  cbn [owner ctxs items acqs set_ctxs]. rewrite length_alter.
  split; [exact Ho|]. split; [|split; assumption].
  apply Forall_alter; [exact Hc|]. intros cx _ Hcx. exact Hcx.
Qed.

Lemma wf_start_item i s :
  well_formed s -> well_formed (set_items (alter item_start i) s).
Proof.
  intros H. apply wf_set_items; [exact H|].
  apply Forall_alter; [apply H|]. intros [] _ Ht; exact Ht.
Qed.

Lemma wf_insert_item i x s :
  well_formed s -> item_tag x <> TG -> well_formed (set_items (<[i := x]>) s).
Proof.
  intros H Hx. apply wf_set_items; [exact H|].
  apply Forall_insert; [apply H|exact Hx].
Qed.

Lemma wf_alter_acq f n s :
  well_formed s ->
  (forall a, a_kind (f a) = a_kind a /\ a_ctx (f a) = a_ctx a) ->
  well_formed (set_acqs (alter f n) s).
Proof.
  intros H Hf. apply wf_set_acqs; [exact H|].
  apply Forall_alter; [apply H|]. intros a _ Ha.
  destruct (Hf a) as [-> ->]. exact Ha.
Qed.

Lemma wf_advance c s : well_formed s -> well_formed (advance c s).
Proof.
  intros H. unfold advance. case_match.
  - apply wf_start_item, wf_set_queue, H.
  - apply wf_set_queue, H.
Qed.

Lemma wf_next k i c s : well_formed s -> well_formed (next k i c s).
Proof.
  intros H. unfold next, next_w, next_r.
  destruct k; repeat case_match; try exact H;
    try apply wf_advance; try apply wf_alter_acq;
    try apply wf_insert_item; try exact H; try discriminate;
    intros a; split; reflexivity.
Qed.

Lemma wf_push_acq a s :
  well_formed s -> a_kind a <> TG -> (a_ctx a < length (ctxs s))%nat ->
  well_formed (set_acqs (fun l => l ++ [a]) s).
Proof.
  intros H Hk Hc. apply wf_set_acqs; [exact H|].
  apply Forall_app. split; [apply H|]. apply Forall_singleton. auto.
Qed.

Lemma wf_push_item it s :
  well_formed s -> item_tag it <> TG ->
  well_formed (set_items (fun l => l ++ [it]) s).
Proof.
  intros H Ht. apply wf_set_items; [exact H|].
  apply Forall_app. split; [apply H|]. apply Forall_singleton. exact Ht.
Qed.

Lemma wf_arrive_w c cx m s :
  well_formed s -> (c < length (ctxs s))%nat ->
  well_formed (arrive_w c cx m s).1.
Proof.
  intros H Hc. unfold arrive_w.
  repeat case_match; cbn [fst]; try exact H;
    apply wf_push_acq; try discriminate; try exact Hc;
    try (cbn [ctxs set_items set_ctxs]; rewrite length_alter; exact Hc);
    apply wf_insert_item; try discriminate; try exact H;
    apply wf_set_queue, wf_push_item; try discriminate; exact H.
Qed.

Lemma wf_arrive_r c cx m s :
  well_formed s -> (c < length (ctxs s))%nat ->
  well_formed (arrive_r c cx m s).1.
Proof.
  intros H Hc. unfold arrive_r.
  repeat case_match; cbn [fst]; try exact H;
    apply wf_push_acq; try discriminate; try exact Hc;
    try (cbn [ctxs set_items set_ctxs]; rewrite length_alter; exact Hc);
    apply wf_insert_item; try discriminate; try exact H;
    apply wf_set_queue, wf_push_item; try discriminate; exact H.
Qed.

Lemma wf_classMethod k m s :
  well_formed s -> well_formed (classMethod k m s).1.
Proof.
  intros H. unfold classMethod.
  destruct (owner s) as [c|] eqn:Ho; cbn [mbind option_bind]; [|exact H].
  destruct (ctxs s !! c) as [cx|] eqn:Hcx; cbn [fmap option_fmap option_map];
    [|exact H].
  pose proof (lookup_lt_Some _ _ _ Hcx) as Hlt.
  destruct k; [destruct (lockType cx) as [[]|]; try exact H| |];
    first [apply wf_arrive_w | apply wf_arrive_r]; assumption.
Qed.

Lemma wf_initializeInstance s :
  well_formed s -> well_formed (initializeInstance s).
Proof.
  intros (Ho & Hc & Hi & Ha). unfold initializeInstance.
  destruct (owner s) eqn:E; [unfold well_formed; rewrite E; auto|].
  unfold well_formed. cbn [owner ctxs items acqs set_owner set_ctxs].
  rewrite length_app. cbn [length]. split; [lia|].
  split; [|split; [exact Hi|]].
  - apply Forall_app. split; [exact Hc|]. apply Forall_singleton. discriminate.
  - eapply Forall_impl; [exact Ha|]. cbn. intros a [? ?]. split; [auto|lia].
Qed.

Lemma wf_manualLock k sig s :
  well_formed s -> well_formed (manualLock k sig s).1.
Proof.
  intros H. unfold manualLock.
  destruct sig as [[[] r]|]; cbn [fst]; try exact H;
    apply wf_classMethod, wf_initializeInstance, H.
Qed.

Lemma wf_start n a s :
  well_formed s -> acqs s !! n = Some a -> well_formed (start n a s).
Proof.
  intros (Ho & Hc & Hi & Ha) Hn. unfold start, well_formed.
  cbn [owner ctxs items acqs set_owner set_ctxs set_acqs assign_context].
  rewrite length_app. cbn [length].
  destruct (Forall_lookup_1 _ _ _ _ Ha Hn) as [Hk Hlt].
  split; [lia|]. split; [|split; [exact Hi|]].
  - apply Forall_app. split; [exact Hc|]. apply Forall_singleton.
    cbn. intros [= Hg]. exact (Hk Hg).
  - apply Forall_insert.
    + eapply Forall_impl; [exact Ha|]. cbn. intros b [? ?]. split; [auto|lia].
    + cbn. split; [exact Hk|lia].
Qed.

Lemma wf_finish n a s :
  well_formed s -> acqs s !! n = Some a -> well_formed (finish n a s).
Proof.
  intros H Hn. unfold finish. apply wf_next.
  destruct H as (Ho & Hc & Hi & Ha).
  destruct (Forall_lookup_1 _ _ _ _ Ha Hn) as [Hk Hlt].
  unfold well_formed.
  cbn [owner ctxs items acqs set_owner set_acqs assign_context].
  split; [exact Hlt|]. split; [exact Hc|]. split; [exact Hi|].
  apply Forall_insert; [exact Ha|]. cbn. auto.
Qed.

Lemma wf_step e s s' :
  well_formed s -> fire e s = Some s' -> well_formed s'.
Proof.
  intros H. destruct e as [|k|k sig|n|n|n|n|n]; cbn [fire].
  - intros [= <-]. apply wf_initializeInstance, H.
  - intros [= <-]. apply wf_classMethod, H.
  - intros [= <-]. apply wf_manualLock, H.
  - destruct (acqs s !! n) as [a|] eqn:Hn; [|discriminate].
    cbn [mbind option_bind]. repeat case_match; try discriminate.
    intros [= <-]. apply wf_start; assumption.
  - destruct (acqs s !! n) as [a|] eqn:Hn; [|discriminate].
    cbn [mbind option_bind]. repeat case_match; try discriminate;
      intros [= <-]; apply wf_finish; assumption.
  - destruct (acqs s !! n) as [a|] eqn:Hn; [|discriminate].
    cbn [mbind option_bind].
    destruct (a_manual a) as [m|]; [|discriminate]. cbn [mbind option_bind].
    repeat case_match; try discriminate. intros [= <-].
    apply wf_alter_acq; [exact H|]. intros b. split; reflexivity.
  - destruct (acqs s !! n) as [a|] eqn:Hn; [|discriminate].
    cbn [mbind option_bind].
    destruct (a_manual a) as [m|]; [|discriminate]. cbn [mbind option_bind].
    repeat case_match; try discriminate. intros [= <-].
    apply wf_alter_acq; [exact H|]. intros b. split; reflexivity.
  - destruct (acqs s !! n) as [a|] eqn:Hn; [|discriminate].
    cbn [mbind option_bind].
    destruct (a_manual a) as [m|]; [|discriminate]. cbn [mbind option_bind].
    repeat case_match; try discriminate. intros [= <-].
    apply wf_alter_acq; [exact H|]. intros b. split; reflexivity.
Qed.

Lemma wf_init : well_formed init.
Proof. repeat split; constructor. Qed.

Lemma queue_tail_item its q i :
  queue_ok its q -> last q = Some i -> is_Some (its !! i).
Proof.
  intros Hq Hl. rewrite last_lookup in Hl.
  assert (Ht : is_Some (tag_at its i)).
  { eapply alternating_lookup; [exact Hq|].
    rewrite list_lookup_fmap, Hl. reflexivity. }
  unfold tag_at in Ht. destruct (its !! i); [eauto|].
  destruct Ht as [? Ht]. discriminate.
Qed.

Lemma arrive_w_reply c cx m s :
  well_formed s -> queue_ok (items s) (queue cx) ->
  (arrive_w c cx m s).2 = Queued (length (acqs s)).
Proof.
  intros (_ & _ & Hi & _) Hq. unfold arrive_w. rewrite !lookup_pushed.
  destruct (last (queue cx)) as [i|] eqn:El; [|reflexivity].
  destruct (queue_tail_item _ _ _ Hq El) as [it Hit]. rewrite Hit.
  pose proof (Forall_lookup_1 _ _ _ _ Hi Hit) as Hg.
  destruct it as [r steps|r n|r]; [| |destruct Hg; reflexivity].
  - destruct steps; reflexivity.
  - reflexivity.
Qed.

Lemma arrive_r_reply c cx m s :
  well_formed s -> queue_ok (items s) (queue cx) ->
  (arrive_r c cx m s).2 = Queued (length (acqs s)).
Proof.
  intros (_ & _ & Hi & _) Hq. unfold arrive_r. rewrite !lookup_pushed.
  destruct (last (queue cx)) as [i|] eqn:El; [|reflexivity].
  destruct (queue_tail_item _ _ _ Hq El) as [it Hit]. rewrite Hit.
  pose proof (Forall_lookup_1 _ _ _ _ Hi Hit) as Hg.
  destruct it as [r steps|r n|r]; [| |destruct Hg; reflexivity].
  - reflexivity.
  - reflexivity.
Qed.

Lemma classMethod_reply k m s c cx :
  well_formed s -> instance_queues_ok s ->
  owner s = Some c -> ctxs s !! c = Some cx ->
  (classMethod k m s).2 = expected_reply k (lockType cx) (length (acqs s)).
Proof.
  intros H Hok Ho Hcx. unfold classMethod. rewrite Ho. cbn [mbind option_bind].
  rewrite Hcx. cbn [fmap option_fmap option_map].
  pose proof (Forall_lookup_1 _ _ _ _ Hok Hcx) as Hq.
  pose proof (Forall_lookup_1 _ _ _ _ (proj1 (proj2 H)) Hcx) as Hg.
  cbn beta in Hg.
  destruct k; [destruct (lockType cx) as [[]|]| |]; cbn [expected_reply snd];
    try reflexivity; try (destruct Hg; reflexivity);
    first [apply arrive_w_reply | apply arrive_r_reply]; assumption.
Qed.

Lemma wf_run es s s' :
  well_formed s /\ instance_queues_ok s -> run es s = Some s' ->
  well_formed s' /\ instance_queues_ok s'.
Proof.
  apply (instance_run_invariant
           (fun s => well_formed s /\ instance_queues_ok s)).
  intros e s0 s1 [Hw Hq] Hf. split.
  - exact (wf_step e s0 s1 Hw Hf).
  - exact (instance_ok_step e s0 s1 Hq Hf).
Qed.

Lemma wf_owner_context s c :
  well_formed s -> owner s = Some c ->
  exists cx, ctxs s !! c = Some cx /\ lockType cx <> Some TG.
Proof.
  intros (Ho & Hc & _) E. rewrite E in Ho.
  destruct (lookup_lt_is_Some_2 _ _ Ho) as [cx Hcx].
  exists cx. split; [exact Hcx|].
  exact (Forall_lookup_1 _ _ _ _ Hc Hcx).
Qed.

(** X4: Whatever happened on an owner before (construction, calls, reactions
    in any order), once the owner has its context property a call of a
    decorated method is answered in one of two ways only: an exclusive
    call made while the current context is a shared one is rejected with
    the escalation error; every other call, exclusive or shared, is queued
    as the next acquirer.  [manualLock], which defines the property
    itself, never fails with the unreachable error either. *)
Theorem decorated_call_queued_or_escalation (es : list event) (s : state) :
  run es init = Some s ->
  (forall c, owner s = Some c ->
     exists cx, ctxs s !! c = Some cx
       /\ forall k m,
            (classMethod k m s).2
            = expected_reply k (lockType cx) (length (acqs s)))
  /\ (forall k sig, (manualLock k sig s).2 <> Threw UnreachableError).
Proof.
  intros Hrun.
  assert (H0 : well_formed init /\ instance_queues_ok init).
  { split; [exact wf_init|]. constructor. }
  destruct (wf_run es init s H0 Hrun) as [Hw Hq]. split.
  - intros c Ho. destruct (wf_owner_context s c Hw Ho) as (cx & Hcx & _).
    exists cx. split; [exact Hcx|]. intros k m.
    apply (classMethod_reply k m s c cx); assumption.
  - intros k sig. unfold manualLock.
    assert (Hcall : forall m,
      (classMethod k m (initializeInstance s)).2 <> Threw UnreachableError).
    { intros m.
      pose proof (wf_initializeInstance s Hw) as Hw'.
      pose proof (instance_ok_initializeInstance s Hq) as Hq'.
      assert (Ho : exists c, owner (initializeInstance s) = Some c).
      { unfold initializeInstance. destruct (owner s) eqn:E; eauto. }
      destruct Ho as [c Ho].
      destruct (wf_owner_context _ c Hw' Ho) as (cx & Hcx & _).
      rewrite (classMethod_reply k m _ c cx Hw' Hq' Ho Hcx).
      destruct k; cbn; repeat case_match; discriminate. }
    destruct sig as [[[] r]|]; cbn [snd]; try discriminate; apply Hcall.
Qed.

Lemma decorated_call_queued_or_escalation_witness :
  exists cx, ctxs reader_running !! 1%nat = Some cx
    /\ forall k m,
         (classMethod k m reader_running).2
         = expected_reply k (lockType cx) (length (acqs reader_running)).
Proof.
  refine (proj1 (decorated_call_queued_or_escalation
    [Construct; Call TR; Start 0%nat] reader_running _) 1%nat _);
    reflexivity.
Defined.

End InstanceWellFormed.

(** ** Readers launched together overlap; the writer behind them waits *)

Section CohortLaunch.
Import Instance Cohort.

Lemma finished_le ps : (finished ps <= length ps)%nat.
Proof. induction ps as [|[] ps IH]; cbn [finished length]; lia. Qed.

Lemma finished_lt ps i p :
  ps !! i = Some p -> p <> Finished -> (finished ps < length ps)%nat.
Proof.
  revert i. induction ps as [|q ps IH]; intros [|i] Hi Hp;
    cbn [lookup list_lookup] in Hi; try discriminate.
  - injection Hi as ->. pose proof (finished_le ps).
    destruct p; cbn [finished length]; try lia. congruence.
  - pose proof (IH i Hi Hp). destruct q; cbn [finished length]; lia.
Qed.

Lemma finished_insert ps i p q :
  ps !! i = Some p -> p <> Finished ->
  finished (<[i := q]> ps)
  = (match q with Finished => 1 | _ => 0 end + finished ps)%nat.
Proof.
  revert i. induction ps as [|r ps IH]; intros [|i] Hi Hp;
    cbn [lookup list_lookup] in Hi; try discriminate.
  - injection Hi as ->. change (<[0%nat := q]> (p :: ps)) with (q :: ps).
    destruct p, q; cbn [finished]; try lia; congruence.
  - change (<[S i := q]> (r :: ps)) with (r :: <[i := q]> ps).
    pose proof (IH i Hi Hp) as H.
    destruct r; cbn [finished]; rewrite H; destruct q; lia.
Qed.

Lemma finished_replicate j : finished (replicate j Waiting) = 0%nat.
Proof. induction j as [|j IH]; [reflexivity|exact IH]. Qed.

Lemma call_reader_first :
  (classMethod TR None (initializeInstance init)).1 = readers_called 1.
Proof. reflexivity. Qed.

Lemma call_reader_next j :
  (classMethod TR None (readers_called (S j))).1 = readers_called (S (S j)).
Proof.
  unfold readers_called, classMethod, arrive_r.
  cbn [owner ctxs items acqs mbind option_bind fmap option_fmap option_map
       lookup list_lookup lockType queue last fst set_acqs set_items
       insert list_insert].
  unfold set_acqs, set_items. cbn [items ctxs owner acqs].
  change (<[0%nat := ItemR true (Z.of_nat (S j) + 1)]>
            [ItemR true (Z.of_nat (S j))])
    with [ItemR true (Z.of_nat (S j) + 1)].
  replace (Z.of_nat (S j) + 1) with (Z.of_nat (S (S j))) by lia.
  f_equal.
  change (replicate (S (S j)) Waiting)
    with (Waiting :: replicate (S j) Waiting).
  rewrite (replicate_cons_app (S j)), fmap_app. reflexivity.
Qed.

Lemma run_reader_calls j :
  run (replicate j (Call TR)) (readers_called 1)
  = Some (readers_called (S j)).
Proof.
  induction j as [|j IH]; [reflexivity|].
  rewrite replicate_S_end, run_app, IH. cbn [mbind option_bind run fire].
  rewrite call_reader_next. reflexivity.
Qed.

Lemma cohort_launched n :
  exists s, run (launch (S n)) init = Some s /\ shape (S n) s.
Proof.
  unfold launch. cbn [run fire]. cbn [mbind option_bind].
  change (replicate (S n) (Call TR) ++ [Call TW])
    with (Call TR :: (replicate n (Call TR) ++ [Call TW])).
  cbn [run fire]. cbn [mbind option_bind].
  rewrite call_reader_first, run_app, run_reader_calls.
  cbn [mbind option_bind run fire].
  eexists. split; [reflexivity|].
  exists (replicate (S n) Waiting), Waiting, None, [].
  rewrite finished_replicate, length_replicate.
  split; [reflexivity|]. split; [reflexivity|].
  split; [cbn; do 3 f_equal; lia|].
  split; [reflexivity|]. intros H. congruence.
Qed.

End CohortLaunch.

(** ** The shape is kept by the reactions *)

Section CohortSteps.
Import Instance Cohort.

Lemma cohort_lookup ps pw i a :
  ((reader_at <$> ps) ++ [writer_at pw]) !! i = Some a ->
  (exists p, ps !! i = Some p /\ a = reader_at p)
  \/ (i = length ps /\ a = writer_at pw).
Proof.
  intros H. destruct (decide (i < length ps)%nat) as [Hlt|Hge].
  - left. rewrite lookup_app_l in H by (rewrite length_fmap; exact Hlt).
    rewrite list_lookup_fmap in H.
    destruct (ps !! i) as [p|]; [|discriminate]. injection H as <-. eauto.
  - right. rewrite lookup_app_r in H by (rewrite length_fmap; lia).
    rewrite length_fmap in H.
    destruct (i - length ps)%nat as [|d] eqn:E; [|discriminate].
    injection H as <-. split; [lia|reflexivity].
Qed.

Lemma cohort_insert_reader ps pw i p q :
  ps !! i = Some p ->
  <[i := reader_at q]> ((reader_at <$> ps) ++ [writer_at pw])
  = (reader_at <$> <[i := q]> ps) ++ [writer_at pw].
Proof.
  intros H. apply lookup_lt_Some in H.
  rewrite insert_app_l by (rewrite length_fmap; exact H).
  rewrite list_fmap_insert. reflexivity.
Qed.

Lemma cohort_insert_writer ps pw q :
  <[length ps := writer_at q]> ((reader_at <$> ps) ++ [writer_at pw])
  = (reader_at <$> ps) ++ [writer_at q].
Proof.
  rewrite insert_app_r_alt by (rewrite length_fmap; lia).
  rewrite length_fmap, Nat.sub_diag. reflexivity.
Qed.

Lemma cohort_Start N i s s' :
  shape N s -> fire (Start i) s = Some s' -> shape N s'.
Proof.
  intros (ps & pw & lt & cs & Hlen & Ha & Hi & Hc & Hw) Hf.
  destruct s as [its cxs o acs]. cbn [items ctxs acqs] in *. subst its cxs acs.
  cbn [fire acqs] in Hf.
  destruct (((reader_at <$> ps) ++ [writer_at pw]) !! i) as [a|] eqn:Ea;
    [|discriminate].
  cbn [mbind option_bind] in Hf.
  destruct (cohort_lookup ps pw i a Ea) as [(p & Hp & ->)|[-> ->]].
  - cbn [a_phase reader_at] in Hf. destruct p; try discriminate.
    cbn in Hf. injection Hf as <-.
    exists (<[i := Running]> ps), pw, lt, (cs ++ [new_context (Some TR)]).
    rewrite (finished_insert ps i Waiting Running Hp) by discriminate.
    rewrite length_insert. cbn [Nat.add acqs items ctxs].
    split; [exact Hlen|].
    split; [exact (cohort_insert_reader ps pw i Waiting Running Hp)|].
    split; [reflexivity|]. split; [reflexivity|exact Hw].
  - cbn [a_phase writer_at] in Hf. destruct pw; try discriminate.
    unfold acq_ready in Hf. cbn [items a_item a_step lookup list_lookup] in Hf.
    cbn [item_ready] in Hf.
    destruct (bool_decide (finished ps = N)) eqn:Eb; [|discriminate].
    apply bool_decide_eq_true_1 in Eb.
    cbn in Hf. injection Hf as <-.
    exists ps, Running, lt, (cs ++ [new_context (Some TW)]).
    cbn [acqs items ctxs].
    split; [exact Hlen|].
    split; [exact (cohort_insert_writer ps Waiting Running)|].
    rewrite (bool_decide_eq_true_2 _ Eb).
    split; [reflexivity|]. split; [reflexivity|]. intros _. exact Eb.
Qed.

Lemma cohort_Finish N i s s' :
  shape N s -> fire (Finish i) s = Some s' -> shape N s'.
Proof.
  intros (ps & pw & lt & cs & Hlen & Ha & Hi & Hc & Hw) Hf.
  destruct s as [its cxs o acs]. cbn [items ctxs acqs] in *. subst its cxs acs.
  cbn [fire acqs] in Hf.
  destruct (((reader_at <$> ps) ++ [writer_at pw]) !! i) as [a|] eqn:Ea;
    [|discriminate].
  cbn [mbind option_bind] in Hf.
  destruct (cohort_lookup ps pw i a Ea) as [(p & Hp & ->)|[-> ->]].
  - cbn [a_phase a_manual reader_at] in Hf. destruct p; try discriminate.
    injection Hf as <-.
    pose proof (finished_lt ps i Running Hp ltac:(discriminate)) as Hlt.
    rewrite Hlen in Hlt.
    assert (Epw : pw = Waiting).
    { destruct pw; [reflexivity| |]; exfalso;
        assert (finished ps = N) by (apply Hw; discriminate); lia. }
    subst pw.
    exists (<[i := Finished]> ps), Waiting, lt, cs.
    rewrite (finished_insert ps i Running Finished Hp) by discriminate.
    rewrite length_insert.
    unfold finish, next, next_r, advance.
    cbn [a_kind a_item a_ctx reader_at set_phase a_step a_phase a_manual
         items ctxs acqs owner set_acqs set_items set_ctxs assign_context
         set_owner lookup list_lookup].
    rewrite (bool_decide_eq_false_2 (finished ps = N)) by lia.
    destruct (Nat.ltb_spec (finished ps) N) as [_|]; [|lia].
    split; [exact Hlen|].
    destruct (decide (Z.of_nat N - Z.of_nat (finished ps) - 1 = 0)) as [Hz|Hz].
    + change (set_phase Finished (reader_at Running)) with (reader_at Finished).
      simpl. rewrite (cohort_insert_reader ps Waiting i Running Finished Hp).
      split; [reflexivity|].
      rewrite (bool_decide_eq_true_2 (S (finished ps) = N)) by lia.
      destruct (Nat.ltb_spec (S (finished ps)) N) as [|_]; [lia|].
      split; [do 2 f_equal; lia|]. split; [reflexivity|]. intros H. congruence.
    + change (set_phase Finished (reader_at Running)) with (reader_at Finished).
      simpl. rewrite (cohort_insert_reader ps Waiting i Running Finished Hp).
      split; [reflexivity|].
      rewrite (bool_decide_eq_false_2 (S (finished ps) = N)) by lia.
      destruct (Nat.ltb_spec (S (finished ps)) N) as [_|]; [|lia].
      split; [do 2 f_equal; lia|]. split; [reflexivity|]. intros H. congruence.
  - cbn [a_phase a_manual writer_at] in Hf. destruct pw; try discriminate.
    injection Hf as <-.
    assert (Ef : finished ps = N) by (apply Hw; discriminate).
    exists ps, Finished, lt, cs.
    unfold finish, next, next_w, advance.
    cbn [a_kind a_item a_ctx writer_at set_phase a_step a_phase a_manual
         items ctxs acqs owner set_acqs set_items set_ctxs assign_context
         set_owner lookup list_lookup].
    rewrite (bool_decide_eq_true_2 (finished ps = N)) by exact Ef.
    destruct (Nat.ltb_spec (finished ps) N) as [|_]; [lia|].
    change (set_phase Finished (writer_at Running)) with (writer_at Finished).
    simpl. rewrite (cohort_insert_writer ps Running Finished).
    split; [exact Hlen|]. split; [reflexivity|]. split; [reflexivity|].
    split; [reflexivity|]. intros _. exact Ef.
Qed.

Lemma cohort_run N es : forall s s',
  shape N s -> Forall Serial.body_event es -> run es s = Some s' ->
  shape N s'.
Proof.
  induction es as [|e es IH]; intros s s' Hs Hes Hrun; cbn [run] in Hrun.
  - injection Hrun as <-. exact Hs.
  - inversion Hes as [|? ? He Hes']; subst.
    destruct (fire e s) as [s1|] eqn:E; [|discriminate].
    cbn [mbind option_bind] in Hrun.
    apply (IH s1 s'); [|exact Hes'|exact Hrun].
    destruct e as [|? |? ?|i|i|?|?|?]; try contradiction.
    + exact (cohort_Start N i s s1 Hs E).
    + exact (cohort_Finish N i s s1 Hs E).
Qed.

Lemma finished_all ps :
  finished ps = length ps <-> (forall i p, ps !! i = Some p -> p = Finished).
Proof.
  split.
  - intros Hf i p Hp.
    assert (Hne : p <> Finished -> False).
    { intros Hne. pose proof (finished_lt ps i p Hp Hne). lia. }
    destruct p; [| |reflexivity]; destruct Hne; discriminate.
  - induction ps as [|q ps IH]; intros H; [reflexivity|].
    rewrite (H 0%nat q eq_refl). cbn [finished length]. f_equal.
    apply IH. intros i p Hp. exact (H (S i) p Hp).
Qed.

Lemma cohort_reader_phase ps pw i a :
  (i < length ps)%nat ->
  ((reader_at <$> ps) ++ [writer_at pw]) !! i = Some a ->
  ps !! i = Some (a_phase a) /\ a = reader_at (a_phase a).
Proof.
  intros Hlt Ha.
  destruct (cohort_lookup ps pw i a Ha) as [(p & Hp & ->)|[-> _]]; [|lia].
  split; [exact Hp|reflexivity].
Qed.

(** X5: [S n] calls of a shared method and then one call of an exclusive
    method are made on a new owner before any reaction runs.  Whatever
    bodies have started and finished since, in whatever order: every
    reader still waiting can start at once, every running reader can
    finish, and the writer can start exactly when it is still waiting and
    every reader has finished. *)
Theorem readers_overlap_writer_waits (n : nat) (es : list event) (s : state) :
  Forall Serial.body_event es ->
  run (launch (S n) ++ es) init = Some s ->
  (forall i a, (i < S n)%nat -> acqs s !! i = Some a ->
     (a_phase a = Waiting -> is_Some (fire (Start i) s))
     /\ (a_phase a = Running -> is_Some (fire (Finish i) s)))
  /\ (is_Some (fire (Start (S n)) s)
      <-> (exists w, acqs s !! S n = Some w /\ a_phase w = Waiting)
          /\ (forall i a, (i < S n)%nat -> acqs s !! i = Some a ->
                a_phase a = Finished)).
Proof.
  intros Hes Hrun. rewrite run_app in Hrun.
  destruct (cohort_launched n) as (s0 & E0 & Hs0). rewrite E0 in Hrun.
  cbn [mbind option_bind] in Hrun.
  destruct (cohort_run (S n) es s0 s Hs0 Hes Hrun)
    as (ps & pw & lt & cs & Hlen & Ha & Hi & Hc & Hw).
  split.
  - intros i a Hlt Hia. rewrite Ha in Hia. rewrite <- Hlen in Hlt.
    destruct (cohort_reader_phase ps pw i a Hlt Hia) as [Hp Ea].
    cbn [fire]. rewrite Ha, Hia. cbn [mbind option_bind].
    split; intros Hph; rewrite Hph.
    + unfold acq_ready. rewrite Ea, Hi. cbn. eauto.
    + rewrite Ea. cbn. eauto.
  - assert (Hw' : acqs s !! S n = Some (writer_at pw)).
    { rewrite Ha, lookup_app_r by (rewrite length_fmap; lia).
      rewrite length_fmap, Hlen, Nat.sub_diag. reflexivity. }
    cbn [fire]. rewrite Hw'. cbn [mbind option_bind a_phase writer_at].
    unfold acq_ready. rewrite Hi. cbn [a_item a_step writer_at lookup
      list_lookup item_ready].
    split.
    + intros [s1 Hf]. destruct pw; try discriminate.
      destruct (bool_decide (finished ps = S n)) eqn:Eb; [|discriminate].
      apply bool_decide_eq_true_1 in Eb. split; [eauto|].
      intros i a Hlt Hia. rewrite Ha in Hia. rewrite <- Hlen in Hlt.
      destruct (cohort_reader_phase ps _ i a Hlt Hia) as [Hp _].
      rewrite <- Hlen in Eb. exact (proj1 (finished_all ps) Eb i _ Hp).
    + intros [(w & Ew & Hph) Hall]. injection Ew as <-.
      cbn [a_phase writer_at] in Hph. subst pw.
      assert (Ef : finished ps = S n).
      { rewrite <- Hlen. apply finished_all. intros i p Hp.
        assert (Hlt : (i < S n)%nat) by (rewrite <- Hlen; eapply lookup_lt_Some, Hp).
        assert (Hia : acqs s !! i = Some (reader_at p)).
        { rewrite Ha, lookup_app_l by (rewrite length_fmap; lia).
          rewrite list_lookup_fmap, Hp. reflexivity. }
        exact (Hall i _ Hlt Hia). }
      rewrite (bool_decide_eq_true_2 _ Ef). cbn. eauto.
Qed.

Lemma readers_overlap_writer_waits_witness :
  is_Some (fire (Start 1%nat)
    (default init (run (launch 2 ++ [Start 0%nat]) init))).
Proof.
  refine (proj1 (proj1 (readers_overlap_writer_waits 1 [Start 0%nat]
    (default init (run (launch 2 ++ [Start 0%nat]) init)) _ _)
    1%nat (reader_at Waiting) _ _) _).
  - repeat constructor.
  - reflexivity.
  - lia.
  - reflexivity.
  - reflexivity.
Defined.

End CohortSteps.

(** ** Unkeyed readers of a mux overlap; the writer behind them waits *)

Section GlobalCohortLaunch.
Import Keyed GlobalCohort.

Lemma released_le hs : (released hs <= length hs)%nat.
Proof.
  induction hs as [|h hs IH]; cbn [released length]; [lia|].
  destruct (h_released h); lia.
Qed.

Lemma released_lt hs i h :
  hs !! i = Some h -> h_released h = false ->
  (released hs < length hs)%nat.
Proof.
  revert i. induction hs as [|g hs IH]; intros [|i] Hi Hh;
    cbn [lookup list_lookup] in Hi; try discriminate.
  - injection Hi as ->. pose proof (released_le hs).
    cbn [released length]. rewrite Hh. lia.
  - pose proof (IH i Hi Hh). cbn [released length].
    destruct (h_released g); lia.
Qed.

Lemma released_insert hs i h h' :
  hs !! i = Some h -> h_released h = false ->
  released (<[i := h']> hs)
  = ((if h_released h' then 1 else 0) + released hs)%nat.
Proof.
  revert i. induction hs as [|g hs IH]; intros [|i] Hi Hh;
    cbn [lookup list_lookup] in Hi; try discriminate.
  - injection Hi as ->. change (<[0%nat := h']> (h :: hs)) with (h' :: hs).
    cbn [released]. rewrite Hh. lia.
  - change (<[S i := h']> (g :: hs)) with (g :: <[i := h']> hs).
    cbn [released]. rewrite (IH i Hi Hh). lia.
Qed.

Lemma released_same hs i h h' :
  hs !! i = Some h -> h_released h' = h_released h ->
  released (<[i := h']> hs) = released hs.
Proof.
  revert i. induction hs as [|g hs IH]; intros [|i] Hi Hh;
    cbn [lookup list_lookup] in Hi; try discriminate.
  - injection Hi as ->. change (<[0%nat := h']> (h :: hs)) with (h' :: hs).
    cbn [released]. rewrite Hh. reflexivity.
  - change (<[S i := h']> (g :: hs)) with (g :: <[i := h']> hs).
    cbn [released]. rewrite (IH i Hi Hh). reflexivity.
Qed.

Lemma released_all hs :
  released hs = length hs
  <-> (forall i h, hs !! i = Some h -> h_released h = true).
Proof.
  split.
  - intros Hf i h Hh. destruct (h_released h) eqn:E; [reflexivity|].
    pose proof (released_lt hs i h Hh E). lia.
  - induction hs as [|g hs IH]; intros H; [reflexivity|].
    cbn [released length]. rewrite (H 0%nat g eq_refl). cbn. f_equal.
    apply IH. intros i h Hh. exact (H (S i) h Hh).
Qed.

Lemma released_replicate j : released (replicate j fresh) = 0%nat.
Proof. induction j as [|j IH]; [reflexivity|exact IH]. Qed.

Lemma rLock_first : (rLock None None init).1 = readers_called 1.
Proof. reflexivity. Qed.

Lemma rLock_next j :
  (rLock None None (readers_called (S j))).1 = readers_called (S (S j)).
Proof.
  unfold readers_called, rLock, acquire. cbn.
  unfold set_acqs, set_items. cbn [items queues partialQueue barriers acqs].
  replace (Z.of_nat (S j) + 1) with (Z.of_nat (S (S j))) by lia.
  f_equal.
  change (reader_of fresh :: reader_of fresh :: (reader_of <$> replicate j fresh))
    with (reader_of <$> replicate (S (S j)) fresh).
  change (reader_of fresh :: (reader_of <$> replicate j fresh))
    with (reader_of <$> replicate (S j) fresh).
  rewrite (replicate_S_end (S j)), fmap_app. reflexivity.
Qed.

Lemma run_rLock_calls j :
  run (replicate j (RLock None None)) (readers_called 1)
  = Some (readers_called (S j)).
Proof.
  induction j as [|j IH]; [reflexivity|].
  rewrite replicate_S_end, keyed_run_app, IH.
  cbn [mbind option_bind run fire]. rewrite rLock_next. reflexivity.
Qed.

Lemma lock_after_readers j :
  (lock None None (readers_called (S j))).1
  = mkState [ItemR true (Z.of_nat (S j)); ItemW false [StepNext]]
      [[0%nat; 1%nat]] [] []
      ((reader_of <$> replicate (S j) fresh) ++ [writer_of fresh]).
Proof. reflexivity. Qed.

Lemma in_order_fresh : in_order fresh.
Proof. repeat split; cbn; try discriminate. auto. Qed.

Lemma global_cohort_launched n :
  exists s, run (launch (S n)) init = Some s /\ shape (S n) s.
Proof.
  unfold launch.
  change (replicate (S n) (RLock None None) ++ [Lock None None])
    with (RLock None None :: (replicate n (RLock None None) ++ [Lock None None])).
  cbn [run fire]. cbn [mbind option_bind].
  rewrite rLock_first, keyed_run_app, run_rLock_calls.
  cbn [mbind option_bind run fire].
  rewrite lock_after_readers.
  eexists. split; [reflexivity|].
  exists (replicate (S n) fresh), fresh.
  rewrite released_replicate, length_replicate.
  split; [reflexivity|].
  split; [apply Forall_replicate, in_order_fresh|].
  split; [exact in_order_fresh|].
  split; [reflexivity|].
  split; [cbn; do 2 f_equal; lia|].
  split; [reflexivity|]. split; [reflexivity|]. split; [reflexivity|].
  cbn. discriminate.
Qed.

End GlobalCohortLaunch.

(** ** The shape is kept by the reactions *)

Section GlobalCohortSteps.
Import Keyed GlobalCohort.

Lemma global_cohort_lookup hs hw i a :
  ((reader_of <$> hs) ++ [writer_of hw]) !! i = Some a ->
  (exists h, hs !! i = Some h /\ a = reader_of h)
  \/ (i = length hs /\ a = writer_of hw).
Proof.
  intros H. destruct (decide (i < length hs)%nat) as [Hlt|Hge].
  - left. rewrite lookup_app_l in H by (rewrite length_fmap; exact Hlt).
    rewrite list_lookup_fmap in H.
    destruct (hs !! i) as [h|]; [|discriminate]. injection H as <-. eauto.
  - right. rewrite lookup_app_r in H by (rewrite length_fmap; lia).
    rewrite length_fmap in H.
    destruct (i - length hs)%nat as [|d] eqn:E; [|discriminate].
    injection H as <-. split; [lia|reflexivity].
Qed.

Lemma global_cohort_insert_reader hs hw i h h' :
  hs !! i = Some h ->
  <[i := reader_of h']> ((reader_of <$> hs) ++ [writer_of hw])
  = (reader_of <$> <[i := h']> hs) ++ [writer_of hw].
Proof.
  intros H. apply lookup_lt_Some in H.
  rewrite insert_app_l by (rewrite length_fmap; exact H).
  rewrite list_fmap_insert. reflexivity.
Qed.

Lemma global_cohort_insert_writer hs hw h' :
  <[length hs := writer_of h']> ((reader_of <$> hs) ++ [writer_of hw])
  = (reader_of <$> hs) ++ [writer_of h'].
Proof.
  rewrite insert_app_r_alt by (rewrite length_fmap; lia).
  rewrite length_fmap, Nat.sub_diag. reflexivity.
Qed.

Lemma resolved_unlock l : Lock.resolved (Lock.unlock l) = true.
Proof. reflexivity. Qed.

Lemma resolved_dispose l :
  Lock.resolved l = true -> Lock.resolved (Lock.dispose l) = true.
Proof. intros H. unfold Lock.dispose. destruct (Lock.unlockCalled l); auto. Qed.

Lemma in_order_ready h :
  in_order h -> in_order (mkHold Fulfilled (h_lock h) (h_released h)).
Proof. intros (H1 & H2 & H3). repeat split; cbn; auto. Qed.

Lemma in_order_lock f h :
  in_order h -> h_result h = Fulfilled ->
  (Lock.resolved (h_lock h) = true -> Lock.resolved (f (h_lock h)) = true) ->
  in_order (mkHold (h_result h) (f (h_lock h)) (h_released h)).
Proof. intros (H1 & H2 & H3) Hr Hf. repeat split; cbn; auto. Qed.

Lemma in_order_release h :
  in_order h -> Lock.resolved (h_lock h) = true ->
  in_order (mkHold (h_result h) (h_lock h) true).
Proof. intros (H1 & H2 & H3) Hr. repeat split; cbn; auto. Qed.

(** A reaction that changes a call but not whether it is released. *)
Lemma global_cohort_update N s i (g : hold -> hold) (f : acquirer -> acquirer) :
  shape N s ->
  (forall h, f (reader_of h) = reader_of (g h)) ->
  (forall h, f (writer_of h) = writer_of (g h)) ->
  (forall h, h_released (g h) = h_released h) ->
  (forall a, acqs s !! i = Some a ->
     (exists h, a = reader_of h /\ (in_order h -> in_order (g h)))
     \/ (exists h, a = writer_of h /\ (in_order h -> in_order (g h))
           /\ (h_result (g h) = Fulfilled ->
               h_result h = Fulfilled
               \/ item_ready <$> items s !! 1%nat = Some true))) ->
  forall a, acqs s !! i = Some a ->
  shape N (set_acqs (<[i := f a]>) s).
Proof.
  intros (hs & hw & Hlen & Hin & Hinw & Ha & Hi & Hq & Hp & Hb & Hw)
    Hfr Hfw Hrel Hcase a Hia.
  destruct (Hcase a Hia) as [(h0 & E0 & Hg)|(h0 & E0 & Hg & Hful)].
  - rewrite Ha in Hia.
    destruct (global_cohort_lookup hs hw i a Hia) as [(h & Hh & ->)|[-> E]].
    + exists (<[i := g h]> hs), hw.
      rewrite (released_same hs i h (g h) Hh (Hrel h)), length_insert.
      cbn [acqs items queues partialQueue barriers set_acqs].
      split; [exact Hlen|].
      split; [apply Forall_insert; [exact Hin|];
              assert (h = h0) by (injection E0; destruct h, h0; cbn;
                                  congruence); subst h0;
              apply Hg; exact (Forall_lookup_1 _ _ _ _ Hin Hh)|].
      split; [exact Hinw|].
      split; [rewrite Ha, Hfr;
              exact (global_cohort_insert_reader hs hw i h (g h) Hh)|].
      repeat split; assumption.
    + rewrite E in E0. discriminate.
  - rewrite Ha in Hia.
    destruct (global_cohort_lookup hs hw i a Hia) as [(h & Hh & ->)|[-> E]].
    + discriminate.
    + assert (hw = h0) by (rewrite E in E0; injection E0; destruct hw, h0;
                           cbn; congruence). subst h0. subst a.
      exists hs, (g hw). rewrite (Hrel hw).
      cbn [acqs items queues partialQueue barriers set_acqs].
      split; [exact Hlen|]. split; [exact Hin|].
      split; [apply Hg, Hinw|].
      split; [rewrite Ha, Hfw; exact (global_cohort_insert_writer hs hw (g hw))|].
      split; [exact Hi|]. split; [exact Hq|]. split; [exact Hp|].
      split; [exact Hb|].
      intros Hr. destruct (Hful Hr) as [Hold|Hready]; [exact (Hw Hold)|].
      rewrite Hi in Hready. cbn in Hready. injection Hready as Hready.
      apply bool_decide_eq_true_1 in Hready. exact Hready.
Qed.

Lemma global_cohort_acq N s i a :
  shape N s -> acqs s !! i = Some a ->
  exists h, in_order h
    /\ ((a = reader_of h /\ (i < N)%nat) \/ (a = writer_of h /\ i = N)).
Proof.
  intros (hs & hw & Hlen & Hin & Hinw & Ha & _) Hia. rewrite Ha in Hia.
  destruct (global_cohort_lookup hs hw i a Hia) as [(h & Hh & ->)|[-> ->]].
  - exists h. split; [exact (Forall_lookup_1 _ _ _ _ Hin Hh)|]. left.
    split; [reflexivity|]. rewrite <- Hlen. eapply lookup_lt_Some, Hh.
  - exists hw. split; [exact Hinw|]. right. split; [reflexivity|exact Hlen].
Qed.

Lemma global_cohort_Ready N i s s' :
  shape N s -> fire (Ready i) s = Some s' -> shape N s'.
Proof.
  intros Hs Hf. cbn [fire] in Hf.
  destruct (acqs s !! i) as [a|] eqn:Hia; [|discriminate].
  cbn [mbind option_bind] in Hf.
  destruct (a_result a) eqn:Hr; try discriminate.
  destruct (acq_ready s a) eqn:Hrd; [|discriminate]. injection Hf as <-.
  apply (global_cohort_update N s i
           (fun h => mkHold Fulfilled (h_lock h) (h_released h))
           (set_result Fulfilled)); try reflexivity; try assumption.
  intros b Hb. rewrite Hia in Hb. injection Hb as <-.
  destruct (global_cohort_acq N s i a Hs Hia) as (h & Hh & [[-> _]|[-> _]]).
  - left. exists h. split; [reflexivity|]. apply in_order_ready.
  - right. exists h. split; [reflexivity|]. split; [apply in_order_ready|].
    intros _. right. unfold acq_ready in Hrd.
    cbn [a_slots writer_of forallb] in Hrd. unfold slot_ready in Hrd.
    cbn [s_item s_step] in Hrd.
    destruct (items s !! 1%nat) as [it|]; [|discriminate].
    cbn. f_equal. destruct (item_ready it); [reflexivity|discriminate].
Qed.

Lemma global_cohort_on_lock N i f s a :
  shape N s -> acqs s !! i = Some a -> a_result a = Fulfilled ->
  (forall l, Lock.resolved l = true -> Lock.resolved (f l) = true) ->
  shape N (set_acqs (<[i := on_lock f a]>) s).
Proof.
  intros Hs Hia Hr Hf.
  apply (global_cohort_update N s i
           (fun h => mkHold (h_result h) (f (h_lock h)) (h_released h))
           (on_lock f)); try reflexivity; try assumption.
  intros b Hb. rewrite Hia in Hb. injection Hb as <-.
  destruct (global_cohort_acq N s i a Hs Hia) as (h & Hh & [[-> _]|[-> _]]).
  - left. exists h. split; [reflexivity|]. intros _.
    apply in_order_lock; [exact Hh|exact Hr|apply Hf].
  - right. exists h. split; [reflexivity|]. split.
    + intros _. apply in_order_lock; [exact Hh|exact Hr|apply Hf].
    + intros _. left. exact Hr.
Qed.

Lemma global_cohort_no_Abort N i s : shape N s -> fire (Abort i) s = None.
Proof.
  intros Hs. cbn [fire].
  destruct (acqs s !! i) as [a|] eqn:Hia; [|reflexivity].
  cbn [mbind option_bind].
  destruct (global_cohort_acq N s i a Hs Hia) as (h & Hh & [[-> _]|[-> _]]);
    cbn; destruct (h_result h); reflexivity.
Qed.

Lemma global_cohort_no_Barrier N i s : shape N s -> fire (Barrier i) s = None.
Proof.
  intros (hs & hw & _ & _ & _ & _ & _ & _ & _ & Hb & _). cbn [fire].
  rewrite Hb. reflexivity.
Qed.

Lemma global_cohort_Release N i s s' :
  shape N s -> fire (Release i) s = Some s' -> shape N s'.
Proof.
  intros (hs & hw & Hlen & Hin & Hinw & Ha & Hi & Hq & Hp & Hb & Hw) Hf.
  destruct s as [its qs pq bs acs].
  cbn [items queues partialQueue barriers acqs] in *. subst its qs pq bs acs.
  cbn [fire acqs] in Hf.
  destruct (((reader_of <$> hs) ++ [writer_of hw]) !! i) as [a|] eqn:Ea;
    [|discriminate].
  cbn [mbind option_bind] in Hf.
  destruct (global_cohort_lookup hs hw i a Ea) as [(h & Hh & ->)|[-> ->]].
  - cbn [a_lock a_released a_kind a_slots reader_of] in Hf.
    destruct (acq_ready _ (reader_of h)); [|discriminate].
    destruct (Lock.resolved (h_lock h)) eqn:Hres; [|discriminate].
    destruct (h_released h) eqn:Hrel; [discriminate|].
    cbn [andb negb] in Hf. injection Hf as <-.
    pose proof (released_lt hs i h Hh Hrel) as Hlt. rewrite Hlen in Hlt.
    pose proof (Forall_lookup_1 _ _ _ _ Hin Hh) as Hio.
    assert (Ew : h_released hw = false).
    { destruct (h_released hw) eqn:E; [|reflexivity].
      destruct Hinw as (H1 & H2 & _). specialize (Hw (H2 (H1 E))). lia. }
    exists (<[i := mkHold (h_result h) (h_lock h) true]> hs), hw.
    rewrite (released_insert hs i h _ Hh Hrel), length_insert.
    cbn [h_released]. rewrite Ew.
    change (set_released (reader_of h))
      with (reader_of (mkHold (h_result h) (h_lock h) true)).
    unfold next_all, next_r, advance.
    cbn [foldl s_item s_key s_queue items queues partialQueue barriers acqs
         set_acqs set_items set_queues lookup list_lookup].
    rewrite (bool_decide_eq_false_2 (released hs = N)) by lia.
    destruct (Nat.ltb_spec (released hs) N) as [_|]; [|lia].
    split; [exact Hlen|].
    split; [apply Forall_insert; [exact Hin|];
            apply (in_order_release h Hio Hres)|].
    split; [exact Hinw|].
    destruct (decide (Z.of_nat N - Z.of_nat (released hs) - 1 = 0)) as [Hz|Hz].
    + simpl. rewrite (global_cohort_insert_reader hs hw i h _ Hh).
      split; [reflexivity|].
      rewrite (bool_decide_eq_true_2 (S (released hs) = N)) by lia.
      destruct (Nat.ltb_spec (S (released hs)) N) as [|_]; [lia|].
      split; [do 2 f_equal; lia|]. split; [reflexivity|].
      split; [reflexivity|]. split; [reflexivity|]. intros _. lia.
    + simpl. rewrite (global_cohort_insert_reader hs hw i h _ Hh).
      split; [reflexivity|].
      rewrite (bool_decide_eq_false_2 (S (released hs) = N)) by lia.
      destruct (Nat.ltb_spec (S (released hs)) N) as [_|]; [|lia].
      split; [do 2 f_equal; lia|]. split; [reflexivity|].
      split; [reflexivity|]. split; [reflexivity|].
      intros Hr. specialize (Hw Hr). lia.
  - cbn [a_lock a_released a_kind a_slots writer_of] in Hf.
    unfold acq_ready, slot_ready in Hf.
    cbn [a_slots writer_of forallb s_item s_step items lookup list_lookup
         item_ready] in Hf.
    destruct (bool_decide (released hs = N)) eqn:Eb; [|discriminate].
    apply bool_decide_eq_true_1 in Eb.
    destruct (Lock.resolved (h_lock hw)) eqn:Hres; [|discriminate].
    destruct (h_released hw) eqn:Hrel; [discriminate|].
    cbn [andb negb] in Hf. injection Hf as <-.
    exists hs, (mkHold (h_result hw) (h_lock hw) true).
    change (set_released (writer_of hw))
      with (writer_of (mkHold (h_result hw) (h_lock hw) true)).
    unfold next_all, next_w, advance.
    cbn [foldl s_item s_key s_queue items queues partialQueue barriers acqs
         set_acqs set_items set_queues lookup list_lookup h_released
         h_result].
    rewrite (bool_decide_eq_true_2 (released hs = N)) by exact Eb.
    destruct (Nat.ltb_spec (released hs) N) as [|_]; [lia|].
    simpl. rewrite (global_cohort_insert_writer hs hw _).
    split; [exact Hlen|]. split; [exact Hin|].
    split; [apply (in_order_release hw Hinw Hres)|].
    split; [reflexivity|]. split; [reflexivity|]. split; [reflexivity|].
    split; [reflexivity|]. split; [reflexivity|]. intros _. exact Eb.
Qed.

Lemma global_cohort_step N e s s' :
  shape N s -> no_call e = true -> fire e s = Some s' -> shape N s'.
Proof.
  intros Hs Hn Hf. destruct e as [? ?|? ?|n|n|n|n|n|n]; try discriminate.
  - rewrite (global_cohort_no_Barrier N n s Hs) in Hf. discriminate.
  - exact (global_cohort_Ready N n s s' Hs Hf).
  - rewrite (global_cohort_no_Abort N n s Hs) in Hf. discriminate.
  - cbn [fire] in Hf. destruct (acqs s !! n) as [a|] eqn:Hia; [|discriminate].
    cbn [mbind option_bind] in Hf.
    destruct (a_result a) eqn:Hr; try discriminate. injection Hf as <-.
    apply global_cohort_on_lock; try assumption. intros l _. reflexivity.
  - cbn [fire] in Hf. destruct (acqs s !! n) as [a|] eqn:Hia; [|discriminate].
    cbn [mbind option_bind] in Hf.
    destruct (a_result a) eqn:Hr; try discriminate. injection Hf as <-.
    apply global_cohort_on_lock; try assumption. apply resolved_dispose.
  - exact (global_cohort_Release N n s s' Hs Hf).
Qed.

Lemma global_cohort_run N es : forall s s',
  shape N s -> forallb no_call es = true -> run es s = Some s' ->
  shape N s'.
Proof.
  induction es as [|e es IH]; intros s s' Hs Hes Hrun; cbn [run] in Hrun.
  - injection Hrun as <-. exact Hs.
  - cbn [forallb] in Hes. apply andb_true_iff in Hes as [He Hes].
    destruct (fire e s) as [s1|] eqn:E; [|discriminate].
    cbn [mbind option_bind] in Hrun.
    exact (IH s1 s' (global_cohort_step N e s s1 Hs He E) Hes Hrun).
Qed.

Lemma global_cohort_reader hs hw i a :
  (i < length hs)%nat ->
  ((reader_of <$> hs) ++ [writer_of hw]) !! i = Some a ->
  exists h, hs !! i = Some h /\ a = reader_of h.
Proof.
  intros Hlt Ha.
  destruct (global_cohort_lookup hs hw i a Ha) as [H|[-> _]]; [exact H|lia].
Qed.

(** X6: [S n] calls of [rLock()] and then one call of [lock()] are made on a
    new mux before any reaction runs.  Whatever reactions have run since,
    in whatever order: every reader still pending can be fulfilled at
    once, a reader whose lock object was unlocked can be released, a
    released reader was fulfilled and unlocked before, and the writer can
    be fulfilled exactly when it is still pending and every reader has
    been released. *)
Theorem unkeyed_readers_overlap_writer_waits (n : nat) (es : list event)
    (s : state) :
  forallb no_call es = true ->
  run (launch (S n) ++ es) init = Some s ->
  (forall i a, (i < S n)%nat -> acqs s !! i = Some a ->
     (a_result a = Pending -> is_Some (fire (Ready i) s))
     /\ (Lock.resolved (a_lock a) = true -> a_released a = false ->
         is_Some (fire (Release i) s))
     /\ (a_released a = true ->
         Lock.resolved (a_lock a) = true /\ a_result a = Fulfilled))
  /\ (is_Some (fire (Ready (S n)) s)
      <-> (exists w, acqs s !! S n = Some w /\ a_result w = Pending)
          /\ (forall i a, (i < S n)%nat -> acqs s !! i = Some a ->
                a_released a = true)).
Proof.
  intros Hes Hrun. rewrite keyed_run_app in Hrun.
  destruct (global_cohort_launched n) as (s0 & E0 & Hs0). rewrite E0 in Hrun.
  cbn [mbind option_bind] in Hrun.
  destruct (global_cohort_run (S n) es s0 s Hs0 Hes Hrun)
    as (hs & hw & Hlen & Hin & Hinw & Ha & Hi & Hq & Hp & Hb & Hw).
  split.
  - intros i a Hlt Hia. rewrite Ha in Hia. rewrite <- Hlen in Hlt.
    destruct (global_cohort_reader hs hw i a Hlt Hia) as (h & Hh & ->).
    destruct (Forall_lookup_1 _ _ _ _ Hin Hh) as (H1 & H2 & H3).
    assert (Hrd : acq_ready s (reader_of h) = true).
    { unfold acq_ready, slot_ready. rewrite Hi. reflexivity. }
    cbn [fire]. rewrite Ha, Hia. cbn [mbind option_bind].
    rewrite Hrd. cbn [a_result a_lock a_released reader_of].
    split; [intros ->; eauto|]. split.
    + intros -> ->. cbn. eauto.
    + intros Hr. split; [exact (H1 Hr)|exact (H2 (H1 Hr))].
  - assert (Hw' : acqs s !! S n = Some (writer_of hw)).
    { rewrite Ha, lookup_app_r by (rewrite length_fmap; lia).
      rewrite length_fmap, Hlen, Nat.sub_diag. reflexivity. }
    cbn [fire]. rewrite Hw'. cbn [mbind option_bind a_result writer_of].
    unfold acq_ready, slot_ready. rewrite Hi.
    cbn [a_slots writer_of forallb s_item s_step lookup list_lookup
         item_ready].
    split.
    + intros [s1 Hf]. destruct (h_result hw) eqn:Hr; try discriminate.
      destruct (bool_decide (released hs = S n)) eqn:Eb; [|discriminate].
      apply bool_decide_eq_true_1 in Eb. split; [eauto|].
      intros i a Hlt Hia. rewrite Ha in Hia. rewrite <- Hlen in Hlt.
      destruct (global_cohort_reader hs hw i a Hlt Hia) as (h & Hh & ->).
      rewrite <- Hlen in Eb. exact (proj1 (released_all hs) Eb i h Hh).
    + intros [(w & Ew & Hr) Hall]. injection Ew as <-.
      cbn [a_result writer_of] in Hr. rewrite Hr.
      assert (Ef : released hs = S n).
      { rewrite <- Hlen. apply released_all. intros i h Hh.
        assert (Hlt : (i < S n)%nat)
          by (rewrite <- Hlen; eapply lookup_lt_Some, Hh).
        assert (Hia : acqs s !! i = Some (reader_of h)).
        { rewrite Ha, lookup_app_l by (rewrite length_fmap; lia).
          rewrite list_lookup_fmap, Hh. reflexivity. }
        exact (Hall i _ Hlt Hia). }
      rewrite (bool_decide_eq_true_2 _ Ef). cbn. eauto.
Qed.

Lemma unkeyed_readers_overlap_writer_waits_witness :
  is_Some (fire (Ready 1%nat)
    (default init (run (launch 2 ++ [Ready 0%nat; Unlock 0%nat]) init))).
Proof.
  refine (proj1 (proj1 (unkeyed_readers_overlap_writer_waits 1
    [Ready 0%nat; Unlock 0%nat]
    (default init (run (launch 2 ++ [Ready 0%nat; Unlock 0%nat]) init)) _ _)
    1%nat (reader_of fresh) _ _) _); try reflexivity. lia.
Defined.

End GlobalCohortSteps.

(** ** Unkeyed calls while per-key queues exist *)

Section KeyedFanOut.
Import Keyed KeyedMap.

Lemma map_ok_delete k s :
  map_ok s -> map_ok (set_partial (map_delete k) s).
Proof.
  intros [H1 H2]. split; [exact H1|]. cbn [partialQueue queues set_partial].
  unfold map_delete. rewrite Forall_forall in *. intros e He.
  apply list_elem_of_filter in He as [_ He]. exact (H2 e He).
Qed.

Lemma map_ok_queues f s :
  map_ok s -> length (f (queues s)) = length (queues s) ->
  map_ok (set_queues f s).
Proof.
  intros [H1 H2] Hl. split; cbn [partialQueue queues set_queues];
    rewrite Hl; assumption.
Qed.

Lemma map_ok_items f s : map_ok s -> map_ok (set_items f s).
Proof. intros H. exact H. Qed.

Lemma map_ok_acqs f s : map_ok s -> map_ok (set_acqs f s).
Proof. intros H. exact H. Qed.

Lemma map_ok_barriers f s : map_ok s -> map_ok (set_barriers f s).
Proof. intros H. exact H. Qed.

Lemma map_ok_advance key q s : map_ok s -> map_ok (advance key q s).
Proof.
  intros H. unfold advance.
  assert (H1 : map_ok (set_queues (alter (drop 1) q) s)).
  { apply map_ok_queues; [exact H|]. apply length_alter. }
  repeat case_match;
    first [exact H1 | apply map_ok_delete, H1 | apply map_ok_items, H1].
Qed.

Lemma map_ok_push q it s : map_ok s -> map_ok (push_item q it s).
Proof.
  intros H. unfold push_item. apply map_ok_queues; [apply map_ok_items, H|].
  apply length_alter.
Qed.

Lemma map_ok_next_w sl s : map_ok s -> map_ok (next_w sl s).
Proof.
  intros H. unfold next_w. repeat case_match;
    first [exact H | apply map_ok_advance, map_ok_items, H
          | apply map_ok_acqs, map_ok_items, H].
Qed.

Lemma map_ok_next_r sl s : map_ok s -> map_ok (next_r sl s).
Proof.
  intros H. unfold next_r. repeat case_match;
    first [exact H | apply map_ok_advance, map_ok_items, H
          | apply map_ok_items, H].
Qed.

Lemma map_ok_next_all k sls : forall s, map_ok s -> map_ok (next_all k sls s).
Proof.
  unfold next_all. induction sls as [|sl sls IH]; intros s H; [exact H|].
  cbn [foldl]. apply IH. destruct k; [apply map_ok_next_w|..];
    try apply map_ok_next_r; exact H.
Qed.

Lemma map_ok_arrive_w a e s : map_ok s -> map_ok (arrive_w a e s).1.
Proof.
  intros H. unfold arrive_w. destruct e as [key q].
  repeat case_match; simplify_eq; cbn [fst]; try exact H;
    try apply map_ok_items; try apply map_ok_push; exact H.
Qed.

Lemma map_ok_arrive_r a e s : map_ok s -> map_ok (arrive_r a e s).1.
Proof.
  intros H. unfold arrive_r. destruct e as [key q].
  repeat case_match; simplify_eq; cbn [fst]; try exact H;
    try apply map_ok_items; try apply map_ok_push; exact H.
Qed.

Lemma map_ok_arrive_all k a es : forall s,
  map_ok s -> map_ok (arrive_all k a es s).1.
Proof.
  induction es as [|e es IH]; intros s H; [exact H|]. cbn [arrive_all].
  destruct k.
  - pose proof (map_ok_arrive_w a e s H) as H1.
    destruct (arrive_w a e s) as [s1 sl]. specialize (IH s1 H1).
    destruct (arrive_all TW a es s1). exact IH.
  - pose proof (map_ok_arrive_r a e s H) as H1.
    destruct (arrive_r a e s) as [s1 sl]. specialize (IH s1 H1).
    destruct (arrive_all TR a es s1). exact IH.
  - pose proof (map_ok_arrive_r a e s H) as H1.
    destruct (arrive_r a e s) as [s1 sl]. specialize (IH s1 H1).
    destruct (arrive_all TG a es s1). exact IH.
Qed.

Lemma map_ok_new_queue k g s :
  map_ok s ->
  map_ok (set_partial (fun m => m ++ [(k, length (queues s))])
            (set_barriers (fun l => l ++ [mkBarrier g (length (queues s)) k false])
               (set_queues (fun l => l ++ [[g]]) s))).
Proof.
  intros [H1 H2]. split; cbn [partialQueue queues set_partial set_barriers
    set_queues]; rewrite length_app; cbn [length]; [lia|].
  apply Forall_app. split.
  - eapply Forall_impl; [exact H2|]. cbn. intros e He. lia.
  - apply Forall_singleton. cbn. lia.
Qed.

Lemma map_ok_getQueueEntries key s :
  map_ok s -> map_ok (getQueueEntries key s).1.
Proof.
  intros H. unfold getQueueEntries.
  destruct key as [k|]; [|destruct (partialQueue s); exact H].
  destruct (map_get k (partialQueue s)); [exact H|].
  destruct (last (default [] (queues s !! globalQueue))) as [i|].
  - destruct (items s !! i) as [[r st|r n|r]|]; cbn [fst];
      first [apply (map_ok_new_queue k _ (push_item globalQueue _ s)),
               map_ok_push, H
            |apply (map_ok_new_queue k _ s), H].
  - cbn [fst].
    apply (map_ok_new_queue k _ (push_item globalQueue _ s)), map_ok_push, H.
Qed.

Lemma map_ok_acquire k key sig s : map_ok s -> map_ok (acquire k key sig s).1.
Proof.
  intros H. unfold acquire.
  destruct sig as [[[] r]|]; cbn [fst]; try exact H.
  - pose proof (map_ok_getQueueEntries key s H) as H1.
    destruct (getQueueEntries key s) as [s1 es].
    pose proof (map_ok_arrive_all k (length (acqs s)) es s1 H1) as H2.
    destruct (arrive_all k (length (acqs s)) es s1) as [s2 sls]. exact H2.
  - pose proof (map_ok_getQueueEntries key s H) as H1.
    destruct (getQueueEntries key s) as [s1 es].
    pose proof (map_ok_arrive_all k (length (acqs s)) es s1 H1) as H2.
    destruct (arrive_all k (length (acqs s)) es s1) as [s2 sls]. exact H2.
Qed.

Lemma map_ok_step e s s' : map_ok s -> fire e s = Some s' -> map_ok s'.
Proof.
  intros H. destruct e as [key sig|key sig|n|n|n|n|n|n]; cbn [fire].
  - intros [= <-]. apply map_ok_acquire, H.
  - intros [= <-]. apply map_ok_acquire, H.
  - destruct (barriers s !! n) as [b|]; [|discriminate].
    cbn [mbind option_bind]. destruct (items s !! b_item b); [|discriminate].
    cbn [mbind option_bind]. case_match; [|discriminate].
    intros [= <-]. apply map_ok_advance, map_ok_barriers, H.
  - destruct (acqs s !! n) as [a|]; [|discriminate]. cbn [mbind option_bind].
    repeat case_match; try discriminate. intros [= <-]. exact H.
  - destruct (acqs s !! n) as [a|]; [|discriminate]. cbn [mbind option_bind].
    repeat case_match; try discriminate. intros [= <-]. exact H.
  - destruct (acqs s !! n) as [a|]; [|discriminate]. cbn [mbind option_bind].
    repeat case_match; try discriminate. intros [= <-]. exact H.
  - destruct (acqs s !! n) as [a|]; [|discriminate]. cbn [mbind option_bind].
    repeat case_match; try discriminate. intros [= <-]. exact H.
  - destruct (acqs s !! n) as [a|]; [|discriminate]. cbn [mbind option_bind].
    repeat case_match; try discriminate. intros [= <-].
    apply map_ok_next_all, map_ok_acqs, H.
Qed.

Lemma map_ok_init : map_ok init.
Proof. split; [cbn; lia|constructor]. Qed.

Lemma fans_refl q s : fans q s s.
Proof. repeat split. Qed.

Lemma fans_items q f s s1 : fans q s s1 -> fans q s (set_items f s1).
Proof. intros H. exact H. Qed.

Lemma fans_push q it s : fans q s (push_item q it s).
Proof.
  split; [|split; reflexivity]. intros q' Hne.
  unfold push_item. cbn [queues set_queues set_items].
  apply list_lookup_alter_ne. congruence.
Qed.

Lemma fans_arrive_w a key q s :
  fans q s (arrive_w a (key, q) s).1
  /\ slot_entry (arrive_w a (key, q) s).2 = (key, q).
Proof.
  unfold arrive_w.
  repeat case_match; simplify_eq; cbn [fst snd]; (split; [|reflexivity]);
    try apply fans_items; first [apply fans_refl | apply fans_push].
Qed.

Lemma fans_arrive_r a key q s :
  fans q s (arrive_r a (key, q) s).1
  /\ slot_entry (arrive_r a (key, q) s).2 = (key, q).
Proof.
  unfold arrive_r.
  repeat case_match; simplify_eq; cbn [fst snd]; (split; [|reflexivity]);
    try apply fans_items; first [apply fans_refl | apply fans_push].
Qed.

Lemma fans_arrive k a key q s :
  fans q s (match k with
            | TW => arrive_w a (key, q) s
            | _ => arrive_r a (key, q) s
            end).1
  /\ slot_entry (match k with
                 | TW => arrive_w a (key, q) s
                 | _ => arrive_r a (key, q) s
                 end).2 = (key, q).
Proof. destruct k; [apply fans_arrive_w|apply fans_arrive_r..]. Qed.

Lemma arrive_all_fans k a es : forall s,
  Forall (fun e => e.2 <> globalQueue) es ->
  queues (arrive_all k a es s).1 !! globalQueue = queues s !! globalQueue
  /\ partialQueue (arrive_all k a es s).1 = partialQueue s
  /\ barriers (arrive_all k a es s).1 = barriers s
  /\ slot_entry <$> (arrive_all k a es s).2 = es.
Proof.
  induction es as [|[key q] es IH]; intros s Hes; [repeat split|].
  inversion Hes as [|? ? Hq Hes']; subst. cbn [snd] in Hq.
  cbn [arrive_all].
  destruct (fans_arrive k a key q s) as [(F1 & F2 & F3) F4].
  destruct (match k with
            | TW => arrive_w a (key, q) s
            | _ => arrive_r a (key, q) s
            end) as [s1 sl].
  cbn [fst snd] in *.
  destruct (IH s1 Hes') as (G1 & G2 & G3 & G4).
  destruct (arrive_all k a es s1) as [s2 sls]. cbn [fst snd] in *.
  split; [rewrite G1; apply F1; congruence|].
  split; [congruence|]. split; [congruence|].
  cbn [fmap list_fmap]. rewrite F4. f_equal. exact G4.
Qed.

Lemma map_ok_run es s s' : map_ok s -> run es s = Some s' -> map_ok s'.
Proof. apply (run_invariant map_ok). intros e ? ?. apply map_ok_step. Qed.

(** X7: An unkeyed call of [lock] or [rLock] ([k] tells which) made while the
    map of per-key queues is not empty, in any state a mux can reach:
    the call takes one slot on the queue of every key of the map, in the
    order of the map, and nothing else; the global queue, the map and the
    barrier reactions are as before. *)
Theorem unkeyed_call_fans_out (k : tag) (sig : option signal)
    (es : list event) (s : state) :
  run es init = Some s ->
  partialQueue s <> [] ->
  live sig ->
  (acquire k None sig s).2 = inl (length (acqs s))
  /\ queues (acquire k None sig s).1 !! globalQueue
     = queues s !! globalQueue
  /\ partialQueue (acquire k None sig s).1 = partialQueue s
  /\ barriers (acquire k None sig s).1 = barriers s
  /\ exists a,
       acqs (acquire k None sig s).1 = acqs s ++ [a]
       /\ slot_entry <$> a_slots a
          = (fun e => (Some e.1, e.2)) <$> partialQueue s.
Proof.
  intros Hrun Hne Hlive.
  pose proof (map_ok_run es init s map_ok_init Hrun) as [_ Hmap].
  assert (Hes : Forall (fun e : option string * nat => e.2 <> globalQueue)
                  ((fun e => (Some e.1, e.2)) <$> partialQueue s)).
  { apply Forall_fmap. eapply Forall_impl; [exact Hmap|].
    cbn. unfold globalQueue. intros e He. lia. }
  assert (Hacq : acquire k None sig s
    = let a := length (acqs s) in
      let '(s2, slots) :=
        arrive_all k a ((fun e => (Some e.1, e.2)) <$> partialQueue s) s in
      (set_acqs (fun l => l ++
         [mkAcquirer k slots Pending Lock.create (reason <$> sig) false]) s2,
       inl a)).
  { unfold acquire, getQueueEntries.
    destruct sig as [[[] r]|]; cbn in Hlive; try discriminate;
      destruct (partialQueue s); try reflexivity; congruence. }
  rewrite Hacq. cbn zeta.
  destruct (arrive_all_fans k (length (acqs s))
              ((fun e => (Some e.1, e.2)) <$> partialQueue s) s Hes)
    as (G1 & G2 & G3 & G4).
  pose proof (acqs_arrive_all k (length (acqs s))
                ((fun e => (Some e.1, e.2)) <$> partialQueue s) s) as G5.
  destruct (arrive_all k (length (acqs s))
              ((fun e => (Some e.1, e.2)) <$> partialQueue s) s)
    as [s2 sls].
  cbn [fst snd] in *.
  split; [reflexivity|]. split; [exact G1|]. split; [exact G2|].
  split; [exact G3|]. eexists. split.
  - cbn [acqs set_acqs]. rewrite G5. reflexivity.
  - exact G4.
Qed.

Lemma unkeyed_call_fans_out_witness :
  partialQueue
    (acquire TW None None
       (default init
          (run [Lock (Some "a") None; Lock (Some "b") None] init))).1
  = partialQueue
      (default init (run [Lock (Some "a") None; Lock (Some "b") None] init)).
Proof.
  refine (proj1 (proj2 (proj2 (unkeyed_call_fans_out TW None
    [Lock (Some "a") None; Lock (Some "b") None]
    (default init (run [Lock (Some "a") None; Lock (Some "b") None] init))
    _ _ _)))).
  - reflexivity.
  - vm_compute. discriminate.
  - exact I.
Defined.

End KeyedFanOut.

(** ** A mux used with keys only: an idle key is granted at once *)

Section KeyedOnlyInv.
Import Keyed KeyedMap KeyedOnly.

Lemma keeps_refl s : keeps s s.
Proof. intros g H. exact H. Qed.

Lemma keeps_trans s1 s2 s3 : keeps s1 s2 -> keeps s2 s3 -> keeps s1 s3.
Proof. intros H1 H2 g H. apply H2, H1, H. Qed.

Lemma keeps_same_items s s1 : items s1 = items s -> keeps s s1.
Proof. intros E g H. rewrite E. exact H. Qed.

Lemma keeps_insert i x it s :
  items s !! i = Some it -> item_tag it <> TG ->
  keeps s (set_items (<[i := x]>) s).
Proof.
  intros Hi Ht g Hg. cbn [items set_items].
  rewrite list_lookup_insert_ne; [exact Hg|].
  intros ->. rewrite Hi in Hg. injection Hg as ->. apply Ht. reflexivity.
Qed.

Lemma keeps_start i s : keeps s (set_items (alter item_start i) s).
Proof.
  intros g Hg. cbn [items set_items].
  destruct (decide (i = g)) as [->|Hne].
  - rewrite list_lookup_alter_eq, Hg. reflexivity.
  - rewrite list_lookup_alter_ne by exact Hne. exact Hg.
Qed.

Lemma keeps_push q it s : keeps s (push_item q it s).
Proof.
  intros g Hg. unfold push_item. cbn [items set_items set_queues].
  apply lookup_app_l_Some. exact Hg.
Qed.

Lemma keeps_advance key q s : keeps s (advance key q s).
Proof.
  unfold advance. repeat case_match;
    first [apply keeps_same_items; reflexivity
          | intros g Hg; exact (keeps_start _ s g Hg)].
Qed.

Lemma keeps_next_w sl s : keeps s (next_w sl s).
Proof.
  unfold next_w.
  destruct (items s !! s_item sl) as [[r st|r n|r]|] eqn:Ei;
    try apply keeps_refl.
  destruct (pop_step st) as [rest [a|]].
  - eapply keeps_trans; [eapply keeps_insert; [exact Ei|discriminate]|].
    apply keeps_same_items. reflexivity.
  - eapply keeps_trans; [eapply keeps_insert; [exact Ei|discriminate]|].
    apply keeps_advance.
Qed.

Lemma keeps_next_r sl s : keeps s (next_r sl s).
Proof.
  unfold next_r.
  destruct (items s !! s_item sl) as [[r st|r n|r]|] eqn:Ei;
    try apply keeps_refl.
  destruct (decide (n - 1 = 0)).
  - eapply keeps_trans; [eapply keeps_insert; [exact Ei|discriminate]|].
    apply keeps_advance.
  - eapply keeps_insert; [exact Ei|discriminate].
Qed.

Lemma keeps_next_all k sls : forall s, keeps s (next_all k sls s).
Proof.
  unfold next_all. induction sls as [|sl sls IH]; intros s;
    [apply keeps_refl|].
  cbn [foldl]. eapply keeps_trans; [|apply IH].
  destruct k; [apply keeps_next_w|apply keeps_next_r..].
Qed.

Lemma keeps_arrive_w a e s : keeps s (arrive_w a e s).1.
Proof.
  unfold arrive_w. destruct e as [key q].
  destruct (match last (default [] (queues s !! q)) with
            | Some l => match items s !! l with
                        | Some (ItemW _ _) => (l, s)
                        | _ => (length (items s), push_item q (ItemW false []) s)
                        end
            | None => (length (items s), push_item q (ItemW true []) s)
            end) as [i s1] eqn:E.
  assert (H1 : keeps s s1).
  { repeat case_match; simplify_eq;
      first [apply keeps_refl | apply keeps_push]. }
  destruct (items s1 !! i) as [[r st|r n|r]|] eqn:Ei; cbn [fst];
    try exact H1.
  destruct st; cbn [fst]; (eapply keeps_trans; [exact H1|]);
    (eapply keeps_insert; [exact Ei|discriminate]).
Qed.

Lemma keeps_arrive_r a e s : keeps s (arrive_r a e s).1.
Proof.
  unfold arrive_r. destruct e as [key q].
  destruct (match last (default [] (queues s !! q)) with
            | Some l => match items s !! l with
                        | Some (ItemR _ _) => (l, s)
                        | _ => (length (items s), push_item q (ItemR false 0) s)
                        end
            | None => (length (items s), push_item q (ItemR true 0) s)
            end) as [i s1] eqn:E.
  assert (H1 : keeps s s1).
  { repeat case_match; simplify_eq;
      first [apply keeps_refl | apply keeps_push]. }
  destruct (items s1 !! i) as [[r st|r n|r]|] eqn:Ei; cbn [fst];
    try exact H1.
  eapply keeps_trans; [exact H1|].
  eapply keeps_insert; [exact Ei|discriminate].
Qed.

Lemma keeps_arrive_all k a es : forall s, keeps s (arrive_all k a es s).1.
Proof.
  induction es as [|e es IH]; intros s; [apply keeps_refl|].
  cbn [arrive_all].
  assert (H1 : keeps s (match k with
                        | TW => arrive_w a e s
                        | _ => arrive_r a e s
                        end).1).
  { destruct k; [apply keeps_arrive_w|apply keeps_arrive_r..]. }
  destruct (match k with TW => arrive_w a e s | _ => arrive_r a e s end)
    as [s1 sl].
  specialize (IH s1). destruct (arrive_all k a es s1) as [s2 sls].
  cbn [fst] in *. eapply keeps_trans; eassumption.
Qed.

Lemma queue0_advance key q s :
  q <> globalQueue ->
  queues (advance key q s) !! globalQueue = queues s !! globalQueue.
Proof.
  intros Hq. unfold advance.
  repeat case_match; cbn [queues set_items set_queues set_partial];
    apply list_lookup_alter_ne; congruence.
Qed.

Lemma barriers_advance key q s : barriers (advance key q s) = barriers s.
Proof. unfold advance. repeat case_match; reflexivity. Qed.

Lemma slots_free_resolve i a : slots_free a -> slots_free (resolve_step i a).
Proof.
  unfold slots_free, resolve_step. cbn [a_slots]. intros H.
  apply Forall_fmap. eapply Forall_impl; [exact H|].
  intros sl Hsl. cbn. case_match; exact Hsl.
Qed.

(** What a release reaction on a slot of a per-key queue keeps. *)
Lemma next_w_free sl s :
  s_queue sl <> globalQueue ->
  queues (next_w sl s) !! globalQueue = queues s !! globalQueue
  /\ barriers (next_w sl s) = barriers s
  /\ (Forall slots_free (acqs s) -> Forall slots_free (acqs (next_w sl s))).
Proof.
  intros Hq. unfold next_w.
  destruct (items s !! s_item sl) as [[r st|r n|r]|];
    [|repeat split; auto..].
  destruct (pop_step st) as [rest [a|]].
  - repeat split. cbn [acqs set_acqs set_items]. intros H.
    apply Forall_alter; [exact H|]. intros b _. apply slots_free_resolve.
  - rewrite queue0_advance, barriers_advance, acqs_advance by exact Hq.
    repeat split; auto.
Qed.

Lemma next_r_free sl s :
  s_queue sl <> globalQueue ->
  queues (next_r sl s) !! globalQueue = queues s !! globalQueue
  /\ barriers (next_r sl s) = barriers s
  /\ (Forall slots_free (acqs s) -> Forall slots_free (acqs (next_r sl s))).
Proof.
  intros Hq. unfold next_r.
  destruct (items s !! s_item sl) as [[r st|r n|r]|];
    [repeat split; auto| |repeat split; auto..].
  destruct (decide (n - 1 = 0)).
  - rewrite queue0_advance, barriers_advance, acqs_advance by exact Hq.
    repeat split; auto.
  - repeat split; auto.
Qed.

Lemma next_all_free k sls : forall s,
  Forall (fun sl => s_queue sl <> globalQueue) sls ->
  queues (next_all k sls s) !! globalQueue = queues s !! globalQueue
  /\ barriers (next_all k sls s) = barriers s
  /\ (Forall slots_free (acqs s) ->
      Forall slots_free (acqs (next_all k sls s))).
Proof.
  unfold next_all. induction sls as [|sl sls IH]; intros s Hs;
    [repeat split; auto|].
  inversion Hs as [|? ? Hq Hs']; subst. cbn [foldl].
  assert (H1 : let s1 := match k with TW => next_w sl s | _ => next_r sl s end
               in queues s1 !! globalQueue = queues s !! globalQueue
                  /\ barriers s1 = barriers s
                  /\ (Forall slots_free (acqs s)
                      -> Forall slots_free (acqs s1))).
  { destruct k; [apply next_w_free|apply next_r_free..]; exact Hq. }
  cbn zeta in H1. destruct H1 as (A1 & A2 & A3).
  destruct (IH (match k with TW => next_w sl s | _ => next_r sl s end) Hs')
    as (B1 & B2 & B3).
  split; [congruence|]. split; [congruence|]. auto.
Qed.

Lemma uf_frame s s1 :
  unkeyed_free s -> keeps s s1 ->
  queues s1 !! globalQueue = queues s !! globalQueue ->
  Forall (fun b => b_queue b <> globalQueue) (barriers s1) ->
  Forall slots_free (acqs s1) ->
  unkeyed_free s1.
Proof.
  intros (H1 & H2 & H3) Hk Hq Hb Ha. split; [|split; assumption].
  intros g Hg. rewrite Hq in Hg. apply Hk, H1, Hg.
Qed.

Lemma uf_update n f a s :
  unkeyed_free s -> acqs s !! n = Some a -> a_slots (f a) = a_slots a ->
  unkeyed_free (set_acqs (<[n := f a]>) s).
Proof.
  intros H Hn Hf. apply (uf_frame s); try apply H; try reflexivity.
  - apply keeps_same_items. reflexivity.
  - cbn [acqs set_acqs]. apply Forall_insert; [apply H|].
    unfold slots_free. rewrite Hf.
    exact (Forall_lookup_1 _ _ _ _ (proj2 (proj2 H)) Hn).
Qed.

Lemma map_get_Some k m q : map_get k m = Some q -> exists e, e ∈ m /\ e.2 = q.
Proof.
  unfold map_get. intros H.
  destruct (list_find (fun e => e.1 = k) m) as [[i e]|] eqn:E; [|discriminate].
  injection H as <-. apply list_find_Some in E as (Hi & _ & _).
  exists e. split; [eapply list_elem_of_lookup_2, Hi|reflexivity].
Qed.

Lemma uf_getQueueEntries key s :
  map_ok s -> unkeyed_free s ->
  unkeyed_free (getQueueEntries (Some key) s).1
  /\ Forall (fun e => e.2 <> globalQueue) (getQueueEntries (Some key) s).2.
Proof.
  intros [Hlen Hmap] Huf. unfold getQueueEntries.
  destruct (map_get key (partialQueue s)) as [q|] eqn:Eg.
  - split; [exact Huf|]. apply Forall_singleton. cbn.
    destruct (map_get_Some _ _ _ Eg) as (e & He & <-).
    rewrite Forall_forall in Hmap. specialize (Hmap e He).
    unfold globalQueue. lia.
  - destruct Huf as (H1 & H2 & H3).
    destruct (last (default [] (queues s !! globalQueue))) as [i|] eqn:El.
    + rewrite (H1 i eq_refl). cbn [fst snd]. split.
      * split; [|split; [|exact H3]].
        -- intros g. cbn [queues items set_partial set_barriers set_queues].
           rewrite lookup_app_l by (unfold globalQueue; lia).
           rewrite El. apply H1.
        -- cbn [barriers set_partial set_barriers]. apply Forall_app.
           split; [exact H2|]. apply Forall_singleton. cbn.
           unfold globalQueue. lia.
      * apply Forall_singleton. cbn. unfold globalQueue. lia.
    + cbn [fst snd]. unfold push_item.
      cbn [queues items barriers acqs set_partial set_barriers set_queues
           set_items].
      rewrite length_alter. split.
      * split; [|split; [|exact H3]].
        -- intros g.
           cbn [queues items set_partial set_barriers set_queues set_items].
           rewrite lookup_app_l
             by (rewrite length_alter; unfold globalQueue; lia).
           rewrite list_lookup_alter_eq.
           destruct (queues s !! globalQueue) as [gq|] eqn:Eq; cbn;
             [|discriminate].
           rewrite last_snoc. intros [= <-].
           rewrite lookup_app_r by lia. rewrite Nat.sub_diag. reflexivity.
        -- cbn [barriers set_partial set_barriers]. apply Forall_app.
           split; [exact H2|]. apply Forall_singleton. cbn.
           unfold globalQueue. lia.
      * apply Forall_singleton. cbn. unfold globalQueue. lia.
Qed.

Lemma slots_free_entries sls es :
  slot_entry <$> sls = es -> Forall (fun e => e.2 <> globalQueue) es ->
  Forall (fun sl => s_queue sl <> globalQueue) sls.
Proof.
  intros <- H. rewrite Forall_fmap in H. exact H.
Qed.

Lemma uf_acquire k key sig s :
  map_ok s -> unkeyed_free s -> unkeyed_free (acquire k (Some key) sig s).1.
Proof.
  intros Hm Huf.
  assert (Hgo : forall r,
    unkeyed_free
      (let '(s1, entries) := getQueueEntries (Some key) s in
       let '(s2, slots) := arrive_all k (length (acqs s)) entries s1 in
       (set_acqs (fun l => l ++ [mkAcquirer k slots Pending Lock.create r
                                   false]) s2,
        @inl nat error (length (acqs s)))).1).
  { intros r.
    destruct (uf_getQueueEntries key s Hm Huf) as [Huf1 Hes].
    destruct (getQueueEntries (Some key) s) as [s1 es]. cbn [fst snd] in *.
    destruct (arrive_all_fans k (length (acqs s)) es s1 Hes)
      as (G1 & G2 & G3 & G4).
    pose proof (keeps_arrive_all k (length (acqs s)) es s1) as G5.
    pose proof (acqs_arrive_all k (length (acqs s)) es s1) as G6.
    destruct (arrive_all k (length (acqs s)) es s1) as [s2 sls].
    cbn [fst snd] in *.
    apply (uf_frame s1); [exact Huf1|exact G5|exact G1| |].
    - cbn [barriers set_acqs]. rewrite G3. apply Huf1.
    - cbn [acqs set_acqs]. rewrite G6. apply Forall_app.
      split; [apply Huf1|]. apply Forall_singleton.
      exact (slots_free_entries sls es G4 Hes). }
  unfold acquire. destruct sig as [[[] r]|]; [exact Huf|apply Hgo..].
Qed.

Lemma uf_step e s s' :
  map_ok s -> unkeyed_free s -> keyed_only e = true ->
  fire e s = Some s' -> unkeyed_free s'.
Proof.
  intros Hm Huf He.
  destruct e as [[key|] sig|[key|] sig|n|n|n|n|n|n]; try discriminate;
    cbn [fire].
  - intros [= <-]. apply uf_acquire; assumption.
  - intros [= <-]. apply uf_acquire; assumption.
  - destruct (barriers s !! n) as [b|] eqn:Hb; [|discriminate].
    cbn [mbind option_bind]. destruct (items s !! b_item b); [|discriminate].
    cbn [mbind option_bind]. case_match; [|discriminate]. intros [= <-].
    pose proof (Forall_lookup_1 _ _ _ _ (proj1 (proj2 Huf)) Hb) as Hq.
    cbn beta in Hq.
    apply (uf_frame s);
      [exact Huf
      |exact (keeps_advance _ _ (set_barriers (<[n := set_fired b]>) s))| | |].
    + rewrite queue0_advance by exact Hq. reflexivity.
    + rewrite barriers_advance. cbn [barriers set_barriers].
      apply Forall_insert; [apply Huf|exact Hq].
    + rewrite acqs_advance. apply Huf.
  - destruct (acqs s !! n) as [a|] eqn:Hn; [|discriminate].
    cbn [mbind option_bind]. repeat case_match; try discriminate.
    intros [= <-]. apply uf_update; [assumption..|reflexivity].
  - destruct (acqs s !! n) as [a|] eqn:Hn; [|discriminate].
    cbn [mbind option_bind]. repeat case_match; try discriminate.
    intros [= <-].
    apply (uf_update n (fun a => on_lock Lock.resolve
                                   (set_result (Rejected (AbortReason _)) a)));
      [assumption..|reflexivity].
  - destruct (acqs s !! n) as [a|] eqn:Hn; [|discriminate].
    cbn [mbind option_bind]. repeat case_match; try discriminate.
    intros [= <-]. apply uf_update; [assumption..|reflexivity].
  - destruct (acqs s !! n) as [a|] eqn:Hn; [|discriminate].
    cbn [mbind option_bind]. repeat case_match; try discriminate.
    intros [= <-]. apply uf_update; [assumption..|reflexivity].
  - destruct (acqs s !! n) as [a|] eqn:Hn; [|discriminate].
    cbn [mbind option_bind]. case_match; [|discriminate]. intros [= <-].
    pose proof (uf_update n set_released a s Huf Hn eq_refl) as Huf1.
    pose proof (Forall_lookup_1 _ _ _ _ (proj2 (proj2 Huf)) Hn) as Hsl.
    destruct (next_all_free (a_kind a) (a_slots a)
                (set_acqs (<[n := set_released a]>) s) Hsl) as (A1 & A2 & A3).
    apply (uf_frame (set_acqs (<[n := set_released a]>) s));
      [exact Huf1|apply keeps_next_all|exact A1| |].
    + rewrite A2. apply Huf1.
    + apply A3, Huf1.
Qed.

Lemma uf_run es : forall s s',
  map_ok s -> unkeyed_free s -> forallb keyed_only es = true ->
  run es s = Some s' -> map_ok s' /\ unkeyed_free s'.
Proof.
  induction es as [|e es IH]; intros s s' Hm Huf Hes Hrun; cbn [run] in Hrun.
  - injection Hrun as <-. auto.
  - cbn [forallb] in Hes. apply andb_true_iff in Hes as [He Hes].
    destruct (fire e s) as [s1|] eqn:E; [|discriminate].
    cbn [mbind option_bind] in Hrun.
    apply (IH s1 s'); [|exact (uf_step e s s1 Hm Huf He E)|exact Hes|exact Hrun].
    exact (map_ok_step e s s1 Hm E).
Qed.

Lemma uf_init : unkeyed_free init.
Proof. split; [intros g; discriminate|split; constructor]. Qed.

Lemma new_key_entries key s :
  map_ok s -> unkeyed_free s -> map_get key (partialQueue s) = None ->
  exists g s1,
    getQueueEntries (Some key) s
    = (set_partial (fun m => m ++ [(key, length (queues s1))])
         (set_barriers
            (fun l => l ++ [mkBarrier g (length (queues s1)) key false])
            (set_queues (fun l => l ++ [[g]]) s1)),
       [(Some key, length (queues s1))])
    /\ items s1 !! g = Some (ItemG true)
    /\ barriers s1 = barriers s /\ acqs s1 = acqs s.
Proof.
  intros Hm (H1 & _) Eg. unfold getQueueEntries. rewrite Eg.
  destruct (last (default [] (queues s !! globalQueue))) as [i|] eqn:El.
  - rewrite (H1 i eq_refl). exists i, s. repeat split. exact (H1 i eq_refl).
  - exists (length (items s)), (push_item globalQueue (ItemG true) s).
    repeat split. apply items_push_item.
Qed.

Lemma arrive_fresh_queue k a key q g t :
  queues t !! q = Some [g] -> items t !! g = Some (ItemG true) ->
  exists t' it,
    match k with
    | TW => arrive_w a (Some key, q) t
    | _ => arrive_r a (Some key, q) t
    end = (t', mkSlot (Some key) q (length (items t)) true)
    /\ queues t' !! q = Some [g; length (items t)]
    /\ items t' !! length (items t) = Some it
    /\ items t' !! g = Some (ItemG true)
    /\ barriers t' = barriers t /\ acqs t' = acqs t.
Proof.
  intros Hq Hg.
  assert (Hlt : (g < length (items t))%nat) by (eapply lookup_lt_Some, Hg).
  assert (Hq' : forall it, queues (push_item q it t) !! q
                           = Some [g; length (items t)]).
  { intros it. unfold push_item. cbn [queues set_queues set_items].
    rewrite list_lookup_alter_eq, Hq. reflexivity. }
  assert (Hg' : forall it x,
    items (set_items (<[length (items t) := x]>) (push_item q it t)) !! g
    = Some (ItemG true)).
  { intros it x. cbn [items set_items push_item set_queues].
    rewrite list_lookup_insert_ne by lia. apply lookup_app_l_Some, Hg. }
  assert (Hi' : forall it x,
    items (set_items (<[length (items t) := x]>) (push_item q it t))
      !! length (items t) = Some x).
  { intros it x. cbn [items set_items push_item set_queues].
    apply list_lookup_insert_eq. rewrite length_app. cbn. lia. }
  destruct k; unfold arrive_w, arrive_r; rewrite Hq;
    cbn [default from_option id last]; rewrite Hg, items_push_item.
  - eexists _, _. split; [reflexivity|]. split; [apply Hq'|].
    split; [apply Hi'|]. split; [apply Hg'|]. split; reflexivity.
  - eexists _, _. split; [reflexivity|]. split; [apply Hq'|].
    split; [apply Hi'|]. split; [apply Hg'|]. split; reflexivity.
  - eexists _, _. split; [reflexivity|]. split; [apply Hq'|].
    split; [apply Hi'|]. split; [apply Hg'|]. split; reflexivity.
Qed.

Lemma acquire_first_on_key k key s :
  map_ok s -> unkeyed_free s -> map_get key (partialQueue s) = None ->
  exists s2 g q i it,
    (acquire k (Some key) None s).1 = s2
    /\ acqs s2
       = acqs s ++ [mkAcquirer k [mkSlot (Some key) q i true] Pending
                      Lock.create None false]
    /\ barriers s2 = barriers s ++ [mkBarrier g q key false]
    /\ items s2 !! g = Some (ItemG true)
    /\ items s2 !! i = Some it
    /\ queues s2 !! q = Some [g; i].
Proof.
  intros Hm Huf Eg.
  destruct (new_key_entries key s Hm Huf Eg) as (g & s1 & E1 & Hg & Hb & Ha).
  unfold acquire. rewrite E1.
  set (t := set_partial _ _).
  assert (Hq : queues t !! length (queues s1) = Some [g]).
  { subst t. cbn [queues set_partial set_barriers set_queues].
    rewrite lookup_app_r by lia. rewrite Nat.sub_diag. reflexivity. }
  destruct (arrive_fresh_queue k (length (acqs s)) key (length (queues s1))
              g t Hq Hg) as (t' & it & E2 & Q & I1 & I2 & B & A).
  cbn [arrive_all]. rewrite E2. cbn [fst].
  exists (set_acqs (fun l => l ++
            [mkAcquirer k [mkSlot (Some key) (length (queues s1))
                             (length (items t)) true]
               Pending Lock.create None false]) t'),
    g, (length (queues s1)), (length (items t)), it.
  split; [reflexivity|].
  cbn [acqs barriers items queues set_acqs].
  split; [rewrite A; subst t; cbn [acqs set_partial set_barriers set_queues];
          rewrite Ha; reflexivity|].
  split; [rewrite B; subst t;
          cbn [barriers set_partial set_barriers set_queues];
          rewrite Hb; reflexivity|].
  split; [exact I2|]. split; [exact I1|exact Q].
Qed.

(** X8: On a mux that was only ever used with keys, whatever calls and
    reactions happened before and whatever is held on other keys: the
    first call of [lock] or [rLock] ([exclusive] tells which) on a key
    that has no queue is granted as soon as its barrier reaction and the
    reaction of its ready promise have run; it waits for nobody. *)
Theorem idle_key_granted_at_once (exclusive : bool) (key : string)
    (es : list event) (s : state) :
  forallb keyed_only es = true ->
  run es init = Some s ->
  map_get key (partialQueue s) = None ->
  exists s' a,
    run (first_on_key exclusive key s) s = Some s'
    /\ acqs s' !! length (acqs s) = Some a
    /\ a_result a = Fulfilled.
Proof.
  intros Hes Hrun Eg.
  destruct (uf_run es init s map_ok_init uf_init Hes Hrun) as [Hm Huf].
  set (k := if exclusive then TW else TR).
  destruct (acquire_first_on_key k key s Hm Huf Eg)
    as (s2 & g & q & i & it & E & Ha & Hb & Hg & Hi & Hq).
  assert (E1 : fire (if exclusive then Lock (Some key) None
                     else RLock (Some key) None) s
               = Some (acquire k (Some key) None s).1).
  { subst k. destruct exclusive; reflexivity. }
  unfold first_on_key. cbn [run]. rewrite E1, E. cbn [mbind option_bind].
  assert (E2 : fire (Barrier (length (barriers s))) s2
    = Some (advance (Some key) q
              (set_barriers (<[length (barriers s) :=
                                 mkBarrier g q key true]>) s2))).
  { cbn [fire]. rewrite Hb, lookup_app_r by lia. rewrite Nat.sub_diag.
    cbn [lookup list_lookup mbind option_bind b_item b_fired b_key b_queue].
    rewrite Hg. reflexivity. }
  rewrite E2. cbn [mbind option_bind].
  set (s3 := advance _ _ _).
  assert (Hi3 : items s3 !! i = Some (item_start it)).
  { subst s3. unfold advance. cbn [queues set_queues set_barriers].
    rewrite list_lookup_alter_eq, Hq. cbn [fmap option_fmap option_map drop
      mbind option_bind head].
    cbn [items set_items set_queues set_barriers].
    rewrite list_lookup_alter_eq, Hi. reflexivity. }
  assert (Ha3 : acqs s3 = acqs s2).
  { subst s3. rewrite acqs_advance. reflexivity. }
  assert (E3 : fire (Ready (length (acqs s))) s3
    = Some (set_acqs (<[length (acqs s) :=
                set_result Fulfilled
                  (mkAcquirer k [mkSlot (Some key) q i true] Pending
                     Lock.create None false)]>) s3)).
  { cbn [fire]. rewrite Ha3, Ha, lookup_app_r by lia. rewrite Nat.sub_diag.
    cbn [lookup list_lookup mbind option_bind a_result].
    unfold acq_ready, slot_ready. cbn [a_slots forallb s_item s_step].
    rewrite Hi3. destruct it; reflexivity. }
  rewrite E3. cbn [mbind option_bind].
  eexists _, _. split; [reflexivity|]. split.
  - cbn [acqs set_acqs]. apply list_lookup_insert_eq.
    rewrite Ha3, Ha, length_app. cbn. lia.
  - reflexivity.
Qed.

Lemma idle_key_granted_at_once_witness :
  exists s' a,
    run (first_on_key true "b"
           (default init (run [Lock (Some "a") None; Barrier 0%nat] init)))
      (default init (run [Lock (Some "a") None; Barrier 0%nat] init))
    = Some s'
    /\ acqs s' !! 1%nat = Some a
    /\ a_result a = Fulfilled.
Proof.
  refine (idle_key_granted_at_once true "b"
    [Lock (Some "a") None; Barrier 0%nat]
    (default init (run [Lock (Some "a") None; Barrier 0%nat] init)) _ _ _);
    reflexivity.
Defined.

End KeyedOnlyInv.

(** ** A writer that arrives after the last waiting writer was woken *)

Section LateWriter.
Import Keyed SerialKeyed LateArrival.
Variable key : string.

Lemma mapped_advance k' s : mapped key s -> mapped key (advance k' 1 s).
Proof.
  intros [[l Hl] Hm]. unfold advance, mapped.
  cbn [queues set_queues]. rewrite list_lookup_alter_eq, Hl.
  cbn [fmap option_fmap option_map mbind option_bind].
  destruct l as [|i [|j l]]; cbn [drop head].
  - destruct k'; cbn [queues partialQueue set_partial set_queues];
      rewrite list_lookup_alter_eq, Hl; (split; [eauto|]);
      intros H; destruct H; reflexivity.
  - destruct k'; cbn [queues partialQueue set_partial set_queues];
      rewrite list_lookup_alter_eq, Hl; (split; [eauto|]);
      intros H; destruct H; reflexivity.
  - cbn [queues partialQueue set_items set_queues].
    rewrite list_lookup_alter_eq, Hl. split; [eauto|]. intros _.
    apply Hm. rewrite Hl. discriminate.
Qed.

Lemma mapped_next_w sl s :
  s_queue sl = 1%nat -> mapped key s -> mapped key (next_w sl s).
Proof.
  intros Hq Hm. unfold next_w.
  destruct (items s !! s_item sl) as [[r st|r n|r]|]; try exact Hm.
  destruct (pop_step st) as [rest [a|]]; [exact Hm|].
  rewrite Hq. apply (mapped_advance _ (set_items _ s)). exact Hm.
Qed.

Lemma mapped_step N k b s e s' :
  shape key N k b s -> mapped key s -> no_call e = true ->
  fire e s = Some s' -> mapped key s'.
Proof.
  intros Hs Hm Hnc Hfire.
  destruct e as [? ?|? ?|m|i|i|i|i|i]; try discriminate.
  - cbn [fire] in Hfire.
    destruct Hs as (_ & _ & _ & _ & _ & _ & _ & _ & Hb). rewrite Hb in Hfire.
    destruct m as [|m]; [|discriminate].
    cbn [lookup list_lookup mbind option_bind b_item b_fired b_key b_queue]
      in Hfire.
    destruct (items s !! 0%nat); [|discriminate].
    cbn [mbind option_bind] in Hfire.
    case_match; [|discriminate]. injection Hfire as <-.
    apply (mapped_advance _ (set_barriers _ s)). exact Hm.
  - cbn [fire] in Hfire. destruct (acqs s !! i) as [a|]; [|discriminate].
    cbn [mbind option_bind] in Hfire.
    repeat case_match; try discriminate. injection Hfire as <-. exact Hm.
  - cbn [fire] in Hfire. destruct (acqs s !! i) as [a|]; [|discriminate].
    cbn [mbind option_bind] in Hfire.
    repeat case_match; try discriminate. injection Hfire as <-. exact Hm.
  - cbn [fire] in Hfire. destruct (acqs s !! i) as [a|]; [|discriminate].
    cbn [mbind option_bind] in Hfire.
    repeat case_match; try discriminate. injection Hfire as <-. exact Hm.
  - cbn [fire] in Hfire. destruct (acqs s !! i) as [a|]; [|discriminate].
    cbn [mbind option_bind] in Hfire.
    repeat case_match; try discriminate. injection Hfire as <-. exact Hm.
  - destruct (keyed_shape_Release_enabled key N k b s i s' Hs Hfire)
      as (_ & _ & _ & a & _ & _ & _ & ->).
    apply mapped_next_w; [reflexivity|]. exact Hm.
Qed.

Lemma late_run N es : forall k b s s',
  shape key N k b s -> mapped key s -> forallb no_call es = true ->
  run es s = Some s' ->
  exists k' b', shape key N k' b' s' /\ mapped key s'.
Proof.
  induction es as [|e es IH]; intros k b s s' Hs Hm Hes Hrun.
  - injection Hrun as <-. eauto.
  - cbn [forallb] in Hes. apply andb_prop in Hes as [He Hes].
    cbn [run] in Hrun.
    destruct (fire e s) as [s1|] eqn:E; [|discriminate].
    cbn [mbind option_bind] in Hrun.
    destruct (keyed_shape_step key N k b s e s1 Hs He E) as (k1 & b1 & Hs1).
    exact (IH k1 b1 s1 s' Hs1 (mapped_step N k b s e s1 Hs Hm He E) Hes Hrun).
Qed.

Lemma mapped_launched n : mapped key (launched key n).
Proof. split; [cbn; eauto|]. intros _. reflexivity. Qed.

(** The state in which the last of the writers launched together holds
    the lock. *)
Lemma last_holder_state n k b s h :
  shape key (S (S n)) k b s -> mapped key s ->
  acqs s !! S n = Some h -> a_result h = Fulfilled -> a_released h = false ->
  items s !! 1%nat = Some (ItemW true [])
  /\ queues s !! 1%nat = Some [1%nat]
  /\ partialQueue s = [(key, 1%nat)]
  /\ length (acqs s) = S (S n).
Proof.
  intros (Hlen & _ & Hk & Hb & Hp & _ & Hi & Hq & _) [_ Hm] Hh Hr Hrel.
  destruct (Hp (S n) h Hh) as (_ & _ & _ & Hrl & _ & _ & _ & Hpend).
  rewrite Hrel in Hrl.
  assert (Hbk : b = true /\ k = S n).
  { destruct b.
    - split; [reflexivity|]. symmetry in Hrl. apply Nat.ltb_ge in Hrl.
      destruct (decide (k < S n)%nat) as [Hlt|Hge]; [|lia].
      rewrite Hpend in Hr by (left; exact Hlt). discriminate.
    - rewrite Hpend in Hr by (right; reflexivity). discriminate. }
  destruct Hbk as [-> ->].
  assert (Hq1 : queues s !! 1%nat = Some [1%nat]).
  { rewrite Hq. destruct (Nat.ltb_spec (S n) (S (S n))); [reflexivity|lia]. }
  split.
  - rewrite Hi. replace (S (S n) - S (S n))%nat with 0%nat by lia.
    reflexivity.
  - split; [exact Hq1|]. split; [|exact Hlen].
    apply Hm. rewrite Hq1. discriminate.
Qed.

(** X9: [S (S n)] calls of [lock(key)] are made on a new mux before any
    reaction runs, and reactions run in any order until the last of these
    callers holds the lock (its promise is fulfilled, its release reaction
    has not run).  A call of [lock(key)] made now is fulfilled by its
    first reaction: it does not wait for the holder, whose state is
    untouched, and its own lock object is not unlocked. *)
Theorem late_writer_joins_holder (n : nat) (es : list event) (s : state)
    (h : acquirer) :
  forallb no_call es = true ->
  run (launch key (S (S n)) ++ es) init = Some s ->
  acqs s !! S n = Some h ->
  a_result h = Fulfilled ->
  a_released h = false ->
  exists s' a,
    run (late_call key s) s = Some s'
    /\ acqs s' !! S n = Some h
    /\ acqs s' !! S (S n) = Some a
    /\ a_result a = Fulfilled
    /\ Lock.resolved (a_lock a) = false.
Proof.
  intros Hes Hrun Hh Hr Hrel. rewrite keyed_run_app in Hrun.
  rewrite keyed_launch_launched in Hrun. cbn [mbind option_bind] in Hrun.
  destruct (late_run (S (S n)) es 0 false (launched key (S n)) s
              (keyed_shape_launched key (S n)) (mapped_launched (S n))
              Hes Hrun) as (k & b & Hs & Hm).
  destruct (last_holder_state n k b s h Hs Hm Hh Hr Hrel)
    as (Hi & Hq & Hp & Hlen).
  set (new := mkAcquirer TW [mkSlot (Some key) 1 1 true] Pending Lock.create
                None false).
  assert (E1 : (lock (Some key) None s).1
               = set_acqs (fun l => l ++ [new])
                   (set_items (<[1%nat := ItemW true [StepNext]]>) s)).
  { unfold lock, acquire, getQueueEntries. cbn [fmap option_fmap option_map].
    rewrite Hp, map_get_head. cbn [arrive_all]. unfold arrive_w.
    rewrite Hq. cbn [default from_option id last]. rewrite Hi.
    rewrite Hi. reflexivity. }
  unfold late_call. cbn [run fire]. rewrite E1. cbn [mbind option_bind].
  cbn [acqs set_acqs set_items]. rewrite Hlen.
  rewrite lookup_app_r by lia. rewrite Hlen, Nat.sub_diag.
  cbn [lookup list_lookup mbind option_bind a_result new].
  unfold acq_ready, slot_ready.
  cbn [a_slots new forallb s_item s_step items set_acqs set_items].
  rewrite list_lookup_insert_eq by (eapply lookup_lt_Some, Hi).
  cbn [item_ready andb].
  eexists _, _. split; [reflexivity|]. cbn [acqs set_acqs set_items].
  split.
  - rewrite list_lookup_insert_ne by lia.
    apply lookup_app_l_Some. exact Hh.
  - split.
    + apply list_lookup_insert_eq. rewrite length_app, Hlen. cbn. lia.
    + split; reflexivity.
Qed.

End LateWriter.

Lemma late_writer_joins_holder_witness :
  exists s' a,
    Keyed.run
      (LateArrival.late_call "k"
         (default Keyed.init
            (Keyed.run (two_writers_one_key_plain ++ second_writer_holds)
               Keyed.init)))
      (default Keyed.init
         (Keyed.run (two_writers_one_key_plain ++ second_writer_holds)
            Keyed.init))
    = Some s'
    /\ Keyed.acqs s' !! 1%nat
       = Some (Keyed.mkAcquirer TW [Keyed.mkSlot (Some "k") 1 1 true]
                 Fulfilled Lock.create None false)
    /\ Keyed.acqs s' !! 2%nat = Some a
    /\ Keyed.a_result a = Fulfilled
    /\ Lock.resolved (Keyed.a_lock a) = false.
Proof.
  refine (late_writer_joins_holder "k" 0 second_writer_holds
    (default Keyed.init
       (Keyed.run (two_writers_one_key_plain ++ second_writer_holds)
          Keyed.init))
    (Keyed.mkAcquirer TW [Keyed.mkSlot (Some "k") 1 1 true]
       Fulfilled Lock.create None false) _ _ _ _ _); reflexivity.
Defined.

(** ** Admission to a writer item follows the order of arrival *)

Section AdmissionLists.
Import Admission.

Lemma waiters_app i ks1 ks2 b :
  waiters i (ks1 ++ ks2) b
  = waiters i ks1 b ++ waiters i ks2 (b + length ks1).
Proof.
  revert b. induction ks1 as [|k ks1 IH]; intros b; cbn [waiters app length].
  - rewrite Nat.add_0_r. reflexivity.
  - rewrite IH, <- app_assoc. do 3 f_equal. lia.
Qed.

Lemma waiters_nil i ks b :
  (forall k : nat * bool, k ∈ ks -> k.1 = i -> k.2 = false) ->
  waiters i ks b = [].
Proof.
  revert b. induction ks as [|k ks IH]; intros b H; [reflexivity|].
  cbn [waiters]. rewrite IH by (intros k' Hk'; apply H, list_elem_of_further, Hk').
  destruct (Nat.eqb_spec k.1 i) as [E|]; [|reflexivity].
  rewrite (H k (list_elem_of_here _ _) E). reflexivity.
Qed.

Lemma waiters_nil_inv i ks b (k : nat * bool) :
  waiters i ks b = [] -> k ∈ ks -> k.1 = i -> k.2 = false.
Proof.
  revert b. induction ks as [|k0 ks IH]; intros b H Hk Hi; [inversion Hk|].
  cbn [waiters] in H. apply app_eq_nil in H as [H1 H2].
  apply elem_of_cons in Hk as [->|Hk]; [|exact (IH (S b) H2 Hk Hi)].
  rewrite Hi, Nat.eqb_refl in H1. destruct k0.2; [discriminate|reflexivity].
Qed.

Lemma waiters_ext i ks ks' b :
  length ks = length ks' ->
  (forall a k k', ks !! a = Some k -> ks' !! a = Some k' ->
     (k.1 =? i)%nat && k.2 = (k'.1 =? i)%nat && k'.2) ->
  waiters i ks b = waiters i ks' b.
Proof.
  revert ks' b. induction ks as [|k ks IH]; intros [|k' ks'] b Hl H;
    try discriminate; [reflexivity|].
  cbn [waiters]. rewrite (H 0%nat k k' eq_refl eq_refl). f_equal.
  apply IH; [cbn in Hl; lia|]. intros a. exact (H (S a)).
Qed.

Lemma waiters_wake i ks : forall b x ws,
  waiters i ks b = x :: ws ->
  (b <= x)%nat
  /\ ks !! (x - b)%nat = Some (i, true)
  /\ waiters i (wake (x - b) ks) b = ws
  /\ (forall a' (k : nat * bool), (a' < x - b)%nat -> ks !! a' = Some k ->
        k.1 = i -> k.2 = false).
Proof.
  induction ks as [|[j w] ks IH]; intros b x ws H; [discriminate|].
  cbn [waiters fst snd] in H.
  destruct ((j =? i)%nat && w) eqn:E.
  - apply andb_true_iff in E as [Ej ->]. apply Nat.eqb_eq in Ej as ->.
    cbn [app] in H. injection H as <- <-. rewrite Nat.sub_diag.
    split; [lia|]. split; [reflexivity|]. split.
    + unfold wake. cbn [alter list_alter waiters fst snd].
      rewrite andb_false_r. reflexivity.
    + intros a' k Hlt. lia.
  - cbn [app] in H. destruct (IH (S b) x ws H) as (Hle & Hl & Hw & Hlt).
    replace (x - b)%nat with (S (x - S b)) by lia.
    split; [lia|]. split; [exact Hl|]. split.
    + unfold wake in *. cbn [alter list_alter waiters fst snd].
      rewrite E. exact Hw.
    + intros [|a'] k Ha' Hk Hi.
      * injection Hk as <-. cbn [fst snd] in *. subst j.
        rewrite Nat.eqb_refl in E. destruct w; [discriminate|reflexivity].
      * apply (Hlt a' k); [lia|exact Hk|exact Hi].
Qed.

Lemma waiters_wake_other i j ks a b :
  ks !! a = Some (i, true) -> j <> i ->
  waiters j (wake a ks) b = waiters j ks b.
Proof.
  intros Ha Hne. apply waiters_ext; [apply length_alter|].
  intros a' k k' Hk' Hk. unfold wake in Hk'.
  destruct (decide (a = a')) as [->|Hn].
  - rewrite list_lookup_alter_eq, Ha in Hk'. injection Hk' as <-.
    rewrite Ha in Hk. injection Hk as <-. cbn [fst snd].
    destruct (Nat.eqb_spec i j); [congruence|reflexivity].
  - rewrite list_lookup_alter_ne in Hk' by exact Hn. congruence.
Qed.

Lemma pop_step_waiters pre ws :
  pre = [] \/ pre = [StepNext] ->
  pop_step (pre ++ (StepResolve <$> ws))
  = match ws with
    | [] => ([], None)
    | a :: ws' => (StepResolve <$> ws', Some a)
    end.
Proof. intros [->| ->]; destruct ws; reflexivity. Qed.

End AdmissionLists.

(** ** The steps of an item follow its waiters through every update *)

Section AdmissionSteps.
Import Admission.

Lemma ok_insert its ks i it' :
  ok its ks ->
  (forall it, its !! i = Some it ->
     exists pre, (pre = [] \/ pre = [StepNext])
       /\ steps_of it' = pre ++ (StepResolve <$> waiters i ks 0)) ->
  ok (<[i := it']> its) ks.
Proof.
  intros (Hm & Hs & Ho) Hi. split; [|split; [|exact Ho]].
  - intros j it Hj. destruct (decide (i = j)) as [->|Hne].
    + destruct (its !! j) as [old|] eqn:E.
      * rewrite list_lookup_insert_eq in Hj by (eapply lookup_lt_Some, E).
        injection Hj as <-. exact (Hi old eq_refl).
      * rewrite list_insert_ge in Hj by (apply lookup_ge_None; exact E).
        congruence.
    + rewrite list_lookup_insert_ne in Hj by exact Hne. exact (Hm j it Hj).
  - unfold in_store. rewrite length_insert. exact Hs.
Qed.

Lemma ok_same_steps its ks i it' :
  ok its ks ->
  (forall it, its !! i = Some it -> steps_of it' = steps_of it) ->
  ok (<[i := it']> its) ks.
Proof.
  intros H Hi. apply ok_insert; [exact H|].
  intros it Hit. rewrite (Hi it Hit). exact (proj1 H i it Hit).
Qed.

Lemma ok_start its ks i : ok its ks -> ok (alter item_start i its) ks.
Proof.
  intros (Hm & Hs & Ho). split; [|split; [|exact Ho]].
  - intros j x Hj. destruct (decide (i = j)) as [->|Hne].
    + rewrite list_lookup_alter_eq in Hj.
      destruct (its !! j) as [it|] eqn:E; [|discriminate].
      injection Hj as <-. destruct (Hm j it E) as (pre & Hpre & Est).
      exists pre. split; [exact Hpre|]. rewrite <- Est.
      destruct it; reflexivity.
    + rewrite list_lookup_alter_ne in Hj by exact Hne. exact (Hm j x Hj).
  - unfold in_store. rewrite length_alter. exact Hs.
Qed.

Lemma ok_push its ks it :
  ok its ks -> steps_of it = [] -> ok (its ++ [it]) ks.
Proof.
  intros (Hm & Hs & Ho) Hit. split; [|split; [|exact Ho]].
  - intros j x Hj. destruct (decide (j < length its)%nat) as [Hlt|Hge].
    + rewrite lookup_app_l in Hj by exact Hlt. exact (Hm j x Hj).
    + rewrite lookup_app_r in Hj by lia.
      destruct (j - length its)%nat as [|d] eqn:Ed; [|discriminate].
      injection Hj as <-. exists []. split; [auto|]. rewrite Hit.
      rewrite waiters_nil; [reflexivity|].
      intros k Hk Hkj. unfold in_store in Hs. rewrite Forall_forall in Hs.
      specialize (Hs k Hk). lia.
  - unfold in_store in *. rewrite length_app.
    eapply Forall_impl; [exact Hs|]. intros k Hk. cbn in *. lia.
Qed.

Lemma steps_nil_no_waiters its ks i it :
  ok its ks -> its !! i = Some it -> steps_of it = [] ->
  waiters i ks 0 = [].
Proof.
  intros (Hm & _) Hi Hst. destruct (Hm i it Hi) as (pre & _ & E).
  rewrite Hst in E. symmetry in E. apply app_eq_nil in E as [_ E].
  apply fmap_nil_inv in E. exact E.
Qed.

(** An acquirer arrives on an item without steps: its step promise is
    settled from the start. *)
Lemma ok_arrive_admitted its ks i it it' :
  ok its ks -> its !! i = Some it -> steps_of it = [] ->
  steps_of it' = [] \/ steps_of it' = [StepNext] ->
  ok (<[i := it']> its) (ks ++ [(i, false)]).
Proof.
  intros H Hi Hst Hst'.
  pose proof (steps_nil_no_waiters its ks i it H Hi Hst) as Hw.
  destruct H as (Hm & Hs & Ho).
  assert (Hlt : (i < length its)%nat) by (eapply lookup_lt_Some, Hi).
  split; [|split].
  - intros j x Hj. rewrite waiters_app. cbn [waiters fst snd].
    rewrite andb_false_r, app_nil_r.
    destruct (decide (i = j)) as [->|Hne].
    + rewrite list_lookup_insert_eq in Hj by exact Hlt. injection Hj as <-.
      rewrite Hw. destruct Hst' as [-> | ->];
        [exists []|exists [StepNext]]; split; auto.
    + rewrite list_lookup_insert_ne in Hj by exact Hne. exact (Hm j x Hj).
  - unfold in_store in *. rewrite length_insert. apply Forall_app.
    split; [exact Hs|]. apply Forall_singleton. exact Hlt.
  - intros a b ka kb Hab Ha Hb Hsame Hkb.
    destruct (decide (b < length ks)%nat) as [Hb'|Hb'].
    + rewrite lookup_app_l in Ha by lia. rewrite lookup_app_l in Hb by lia.
      exact (Ho a b ka kb Hab Ha Hb Hsame Hkb).
    + rewrite lookup_app_r in Hb by lia.
      destruct (b - length ks)%nat as [|d] eqn:Ed; [|discriminate].
      injection Hb as <-. cbn [fst snd] in *.
      assert (Ha' : ks !! a = Some ka).
      { rewrite lookup_app_l in Ha by lia. exact Ha. }
      apply (waiters_nil_inv i ks 0 ka Hw);
        [eapply list_elem_of_lookup_2, Ha'|exact Hsame].
Qed.

(** An acquirer arrives on an item with steps and pushes its resolver. *)
Lemma ok_arrive_waiting its ks i r st :
  ok its ks -> its !! i = Some (ItemW r st) ->
  ok (<[i := ItemW r (st ++ [StepResolve (length ks)])]> its)
     (ks ++ [(i, true)]).
Proof.
  intros (Hm & Hs & Ho) Hi.
  assert (Hlt : (i < length its)%nat) by (eapply lookup_lt_Some, Hi).
  split; [|split].
  - intros j x Hj. rewrite waiters_app. cbn [waiters fst snd].
    destruct (decide (i = j)) as [->|Hne].
    + rewrite list_lookup_insert_eq in Hj by exact Hlt. injection Hj as <-.
      rewrite Nat.eqb_refl. cbn [andb app steps_of].
      destruct (Hm j _ Hi) as (pre & Hpre & E). cbn [steps_of] in E.
      exists pre. split; [exact Hpre|].
      rewrite E, fmap_app, <- app_assoc. reflexivity.
    + rewrite list_lookup_insert_ne in Hj by exact Hne.
      destruct (Nat.eqb_spec i j); [congruence|].
      cbn [andb]. rewrite app_nil_r. exact (Hm j x Hj).
  - unfold in_store in *. rewrite length_insert. apply Forall_app.
    split; [exact Hs|]. apply Forall_singleton. exact Hlt.
  - intros a b ka kb Hab Ha Hb Hsame Hkb.
    destruct (decide (b < length ks)%nat) as [Hb'|Hb'].
    + rewrite lookup_app_l in Ha by lia. rewrite lookup_app_l in Hb by lia.
      exact (Ho a b ka kb Hab Ha Hb Hsame Hkb).
    + rewrite lookup_app_r in Hb by lia.
      destruct (b - length ks)%nat as [|d] eqn:Ed; [|discriminate].
      injection Hb as <-. discriminate.
Qed.

(** [next] finds a resolver: the first waiter is woken. *)
Lemma ok_wake its ks i r st rest a :
  ok its ks -> its !! i = Some (ItemW r st) ->
  pop_step st = (rest, Some a) ->
  ks !! a = Some (i, true)
  /\ ok (<[i := ItemW r rest]> its) (wake a ks).
Proof.
  intros (Hm & Hs & Ho) Hi Hpop.
  destruct (Hm i _ Hi) as (pre & Hpre & E). cbn [steps_of] in E.
  rewrite E, (pop_step_waiters pre _ Hpre) in Hpop.
  destruct (waiters i ks 0) as [|x ws] eqn:Ew; [discriminate|].
  injection Hpop as <- <-.
  destruct (waiters_wake i ks 0 x ws Ew) as (_ & Hx & Hw & Hbefore).
  rewrite Nat.sub_0_r in *. split; [exact Hx|].
  assert (Hlt : (i < length its)%nat) by (eapply lookup_lt_Some, Hi).
  split; [|split].
  - intros j y Hj. destruct (decide (i = j)) as [->|Hne].
    + rewrite list_lookup_insert_eq in Hj by exact Hlt. injection Hj as <-.
      exists []. split; [auto|]. rewrite Hw. reflexivity.
    + rewrite list_lookup_insert_ne in Hj by exact Hne.
      rewrite (waiters_wake_other i j ks x 0 Hx) by congruence.
      exact (Hm j y Hj).
  - unfold in_store, wake in *. rewrite length_insert.
    apply Forall_alter; [exact Hs|]. intros k _ Hk. exact Hk.
  - intros a b ka kb Hab Ha Hb Hsame Hkb. unfold wake in Ha, Hb.
    destruct (decide (x = a)) as [->|Hxa].
    + rewrite list_lookup_alter_eq in Ha.
      destruct (ks !! a) as [k|]; [|discriminate]. injection Ha as <-.
      reflexivity.
    + rewrite list_lookup_alter_ne in Ha by exact Hxa.
      destruct (decide (x = b)) as [->|Hxb].
      * rewrite list_lookup_alter_eq, Hx in Hb. injection Hb as <-.
        cbn [fst] in Hsame. exact (Hbefore a ka Hab Ha Hsame).
      * rewrite list_lookup_alter_ne in Hb by exact Hxb.
        exact (Ho a b ka kb Hab Ha Hb Hsame Hkb).
Qed.

(** [next] finds no resolver: the item is left without steps. *)
Lemma ok_exhaust its ks i r st rest :
  ok its ks -> its !! i = Some (ItemW r st) ->
  pop_step st = (rest, None) ->
  ok (<[i := ItemW r rest]> its) ks.
Proof.
  intros H Hi Hpop. apply ok_insert; [exact H|]. intros it Hit.
  destruct (proj1 H i _ Hi) as (pre & Hpre & E). cbn [steps_of] in E.
  rewrite E, (pop_step_waiters pre _ Hpre) in Hpop.
  destruct (waiters i ks 0) as [|x ws]; [|discriminate].
  injection Hpop as <-. exists []. split; [auto|reflexivity].
Qed.

Lemma ok_nil : ok [] [].
Proof.
  split; [|split].
  - intros i it H. discriminate.
  - constructor.
  - intros a b ka kb _ H. discriminate.
Qed.

End AdmissionSteps.

(** ** Admission on an owner *)

Section InstanceAdmissionSteps.
Import Instance Admission InstanceAdmission.

Lemma keys_alter n f s :
  (forall a, a_item (f a) = a_item a /\ waiting (f a) = waiting a) ->
  keys (set_acqs (alter f n) s) = keys s.
Proof.
  intros Hf. unfold keys. cbn [acqs set_acqs].
  apply list_eq. intros j. rewrite !list_lookup_fmap.
  destruct (decide (n = j)) as [->|Hne].
  - rewrite list_lookup_alter_eq. destruct (acqs s !! j) as [a|]; cbn;
      [|reflexivity].
    destruct (Hf a) as [-> ->]. reflexivity.
  - rewrite list_lookup_alter_ne by exact Hne. reflexivity.
Qed.

Lemma keys_wake a s :
  keys (set_acqs (alter (set_step (Some true)) a) s) = wake a (keys s).
Proof.
  unfold keys, wake. cbn [acqs set_acqs].
  apply list_eq. intros j. rewrite list_lookup_fmap.
  destruct (decide (a = j)) as [->|Hne].
  - rewrite !list_lookup_alter_eq, list_lookup_fmap.
    destruct (acqs s !! j); reflexivity.
  - rewrite !list_lookup_alter_ne by exact Hne.
    rewrite list_lookup_fmap. reflexivity.
Qed.

Lemma keys_push x s :
  keys (set_acqs (fun l => l ++ [x]) s) = keys s ++ [(a_item x, waiting x)].
Proof. unfold keys. cbn [acqs set_acqs]. rewrite fmap_app. reflexivity. Qed.

Lemma keys_length s : length (keys s) = length (acqs s).
Proof. apply length_fmap. Qed.

Lemma adm_advance c s :
  ok (items s) (keys s) -> ok (items (advance c s)) (keys (advance c s)).
Proof.
  intros H. unfold advance. case_match; [|exact H].
  exact (ok_start _ _ _ H).
Qed.

Lemma adm_next k i c s :
  ok (items s) (keys s) -> ok (items (next k i c s)) (keys (next k i c s)).
Proof.
  intros H. unfold next, next_w, next_r.
  destruct k.
  - destruct (items s !! i) as [[r st|r n|r]|] eqn:Ei; try exact H.
    destruct (pop_step st) as [rest [a|]] eqn:Ep.
    + rewrite keys_wake. exact (proj2 (ok_wake _ _ i r st rest a H Ei Ep)).
    + apply (adm_advance c (set_items _ s)).
      exact (ok_exhaust _ _ i r st rest H Ei Ep).
  - destruct (items s !! i) as [[r st|r n|r]|] eqn:Ei; try exact H.
    assert (H1 : ok (<[i := ItemR r (n - 1)]> (items s)) (keys s)).
    { apply ok_same_steps; [exact H|]. intros it Hit.
      assert (it = ItemR r n) by congruence. subst it. reflexivity. }
    destruct (decide (n - 1 = 0)); [|exact H1].
    apply (adm_advance c (set_items _ s)). exact H1.
  - destruct (items s !! i) as [[r st|r n|r]|] eqn:Ei; try exact H.
    assert (H1 : ok (<[i := ItemR r (n - 1)]> (items s)) (keys s)).
    { apply ok_same_steps; [exact H|]. intros it Hit.
      assert (it = ItemR r n) by congruence. subst it. reflexivity. }
    destruct (decide (n - 1 = 0)); [|exact H1].
    apply (adm_advance c (set_items _ s)). exact H1.
Qed.

Lemma adm_enqueue_w c m s i :
  ok (items s) (keys s) ->
  let r := match items s !! i with
           | Some (ItemW r []) =>
               (set_acqs (fun l => l ++ [mkAcquirer TW c i None Waiting m])
                  (set_items (<[i := ItemW r [StepNext]]>) s),
                Queued (length (acqs s)))
           | Some (ItemW r steps) =>
               (set_acqs
                  (fun l => l ++ [mkAcquirer TW c i (Some false) Waiting m])
                  (set_items
                     (<[i := ItemW r (steps ++ [StepResolve (length (acqs s))])]>)
                     s),
                Queued (length (acqs s)))
           | _ => (s, Threw UnreachableError)
           end in
  ok (items r.1) (keys r.1).
Proof.
  intros H. cbn zeta.
  destruct (items s !! i) as [[r [|st0 st]|r n|r]|] eqn:Ei; cbn [fst];
    try exact H.
  - rewrite keys_push. cbn [a_item waiting a_step items set_items set_acqs].
    exact (ok_arrive_admitted _ _ i _ (ItemW r [StepNext]) H Ei eq_refl
             (or_intror eq_refl)).
  - rewrite keys_push. cbn [a_item waiting a_step items set_items set_acqs].
    rewrite <- keys_length.
    exact (ok_arrive_waiting _ _ i r (st0 :: st) H Ei).
Qed.

Lemma adm_arrive_w c cx m s :
  ok (items s) (keys s) ->
  ok (items (arrive_w c cx m s).1) (keys (arrive_w c cx m s).1).
Proof.
  intros H. unfold arrive_w.
  destruct (last (queue cx)) as [i|].
  - pose proof (adm_enqueue_w c m s i H) as Hq. cbn zeta in Hq.
    destruct (items s !! i) as [[r st|r n|r]|] eqn:Ei; try exact H.
    + exact Hq.
    + rewrite lookup_pushed. cbn [fst]. rewrite keys_push.
      cbn [a_item waiting a_step items set_items set_acqs set_ctxs].
      apply (ok_arrive_admitted _ _ _ (ItemW false [])).
      * apply ok_push; [exact H|reflexivity].
      * rewrite lookup_app_r by lia. rewrite Nat.sub_diag. reflexivity.
      * reflexivity.
      * right. reflexivity.
  - rewrite lookup_pushed. cbn [fst]. rewrite keys_push.
    cbn [a_item waiting a_step items set_items set_acqs set_ctxs].
    apply (ok_arrive_admitted _ _ _ (ItemW true [])).
    + apply ok_push; [exact H|reflexivity].
    + rewrite lookup_app_r by lia. rewrite Nat.sub_diag. reflexivity.
    + reflexivity.
    + right. reflexivity.
Qed.

Lemma adm_arrive_r c cx m s :
  ok (items s) (keys s) ->
  ok (items (arrive_r c cx m s).1) (keys (arrive_r c cx m s).1).
Proof.
  intros H. unfold arrive_r.
  destruct (last (queue cx)) as [i|].
  - destruct (items s !! i) as [[r st|r n|r]|] eqn:Ei; try exact H.
    + rewrite lookup_pushed. cbn [fst]. rewrite keys_push.
      cbn [a_item waiting a_step items set_items set_acqs set_ctxs].
      apply (ok_arrive_admitted _ _ _ (ItemR false 0)).
      * apply ok_push; [exact H|reflexivity].
      * rewrite lookup_app_r by lia. rewrite Nat.sub_diag. reflexivity.
      * reflexivity.
      * left. reflexivity.
    + cbn [fst]. rewrite keys_push.
      cbn [a_item waiting a_step items set_items set_acqs].
      exact (ok_arrive_admitted _ _ i _ (ItemR r (n + 1)) H Ei eq_refl
               (or_introl eq_refl)).
  - rewrite lookup_pushed. cbn [fst]. rewrite keys_push.
    cbn [a_item waiting a_step items set_items set_acqs set_ctxs].
    apply (ok_arrive_admitted _ _ _ (ItemR true 0)).
    + apply ok_push; [exact H|reflexivity].
    + rewrite lookup_app_r by lia. rewrite Nat.sub_diag. reflexivity.
    + reflexivity.
    + left. reflexivity.
Qed.

Lemma adm_classMethod k m s :
  ok (items s) (keys s) ->
  ok (items (classMethod k m s).1) (keys (classMethod k m s).1).
Proof.
  intros H. unfold classMethod.
  destruct (owner s ≫= (fun c => (c,.) <$> ctxs s !! c)) as [[c cx]|];
    [|exact H].
  destruct k; [destruct (lockType cx) as [[]|]; try exact H| |];
    first [apply adm_arrive_w | apply adm_arrive_r]; exact H.
Qed.

Lemma adm_initializeInstance s :
  ok (items s) (keys s) ->
  ok (items (initializeInstance s)) (keys (initializeInstance s)).
Proof. intros H. unfold initializeInstance. destruct (owner s); exact H. Qed.

Lemma adm_manualLock k sig s :
  ok (items s) (keys s) ->
  ok (items (manualLock k sig s).1) (keys (manualLock k sig s).1).
Proof.
  intros H. unfold manualLock.
  destruct sig as [[[] r]|]; cbn [fst]; try exact H;
    apply adm_classMethod, adm_initializeInstance, H.
Qed.

Lemma keys_start n a s : acqs s !! n = Some a -> keys (start n a s) = keys s.
Proof.
  intros Hn. unfold keys, start.
  cbn [acqs set_acqs assign_context set_owner set_ctxs].
  rewrite list_fmap_insert. apply list_insert_id.
  rewrite list_lookup_fmap, Hn. reflexivity.
Qed.

Lemma keys_finished n a s :
  acqs s !! n = Some a ->
  keys (set_acqs (<[n := set_phase Finished a]>) (assign_context (a_ctx a) s))
  = keys s.
Proof.
  intros Hn. unfold keys.
  cbn [acqs set_acqs assign_context set_owner].
  rewrite list_fmap_insert. apply list_insert_id.
  rewrite list_lookup_fmap, Hn. reflexivity.
Qed.

Lemma adm_step_ok e s s' :
  ok (items s) (keys s) -> fire e s = Some s' -> ok (items s') (keys s').
Proof.
  intros H. destruct e as [|k|k sig|n|n|n|n|n]; cbn [fire].
  - intros [= <-]. apply adm_initializeInstance, H.
  - intros [= <-]. apply adm_classMethod, H.
  - intros [= <-]. apply adm_manualLock, H.
  - destruct (acqs s !! n) as [a|] eqn:Hn; [|discriminate].
    cbn [mbind option_bind]. repeat case_match; try discriminate.
    intros [= <-]. rewrite (keys_start n a s Hn). exact H.
  - destruct (acqs s !! n) as [a|] eqn:Hn; [|discriminate].
    cbn [mbind option_bind].
    assert (Hf : ok (items (finish n a s)) (keys (finish n a s))).
    { unfold finish. apply adm_next.
      rewrite (keys_finished n a s Hn). exact H. }
    repeat case_match; try discriminate; intros [= <-]; exact Hf.
  - destruct (acqs s !! n) as [a|] eqn:Hn; [|discriminate].
    cbn [mbind option_bind].
    destruct (a_manual a) as [m|]; [|discriminate]. cbn [mbind option_bind].
    repeat case_match; try discriminate. intros [= <-].
    rewrite keys_alter; [exact H|]. intros b. split; reflexivity.
  - destruct (acqs s !! n) as [a|] eqn:Hn; [|discriminate].
    cbn [mbind option_bind].
    destruct (a_manual a) as [m|]; [|discriminate]. cbn [mbind option_bind].
    repeat case_match; try discriminate. intros [= <-].
    rewrite keys_alter; [exact H|]. intros b. split; reflexivity.
  - destruct (acqs s !! n) as [a|] eqn:Hn; [|discriminate].
    cbn [mbind option_bind].
    destruct (a_manual a) as [m|]; [|discriminate]. cbn [mbind option_bind].
    repeat case_match; try discriminate. intros [= <-].
    rewrite keys_alter; [exact H|]. intros b. split; reflexivity.
Qed.

Lemma started_next k i c s :
  Forall (fun x => a_phase x <> Waiting -> waiting x = false) (acqs s) ->
  Forall (fun x => a_phase x <> Waiting -> waiting x = false)
    (acqs (next k i c s)).
Proof.
  intros H. unfold next, next_w, next_r.
  destruct k; repeat case_match; rewrite ?instance_acqs_advance;
    try exact H.
  cbn [acqs set_acqs set_items]. apply Forall_alter; [exact H|].
  intros x _ _ _. reflexivity.
Qed.

Lemma started_append s l :
  Forall (fun x => a_phase x <> Waiting -> waiting x = false) (acqs s) ->
  (l = acqs s \/ exists a, l = acqs s ++ [a] /\ a_phase a = Waiting) ->
  Forall (fun x => a_phase x <> Waiting -> waiting x = false) l.
Proof.
  intros H [->|(a & -> & Ha)]; [exact H|].
  apply Forall_app. split; [exact H|]. apply Forall_singleton.
  intros Hne. congruence.
Qed.

Lemma ready_not_waiting s a : acq_ready s a = true -> waiting a = false.
Proof.
  unfold acq_ready, waiting. destruct (items s !! a_item a); [|discriminate].
  destruct (a_step a) as [[]|]; try reflexivity.
  rewrite andb_false_r. discriminate.
Qed.

Lemma adm_step_started e s s' :
  Forall (fun x => a_phase x <> Waiting -> waiting x = false) (acqs s) ->
  fire e s = Some s' ->
  Forall (fun x => a_phase x <> Waiting -> waiting x = false) (acqs s').
Proof.
  intros H. destruct e as [|k|k sig|n|n|n|n|n]; cbn [fire].
  - intros [= <-]. rewrite acqs_initializeInstance. exact H.
  - intros [= <-]. apply (started_append s); [exact H|].
    destruct (acqs_classMethod k None s) as [E|(a & E & Ha & _)]; eauto.
  - intros [= <-]. apply (started_append s); [exact H|].
    destruct (acqs_manualLock k sig s) as [E|(a & E & Ha & _)]; eauto.
  - destruct (acqs s !! n) as [a|] eqn:Hn; [|discriminate].
    cbn [mbind option_bind]. destruct (a_phase a); try discriminate.
    destruct (acq_ready s a) eqn:Hr; [|discriminate]. intros [= <-].
    unfold start. cbn [acqs set_acqs assign_context set_owner set_ctxs].
    apply Forall_insert; [exact H|]. intros _.
    exact (ready_not_waiting s a Hr).
  - destruct (acqs s !! n) as [a|] eqn:Hn; [|discriminate].
    cbn [mbind option_bind].
    assert (Hf : a_phase a = Running ->
      Forall (fun x => a_phase x <> Waiting -> waiting x = false)
        (acqs (finish n a s))).
    { intros Hp. unfold finish. apply started_next.
      cbn [acqs set_acqs assign_context set_owner].
      apply Forall_insert; [exact H|]. intros _.
      apply (Forall_lookup_1 _ _ _ _ H Hn). rewrite Hp. discriminate. }
    destruct (a_phase a); try discriminate.
    repeat case_match; try discriminate; intros [= <-]; apply Hf;
      reflexivity.
  - destruct (acqs s !! n) as [a|] eqn:Hn; [|discriminate].
    cbn [mbind option_bind].
    destruct (a_manual a) as [m|]; [|discriminate]. cbn [mbind option_bind].
    repeat case_match; try discriminate. intros [= <-].
    cbn [acqs set_acqs]. apply Forall_alter; [exact H|].
    intros x _ Hx. exact Hx.
  - destruct (acqs s !! n) as [a|] eqn:Hn; [|discriminate].
    cbn [mbind option_bind].
    destruct (a_manual a) as [m|]; [|discriminate]. cbn [mbind option_bind].
    repeat case_match; try discriminate. intros [= <-].
    cbn [acqs set_acqs]. apply Forall_alter; [exact H|].
    intros x _ Hx. exact Hx.
  - destruct (acqs s !! n) as [a|] eqn:Hn; [|discriminate].
    cbn [mbind option_bind].
    destruct (a_manual a) as [m|]; [|discriminate]. cbn [mbind option_bind].
    repeat case_match; try discriminate. intros [= <-].
    cbn [acqs set_acqs]. apply Forall_alter; [exact H|].
    intros x _ Hx. exact Hx.
Qed.

Lemma adm_run es s s' :
  admitted_ok s -> run es s = Some s' -> admitted_ok s'.
Proof.
  apply (instance_run_invariant admitted_ok).
  intros e s0 s1 [H1 H2] Hf. split.
  - exact (adm_step_ok e s0 s1 H1 Hf).
  - exact (adm_step_started e s0 s1 H2 Hf).
Qed.

(** X10: On an owner, after any history of construction, calls and reactions:
    when two acquirers arrived on the same queue item and the later one
    has its step promise settled or has left the waiting phase (its body
    was started), then the step promise of the earlier one is settled
    too.  Admission to an item follows the order of arrival. *)
Theorem admission_follows_arrival (es : list event) (s : state)
    (a b : nat) (xa xb : acquirer) :
  run es init = Some s ->
  (a < b)%nat ->
  acqs s !! a = Some xa ->
  acqs s !! b = Some xb ->
  a_item xa = a_item xb ->
  a_step xb <> Some false \/ a_phase xb <> Waiting ->
  a_step xa <> Some false.
Proof.
  intros Hrun Hab Ha Hb Hitem Hadm.
  assert (H0 : admitted_ok init).
  { split; [exact ok_nil|constructor]. }
  destruct (adm_run es init s H0 Hrun) as [(_ & _ & Ho) Hst].
  assert (Hwb : waiting xb = false).
  { destruct Hadm as [Hs|Hp].
    - unfold waiting. destruct (a_step xb) as [[]|]; congruence.
    - exact (Forall_lookup_1 _ _ _ _ Hst Hb Hp). }
  assert (Hwa : waiting xa = false).
  { apply (Ho a b (a_item xa, waiting xa) (a_item xb, waiting xb) Hab).
    - unfold keys. rewrite list_lookup_fmap, Ha. reflexivity.
    - unfold keys. rewrite list_lookup_fmap, Hb. reflexivity.
    - exact Hitem.
    - exact Hwb. }
  unfold waiting in Hwa. destruct (a_step xa) as [[]|]; congruence.
Qed.

Lemma admission_follows_arrival_witness :
  a_step (mkAcquirer TW 0 0 None Finished None) <> Some false.
Proof.
  refine (admission_follows_arrival
    (Serial.launch 3 ++ three_writers_partial)
    (default init (run (Serial.launch 3 ++ three_writers_partial) init))
    0 1 (mkAcquirer TW 0 0 None Finished None)
    (mkAcquirer TW 0 0 (Some true) Running None) _ _ _ _ _ _);
    try reflexivity; [lia|left; discriminate].
Defined.

End InstanceAdmissionSteps.

(** ** Admission on a mux used with keys *)

Section KeyedAdmissionSteps.
Import Keyed Admission KeyedOnly KeyedAdmission.

Lemma kkeys_insert n f a s :
  acqs s !! n = Some a -> a_slots (f a) = a_slots a ->
  keys (set_acqs (<[n := f a]>) s) = keys s.
Proof.
  intros Hn Hf. unfold keys. cbn [acqs set_acqs].
  rewrite list_fmap_insert.
  replace (key_of (f a)) with (key_of a) by (unfold key_of; rewrite Hf; reflexivity).
  apply list_insert_id. rewrite list_lookup_fmap, Hn. reflexivity.
Qed.

Lemma kkeys_push x s :
  keys (set_acqs (fun l => l ++ [x]) s) = keys s ++ [key_of x].
Proof. unfold keys. cbn [acqs set_acqs]. rewrite fmap_app. reflexivity. Qed.

Lemma kkeys_wake i a s :
  keys s !! a = Some (i, true) ->
  keys (set_acqs (alter (resolve_step i) a) s) = wake a (keys s).
Proof.
  intros Ha. unfold keys, wake in *. cbn [acqs set_acqs].
  apply list_eq. intros j. rewrite list_lookup_fmap.
  destruct (decide (a = j)) as [->|Hne].
  - rewrite !list_lookup_alter_eq, list_lookup_fmap.
    rewrite list_lookup_fmap in Ha.
    destruct (acqs s !! j) as [x|]; [|discriminate]. cbn in *.
    injection Ha as Ha. f_equal. unfold key_of in *. cbn [a_slots resolve_step].
    destruct (a_slots x) as [|sl [|sl' sls]]; try discriminate.
    injection Ha as <- Hs. cbn [fmap list_fmap].
    rewrite decide_True by reflexivity. reflexivity.
  - rewrite !list_lookup_alter_ne by exact Hne.
    rewrite list_lookup_fmap. reflexivity.
Qed.

Lemma kadm_advance key q s :
  ok (items s) (keys s) ->
  ok (items (advance key q s)) (keys (advance key q s)).
Proof.
  intros H. unfold advance. repeat case_match; try exact H.
  exact (ok_start _ _ _ H).
Qed.

Lemma kadm_next_w sl s :
  ok (items s) (keys s) -> ok (items (next_w sl s)) (keys (next_w sl s)).
Proof.
  intros H. unfold next_w.
  destruct (items s !! s_item sl) as [[r st|r n|r]|] eqn:Ei; try exact H.
  destruct (pop_step st) as [rest [a|]] eqn:Ep.
  - destruct (ok_wake _ _ _ r st rest a H Ei Ep) as [Ha Hok].
    rewrite (kkeys_wake _ a (set_items _ s)) by exact Ha. exact Hok.
  - apply (kadm_advance _ _ (set_items _ s)).
    exact (ok_exhaust _ _ _ r st rest H Ei Ep).
Qed.

Lemma kadm_next_r sl s :
  ok (items s) (keys s) -> ok (items (next_r sl s)) (keys (next_r sl s)).
Proof.
  intros H. unfold next_r.
  destruct (items s !! s_item sl) as [[r st|r n|r]|] eqn:Ei; try exact H.
  assert (H1 : ok (<[s_item sl := ItemR r (n - 1)]> (items s)) (keys s)).
  { apply ok_same_steps; [exact H|]. intros it Hit.
    assert (it = ItemR r n) by congruence. subst it. reflexivity. }
  destruct (decide (n - 1 = 0)); [|exact H1].
  apply (kadm_advance _ _ (set_items _ s)). exact H1.
Qed.

Lemma kadm_next_all k sls : forall s,
  ok (items s) (keys s) ->
  ok (items (next_all k sls s)) (keys (next_all k sls s)).
Proof.
  unfold next_all. induction sls as [|sl sls IH]; intros s H; [exact H|].
  cbn [foldl]. apply IH.
  destruct k; [apply kadm_next_w|apply kadm_next_r..]; exact H.
Qed.

Lemma ok_push_item q it s ks :
  ok (items s) ks -> steps_of it = [] -> ok (items (push_item q it s)) ks.
Proof. intros H Hit. exact (ok_push _ _ it H Hit). Qed.

Lemma kadm_arrive_w a key q s ks :
  ok (items s) ks -> length ks = a ->
  ok (items (arrive_w a (key, q) s).1)
     (ks ++ [(s_item (arrive_w a (key, q) s).2,
              negb (s_step (arrive_w a (key, q) s).2))]).
Proof.
  intros H Hlen. unfold arrive_w.
  destruct (match last (default [] (queues s !! q)) with
            | Some l => match items s !! l with
                        | Some (ItemW _ _) => (l, s)
                        | _ => (length (items s), push_item q (ItemW false []) s)
                        end
            | None => (length (items s), push_item q (ItemW true []) s)
            end) as [i s1] eqn:E.
  assert (H1 : ok (items s1) ks
               /\ exists r st, items s1 !! i = Some (ItemW r st)).
  { destruct (last (default [] (queues s !! q))) as [l|].
    - destruct (items s !! l) as [[r st|r n|r]|] eqn:El; simplify_eq;
        try (split; [apply ok_push_item; [exact H|reflexivity]
                    |eexists _, _; apply items_push_item]).
      split; [exact H|eauto].
    - simplify_eq.
      split; [apply ok_push_item; [exact H|reflexivity]
             |eexists _, _; apply items_push_item]. }
  destruct H1 as [H1 (r & st & Hi)]. rewrite Hi.
  destruct st as [|st0 st]; cbn [fst snd s_item s_step negb items set_items].
  - exact (ok_arrive_admitted _ _ i _ (ItemW r [StepNext]) H1 Hi eq_refl
             (or_intror eq_refl)).
  - rewrite <- Hlen. exact (ok_arrive_waiting _ _ i r (st0 :: st) H1 Hi).
Qed.

Lemma kadm_arrive_r a key q s ks :
  ok (items s) ks ->
  ok (items (arrive_r a (key, q) s).1)
     (ks ++ [(s_item (arrive_r a (key, q) s).2,
              negb (s_step (arrive_r a (key, q) s).2))]).
Proof.
  intros H. unfold arrive_r.
  destruct (match last (default [] (queues s !! q)) with
            | Some l => match items s !! l with
                        | Some (ItemR _ _) => (l, s)
                        | _ => (length (items s), push_item q (ItemR false 0) s)
                        end
            | None => (length (items s), push_item q (ItemR true 0) s)
            end) as [i s1] eqn:E.
  assert (H1 : ok (items s1) ks
               /\ exists r n, items s1 !! i = Some (ItemR r n)).
  { destruct (last (default [] (queues s !! q))) as [l|].
    - destruct (items s !! l) as [[r st|r n|r]|] eqn:El; simplify_eq;
        try (split; [apply ok_push_item; [exact H|reflexivity]
                    |eexists _, _; apply items_push_item]).
      split; [exact H|eauto].
    - simplify_eq.
      split; [apply ok_push_item; [exact H|reflexivity]
             |eexists _, _; apply items_push_item]. }
  destruct H1 as [H1 (r & n & Hi)]. rewrite Hi.
  cbn [fst snd s_item s_step negb items set_items].
  exact (ok_arrive_admitted _ _ i _ (ItemR r (n + 1)) H1 Hi eq_refl
           (or_introl eq_refl)).
Qed.

Lemma kadm_getQueueEntries key s ks :
  ok (items s) ks ->
  ok (items (getQueueEntries (Some key) s).1) ks
  /\ exists q, (getQueueEntries (Some key) s).2 = [(Some key, q)].
Proof.
  intros H. unfold getQueueEntries.
  destruct (map_get key (partialQueue s)); [split; [exact H|eauto]|].
  destruct (last (default [] (queues s !! globalQueue))) as [i|].
  - destruct (items s !! i) as [[r st|r n|r]|]; cbn [fst snd];
      (split; [|eauto]);
      first [exact H | apply ok_push_item; [exact H|reflexivity]].
  - cbn [fst snd]. split; [apply ok_push_item; [exact H|reflexivity]|eauto].
Qed.

Lemma kadm_acquire k key sig s :
  ok (items s) (keys s) ->
  ok (items (acquire k (Some key) sig s).1)
     (keys (acquire k (Some key) sig s).1).
Proof.
  intros H.
  assert (Hgo : forall r,
    let res :=
      (let '(s1, entries) := getQueueEntries (Some key) s in
       let '(s2, slots) := arrive_all k (length (acqs s)) entries s1 in
       (set_acqs (fun l => l ++ [mkAcquirer k slots Pending Lock.create r
                                   false]) s2,
        @inl nat error (length (acqs s)))) in
    ok (items res.1) (keys res.1)).
  { intros r. cbn zeta.
    destruct (kadm_getQueueEntries key s (keys s) H) as [H1 [q Eq]].
    pose proof (acqs_getQueueEntries (Some key) s) as Ha1.
    destruct (getQueueEntries (Some key) s) as [s1 es].
    cbn [fst snd] in *. subst es. cbn [arrive_all].
    assert (Hlen : length (keys s) = length (acqs s)) by apply length_fmap.
    destruct k.
    - pose proof (kadm_arrive_w (length (acqs s)) (Some key) q s1 (keys s)
                    H1 Hlen) as H2.
      pose proof (acqs_arrive_w (length (acqs s)) (Some key, q) s1) as Ha2.
      destruct (arrive_w (length (acqs s)) (Some key, q) s1) as [s2 sl].
      cbn [fst snd] in *. rewrite kkeys_push.
      unfold keys at 1. rewrite Ha2, Ha1. exact H2.
    - pose proof (kadm_arrive_r (length (acqs s)) (Some key) q s1 (keys s)
                    H1) as H2.
      pose proof (acqs_arrive_r (length (acqs s)) (Some key, q) s1) as Ha2.
      destruct (arrive_r (length (acqs s)) (Some key, q) s1) as [s2 sl].
      cbn [fst snd] in *. rewrite kkeys_push.
      unfold keys at 1. rewrite Ha2, Ha1. exact H2.
    - pose proof (kadm_arrive_r (length (acqs s)) (Some key) q s1 (keys s)
                    H1) as H2.
      pose proof (acqs_arrive_r (length (acqs s)) (Some key, q) s1) as Ha2.
      destruct (arrive_r (length (acqs s)) (Some key, q) s1) as [s2 sl].
      cbn [fst snd] in *. rewrite kkeys_push.
      unfold keys at 1. rewrite Ha2, Ha1. exact H2. }
  unfold acquire. destruct sig as [[[] r]|]; [exact H|apply Hgo..].
Qed.

Lemma kadm_step_ok e s s' :
  ok (items s) (keys s) -> keyed_only e = true -> fire e s = Some s' ->
  ok (items s') (keys s').
Proof.
  intros H He.
  destruct e as [[key|] sig|[key|] sig|n|n|n|n|n|n]; try discriminate;
    cbn [fire].
  - intros [= <-]. apply kadm_acquire, H.
  - intros [= <-]. apply kadm_acquire, H.
  - destruct (barriers s !! n) as [b|]; [|discriminate].
    cbn [mbind option_bind]. destruct (items s !! b_item b); [|discriminate].
    cbn [mbind option_bind]. case_match; [|discriminate]. intros [= <-].
    apply (kadm_advance _ _ (set_barriers _ s)). exact H.
  - destruct (acqs s !! n) as [a|] eqn:Hn; [|discriminate].
    cbn [mbind option_bind]. repeat case_match; try discriminate.
    intros [= <-]. rewrite kkeys_insert; [exact H|exact Hn|reflexivity].
  - destruct (acqs s !! n) as [a|] eqn:Hn; [|discriminate].
    cbn [mbind option_bind]. repeat case_match; try discriminate.
    intros [= <-].
    rewrite (kkeys_insert n (fun a => on_lock Lock.resolve
                               (set_result (Rejected (AbortReason _)) a)));
      [exact H|exact Hn|reflexivity].
  - destruct (acqs s !! n) as [a|] eqn:Hn; [|discriminate].
    cbn [mbind option_bind]. repeat case_match; try discriminate.
    intros [= <-]. rewrite kkeys_insert; [exact H|exact Hn|reflexivity].
  - destruct (acqs s !! n) as [a|] eqn:Hn; [|discriminate].
    cbn [mbind option_bind]. repeat case_match; try discriminate.
    intros [= <-]. rewrite kkeys_insert; [exact H|exact Hn|reflexivity].
  - destruct (acqs s !! n) as [a|] eqn:Hn; [|discriminate].
    cbn [mbind option_bind]. case_match; [|discriminate]. intros [= <-].
    apply kadm_next_all.
    rewrite kkeys_insert; [exact H|exact Hn|reflexivity].
Qed.

Lemma settled_resolve i x : granted_settled x -> granted_settled (resolve_step i x).
Proof.
  unfold granted_settled, resolve_step. cbn [a_result a_slots].
  intros H Hr. specialize (H Hr). rewrite forallb_forall in *.
  intros sl Hsl. apply in_map_iff in Hsl as (sl0 & <- & Hsl0).
  case_match; [reflexivity|]. apply H, Hsl0.
Qed.

Lemma settled_next_w sl s :
  Forall granted_settled (acqs s) -> Forall granted_settled (acqs (next_w sl s)).
Proof.
  intros H. unfold next_w. repeat case_match; rewrite ?acqs_advance;
    try exact H.
  cbn [acqs set_acqs set_items]. apply Forall_alter; [exact H|].
  intros x _. apply settled_resolve.
Qed.

Lemma settled_next_r sl s :
  Forall granted_settled (acqs s) -> Forall granted_settled (acqs (next_r sl s)).
Proof.
  intros H. unfold next_r. repeat case_match; rewrite ?acqs_advance;
    exact H.
Qed.

Lemma settled_next_all k sls : forall s,
  Forall granted_settled (acqs s) ->
  Forall granted_settled (acqs (next_all k sls s)).
Proof.
  unfold next_all. induction sls as [|sl sls IH]; intros s H; [exact H|].
  cbn [foldl]. apply IH.
  destruct k; [apply settled_next_w|apply settled_next_r..]; exact H.
Qed.

Lemma ready_settled s a : acq_ready s a = true -> forallb s_step (a_slots a) = true.
Proof.
  unfold acq_ready. rewrite !forallb_forall. intros H sl Hsl.
  specialize (H sl Hsl). unfold slot_ready in H.
  destruct (items s !! s_item sl); [|discriminate].
  apply andb_true_iff in H as [_ H]. exact H.
Qed.

Lemma settled_acquire k key sig s :
  Forall granted_settled (acqs s) ->
  Forall granted_settled (acqs (acquire k key sig s).1).
Proof.
  intros H. unfold acquire.
  destruct sig as [[[] r]|]; [exact H| |];
    destruct (getQueueEntries key s) as [s1 es] eqn:E1;
    destruct (arrive_all k (length (acqs s)) es s1) as [s2 sls] eqn:E2;
    cbn [fst acqs set_acqs];
    pose proof (acqs_arrive_all k (length (acqs s)) es s1) as A2;
    pose proof (acqs_getQueueEntries key s) as A1;
    rewrite E2 in A2; rewrite E1 in A1; cbn [fst] in A1, A2;
    rewrite A2, A1; apply Forall_app; (split; [exact H|]);
    apply Forall_singleton; intros Hr; discriminate.
Qed.

Lemma kadm_step_settled e s s' :
  Forall granted_settled (acqs s) -> fire e s = Some s' ->
  Forall granted_settled (acqs s').
Proof.
  intros H. destruct e as [key sig|key sig|n|n|n|n|n|n]; cbn [fire].
  - intros [= <-]. apply settled_acquire, H.
  - intros [= <-]. apply settled_acquire, H.
  - destruct (barriers s !! n) as [b|]; [|discriminate].
    cbn [mbind option_bind]. destruct (items s !! b_item b); [|discriminate].
    cbn [mbind option_bind]. case_match; [|discriminate]. intros [= <-].
    rewrite acqs_advance. exact H.
  - destruct (acqs s !! n) as [a|] eqn:Hn; [|discriminate].
    cbn [mbind option_bind]. destruct (a_result a); try discriminate.
    destruct (acq_ready s a) eqn:Hr; [|discriminate]. intros [= <-].
    cbn [acqs set_acqs]. apply Forall_insert; [exact H|].
    intros _. exact (ready_settled s a Hr).
  - destruct (acqs s !! n) as [a|] eqn:Hn; [|discriminate].
    cbn [mbind option_bind]. repeat case_match; try discriminate.
    intros [= <-]. cbn [acqs set_acqs]. apply Forall_insert; [exact H|].
    intros Hr. discriminate.
  - destruct (acqs s !! n) as [a|] eqn:Hn; [|discriminate].
    cbn [mbind option_bind]. repeat case_match; try discriminate.
    intros [= <-]. cbn [acqs set_acqs]. apply Forall_insert; [exact H|].
    exact (Forall_lookup_1 _ _ _ _ H Hn).
  - destruct (acqs s !! n) as [a|] eqn:Hn; [|discriminate].
    cbn [mbind option_bind]. repeat case_match; try discriminate.
    intros [= <-]. cbn [acqs set_acqs]. apply Forall_insert; [exact H|].
    exact (Forall_lookup_1 _ _ _ _ H Hn).
  - destruct (acqs s !! n) as [a|] eqn:Hn; [|discriminate].
    cbn [mbind option_bind]. case_match; [|discriminate]. intros [= <-].
    apply settled_next_all. cbn [acqs set_acqs].
    apply Forall_insert; [exact H|].
    exact (Forall_lookup_1 _ _ _ _ H Hn).
Qed.

Lemma kadm_run es : forall s s',
  admitted_ok s -> forallb keyed_only es = true -> run es s = Some s' ->
  admitted_ok s'.
Proof.
  induction es as [|e es IH]; intros s s' [H1 H2] Hes Hrun; cbn [run] in Hrun.
  - injection Hrun as <-. split; assumption.
  - cbn [forallb] in Hes. apply andb_true_iff in Hes as [He Hes].
    destruct (fire e s) as [s1|] eqn:E; [|discriminate].
    cbn [mbind option_bind] in Hrun.
    apply (IH s1 s'); [|exact Hes|exact Hrun]. split.
    + exact (kadm_step_ok e s s1 H1 He E).
    + exact (kadm_step_settled e s s1 H2 E).
Qed.

(** X11: On a mux used with keys only, after any history of calls and
    reactions: when two calls took their slot on the same queue item and
    the later one has the step promise of its slot settled, or has been
    fulfilled, then the step promise of the earlier one is settled too.
    Admission to an item follows the order of arrival. *)
Theorem keyed_admission_follows_arrival (es : list event) (s : state)
    (a b : nat) (xa xb : acquirer) (sa sb : slot) :
  forallb keyed_only es = true ->
  run es init = Some s ->
  (a < b)%nat ->
  acqs s !! a = Some xa -> a_slots xa = [sa] ->
  acqs s !! b = Some xb -> a_slots xb = [sb] ->
  s_item sa = s_item sb ->
  s_step sb = true \/ a_result xb = Fulfilled ->
  s_step sa = true.
Proof.
  intros Hes Hrun Hab Ha Hsa Hb Hsb Hitem Hadm.
  assert (H0 : admitted_ok init).
  { split; [exact ok_nil|constructor]. }
  destruct (kadm_run es init s H0 Hes Hrun) as [(_ & _ & Ho) Hst].
  assert (Hwb : s_step sb = true).
  { destruct Hadm as [Hs|Hr]; [exact Hs|].
    pose proof (Forall_lookup_1 _ _ _ _ Hst Hb Hr) as Hf.
    rewrite Hsb in Hf. cbn in Hf. rewrite andb_true_r in Hf. exact Hf. }
  assert (Hwa : negb (s_step sa) = false).
  { apply (Ho a b (s_item sa, negb (s_step sa)) (s_item sb, negb (s_step sb))
             Hab).
    - unfold keys. rewrite list_lookup_fmap, Ha. cbn. unfold key_of.
      rewrite Hsa. reflexivity.
    - unfold keys. rewrite list_lookup_fmap, Hb. cbn. unfold key_of.
      rewrite Hsb. reflexivity.
    - exact Hitem.
    - cbn. rewrite Hwb. reflexivity. }
  destruct (s_step sa); [reflexivity|discriminate].
Qed.

End KeyedAdmissionSteps.

Lemma keyed_admission_follows_arrival_witness :
  Keyed.s_step (Keyed.mkSlot (Some "k") 1 1 true) = true.
Proof.
  refine (keyed_admission_follows_arrival
    (two_writers_one_key_plain ++ first_writer_done)
    (default Keyed.init
       (Keyed.run (two_writers_one_key_plain ++ first_writer_done)
          Keyed.init))
    0 1
    (Keyed.mkAcquirer TW [Keyed.mkSlot (Some "k") 1 1 true] Fulfilled
       (Lock.unlock Lock.create) None true)
    (Keyed.mkAcquirer TW [Keyed.mkSlot (Some "k") 1 1 true] Pending
       Lock.create None false)
    (Keyed.mkSlot (Some "k") 1 1 true) (Keyed.mkSlot (Some "k") 1 1 true)
    _ _ _ _ _ _ _ _ _); try reflexivity; [lia|left; reflexivity].
Defined.

(** ** Keyed calls wait for the unkeyed call that came first *)

Section GlobalHoldSteps.
Import Keyed KeyedMap GlobalHold.

Lemma wb_items_pos s : waits_behind s -> (1 <= length (items s))%nat.
Proof.
  intros (_ & _ & (it0 & H0 & _) & _). apply lookup_lt_Some in H0. lia.
Qed.

Lemma wb_not_ready s x n :
  waits_behind s -> (1 <= n)%nat -> acqs s !! n = Some x ->
  acq_ready s x = false.
Proof.
  intros (_ & _ & _ & Hi & _ & Ha) Hn Hx.
  destruct (Ha n x Hn Hx) as (_ & sl & Hsl & Hpos).
  unfold acq_ready. apply not_true_is_false. intros Hf.
  rewrite forallb_forall in Hf.
  specialize (Hf sl (proj1 (list_elem_of_In _ _) Hsl)).
  unfold slot_ready in Hf.
  destruct (items s !! s_item sl) as [it|] eqn:E; [|discriminate].
  rewrite (Hi _ it Hpos E) in Hf. discriminate.
Qed.

Lemma wb_update n f a s :
  waits_behind s -> acqs s !! n = Some a ->
  a_slots (f a) = a_slots a ->
  ((1 <= n)%nat -> a_result (f a) <> Fulfilled) ->
  waits_behind (set_acqs (<[n := f a]>) s).
Proof.
  intros (H1 & H2 & H3 & H4 & H5 & H6) Hn Hf Hr.
  split; [exact H1|]. split; [exact H2|]. split; [exact H3|].
  split; [exact H4|]. split; [exact H5|].
  intros m x Hm Hx. cbn [acqs set_acqs] in Hx.
  destruct (decide (n = m)) as [->|Hne].
  - rewrite list_lookup_insert_eq in Hx by (eapply lookup_lt_Some, Hn).
    injection Hx as <-. split; [exact (Hr Hm)|].
    rewrite Hf. exact (proj2 (H6 m a Hm Hn)).
  - rewrite list_lookup_insert_ne in Hx by exact Hne. exact (H6 m x Hm Hx).
Qed.

Lemma wb_push_acq x s :
  waits_behind s -> a_result x <> Fulfilled ->
  (exists sl, sl ∈ a_slots x /\ (1 <= s_item sl)%nat) ->
  waits_behind (set_acqs (fun l => l ++ [x]) s).
Proof.
  intros (H1 & H2 & H3 & H4 & H5 & H6) Hr Hsl.
  split; [exact H1|]. split; [exact H2|]. split; [exact H3|].
  split; [exact H4|]. split; [exact H5|].
  intros m y Hm Hy. cbn [acqs set_acqs] in Hy.
  destruct (decide (m < length (acqs s))%nat) as [Hlt|Hge].
  - rewrite lookup_app_l in Hy by exact Hlt. exact (H6 m y Hm Hy).
  - rewrite lookup_app_r in Hy by lia.
    destruct (m - length (acqs s))%nat; [|discriminate].
    injection Hy as <-. auto.
Qed.

Lemma wb_insert i it s :
  waits_behind s -> (1 <= i)%nat -> item_ready it = false ->
  waits_behind (set_items (<[i := it]>) s).
Proof.
  intros (H1 & H2 & (it0 & H3 & H3') & H4 & H5 & H6) Hi Hit.
  split; [exact H1|]. split; [exact H2|].
  split; [exists it0; split; [|exact H3'];
          cbn [items set_items]; rewrite list_lookup_insert_ne by lia;
          exact H3|].
  split; [|split; [exact H5|exact H6]].
  intros j x Hj Hx. cbn [items set_items] in Hx.
  destruct (decide (i = j)) as [->|Hne].
  - destruct (items s !! j) as [old|] eqn:E.
    + rewrite list_lookup_insert_eq in Hx by (eapply lookup_lt_Some, E).
      injection Hx as <-. exact Hit.
    + rewrite list_insert_ge in Hx by (apply lookup_ge_None; exact E).
      congruence.
  - rewrite list_lookup_insert_ne in Hx by exact Hne. exact (H4 j x Hj Hx).
Qed.

Lemma wb_push q it s :
  waits_behind s -> item_ready it = false ->
  waits_behind (push_item q it s).
Proof.
  intros H Hit. pose proof (wb_items_pos s H) as Hpos.
  destruct H as ((gq & H1) & H2 & (it0 & H3 & H3') & H4 & H5 & H6).
  unfold push_item. split; [|split; [|split; [|split; [|split]]]].
  - cbn [queues set_queues set_items].
    destruct (decide (q = globalQueue)) as [->|Hne].
    + rewrite list_lookup_alter_eq, H1. cbn. eauto.
    + rewrite list_lookup_alter_ne by exact Hne. eauto.
  - intros q' l Hq' Hl. cbn [queues set_queues set_items] in Hl.
    destruct (decide (q = q')) as [->|Hne].
    + rewrite list_lookup_alter_eq in Hl.
      destruct (queues s !! q') as [l0|] eqn:E; [|discriminate].
      injection Hl as <-. destruct (H2 q' l0 Hq' E) as [_ Hall].
      split; [destruct l0; discriminate|].
      apply Forall_app. split; [exact Hall|].
      apply Forall_singleton. exact Hpos.
    + rewrite list_lookup_alter_ne in Hl by exact Hne. exact (H2 q' l Hq' Hl).
  - exists it0. split; [|exact H3']. cbn [items set_queues set_items].
    apply lookup_app_l_Some. exact H3.
  - intros j x Hj Hx. cbn [items set_queues set_items] in Hx.
    destruct (decide (j < length (items s))%nat) as [Hlt|Hge].
    + rewrite lookup_app_l in Hx by exact Hlt. exact (H4 j x Hj Hx).
    + rewrite lookup_app_r in Hx by lia.
      destruct (j - length (items s))%nat; [|discriminate].
      injection Hx as <-. exact Hit.
  - exact H5.
  - exact H6.
Qed.

Lemma wb_new_queue key g s :
  waits_behind s -> (1 <= length (queues s))%nat -> (1 <= g)%nat ->
  waits_behind
    (set_partial (fun m => m ++ [(key, length (queues s))])
       (set_barriers
          (fun l => l ++ [mkBarrier g (length (queues s)) key false])
          (set_queues (fun l => l ++ [[g]]) s))).
Proof.
  intros ((gq & H1) & H2 & H3 & H4 & H5 & H6) Hlen Hg.
  split; [|split; [|split; [exact H3|split; [exact H4|split; [|exact H6]]]]].
  - exists gq. cbn [queues set_partial set_barriers set_queues].
    apply lookup_app_l_Some. exact H1.
  - intros q l Hq Hl. cbn [queues set_partial set_barriers set_queues] in Hl.
    destruct (decide (q < length (queues s))%nat) as [Hlt|Hge].
    + rewrite lookup_app_l in Hl by exact Hlt. exact (H2 q l Hq Hl).
    + rewrite lookup_app_r in Hl by lia.
      destruct (q - length (queues s))%nat; [|discriminate].
      injection Hl as <-. split; [discriminate|].
      apply Forall_singleton. exact Hg.
  - cbn [barriers set_partial set_barriers]. apply Forall_app.
    split; [exact H5|]. apply Forall_singleton. exact Hg.
Qed.

(** The entry of a keyed call: a per-key queue that is not empty. *)
Lemma wb_getQueueEntries key s :
  map_ok s -> waits_behind s ->
  waits_behind (getQueueEntries (Some key) s).1
  /\ exists q l,
       (getQueueEntries (Some key) s).2 = [(Some key, q)]
       /\ (1 <= q)%nat
       /\ queues (getQueueEntries (Some key) s).1 !! q = Some l.
Proof.
  intros [Hlen Hmap] Hwb. unfold getQueueEntries.
  destruct (map_get key (partialQueue s)) as [q|] eqn:Eg.
  - split; [exact Hwb|].
    destruct (map_get_Some _ _ _ Eg) as (e & He & <-).
    rewrite Forall_forall in Hmap. specialize (Hmap e He).
    destruct (lookup_lt_is_Some_2 (queues s) e.2) as [l Hl]; [lia|].
    exists e.2, l. split; [reflexivity|]. split; [lia|exact Hl].
  - pose proof Hwb as ((gq & H1) & _ & (it0 & H3 & H3') & _).
    rewrite H1. cbn [default from_option id].
    destruct (last (0%nat :: gq)) as [i|] eqn:El;
      [|apply last_None in El; discriminate].
    assert (Hnew : forall g s1,
      waits_behind s1 -> length (queues s1) = length (queues s) ->
      (1 <= g)%nat ->
      waits_behind
        (set_partial (fun m => m ++ [(key, length (queues s1))])
           (set_barriers
              (fun l => l ++ [mkBarrier g (length (queues s1)) key false])
              (set_queues (fun l => l ++ [[g]]) s1)))
      /\ exists q l,
           [(Some key, length (queues s1))] = [(Some key, q)]
           /\ (1 <= q)%nat
           /\ queues
                (set_partial (fun m => m ++ [(key, length (queues s1))])
                   (set_barriers
                      (fun l => l ++ [mkBarrier g (length (queues s1)) key
                                        false])
                      (set_queues (fun l => l ++ [[g]]) s1))) !! q = Some l).
    { intros g s1 Hs1 Hl1 Hg. split.
      - apply wb_new_queue; [exact Hs1|lia|exact Hg].
      - exists (length (queues s1)), [g]. split; [reflexivity|].
        split; [lia|]. cbn [queues set_partial set_barriers set_queues].
        rewrite lookup_app_r by lia. rewrite Nat.sub_diag. reflexivity. }
    pose proof (wb_items_pos s Hwb) as Hpos.
    assert (Hpush : waits_behind (push_item globalQueue (ItemG false) s)
                    /\ length (queues (push_item globalQueue (ItemG false) s))
                       = length (queues s)).
    { split; [apply wb_push; [exact Hwb|reflexivity]|].
      unfold push_item. cbn [queues set_queues set_items].
      apply length_alter. }
    destruct (items s !! i) as [[r st|r n|r]|] eqn:Ei; cbn [fst snd].
    + apply Hnew; [apply Hpush|apply Hpush|exact Hpos].
    + apply Hnew; [apply Hpush|apply Hpush|exact Hpos].
    + apply Hnew; [exact Hwb|reflexivity|].
      destruct i; [|lia]. rewrite H3 in Ei. injection Ei as ->.
      destruct H3'. reflexivity.
    + apply Hnew; [apply Hpush|apply Hpush|exact Hpos].
Qed.

Lemma wb_tail q l s :
  waits_behind s -> (1 <= q)%nat -> queues s !! q = Some l ->
  exists t, last l = Some t /\ (1 <= t)%nat.
Proof.
  intros (_ & H2 & _) Hq Hl. destruct (H2 q l Hq Hl) as [Hne Hall].
  destruct (last l) as [t|] eqn:E; [|apply last_None in E; contradiction].
  exists t. split; [reflexivity|].
  rewrite Forall_forall in Hall. apply Hall.
  rewrite last_lookup in E. eapply list_elem_of_lookup_2, E.
Qed.

Lemma wb_arrive_w a key q l s :
  waits_behind s -> (1 <= q)%nat -> queues s !! q = Some l ->
  waits_behind (arrive_w a (Some key, q) s).1
  /\ (1 <= s_item (arrive_w a (Some key, q) s).2)%nat.
Proof.
  intros Hwb Hq Hl. destruct (wb_tail q l s Hwb Hq Hl) as (t & Ht & Hpos).
  pose proof (wb_items_pos s Hwb) as Hlen.
  unfold arrive_w. rewrite Hl. cbn [default from_option id]. rewrite Ht.
  assert (Hpushed : forall s1 i,
    s1 = push_item q (ItemW false []) s -> i = length (items s) ->
    waits_behind
      (match items s1 !! i with
       | Some (ItemW r []) =>
           (set_items (<[i := ItemW r [StepNext]]>) s1,
            mkSlot (Some key) q i true)
       | Some (ItemW r steps) =>
           (set_items (<[i := ItemW r (steps ++ [StepResolve a])]>) s1,
            mkSlot (Some key) q i false)
       | _ => (s1, mkSlot (Some key) q i false)
       end).1
    /\ (1 <= s_item
              (match items s1 !! i with
               | Some (ItemW r []) =>
                   (set_items (<[i := ItemW r [StepNext]]>) s1,
                    mkSlot (Some key) q i true)
               | Some (ItemW r steps) =>
                   (set_items (<[i := ItemW r (steps ++ [StepResolve a])]>) s1,
                    mkSlot (Some key) q i false)
               | _ => (s1, mkSlot (Some key) q i false)
               end).2)%nat).
  { intros s1 i -> ->. rewrite items_push_item. cbn [fst snd s_item].
    split; [|exact Hlen].
    apply wb_insert; [|exact Hlen|reflexivity].
    apply wb_push; [exact Hwb|reflexivity]. }
  destruct (items s !! t) as [[r st|r n|r]|] eqn:Et;
    try (apply Hpushed; reflexivity).
  rewrite Et.
  assert (Hr : r = false).
  { destruct Hwb as (_ & _ & _ & H4 & _). exact (H4 t _ Hpos Et). }
  subst r.
  destruct st; cbn [fst snd s_item]; (split; [|exact Hpos]);
    apply wb_insert; try assumption; reflexivity.
Qed.

Lemma wb_arrive_r a key q l s :
  waits_behind s -> (1 <= q)%nat -> queues s !! q = Some l ->
  waits_behind (arrive_r a (Some key, q) s).1
  /\ (1 <= s_item (arrive_r a (Some key, q) s).2)%nat.
Proof.
  intros Hwb Hq Hl. destruct (wb_tail q l s Hwb Hq Hl) as (t & Ht & Hpos).
  pose proof (wb_items_pos s Hwb) as Hlen.
  unfold arrive_r. rewrite Hl. cbn [default from_option id]. rewrite Ht.
  assert (Hpushed : forall s1 i,
    s1 = push_item q (ItemR false 0) s -> i = length (items s) ->
    waits_behind
      (match items s1 !! i with
       | Some (ItemR r n) =>
           (set_items (<[i := ItemR r (n + 1)]>) s1,
            mkSlot (Some key) q i true)
       | _ => (s1, mkSlot (Some key) q i true)
       end).1
    /\ (1 <= s_item
              (match items s1 !! i with
               | Some (ItemR r n) =>
                   (set_items (<[i := ItemR r (n + 1)]>) s1,
                    mkSlot (Some key) q i true)
               | _ => (s1, mkSlot (Some key) q i true)
               end).2)%nat).
  { intros s1 i -> ->. rewrite items_push_item. cbn [fst snd s_item].
    split; [|exact Hlen].
    apply wb_insert; [|exact Hlen|reflexivity].
    apply wb_push; [exact Hwb|reflexivity]. }
  destruct (items s !! t) as [[r st|r n|r]|] eqn:Et;
    try (apply Hpushed; reflexivity).
  rewrite Et.
  assert (Hr : r = false).
  { destruct Hwb as (_ & _ & _ & H4 & _). exact (H4 t _ Hpos Et). }
  subst r. cbn [fst snd s_item]. split; [|exact Hpos].
  apply wb_insert; try assumption; reflexivity.
Qed.

Lemma wb_acquire k key sig s :
  map_ok s -> waits_behind s ->
  waits_behind (acquire k (Some key) sig s).1.
Proof.
  intros Hm Hwb.
  assert (Hgo : forall r,
    waits_behind
      (let '(s1, entries) := getQueueEntries (Some key) s in
       let '(s2, slots) := arrive_all k (length (acqs s)) entries s1 in
       (set_acqs (fun l => l ++ [mkAcquirer k slots Pending Lock.create r
                                   false]) s2,
        @inl nat error (length (acqs s)))).1).
  { intros r.
    destruct (wb_getQueueEntries key s Hm Hwb) as (H1 & q & l & E & Hq & Hl).
    destruct (getQueueEntries (Some key) s) as [s1 es].
    cbn [fst snd] in *. subst es. cbn [arrive_all].
    assert (Harr :
      waits_behind (match k with
                    | TW => arrive_w (length (acqs s)) (Some key, q) s1
                    | _ => arrive_r (length (acqs s)) (Some key, q) s1
                    end).1
      /\ (1 <= s_item (match k with
                       | TW => arrive_w (length (acqs s)) (Some key, q) s1
                       | _ => arrive_r (length (acqs s)) (Some key, q) s1
                       end).2)%nat).
    { destruct k; [eapply wb_arrive_w|eapply wb_arrive_r..]; eassumption. }
    destruct (match k with
              | TW => arrive_w (length (acqs s)) (Some key, q) s1
              | _ => arrive_r (length (acqs s)) (Some key, q) s1
              end) as [s2 sl].
    cbn [fst snd] in *. destruct Harr as [H2 Hpos].
    apply wb_push_acq; [exact H2|discriminate|].
    exists sl. split; [apply list_elem_of_here|exact Hpos]. }
  unfold acquire. destruct sig as [[[] r]|]; [exact Hwb|apply Hgo..].
Qed.

Lemma wb_step e s s' :
  map_ok s -> waits_behind s -> quiet e = true -> fire e s = Some s' ->
  waits_behind s'.
Proof.
  intros Hm Hwb He.
  destruct e as [[key|] sig|[key|] sig|n|n|n|n|n|n]; try discriminate;
    cbn [fire].
  - intros [= <-]. apply wb_acquire; assumption.
  - intros [= <-]. apply wb_acquire; assumption.
  - destruct (barriers s !! n) as [b|] eqn:Hb; [|discriminate].
    cbn [mbind option_bind].
    destruct (items s !! b_item b) as [it|] eqn:Hit; [|discriminate].
    cbn [mbind option_bind].
    destruct Hwb as (_ & _ & _ & H4 & H5 & _).
    pose proof (Forall_lookup_1 _ _ _ _ H5 Hb) as Hpos. cbn beta in Hpos.
    rewrite (H4 _ it Hpos Hit). discriminate.
  - destruct (acqs s !! n) as [a|] eqn:Hn; [|discriminate].
    cbn [mbind option_bind]. destruct (a_result a); try discriminate.
    destruct (acq_ready s a) eqn:Hr; [|discriminate]. intros [= <-].
    apply wb_update; [exact Hwb|exact Hn|reflexivity|].
    intros Hpos. rewrite (wb_not_ready s a n Hwb Hpos Hn) in Hr.
    discriminate.
  - destruct (acqs s !! n) as [a|] eqn:Hn; [|discriminate].
    cbn [mbind option_bind]. repeat case_match; try discriminate.
    intros [= <-].
    apply (wb_update n (fun a => on_lock Lock.resolve
                                   (set_result (Rejected (AbortReason _)) a)));
      [exact Hwb|exact Hn|reflexivity|]. intros _. discriminate.
  - destruct (acqs s !! n) as [a|] eqn:Hn; [|discriminate].
    cbn [mbind option_bind]. destruct (a_result a) eqn:Hr; try discriminate.
    intros [= <-]. apply wb_update; [exact Hwb|exact Hn|reflexivity|].
    intros Hpos. destruct Hwb as (_ & _ & _ & _ & _ & H6).
    destruct (proj1 (H6 n a Hpos Hn) Hr).
  - destruct (acqs s !! n) as [a|] eqn:Hn; [|discriminate].
    cbn [mbind option_bind]. destruct (a_result a) eqn:Hr; try discriminate.
    intros [= <-]. apply wb_update; [exact Hwb|exact Hn|reflexivity|].
    intros Hpos. destruct Hwb as (_ & _ & _ & _ & _ & H6).
    destruct (proj1 (H6 n a Hpos Hn) Hr).
  - destruct n as [|n]; [discriminate|].
    destruct (acqs s !! S n) as [a|] eqn:Hn; [|discriminate].
    cbn [mbind option_bind].
    rewrite (wb_not_ready s a (S n) Hwb ltac:(lia) Hn). discriminate.
Qed.

Lemma wb_run es : forall s s',
  map_ok s -> waits_behind s -> forallb quiet es = true ->
  run es s = Some s' -> waits_behind s'.
Proof.
  induction es as [|e es IH]; intros s s' Hm Hwb Hes Hrun; cbn [run] in Hrun.
  - injection Hrun as <-. exact Hwb.
  - cbn [forallb] in Hes. apply andb_true_iff in Hes as [He Hes].
    destruct (fire e s) as [s1|] eqn:E; [|discriminate].
    cbn [mbind option_bind] in Hrun.
    exact (IH s1 s' (map_ok_step e s s1 Hm E) (wb_step e s s1 Hm Hwb He E)
             Hes Hrun).
Qed.

Lemma wb_first exclusive :
  exists s0, fire (first_call exclusive) init = Some s0
    /\ map_ok s0 /\ waits_behind s0.
Proof.
  destruct exclusive; (eexists; split; [reflexivity|]);
    (split; [split; cbn; [lia|constructor]|]);
    (split; [exists []; reflexivity|]);
    (split; [intros [|[|q]] l Hq Hl; try lia; discriminate|]);
    (split; [eexists; split; [reflexivity|discriminate]|]);
    (split; [intros [|[|i]] it Hi Hit; try lia; discriminate|]);
    (split; [constructor|]);
    intros [|[|n]] x Hn Hx; try lia; discriminate.
Qed.

(** X12: The first call on a new mux is an unkeyed [lock()] or [rLock()]
    ([exclusive] tells which).  As long as the release reaction of that
    call has not run, whatever keyed calls are made and whatever other
    reactions run: no later call is fulfilled. *)
Theorem keyed_calls_wait_for_unkeyed_holder (exclusive : bool)
    (es : list event) (s : state) :
  forallb quiet es = true ->
  run (first_call exclusive :: es) init = Some s ->
  forall n x, (1 <= n)%nat -> acqs s !! n = Some x ->
    a_result x <> Fulfilled.
Proof.
  intros Hes Hrun n x Hn Hx. cbn [run] in Hrun.
  destruct (wb_first exclusive) as (s0 & E0 & Hm0 & Hwb0).
  rewrite E0 in Hrun. cbn [mbind option_bind] in Hrun.
  destruct (wb_run es s0 s Hm0 Hwb0 Hes Hrun) as (_ & _ & _ & _ & _ & H6).
  exact (proj1 (H6 n x Hn Hx)).
Qed.

Lemma keyed_calls_wait_for_unkeyed_holder_witness :
  a_result (mkAcquirer TW [mkSlot (Some "a") 1 2 true] Pending Lock.create
              None false) <> Fulfilled.
Proof.
  refine (keyed_calls_wait_for_unkeyed_holder true
    [Lock (Some "a") None; Ready 0%nat; Unlock 0%nat; RLock (Some "b") None]
    (default init
       (run (first_call true ::
             [Lock (Some "a") None; Ready 0%nat; Unlock 0%nat;
              RLock (Some "b") None]) init))
    _ _ 1%nat
    (mkAcquirer TW [mkSlot (Some "a") 1 2 true] Pending Lock.create None
       false) _ _); first [reflexivity | lia].
Defined.

End GlobalHoldSteps.

(** ** Later calls wait for the first holder of a key *)

Section KeyHoldBasics.
Import Keyed KeyHold.
Variable k : string.

Lemma map_get_delete_ne (k' : string) m :
  k <> k' -> map_get k (map_delete k' m) = map_get k m.
Proof.
  intros Hne. unfold map_get, map_delete.
  induction m as [|[k0 q0] m IH]; [reflexivity|].
  destruct (decide (k0 = k')) as [->|Hk0].
  - rewrite filter_cons_False by (cbn; tauto). rewrite IH.
    cbn [list_find]. rewrite decide_False by (cbn; congruence).
    destruct (list_find (fun e : string * nat => e.1 = k) m) as [[? ?]|];
      reflexivity.
  - rewrite filter_cons_True by (cbn; congruence).
    cbn [list_find]. destruct (decide ((k0, q0).1 = k)); [reflexivity|].
    cbn [fmap option_fmap option_map] in *.
    destruct (list_find (fun e : string * nat => e.1 = k)
                (filter (fun e : string * nat => e.1 <> k') m)) as [[? ?]|],
             (list_find (fun e : string * nat => e.1 = k) m) as [[? ?]|];
      cbn in *; congruence.
Qed.

Lemma map_get_app_l m (e : string * nat) q :
  map_get k m = Some q -> map_get k (m ++ [e]) = Some q.
Proof.
  unfold map_get. intros H.
  destruct (list_find (fun e : string * nat => e.1 = k) m) as [[i x]|] eqn:E;
    [|discriminate].
  rewrite (list_find_app_l _ _ _ _ _ E). exact H.
Qed.

Lemma grows_refl s : grows s s.
Proof. split; [lia|tauto]. Qed.

Lemma grows_trans s1 s2 s3 : grows s1 s2 -> grows s2 s3 -> grows s1 s3.
Proof.
  intros [L1 Q1] [L2 Q2]. split; [lia|]. intros i Hi Hlt.
  rewrite (Q2 i Hi) by lia. exact (Q1 i Hi Hlt).
Qed.

Lemma calls_grows s s1 :
  calls_held k s -> grows s s1 -> acqs s1 = acqs s -> calls_held k s1.
Proof.
  intros (H1 & H2 & H3) [HL HQ] Ha. unfold calls_held. rewrite Ha.
  split; [|split; [|exact H3]].
  - intros n x sl Hx Hsl. destruct (H1 n x sl Hx Hsl) as (A & B & C & D).
    split; [lia|]. split; [exact B|]. split; [exact C|].
    intros Hq. destruct (D Hq) as [D0|D1]; [left; exact D0|].
    destruct (decide (s_item sl = 0%nat)) as [E|E]; [left; exact E|].
    right. rewrite (HQ _ E A). exact D1.
  - intros n x sl Hn Hx Hsl Hq.
    destruct (H2 n x sl Hn Hx Hsl Hq) as [Hb Hr]. split; [|exact Hr].
    destruct Hb as [Hb|[Hne [H0 Hin]]]; [left; exact Hb|].
    right. split; [exact Hne|]. split; [exact H0|].
    destruct (H1 n x sl Hx Hsl) as (A & _). rewrite (HQ _ H0 A). exact Hin.
Qed.

(** The item store is updated in place. *)
Lemma core_items f s :
  core k s ->
  length (f (items s)) = length (items s) ->
  f (items s) !! 0%nat = Some (ItemG true) ->
  (exists r st, f (items s) !! 1%nat = Some (ItemW r (StepNext :: st))) ->
  (forall i it, blocked s i -> i <> 1%nat -> f (items s) !! i = Some it ->
     item_ready it = false) ->
  core k (set_items f s).
Proof.
  intros [] Hl H0 H1 Hu. constructor; cbn [items queues partialQueue barriers
    set_items]; try assumption.
  intros q l i Hq Hi. rewrite Hl. eauto.
Qed.

Lemma held_items f s :
  held k s ->
  length (f (items s)) = length (items s) ->
  f (items s) !! 0%nat = Some (ItemG true) ->
  (exists r st, f (items s) !! 1%nat = Some (ItemW r (StepNext :: st))) ->
  (forall i it, blocked s i -> i <> 1%nat -> f (items s) !! i = Some it ->
     item_ready it = false) ->
  held k (set_items f s).
Proof.
  intros [Hc Ha] Hl H0 H1 Hu. split; [apply core_items; assumption|].
  apply (calls_grows s); [exact Ha| |reflexivity].
  split; [cbn [items set_items]; lia|]. intros i _ _. reflexivity.
Qed.

(** [item.start()] on an item that does not wait in the queue of [k], or
    on the first writer item. *)
Lemma held_start h s :
  held k s -> h = 1%nat \/ ~ blocked s h ->
  held k (set_items (alter item_start h) s).
Proof.
  intros H Hh. pose proof (proj1 H) as Hc.
  pose proof (c_item0 k s Hc) as I0. pose proof (c_item1 k s Hc) as I1.
  pose proof (c_unready k s Hc) as IU. pose proof (c_queue1 k s Hc) as Q1.
  apply held_items; [exact H|apply length_alter| | |].
  - destruct (decide (h = 0%nat)) as [->|Hne].
    + rewrite list_lookup_alter_eq, I0. reflexivity.
    + rewrite list_lookup_alter_ne by exact Hne. exact I0.
  - destruct I1 as (r & st & E).
    destruct (decide (h = 1%nat)) as [->|Hne].
    + rewrite list_lookup_alter_eq, E. cbn. eauto.
    + rewrite list_lookup_alter_ne by exact Hne. eauto.
  - intros i it Hb Hi Hit.
    destruct (decide (h = i)) as [->|Hne].
    + destruct Hh as [->|Hh]; [congruence|contradiction].
    + rewrite list_lookup_alter_ne in Hit by exact Hne.
      exact (IU i it Hb Hi Hit).
Qed.

(** An item that does not wait in the queue of [k] is overwritten. *)
Lemma held_insert_free i it s :
  held k s -> i <> 0%nat -> ~ blocked s i ->
  held k (set_items (<[i := it]>) s).
Proof.
  intros H Hi Hf. pose proof (proj1 H) as Hc.
  pose proof (c_item0 k s Hc) as I0. pose proof (c_item1 k s Hc) as I1.
  pose proof (c_unready k s Hc) as IU. pose proof (c_queue1 k s Hc) as Q1.
  assert (Hi1 : i <> 1%nat).
  { intros ->. apply Hf. split; [lia|]. unfold queue1.
    destruct Q1 as (f & rest & _ & ->). cbn.
    apply elem_of_app. right. apply list_elem_of_here. }
  apply held_items; [exact H|apply length_insert| | |].
  - rewrite list_lookup_insert_ne by exact Hi. exact I0.
  - rewrite list_lookup_insert_ne by exact Hi1. exact I1.
  - intros j x Hb Hj Hx.
    rewrite list_lookup_insert_ne in Hx by (intros ->; contradiction).
    exact (IU j x Hb Hj Hx).
Qed.

(** An item that waits in the queue of [k] is overwritten by an item that
    is not ready, or the first writer item by one that has steps. *)
Lemma held_insert_blocked i it s :
  held k s -> i <> 0%nat ->
  (i = 1%nat -> exists r st, it = ItemW r (StepNext :: st)) ->
  (i <> 1%nat -> item_ready it = false) ->
  held k (set_items (<[i := it]>) s).
Proof.
  intros H Hi H1 Hn. pose proof (proj1 H) as Hc.
  pose proof (c_item0 k s Hc) as I0. pose proof (c_item1 k s Hc) as I1.
  pose proof (c_unready k s Hc) as IU. pose proof (c_queue1 k s Hc) as Q1.
  apply held_items; [exact H|apply length_insert| | |].
  - rewrite list_lookup_insert_ne by exact Hi. exact I0.
  - destruct (decide (i = 1%nat)) as [->|Hne].
    + destruct I1 as (r0 & st0 & E0).
      rewrite list_lookup_insert_eq by (eapply lookup_lt_Some, E0).
      destruct (H1 eq_refl) as (r & st & ->). eauto.
    + rewrite list_lookup_insert_ne by exact Hne. exact I1.
  - intros j x Hb Hj Hx. destruct (decide (i = j)) as [->|Hne].
    + destruct (items s !! j) as [old|] eqn:E.
      * rewrite list_lookup_insert_eq in Hx by (eapply lookup_lt_Some, E).
        injection Hx as <-. exact (Hn Hj).
      * rewrite list_insert_ge in Hx by (apply lookup_ge_None; exact E).
        congruence.
    + rewrite list_lookup_insert_ne in Hx by exact Hne.
      exact (IU j x Hb Hj Hx).
Qed.

Lemma elem_of_drop1 (i : nat) (l : list nat) : i ∈ drop 1 l -> i ∈ l.
Proof.
  destruct l as [|x l]; cbn [drop]; [auto|].
  rewrite drop_0. apply list_elem_of_further.
Qed.

Lemma queue1_alter_ne f q s :
  q <> 1%nat -> queue1 (set_queues (alter f q) s) = queue1 s.
Proof.
  intros Hq. unfold queue1. cbn [queues set_queues].
  rewrite list_lookup_alter_ne by exact Hq. reflexivity.
Qed.

(** [queue.shift()] on a queue other than the one of [k]. *)
Lemma held_shift q s :
  held k s -> (2 <= q)%nat -> held k (set_queues (alter (drop 1) q) s).
Proof.
  intros [Hc Ha] Hq. split.
  - destruct Hc. constructor;
      cbn [items queues partialQueue barriers set_queues];
      rewrite ?length_alter; try assumption.
    + rewrite list_lookup_alter_ne by lia. assumption.
    + destruct c_queue2 as (f & rest & Hb & Hq1). exists f, rest.
      split; [exact Hb|]. rewrite list_lookup_alter_ne by lia. exact Hq1.
    + intros q' l i Hq' Hl Hi Hi0. rewrite queue1_alter_ne by lia.
      destruct (decide (q = q')) as [->|Hne].
      * rewrite list_lookup_alter_eq in Hl.
        destruct (queues s !! q') as [l0|] eqn:E; [|discriminate].
        injection Hl as <-.
        exact (c_others0 q' l0 i Hq' E (elem_of_drop1 _ _ Hi) Hi0).
      * rewrite list_lookup_alter_ne in Hl by exact Hne. eauto.
    + intros q' l i Hl Hi.
      destruct (decide (q = q')) as [->|Hne].
      * rewrite list_lookup_alter_eq in Hl.
        destruct (queues s !! q') as [l0|] eqn:E; [|discriminate].
        injection Hl as <-.
        exact (c_bound0 q' l0 i E (elem_of_drop1 _ _ Hi)).
      * rewrite list_lookup_alter_ne in Hl by exact Hne. eauto.
    + intros i it [Hi0 Hi] Hi1 Hit. rewrite queue1_alter_ne in Hi by lia.
      apply (c_unready0 i it); [split|..]; assumption.
  - apply (calls_grows s); [exact Ha| |reflexivity].
    split; [reflexivity|]. intros i _ _. rewrite queue1_alter_ne by lia.
    reflexivity.
Qed.

(** [this.#partialQueue.delete(key)] for another key. *)
Lemma held_delete k' s :
  held k s -> k' <> k -> held k (set_partial (map_delete k') s).
Proof.
  intros [Hc Ha] Hk. split; [|exact Ha].
  destruct Hc. constructor;
    cbn [items queues partialQueue barriers set_partial]; try assumption.
  - unfold map_delete. rewrite Forall_forall in *. intros e He.
    apply list_elem_of_filter in He as [_ He]. exact (c_map0 e He).
  - rewrite map_get_delete_ne by congruence. assumption.
Qed.

Lemma held_acqs f s :
  held k s -> calls_held k (set_acqs f s) -> held k (set_acqs f s).
Proof. intros [Hc _] Ha. split; [|exact Ha]. destruct Hc. constructor; assumption. Qed.

Lemma held_advance key q s :
  held k s -> (2 <= q)%nat -> key <> Some k -> held k (advance key q s).
Proof.
  intros H Hq Hk. unfold advance.
  pose proof (held_shift q s H Hq) as H1.
  destruct (queues (set_queues (alter (drop 1) q) s) !! q ≫= head)
    as [h|] eqn:Eh.
  - apply held_start; [exact H1|]. right. intros [Hh0 Hh].
    destruct (queues (set_queues (alter (drop 1) q) s) !! q) as [l|] eqn:El;
      [|discriminate].
    cbn [mbind option_bind] in Eh.
    assert (Hin : h ∈ l).
    { destruct l; [discriminate|]. injection Eh as ->.
      apply list_elem_of_here. }
    exact (c_others k _ (proj1 H1) q l h Hq El Hin Hh0 Hh).
  - destruct key as [k'|]; [|exact H1].
    apply held_delete; [exact H1|congruence].
Qed.

(** The barrier reaction of the first call. *)
Lemma held_barrier0 b s :
  held k s -> barriers s !! 0%nat = Some b -> b_fired b = false ->
  held k (advance (Some (b_key b)) (b_queue b)
            (set_barriers (<[0%nat := set_fired b]>) s)).
Proof.
  intros [Hc Ha] Hb Hf.
  destruct (c_queue1 k s Hc) as (f & rest & Hb0 & Hq1).
  rewrite Hb0 in Hb. injection Hb as <-. cbn [b_fired] in Hf. subst f.
  cbn [app] in Hq1.
  assert (Hlt : (0 < length (barriers s))%nat)
    by (eapply lookup_lt_Some, Hb0).
  set (s2 := set_queues (alter (drop 1) 1%nat)
               (set_barriers (<[0%nat := mkBarrier 0 1 k true]>) s)).
  assert (Hq2 : queue1 s2 = 1%nat :: rest).
  { unfold queue1, s2. cbn [queues set_queues set_barriers].
    rewrite list_lookup_alter_eq, Hq1. reflexivity. }
  assert (Hsub : forall i, i <> 0%nat -> (i ∈ queue1 s2 <-> i ∈ queue1 s)).
  { intros i Hi. rewrite Hq2. unfold queue1. rewrite Hq1. cbn.
    rewrite (elem_of_cons (1%nat :: rest) i 0%nat). tauto. }
  assert (H2 : held k s2).
  { split.
    - destruct Hc. constructor;
        cbn [items queues partialQueue barriers set_queues set_barriers s2];
        rewrite ?length_alter; try assumption.
      + rewrite list_lookup_alter_ne by lia. assumption.
      + exists true, rest. split.
        * apply list_lookup_insert_eq. exact Hlt.
        * rewrite list_lookup_alter_eq, Hq1. reflexivity.
      + intros q l i Hq Hl Hi Hi0.
        rewrite list_lookup_alter_ne in Hl by lia.
        fold s2. rewrite (Hsub i Hi0). eauto.
      + intros q l i Hl Hi.
        destruct (decide (q = 1%nat)) as [->|Hne].
        * rewrite list_lookup_alter_eq, Hq1 in Hl. injection Hl as <-.
          apply (c_bound0 1%nat _ i Hq1). apply list_elem_of_further.
          exact Hi.
        * rewrite list_lookup_alter_ne in Hl by congruence. eauto.
      + intros i it [Hi0 Hi] Hi1 Hit. fold s2 in Hi.
        rewrite (Hsub i Hi0) in Hi. apply (c_unready0 i it); [split|..];
          assumption.
      + intros n b Hn Hbn. rewrite list_lookup_insert_ne in Hbn by lia.
        eauto.
    - apply (calls_grows s); [exact Ha| |reflexivity].
      split; [reflexivity|]. intros i Hi _. exact (Hsub i Hi). }
  unfold advance. cbn [b_key b_queue set_fired].
  fold s2.
  replace (queues s2 !! 1%nat ≫= head) with (Some 1%nat).
  - apply held_start; [exact H2|left; reflexivity].
  - unfold s2. cbn [queues set_queues set_barriers].
    rewrite list_lookup_alter_eq, Hq1. reflexivity.
Qed.

Lemma queue1_elem s :
  core k s -> (1%nat ∈ queue1 s).
Proof.
  intros Hc. destruct (c_queue1 k s Hc) as (f & rest & _ & E).
  unfold queue1. rewrite E. cbn. apply elem_of_app. right.
  apply list_elem_of_here.
Qed.

Lemma core_two_items s : core k s -> (2 <= length (items s))%nat.
Proof.
  intros Hc. destruct (c_item1 k s Hc) as (r & st & E).
  apply lookup_lt_Some in E. lia.
Qed.

Lemma core_two_queues s : core k s -> (2 <= length (queues s))%nat.
Proof.
  intros Hc. destruct (c_queue1 k s Hc) as (f & rest & _ & E).
  apply lookup_lt_Some in E. lia.
Qed.

Lemma queue1_bound s i :
  core k s -> i ∈ queue1 s -> (i < length (items s))%nat.
Proof.
  intros Hc Hi. destruct (c_queue1 k s Hc) as (f & rest & _ & E).
  apply (c_bound k s Hc 1%nat _ i E). unfold queue1 in Hi.
  rewrite E in Hi. exact Hi.
Qed.

Lemma queue1_push q it s :
  queue1 (push_item q it s)
  = if decide (q = 1%nat)
    then match queues s !! 1%nat with
         | Some l => l ++ [length (items s)]
         | None => []
         end
    else queue1 s.
Proof.
  unfold queue1, push_item. cbn [queues set_queues set_items].
  destruct (decide (q = 1%nat)) as [->|Hne].
  - rewrite list_lookup_alter_eq. destruct (queues s !! 1%nat); reflexivity.
  - rewrite list_lookup_alter_ne by exact Hne. reflexivity.
Qed.

Lemma queue1_push_elem q it s i :
  core k s ->
  (i ∈ queue1 (push_item q it s)
   <-> i ∈ queue1 s \/ (q = 1%nat /\ i = length (items s))).
Proof.
  intros Hc. rewrite queue1_push.
  destruct (c_queue1 k s Hc) as (f & rest & _ & E).
  destruct (decide (q = 1%nat)) as [->|Hne].
  - unfold queue1. rewrite E. cbn [default]. rewrite elem_of_app.
    rewrite list_elem_of_singleton. tauto.
  - tauto.
Qed.

(** [queue.push(item)] with a fresh item: any item on another queue, one
    that is not ready on the queue of [k]. *)
Lemma held_push q it s :
  held k s -> (1 <= q)%nat -> (q = 1%nat -> item_ready it = false) ->
  held k (push_item q it s) /\ grows s (push_item q it s).
Proof.
  intros [Hc Ha] Hq Hit.
  assert (Hg : grows s (push_item q it s)).
  { split.
    - unfold push_item. cbn [items set_queues set_items].
      rewrite length_app. lia.
    - intros i Hi Hlt. rewrite (queue1_push_elem q it s i Hc). split.
      + intros [H|[_ H]]; [exact H|lia].
      + auto. }
  split; [|exact Hg]. split.
  - pose proof (c_queue1 k s Hc) as (f & rest & Hb & Hq1).
    constructor.
    + unfold push_item. cbn [queues set_queues set_items].
      rewrite list_lookup_alter_ne by (unfold globalQueue; lia).
      exact (c_global k s Hc).
    + unfold push_item. cbn [queues barriers set_queues set_items].
      destruct (decide (q = 1%nat)) as [->|Hne].
      * exists f, (rest ++ [length (items s)]). split; [exact Hb|].
        rewrite list_lookup_alter_eq, Hq1. cbn [fmap option_fmap option_map].
        rewrite <- app_assoc. reflexivity.
      * exists f, rest. split; [exact Hb|].
        rewrite list_lookup_alter_ne by exact Hne. exact Hq1.
    + intros q' l i Hq' Hl Hi Hi0.
      rewrite (queue1_push_elem q it s i Hc).
      unfold push_item in Hl. cbn [queues set_queues set_items] in Hl.
      destruct (decide (q = q')) as [->|Hne].
      * rewrite list_lookup_alter_eq in Hl.
        destruct (queues s !! q') as [l0|] eqn:E; [|discriminate].
        injection Hl as <-. intros [Hin|[Hq1' _]]; [|lia].
        apply elem_of_app in Hi as [Hi|Hi].
        -- exact (c_others k s Hc q' l0 i Hq' E Hi Hi0 Hin).
        -- apply list_elem_of_singleton in Hi. subst i.
           apply (queue1_bound s _ Hc) in Hin. lia.
      * rewrite list_lookup_alter_ne in Hl by exact Hne.
        intros [Hin|[_ ->]].
        -- exact (c_others k s Hc q' l i Hq' Hl Hi Hi0 Hin).
        -- pose proof (c_bound k s Hc q' l _ Hl Hi). lia.
    + intros q' l i Hl Hi.
      unfold push_item in *. cbn [items queues set_queues set_items] in *.
      rewrite length_app. cbn [length].
      destruct (decide (q = q')) as [->|Hne].
      * rewrite list_lookup_alter_eq in Hl.
        destruct (queues s !! q') as [l0|] eqn:E; [|discriminate].
        injection Hl as <-.
        apply elem_of_app in Hi as [Hi|Hi].
        -- pose proof (c_bound k s Hc q' l0 i E Hi). lia.
        -- apply list_elem_of_singleton in Hi. lia.
      * rewrite list_lookup_alter_ne in Hl by exact Hne.
        pose proof (c_bound k s Hc q' l i Hl Hi). lia.
    + unfold push_item. cbn [items set_queues set_items].
      rewrite lookup_app_l by (pose proof (core_two_items s Hc); lia).
      exact (c_item0 k s Hc).
    + unfold push_item. cbn [items set_queues set_items].
      rewrite lookup_app_l by (pose proof (core_two_items s Hc); lia).
      exact (c_item1 k s Hc).
    + intros i x [Hi0 Hi] Hi1 Hx.
      apply (queue1_push_elem q it s i Hc) in Hi.
      unfold push_item in Hx. cbn [items set_queues set_items] in Hx.
      destruct Hi as [Hi|[-> ->]].
      * rewrite lookup_app_l in Hx by (apply (queue1_bound s i Hc Hi)).
        apply (c_unready k s Hc i x); [split|..]; assumption.
      * rewrite lookup_app_r in Hx by lia.
        rewrite Nat.sub_diag in Hx. injection Hx as <-. auto.
    + unfold push_item.
      cbn [items queues partialQueue set_queues set_items].
      rewrite length_alter. exact (c_map k s Hc).
    + exact (c_mapped k s Hc).
    + exact (c_barriers k s Hc).
  - apply (calls_grows s); [exact Ha|exact Hg|reflexivity].
Qed.

(** A key that is not in the map gets a queue, a barrier reaction and a
    map entry. *)
Lemma held_new_queue k' s :
  held k s -> k' <> k ->
  held k (set_partial (fun m => m ++ [(k', length (queues s))])
            (set_barriers
               (fun l => l ++ [mkBarrier 0 (length (queues s)) k' false])
               (set_queues (fun l => l ++ [[0%nat]]) s))).
Proof.
  intros [Hc Ha] Hk.
  pose proof (core_two_queues s Hc) as L2.
  pose proof (core_two_items s Hc) as I2.
  pose proof (c_queue1 k s Hc) as (f & rest & Hb & Hq1).
  match goal with
  | |- held k ?t => assert (Hq : queue1 t = queue1 s)
  end.
  { unfold queue1. cbn [queues set_partial set_barriers set_queues].
    rewrite lookup_app_l by lia. reflexivity. }
  split.
  - constructor;
      cbn [items queues partialQueue barriers set_partial set_barriers
           set_queues].
    + rewrite lookup_app_l by lia. exact (c_global k s Hc).
    + exists f, rest. split.
      * rewrite lookup_app_l by (eapply lookup_lt_Some, Hb). exact Hb.
      * rewrite lookup_app_l by lia. exact Hq1.
    + intros q l i Hq2 Hl Hi Hi0. rewrite Hq.
      destruct (decide (q < length (queues s))%nat) as [Hlt|Hge].
      * rewrite lookup_app_l in Hl by exact Hlt.
        exact (c_others k s Hc q l i Hq2 Hl Hi Hi0).
      * rewrite lookup_app_r in Hl by lia.
        destruct (q - length (queues s))%nat; [|discriminate].
        injection Hl as <-. apply list_elem_of_singleton in Hi. lia.
    + intros q l i Hl Hi.
      destruct (decide (q < length (queues s))%nat) as [Hlt|Hge].
      * rewrite lookup_app_l in Hl by exact Hlt.
        exact (c_bound k s Hc q l i Hl Hi).
      * rewrite lookup_app_r in Hl by lia.
        destruct (q - length (queues s))%nat; [|discriminate].
        injection Hl as <-. apply list_elem_of_singleton in Hi. lia.
    + exact (c_item0 k s Hc).
    + exact (c_item1 k s Hc).
    + intros i x [Hi0 Hi] Hi1 Hx. rewrite Hq in Hi.
      apply (c_unready k s Hc i x); [split|..]; assumption.
    + apply Forall_app. split.
      * eapply Forall_impl; [exact (c_map k s Hc)|].
        intros e [He1 He2]. split; [exact He1|]. rewrite length_app.
        cbn [length]. lia.
      * apply Forall_singleton. cbn [fst snd]. rewrite length_app.
        cbn [length]. split; [|lia]. split; [congruence|lia].
    + apply map_get_app_l. exact (c_mapped k s Hc).
    + intros n b Hn Hbn.
      destruct (decide (n < length (barriers s))%nat) as [Hlt|Hge].
      * rewrite lookup_app_l in Hbn by exact Hlt.
        exact (c_barriers k s Hc n b Hn Hbn).
      * rewrite lookup_app_r in Hbn by lia.
        destruct (n - length (barriers s))%nat; [|discriminate].
        injection Hbn as <-. cbn [b_queue b_key]. split; [lia|exact Hk].
  - apply (calls_grows s); [exact Ha| |reflexivity].
    split; [reflexivity|]. intros i _ _. rewrite Hq. reflexivity.
Qed.

Lemma map_get_elem (k' : string) m q :
  map_get k' m = Some q -> exists e, e ∈ m /\ e.1 = k' /\ e.2 = q.
Proof.
  unfold map_get. intros H.
  destruct (list_find (fun e : string * nat => e.1 = k') m) as [[i e]|] eqn:E;
    [|discriminate].
  injection H as <-. apply list_find_Some in E as (Hi & He & _).
  exists e. split; [eapply list_elem_of_lookup_2, Hi|]. split; [exact He|].
  reflexivity.
Qed.

(** [#getQueueEntries] while [k] is mapped. *)
Lemma held_entries key s :
  held k s ->
  held k (getQueueEntries key s).1
  /\ Forall (entry_ok k (getQueueEntries key s).1) (getQueueEntries key s).2
  /\ acqs (getQueueEntries key s).1 = acqs s.
Proof.
  intros H. pose proof (proj1 H) as Hc.
  pose proof (core_two_queues s Hc) as L2.
  destruct key as [k'|]; unfold getQueueEntries.
  - destruct (map_get k' (partialQueue s)) as [q|] eqn:E.
    + cbn [fst snd]. split; [exact H|]. split; [|reflexivity].
      apply Forall_singleton.
      apply map_get_elem in E as (e & He & He1 & He2).
      pose proof (c_map k s Hc) as Hm. rewrite Forall_forall in Hm.
      destruct (Hm e He) as [Hk Hb]. subst k' q.
      split; [|exact Hb]. exists e.1. split; [reflexivity|exact Hk].
    + assert (Hk : k' <> k).
      { intros ->. rewrite (c_mapped k s Hc) in E. discriminate. }
      unfold globalQueue. rewrite (c_global k s Hc).
      cbn [default from_option id last].
      rewrite (c_item0 k s Hc). cbn [fst snd].
      split; [apply held_new_queue; assumption|]. split; [|reflexivity].
      apply Forall_singleton. split.
      * exists k'. cbn [fst snd]. split; [reflexivity|]. split; [tauto|lia].
      * cbn [fst snd queues set_partial set_barriers set_queues].
        rewrite length_app. cbn [length]. lia.
  - destruct (partialQueue s) as [|e m] eqn:E.
    + pose proof (c_mapped k s Hc) as Hm. rewrite E in Hm. discriminate.
    + cbn [fst snd]. split; [exact H|]. split; [|reflexivity].
      apply Forall_fmap. pose proof (c_map k s Hc) as Hm. rewrite E in Hm.
      eapply Forall_impl; [exact Hm|]. intros [k0 q0] [Hk Hb].
      split; [|exact Hb]. exists k0. split; [reflexivity|exact Hk].
Qed.

Lemma slot_held_grows s s1 sl :
  slot_held k s sl -> grows s s1 -> slot_held k s1 sl.
Proof.
  intros [(A & B & C & D) Hb] [HL HQ]. split.
  - split; [lia|]. split; [exact B|]. split; [exact C|].
    intros Hq. destruct (D Hq) as [D0|D1]; [left; exact D0|].
    destruct (decide (s_item sl = 0%nat)) as [E|E]; [left; exact E|].
    right. rewrite (HQ _ E A). exact D1.
  - intros Hq. destruct (Hb Hq) as [Hl|[Hne [H0 Hin]]]; [left; exact Hl|].
    right. split; [exact Hne|]. split; [exact H0|].
    rewrite (HQ _ H0 A). exact Hin.
Qed.

Lemma entry_ok_queues s s1 e :
  entry_ok k s e -> length (queues s1) = length (queues s) ->
  entry_ok k s1 e.
Proof. intros [He Hb] Hl. split; [exact He|]. rewrite Hl. exact Hb. Qed.

Lemma push_then_set q it it' s :
  set_items (<[length (items s) := it']>) (push_item q it s)
  = push_item q it' s.
Proof.
  unfold push_item, set_items, set_queues. cbn [items queues partialQueue
    barriers acqs]. f_equal.
  rewrite insert_app_r_alt by lia. rewrite Nat.sub_diag. reflexivity.
Qed.

Lemma lookup_push_fresh q it s :
  items (push_item q it s) !! length (items s) = Some it.
Proof.
  unfold push_item. cbn [items set_queues set_items].
  rewrite lookup_app_r by lia. rewrite Nat.sub_diag. reflexivity.
Qed.

Lemma grows_set_items f s :
  length (f (items s)) = length (items s) -> grows s (set_items f s).
Proof.
  intros Hl. split; [cbn [items set_items]; lia|]. intros i _ _.
  reflexivity.
Qed.

(** The loop pushes a fresh item and takes its slot on it. *)
Lemma held_take_fresh key q it st s :
  held k s -> entry_ok k s (key, q) ->
  (q = 1%nat -> item_ready it = false) ->
  held k (push_item q it s)
  /\ grows s (push_item q it s)
  /\ slot_held k (push_item q it s) (mkSlot key q (length (items s)) st).
Proof.
  intros H [(k' & Hk & Hiff) Hb] Hit. cbn [fst snd] in *. subst key.
  pose proof (proj1 H) as Hc.
  pose proof (core_two_items s Hc) as I2.
  destruct (held_push q it s H) as [H1 Hg]; [lia|exact Hit|].
  split; [exact H1|]. split; [exact Hg|]. split.
  - split; [|split; [|split]]; cbn [s_item s_queue s_key].
    + unfold push_item. cbn [items set_queues set_items].
      rewrite length_app. cbn [length]. lia.
    + lia.
    + split; [intros [= ->]; tauto|intros E; f_equal; tauto].
    + intros Hq. right. rewrite (queue1_push_elem q it s _ Hc).
      intros [Hin|[Hq1 _]]; [|contradiction].
      apply (queue1_bound s _ Hc) in Hin. lia.
  - cbn [s_queue]. intros ->. right. cbn [s_item]. split; [lia|].
    split; [lia|]. rewrite (queue1_push_elem 1%nat it s _ Hc). auto.
Qed.

(** The loop takes its slot on the last item of the queue. *)
Lemma held_take_last key q l it st s :
  held k s -> entry_ok k s (key, q) ->
  last (default [] (queues s !! q)) = Some l -> l <> 0%nat ->
  (q = 1%nat -> l = 1%nat ->
     (exists r stp, it = ItemW r (StepNext :: stp)) /\ st = false) ->
  (q = 1%nat -> l <> 1%nat -> item_ready it = false) ->
  held k (set_items (<[l := it]>) s)
  /\ grows s (set_items (<[l := it]>) s)
  /\ slot_held k (set_items (<[l := it]>) s) (mkSlot key q l st).
Proof.
  intros H [(k' & Hk & Hiff) Hb] Hl Hl0 H1 Hn. cbn [fst snd] in *.
  subst key. pose proof (proj1 H) as Hc.
  assert (Hg : grows s (set_items (<[l := it]>) s))
    by (apply grows_set_items, length_insert).
  destruct (queues s !! q) as [ql|] eqn:Eq;
    [|apply lookup_ge_None in Eq; lia].
  cbn [default from_option id] in Hl.
  assert (Hin : l ∈ ql).
  { rewrite last_lookup in Hl. eapply list_elem_of_lookup_2, Hl. }
  pose proof (c_bound k s Hc q ql l Eq Hin) as Hlt.
  destruct (decide (q = 1%nat)) as [->|Hq].
  - assert (Hin1 : l ∈ queue1 s) by (unfold queue1; rewrite Eq; exact Hin).
    split; [|split; [exact Hg|]].
    + apply held_insert_blocked; [exact H|exact Hl0| |].
      * intros E. exact (proj1 (H1 eq_refl E)).
      * intros E. exact (Hn eq_refl E).
    + split.
      * split; [|split; [|split]]; cbn [s_item s_queue s_key].
        -- cbn [items set_items]. rewrite length_insert. exact Hlt.
        -- lia.
        -- split; [reflexivity|]. intros _. f_equal. tauto.
        -- congruence.
      * cbn [s_item s_queue s_key s_step]. intros _.
        destruct (decide (l = 1%nat)) as [E|E].
        -- left. split; [exact E|]. exact (proj2 (H1 eq_refl E)).
        -- right. split; [exact E|]. split; [exact Hl0|exact Hin1].
  - assert (Hf : l ∉ queue1 s).
    { apply (c_others k s Hc q ql l); [lia|exact Eq|exact Hin|exact Hl0]. }
    split; [|split; [exact Hg|]].
    + apply held_insert_free; [exact H|exact Hl0|]. intros [_ Hb1].
      contradiction.
    + split.
      * split; [|split; [|split]]; cbn [s_item s_queue s_key].
        -- cbn [items set_items]. rewrite length_insert. exact Hlt.
        -- lia.
        -- split; [intros [= ->]; tauto|intros E; contradiction].
        -- intros _. right. exact Hf.
      * cbn [s_queue]. intros E. contradiction.
Qed.

Lemma queues_length_arrive_w a e s :
  length (queues (arrive_w a e s).1) = length (queues s).
Proof.
  unfold arrive_w, push_item. repeat case_match; simplify_eq;
    cbn [fst queues set_items set_queues]; rewrite ?length_alter;
    reflexivity.
Qed.

Lemma queues_length_arrive_r a e s :
  length (queues (arrive_r a e s).1) = length (queues s).
Proof.
  unfold arrive_r, push_item. repeat case_match; simplify_eq;
    cbn [fst queues set_items set_queues]; rewrite ?length_alter;
    reflexivity.
Qed.

Lemma core_last_unready l it s :
  core k s -> last (default [] (queues s !! 1%nat)) = Some l ->
  l <> 0%nat -> l <> 1%nat -> items s !! l = Some it ->
  item_ready it = false.
Proof.
  intros Hc Hl H0 H1 Hit. apply (c_unready k s Hc l it); [|exact H1|exact Hit].
  split; [exact H0|]. unfold queue1. rewrite last_lookup in Hl.
  eapply list_elem_of_lookup_2, Hl.
Qed.

Lemma core_last_some q s :
  core k s -> (q = 1%nat) -> last (default [] (queues s !! q)) <> None.
Proof.
  intros Hc -> E. destruct (c_queue1 k s Hc) as (f & rest & _ & Hq).
  rewrite Hq in E. cbn [default from_option id] in E.
  apply last_None in E. destruct f; discriminate.
Qed.

(** One turn of the loop of [lock]. *)
Lemma held_arrive_w a e s :
  held k s -> entry_ok k s e ->
  held k (arrive_w a e s).1
  /\ grows s (arrive_w a e s).1
  /\ slot_held k (arrive_w a e s).1 (arrive_w a e s).2.
Proof.
  intros H He. destruct e as [key q]. pose proof (proj1 H) as Hc.
  pose proof (c_item0 k s Hc) as I0.
  destruct (c_item1 k s Hc) as (r1 & st1 & I1).
  assert (Hfresh : forall it0 r,
    (q = 1%nat -> r = false) ->
    items (push_item q it0 s) !! length (items s) = Some (ItemW r []) ->
    held k (set_items (<[length (items s) := ItemW r [StepNext]]>)
              (push_item q it0 s))
    /\ grows s (set_items (<[length (items s) := ItemW r [StepNext]]>)
                  (push_item q it0 s))
    /\ slot_held k (set_items (<[length (items s) := ItemW r [StepNext]]>)
                      (push_item q it0 s))
         (mkSlot key q (length (items s)) true)).
  { intros it0 r Hr _. rewrite push_then_set.
    apply held_take_fresh; [exact H|exact He|exact Hr]. }
  unfold arrive_w.
  destruct (last (default [] (queues s !! q))) as [l|] eqn:El.
  - destruct (items s !! l) as [[r steps|r n|r]|] eqn:Eit.
    + assert (Hl0 : l <> 0%nat) by (intros ->; congruence).
      rewrite Eit. destruct steps as [|s0 steps]; cbn [fst snd].
      * apply held_take_last; [exact H|exact He|exact El|exact Hl0| |].
        -- intros _ ->. congruence.
        -- intros -> Hl1.
           exact (core_last_unready l _ s Hc El Hl0 Hl1 Eit).
      * apply held_take_last; [exact H|exact He|exact El|exact Hl0| |].
        -- intros _ ->. rewrite I1 in Eit. injection Eit as <- <- <-.
           split; [|reflexivity]. eexists _, _. reflexivity.
        -- intros -> Hl1.
           exact (core_last_unready l _ s Hc El Hl0 Hl1 Eit).
    + rewrite lookup_push_fresh. cbn [fst snd].
      apply (Hfresh (ItemW false []) false); [reflexivity|].
      apply lookup_push_fresh.
    + rewrite lookup_push_fresh. cbn [fst snd].
      apply (Hfresh (ItemW false []) false); [reflexivity|].
      apply lookup_push_fresh.
    + rewrite lookup_push_fresh. cbn [fst snd].
      apply (Hfresh (ItemW false []) false); [reflexivity|].
      apply lookup_push_fresh.
  - rewrite lookup_push_fresh. cbn [fst snd].
    apply (Hfresh (ItemW true []) true); [|apply lookup_push_fresh].
    intros Hq. destruct (core_last_some q s Hc Hq El).
Qed.

(** One turn of the loop of [rLock]. *)
Lemma held_arrive_r a e s :
  held k s -> entry_ok k s e ->
  held k (arrive_r a e s).1
  /\ grows s (arrive_r a e s).1
  /\ slot_held k (arrive_r a e s).1 (arrive_r a e s).2.
Proof.
  intros H He. destruct e as [key q]. pose proof (proj1 H) as Hc.
  pose proof (c_item0 k s Hc) as I0.
  destruct (c_item1 k s Hc) as (r1 & st1 & I1).
  assert (Hfresh : forall it0 r,
    (q = 1%nat -> r = false) ->
    items (push_item q it0 s) !! length (items s) = Some (ItemR r 0) ->
    held k (set_items (<[length (items s) := ItemR r (0 + 1)]>)
              (push_item q it0 s))
    /\ grows s (set_items (<[length (items s) := ItemR r (0 + 1)]>)
                  (push_item q it0 s))
    /\ slot_held k (set_items (<[length (items s) := ItemR r (0 + 1)]>)
                      (push_item q it0 s))
         (mkSlot key q (length (items s)) true)).
  { intros it0 r Hr _. rewrite push_then_set.
    apply held_take_fresh; [exact H|exact He|exact Hr]. }
  unfold arrive_r.
  destruct (last (default [] (queues s !! q))) as [l|] eqn:El.
  - destruct (items s !! l) as [[r steps|r n|r]|] eqn:Eit.
    + rewrite lookup_push_fresh. cbn [fst snd].
      apply (Hfresh (ItemR false 0) false); [reflexivity|].
      apply lookup_push_fresh.
    + assert (Hl0 : l <> 0%nat) by (intros ->; congruence).
      rewrite Eit. cbn [fst snd].
      apply held_take_last; [exact H|exact He|exact El|exact Hl0| |].
      * intros _ ->. congruence.
      * intros -> Hl1.
        exact (core_last_unready l _ s Hc El Hl0 Hl1 Eit).
    + rewrite lookup_push_fresh. cbn [fst snd].
      apply (Hfresh (ItemR false 0) false); [reflexivity|].
      apply lookup_push_fresh.
    + rewrite lookup_push_fresh. cbn [fst snd].
      apply (Hfresh (ItemR false 0) false); [reflexivity|].
      apply lookup_push_fresh.
  - rewrite lookup_push_fresh. cbn [fst snd].
    apply (Hfresh (ItemR true 0) true); [|apply lookup_push_fresh].
    intros Hq. destruct (core_last_some q s Hc Hq El).
Qed.

Lemma held_arrive_all kd a es : forall s,
  held k s -> Forall (entry_ok k s) es ->
  held k (arrive_all kd a es s).1
  /\ grows s (arrive_all kd a es s).1
  /\ Forall (slot_held k (arrive_all kd a es s).1) (arrive_all kd a es s).2.
Proof.
  induction es as [|e es IH]; intros s H Hes; cbn [arrive_all fst snd].
  - split; [exact H|]. split; [apply grows_refl|constructor].
  - apply Forall_cons in Hes as [He Hes].
    assert (H1 : held k (match kd with
                         | TW => arrive_w a e s
                         | _ => arrive_r a e s
                         end).1
                 /\ grows s (match kd with
                             | TW => arrive_w a e s
                             | _ => arrive_r a e s
                             end).1
                 /\ slot_held k (match kd with
                                 | TW => arrive_w a e s
                                 | _ => arrive_r a e s
                                 end).1
                      (match kd with
                       | TW => arrive_w a e s
                       | _ => arrive_r a e s
                       end).2
                 /\ length (queues (match kd with
                                    | TW => arrive_w a e s
                                    | _ => arrive_r a e s
                                    end).1) = length (queues s)).
    { destruct kd.
      - pose proof (held_arrive_w a e s H He) as (A & B & C).
        pose proof (queues_length_arrive_w a e s). auto.
      - pose proof (held_arrive_r a e s H He) as (A & B & C).
        pose proof (queues_length_arrive_r a e s). auto.
      - pose proof (held_arrive_r a e s H He) as (A & B & C).
        pose proof (queues_length_arrive_r a e s). auto. }
    destruct (match kd with
              | TW => arrive_w a e s
              | _ => arrive_r a e s
              end) as [s1 sl].
    cbn [fst snd] in H1. destruct H1 as (A & B & C & D).
    assert (Hes1 : Forall (entry_ok k s1) es).
    { eapply Forall_impl; [exact Hes|]. intros e0 He0.
      exact (entry_ok_queues s s1 e0 He0 D). }
    specialize (IH s1 A Hes1).
    destruct (arrive_all kd a es s1) as [s2 sls]. cbn [fst snd] in *.
    destruct IH as (A2 & B2 & C2).
    split; [exact A2|]. split; [exact (grows_trans _ _ _ B B2)|].
    constructor; [|exact C2]. exact (slot_held_grows s1 s2 sl C B2).
Qed.

(** A call of [lock] or [rLock] after the first one. *)
Lemma held_acquire kd key sig s :
  held k s -> (1 <= length (acqs s))%nat ->
  held k (acquire kd key sig s).1.
Proof.
  intros H Hlen. unfold acquire.
  assert (Hmain :
    held k (let '(s1, entries) := getQueueEntries key s in
            let '(s2, slots) := arrive_all kd (length (acqs s)) entries s1 in
            (set_acqs (fun l => l ++
               [mkAcquirer kd slots Pending Lock.create (reason <$> sig)
                  false]) s2,
             @inl nat error (length (acqs s)))).1).
  { destruct (held_entries key s H) as (H1 & He & Ha1).
    destruct (getQueueEntries key s) as [s1 es]. cbn [fst snd] in *.
    destruct (held_arrive_all kd (length (acqs s)) es s1 H1 He)
      as (H2 & _ & Hsl).
    pose proof (acqs_arrive_all kd (length (acqs s)) es s1) as Ha2.
    destruct (arrive_all kd (length (acqs s)) es s1) as [s2 sls].
    cbn [fst snd] in *.
    apply held_acqs; [exact H2|].
    destruct H2 as [_ (C1 & C2 & C3)].
    assert (Hlen2 : length (acqs s2) = length (acqs s)) by congruence.
    rewrite Forall_forall in Hsl.
    split; [|split]; cbn [acqs set_acqs].
    - intros n x sl Hx Hin.
      apply lookup_app_Some in Hx as [Hx|[Hge Hx]].
      + exact (C1 n x sl Hx Hin).
      + destruct (n - length (acqs s2))%nat; [|discriminate].
        injection Hx as <-. cbn [a_slots] in Hin.
        exact (proj1 (Hsl sl Hin)).
    - intros n x sl Hn Hx Hin Hq.
      apply lookup_app_Some in Hx as [Hx|[Hge Hx]].
      + exact (C2 n x sl Hn Hx Hin Hq).
      + destruct (n - length (acqs s2))%nat; [|discriminate].
        injection Hx as <-. cbn [a_slots a_result] in *.
        split; [exact (proj2 (Hsl sl Hin) Hq)|discriminate].
    - intros x sl Hx Hin. rewrite lookup_app_l in Hx by lia.
      exact (C3 x sl Hx Hin). }
  destruct sig as [[[] r]|]; [exact H|exact Hmain|exact Hmain].
Qed.

Lemma acquire_length kd key sig s :
  (length (acqs s) <= length (acqs (acquire kd key sig s).1))%nat.
Proof.
  unfold acquire.
  pose proof (acqs_getQueueEntries key s) as Ha1.
  destruct (getQueueEntries key s) as [s1 es].
  pose proof (acqs_arrive_all kd (length (acqs s)) es s1) as Ha2.
  destruct (arrive_all kd (length (acqs s)) es s1) as [s2 sls].
  cbn [fst snd] in *.
  destruct sig as [[[] r]|]; cbn [fst acqs set_acqs];
    rewrite ?length_app, ?Ha2, ?Ha1; lia.
Qed.

Lemma blocked_not_ready s sl :
  held k s -> slot_blocked s sl -> slot_ready s sl = false.
Proof.
  intros [Hc _] Hb. unfold slot_ready.
  destruct (items s !! s_item sl) as [it|] eqn:E; [|reflexivity].
  destruct Hb as [[_ ->]|[Hne Hb]]; [apply andb_false_r|].
  rewrite (c_unready k s Hc _ it Hb Hne E). reflexivity.
Qed.

(** A later call whose ready promises are all settled has no slot on the
    queue of [k]. *)
Lemma ready_free n x s :
  held k s -> (1 <= n)%nat -> acqs s !! n = Some x ->
  acq_ready s x = true ->
  Forall (fun sl => s_queue sl <> 1%nat) (a_slots x).
Proof.
  intros H Hn Hx Hr. apply Forall_forall. intros sl Hin Hq.
  destruct H as [Hc (C1 & C2 & C3)].
  destruct (C2 n x sl Hn Hx Hin Hq) as [Hb _].
  pose proof (blocked_not_ready s sl (conj Hc (conj C1 (conj C2 C3))) Hb)
    as Hnr.
  unfold acq_ready in Hr. rewrite forallb_forall in Hr.
  rewrite (Hr sl) in Hnr; [discriminate|]. apply list_elem_of_In. exact Hin.
Qed.

(** A call's record is updated: same slots, and fulfilled only if it has
    no slot on the queue of [k] or is the first call. *)
Lemma held_update n x x' s :
  held k s -> acqs s !! n = Some x -> a_slots x' = a_slots x ->
  (a_result x' = Fulfilled ->
     n = 0%nat \/ a_result x = Fulfilled
     \/ Forall (fun sl => s_queue sl <> 1%nat) (a_slots x)) ->
  held k (set_acqs (<[n := x']>) s).
Proof.
  intros H Hx Hs Hr. apply held_acqs; [exact H|].
  destruct H as [_ (C1 & C2 & C3)].
  assert (Hlt : (n < length (acqs s))%nat) by (eapply lookup_lt_Some, Hx).
  split; [|split]; cbn [acqs set_acqs].
  - intros m y sl Hy Hin. destruct (decide (n = m)) as [->|Hne].
    + rewrite list_lookup_insert_eq in Hy by exact Hlt. injection Hy as <-.
      rewrite Hs in Hin. exact (C1 m x sl Hx Hin).
    + rewrite list_lookup_insert_ne in Hy by exact Hne.
      exact (C1 m y sl Hy Hin).
  - intros m y sl Hm Hy Hin Hq. destruct (decide (n = m)) as [->|Hne].
    + rewrite list_lookup_insert_eq in Hy by exact Hlt. injection Hy as <-.
      rewrite Hs in Hin. destruct (C2 m x sl Hm Hx Hin Hq) as [Hb Hf].
      split; [exact Hb|]. intros Hful.
      destruct (Hr Hful) as [E|[E|E]]; [lia|contradiction|].
      rewrite Forall_forall in E. exact (E sl Hin Hq).
    + rewrite list_lookup_insert_ne in Hy by exact Hne.
      exact (C2 m y sl Hm Hy Hin Hq).
  - intros y sl Hy Hin. destruct (decide (n = 0%nat)) as [->|Hne].
    + rewrite list_lookup_insert_eq in Hy by exact Hlt. injection Hy as <-.
      rewrite Hs in Hin. exact (C3 x sl Hx Hin).
    + rewrite list_lookup_insert_ne in Hy by exact Hne.
      exact (C3 y sl Hy Hin).
Qed.

(** A step resolver of an item that does not wait in the queue of [k]. *)
Lemma held_resolve i a s :
  held k s -> i <> 1%nat -> ~ blocked s i ->
  held k (set_acqs (alter (resolve_step i) a) s).
Proof.
  intros H Hi Hf. apply held_acqs; [exact H|].
  destruct H as [_ (C1 & C2 & C3)].
  assert (Hslots : forall y sl, sl ∈ a_slots (resolve_step i y) ->
    exists sl0, sl0 ∈ a_slots y /\ s_key sl = s_key sl0
      /\ s_queue sl = s_queue sl0 /\ s_item sl = s_item sl0
      /\ (s_item sl0 <> i -> sl = sl0)).
  { intros y sl Hin. cbn [a_slots resolve_step] in Hin.
    apply list_elem_of_fmap in Hin as (sl0 & -> & Hin0).
    exists sl0. split; [exact Hin0|].
    destruct (decide (s_item sl0 = i)); cbn [s_key s_queue s_item];
      repeat split; try reflexivity. intros; contradiction. }
  assert (Hlook : forall m y, alter (resolve_step i) a (acqs s) !! m = Some y ->
    exists y0, acqs s !! m = Some y0 /\ a_result y = a_result y0
      /\ (forall sl, sl ∈ a_slots y ->
          exists sl0, sl0 ∈ a_slots y0 /\ s_key sl = s_key sl0
            /\ s_queue sl = s_queue sl0 /\ s_item sl = s_item sl0
            /\ (s_item sl0 <> i -> sl = sl0))).
  { intros m y Hy. destruct (decide (a = m)) as [->|Hne].
    - rewrite list_lookup_alter_eq in Hy.
      destruct (acqs s !! m) as [y0|]; [|discriminate].
      injection Hy as <-. exists y0. split; [reflexivity|].
      split; [reflexivity|]. intros sl. apply Hslots.
    - rewrite list_lookup_alter_ne in Hy by exact Hne. exists y.
      split; [exact Hy|]. split; [reflexivity|]. intros sl Hin.
      exists sl. repeat split; auto. }
  split; [|split]; cbn [acqs set_acqs].
  - intros m y sl Hy Hin.
    destruct (Hlook m y Hy) as (y0 & Hy0 & _ & Hs).
    destruct (Hs sl Hin) as (sl0 & Hin0 & Ek & Eq & Ei & _).
    destruct (C1 m y0 sl0 Hy0 Hin0) as (A & B & C & D).
    unfold slot_inv. rewrite Ek, Eq, Ei. auto.
  - intros m y sl Hm Hy Hin Hq.
    destruct (Hlook m y Hy) as (y0 & Hy0 & Er & Hs).
    destruct (Hs sl Hin) as (sl0 & Hin0 & Ek & Eq & Ei & Esame).
    rewrite Eq in Hq.
    destruct (C2 m y0 sl0 Hm Hy0 Hin0 Hq) as [Hb Hful].
    rewrite Er. split; [|exact Hful].
    assert (Hne : s_item sl0 <> i).
    { intros E. destruct Hb as [[E1 _]|[_ Hb]]; [congruence|].
      rewrite E in Hb. contradiction. }
    rewrite (Esame Hne). exact Hb.
  - intros y sl Hy Hin.
    destruct (Hlook 0%nat y Hy) as (y0 & Hy0 & _ & Hs).
    destruct (Hs sl Hin) as (sl0 & Hin0 & _ & _ & Ei & _).
    rewrite Ei. exact (C3 y0 sl0 Hy0 Hin0).
Qed.

Lemma view_advance key q s :
  q <> 1%nat ->
  length (items (advance key q s)) = length (items s)
  /\ queue1 (advance key q s) = queue1 s.
Proof.
  intros Hq. unfold advance, queue1.
  repeat case_match; cbn [items queues set_items set_queues set_partial];
    rewrite ?length_alter, ?list_lookup_alter_ne by exact Hq; auto.
Qed.

Lemma slot_inv_view s s1 sl :
  length (items s1) = length (items s) -> queue1 s1 = queue1 s ->
  slot_inv k s sl -> slot_inv k s1 sl.
Proof. intros Hl Hq. unfold slot_inv. rewrite Hl, Hq. auto. Qed.

Lemma free_slot s sl :
  core k s -> slot_inv k s sl -> s_queue sl <> 1%nat ->
  (2 <= s_queue sl)%nat /\ s_key sl <> Some k
  /\ (s_item sl <> 0%nat -> s_item sl <> 1%nat /\ ~ blocked s (s_item sl)).
Proof.
  intros Hc (A & B & C & D) Hq. split; [lia|]. split; [tauto|].
  intros H0. destruct (D Hq) as [E|E]; [contradiction|]. split.
  - intros E1. rewrite E1 in E. exact (E (queue1_elem s Hc)).
  - intros [_ Hb]. contradiction.
Qed.

(** [next] of a slot on another queue than the one of [k]. *)
Lemma held_next_w sl s :
  held k s -> slot_inv k s sl -> s_queue sl <> 1%nat ->
  held k (next_w sl s)
  /\ length (items (next_w sl s)) = length (items s)
  /\ queue1 (next_w sl s) = queue1 s.
Proof.
  intros H Hsl Hq. pose proof (proj1 H) as Hc.
  destruct (free_slot s sl Hc Hsl Hq) as (Hq2 & Hk & Hfree).
  unfold next_w.
  destruct (items s !! s_item sl) as [[r steps|r n|r]|] eqn:Eit; auto.
  assert (H0 : s_item sl <> 0%nat).
  { intros E. rewrite E, (c_item0 k s Hc) in Eit. discriminate. }
  destruct (Hfree H0) as [H1 Hnb].
  pose proof (held_insert_free (s_item sl) (ItemW r (pop_step steps).1) s
                H H0 Hnb) as Hs1.
  destruct (pop_step steps) as [rest [a|]]; cbn [fst] in Hs1.
  - split; [|split].
    + apply held_resolve; [exact Hs1|exact H1|exact Hnb].
    + cbn [items set_acqs set_items]. apply length_insert.
    + reflexivity.
  - split; [apply held_advance; [exact Hs1|exact Hq2|exact Hk]|].
    destruct (view_advance (s_key sl) (s_queue sl)
                (set_items (<[s_item sl := ItemW r rest]>) s) Hq)
      as [A B].
    rewrite A, B. cbn [items set_items]. rewrite length_insert. auto.
Qed.

Lemma held_next_r sl s :
  held k s -> slot_inv k s sl -> s_queue sl <> 1%nat ->
  held k (next_r sl s)
  /\ length (items (next_r sl s)) = length (items s)
  /\ queue1 (next_r sl s) = queue1 s.
Proof.
  intros H Hsl Hq. pose proof (proj1 H) as Hc.
  destruct (free_slot s sl Hc Hsl Hq) as (Hq2 & Hk & Hfree).
  unfold next_r.
  destruct (items s !! s_item sl) as [[r steps|r n|r]|] eqn:Eit; auto.
  assert (H0 : s_item sl <> 0%nat).
  { intros E. rewrite E, (c_item0 k s Hc) in Eit. discriminate. }
  destruct (Hfree H0) as [H1 Hnb].
  pose proof (held_insert_free (s_item sl) (ItemR r (n - 1)) s
                H H0 Hnb) as Hs1.
  destruct (decide (n - 1 = 0)).
  - split; [apply held_advance; [exact Hs1|exact Hq2|exact Hk]|].
    destruct (view_advance (s_key sl) (s_queue sl)
                (set_items (<[s_item sl := ItemR r (n - 1)]>) s) Hq)
      as [A B].
    rewrite A, B. cbn [items set_items]. rewrite length_insert. auto.
  - split; [exact Hs1|]. cbn [items set_items]. rewrite length_insert. auto.
Qed.

(** [nextFuncList.forEach(next => next())] of a call that has no slot on
    the queue of [k]. *)
Lemma held_next_all kd sls : forall s,
  held k s -> Forall (slot_inv k s) sls ->
  Forall (fun sl => s_queue sl <> 1%nat) sls ->
  held k (next_all kd sls s).
Proof.
  induction sls as [|sl sls IH]; intros s H Hinv Hq; [exact H|].
  apply Forall_cons in Hinv as [Hsl Hinv].
  apply Forall_cons in Hq as [Hq1 Hq].
  unfold next_all. cbn [foldl].
  assert (Hstep :
    held k (match kd with TW => next_w sl s | _ => next_r sl s end)
    /\ length (items (match kd with TW => next_w sl s | _ => next_r sl s end))
       = length (items s)
    /\ queue1 (match kd with TW => next_w sl s | _ => next_r sl s end)
       = queue1 s).
  { destruct kd; [apply held_next_w|apply held_next_r|apply held_next_r];
      assumption. }
  destruct Hstep as (A & B & C).
  apply IH; [exact A| |exact Hq].
  eapply Forall_impl; [exact Hinv|]. intros sl0.
  apply slot_inv_view; assumption.
Qed.

(** A barrier reaction of another key is marked as run. *)
Lemma held_fired n b s :
  held k s -> (1 <= n)%nat -> barriers s !! n = Some b ->
  held k (set_barriers (<[n := set_fired b]>) s).
Proof.
  intros [Hc Ha] Hn Hb. split; [|exact Ha].
  assert (Hlt : (n < length (barriers s))%nat) by (eapply lookup_lt_Some, Hb).
  constructor; cbn [items queues partialQueue barriers set_barriers].
  - exact (c_global k s Hc).
  - destruct (c_queue1 k s Hc) as (f & rest & Hb0 & Hq). exists f, rest.
    split; [|exact Hq]. rewrite list_lookup_insert_ne by lia. exact Hb0.
  - exact (c_others k s Hc).
  - exact (c_bound k s Hc).
  - exact (c_item0 k s Hc).
  - exact (c_item1 k s Hc).
  - exact (c_unready k s Hc).
  - exact (c_map k s Hc).
  - exact (c_mapped k s Hc).
  - intros m b0 Hm Hb0. destruct (decide (n = m)) as [->|Hne].
    + rewrite list_lookup_insert_eq in Hb0 by exact Hlt.
      injection Hb0 as <-. cbn [b_queue b_key set_fired].
      exact (c_barriers k s Hc m b Hm Hb).
    + rewrite list_lookup_insert_ne in Hb0 by exact Hne.
      exact (c_barriers k s Hc m b0 Hm Hb0).
Qed.

(** Every transition but the release reaction of the first call keeps the
    later calls on [k] waiting. *)
Lemma held_step e s s' :
  held k s -> (1 <= length (acqs s))%nat -> quiet e = true ->
  fire e s = Some s' ->
  held k s' /\ (1 <= length (acqs s'))%nat.
Proof.
  intros H Hlen Hquiet Hfire.
  destruct e as [key sig|key sig|n|n|n|n|n|n]; cbn [fire] in Hfire.
  - injection Hfire as <-. split; [apply held_acquire; assumption|].
    pose proof (acquire_length TW key sig s). unfold lock. lia.
  - injection Hfire as <-. split; [apply held_acquire; assumption|].
    pose proof (acquire_length TR key sig s). unfold rLock. lia.
  - destruct (barriers s !! n) as [b|] eqn:Eb; [|discriminate].
    cbn [mbind option_bind] in Hfire.
    destruct (items s !! b_item b) as [it|]; [|discriminate].
    cbn [mbind option_bind] in Hfire.
    destruct (item_ready it && negb (b_fired b)) eqn:Ec; [|discriminate].
    injection Hfire as <-. rewrite acqs_advance. split; [|exact Hlen].
    apply andb_true_iff in Ec as [_ Ef]. apply negb_true_iff in Ef.
    destruct (decide (n = 0%nat)) as [->|Hn].
    + apply held_barrier0; assumption.
    + destruct (c_barriers k s (proj1 H) n b ltac:(lia) Eb) as [Hq Hk].
      apply held_advance; [|exact Hq|congruence].
      apply held_fired; [exact H|lia|exact Eb].
  - destruct (acqs s !! n) as [a|] eqn:Ea; [|discriminate].
    cbn [mbind option_bind] in Hfire.
    destruct (a_result a) eqn:Er; try discriminate.
    destruct (acq_ready s a) eqn:Erdy; [|discriminate].
    injection Hfire as <-. cbn [acqs set_acqs]. rewrite length_insert.
    split; [|exact Hlen].
    apply (held_update n a); [exact H|exact Ea|reflexivity|].
    intros _. destruct (decide (n = 0%nat)) as [->|Hn]; [left; reflexivity|].
    right. right. apply (ready_free n a s H); [lia|exact Ea|exact Erdy].
  - destruct (acqs s !! n) as [a|] eqn:Ea; [|discriminate].
    cbn [mbind option_bind] in Hfire.
    destruct (a_result a) eqn:Er; try discriminate.
    destruct (a_signal a) as [r|]; [|discriminate].
    injection Hfire as <-. cbn [acqs set_acqs]. rewrite length_insert.
    split; [|exact Hlen].
    apply (held_update n a); [exact H|exact Ea|reflexivity|].
    cbn [a_result on_lock set_result]. discriminate.
  - destruct (acqs s !! n) as [a|] eqn:Ea; [|discriminate].
    cbn [mbind option_bind] in Hfire.
    destruct (a_result a) eqn:Er; try discriminate.
    injection Hfire as <-. cbn [acqs set_acqs]. rewrite length_insert.
    split; [|exact Hlen].
    apply (held_update n a); [exact H|exact Ea|reflexivity|].
    intros _. right. left. exact Er.
  - destruct (acqs s !! n) as [a|] eqn:Ea; [|discriminate].
    cbn [mbind option_bind] in Hfire.
    destruct (a_result a) eqn:Er; try discriminate.
    injection Hfire as <-. cbn [acqs set_acqs]. rewrite length_insert.
    split; [|exact Hlen].
    apply (held_update n a); [exact H|exact Ea|reflexivity|].
    intros _. right. left. exact Er.
  - destruct n as [|n]; [discriminate|].
    destruct (acqs s !! S n) as [a|] eqn:Ea; [|discriminate].
    cbn [mbind option_bind] in Hfire.
    destruct (acq_ready s a && Lock.resolved (a_lock a)
              && negb (a_released a)) eqn:Ec; [|discriminate].
    injection Hfire as <-.
    apply andb_true_iff in Ec as [Ec _]. apply andb_true_iff in Ec as [Erdy _].
    pose proof (ready_free (S n) a s H ltac:(lia) Ea Erdy) as Hfree.
    assert (H0 : held k (set_acqs (<[S n := set_released a]>) s)).
    { apply (held_update (S n) a); [exact H|exact Ea|reflexivity|].
      cbn [a_result set_released]. auto. }
    split.
    + apply held_next_all; [exact H0| |exact Hfree].
      apply Forall_forall. intros sl Hin.
      apply (proj1 (proj2 H0) (S n) (set_released a) sl); [|exact Hin].
      cbn [acqs set_acqs]. apply list_lookup_insert_eq.
      eapply lookup_lt_Some, Ea.
    + pose proof (same_call_next_all (a_kind a) (a_slots a)
                    (set_acqs (<[S n := set_released a]>) s)) as Hsame.
      apply Forall2_length in Hsame. rewrite <- Hsame.
      cbn [acqs set_acqs]. rewrite length_insert. exact Hlen.
Qed.

Lemma held_run es : forall s s',
  held k s -> (1 <= length (acqs s))%nat -> forallb quiet es = true ->
  run es s = Some s' -> held k s' /\ (1 <= length (acqs s'))%nat.
Proof.
  induction es as [|e es IH]; intros s s' H Hlen Hq Hrun.
  - injection Hrun as <-. split; [exact H|exact Hlen].
  - cbn [forallb] in Hq. apply andb_true_iff in Hq as [Hq1 Hq].
    cbn [run] in Hrun. destruct (fire e s) as [s1|] eqn:Ef; [|discriminate].
    cbn [mbind option_bind] in Hrun.
    destruct (held_step e s s1 H Hlen Hq1 Ef) as [H1 Hlen1].
    exact (IH s1 s' H1 Hlen1 Hq Hrun).
Qed.

(** The state that the first call [lock(k)] leaves. *)
Lemma held_first :
  held k (lock (Some k) None init).1
  /\ length (acqs (lock (Some k) None init).1) = 1%nat.
Proof.
  split; [|reflexivity].
  assert (Hq : queue1 (lock (Some k) None init).1 = [0%nat; 1%nat])
    by reflexivity.
  split.
  - constructor.
    + reflexivity.
    + exists false, []. split; reflexivity.
    + intros q l i Hq2 Hl. destruct q as [|[|q]]; [lia|lia|discriminate].
    + intros q l i Hl Hi. cbn in Hl. destruct q as [|[|q]]; cbn in Hl;
        [| |discriminate]; injection Hl as <-; cbn;
        repeat (apply elem_of_cons in Hi as [->|Hi]; [lia|]);
        apply elem_of_nil in Hi; contradiction.
    + reflexivity.
    + exists false, []. reflexivity.
    + intros i it [Hi0 Hi] Hi1. rewrite Hq in Hi.
      repeat (apply elem_of_cons in Hi as [->|Hi]; [congruence|]).
      apply elem_of_nil in Hi. contradiction.
    + apply Forall_singleton. cbn. split; [tauto|lia].
    + cbn. unfold map_get. cbn [list_find]. rewrite decide_True by reflexivity.
      reflexivity.
    + intros n b Hn Hb. destruct n as [|n]; [lia|discriminate].
  - split; [|split].
    + intros n x sl Hx Hin. destruct n as [|n]; [|discriminate].
      injection Hx as <-. apply list_elem_of_singleton in Hin. subst sl.
      split; [cbn; lia|]. split; [cbn; lia|]. split; [cbn; tauto|].
      cbn. congruence.
    + intros n x sl Hn Hx. destruct n as [|n]; [lia|discriminate].
    + intros x sl Hx Hin. injection Hx as <-.
      apply list_elem_of_singleton in Hin. subst sl. reflexivity.
Qed.

Lemma held_slot_waits s n x sl :
  held k s -> (1 <= n)%nat -> acqs s !! n = Some x ->
  sl ∈ a_slots x -> s_key sl = Some k -> a_result x <> Fulfilled.
Proof.
  intros [_ (C1 & C2 & _)] Hn Hx Hin Hk.
  destruct (C1 n x sl Hx Hin) as (_ & _ & Hq & _).
  exact (proj2 (C2 n x sl Hn Hx Hin (proj1 Hq Hk))).
Qed.

Lemma held_after_first es s :
  forallb quiet es = true ->
  run (Lock (Some k) None :: es) init = Some s ->
  held k s /\ (1 <= length (acqs s))%nat.
Proof.
  intros Hes Hrun. cbn [run fire] in Hrun.
  cbn [mbind option_bind] in Hrun.
  destruct held_first as [H0 Hlen].
  assert (Hlen1 : (1 <= length (acqs (lock (Some k) None init).1))%nat)
    by (rewrite Hlen; lia).
  exact (held_run es _ s H0 Hlen1 Hes Hrun).
Qed.

(** X13: The first call on a new mux is [lock(k)].  As long as the release
    reaction of that call has not run, whatever calls are made (on [k], on
    other keys, without a key, with or without a signal) and whatever
    other reactions run (barriers, aborts, unlocks, releases of other
    calls): no later call that took a slot on the queue of [k] is
    fulfilled. *)
Theorem key_holder_excludes_later_calls (es : list event) (s : state)
    (n : nat) (x : acquirer) (sl : slot) :
  forallb quiet es = true ->
  run (Lock (Some k) None :: es) init = Some s ->
  (1 <= n)%nat -> acqs s !! n = Some x ->
  sl ∈ a_slots x -> s_key sl = Some k ->
  a_result x <> Fulfilled.
Proof.
  intros Hes Hrun Hn Hx Hin Hk.
  exact (held_slot_waits s n x sl (proj1 (held_after_first es s Hes Hrun))
           Hn Hx Hin Hk).
Qed.

End KeyHoldBasics.

Section KeyHoldExample.
Import Keyed KeyHold.

Lemma key_holder_excludes_later_calls_witness :
  a_result (mkAcquirer TW [mkSlot (Some "k") 1 1 false] Pending Lock.create
              None false) <> Fulfilled.
Proof.
  refine (key_holder_excludes_later_calls "k"
    [Lock (Some "k") None; Barrier 0%nat; Ready 0%nat; Unlock 0%nat;
     RLock None None]
    (default init
       (run (Lock (Some "k") None ::
             [Lock (Some "k") None; Barrier 0%nat; Ready 0%nat;
              Unlock 0%nat; RLock None None]) init))
    1%nat
    (mkAcquirer TW [mkSlot (Some "k") 1 1 false] Pending Lock.create None
       false)
    (mkSlot (Some "k") 1 1 false) _ _ _ _ _ _);
    first [reflexivity | lia | apply list_elem_of_here].
Defined.

End KeyHoldExample.

(** ** A later call that asks for the key of the first holder *)

Section KeyHoldCalls.
Import Keyed KeyedMap KeyHold.
Variable k : string.

Lemma on_key_acqs n s s1 :
  acqs s1 = acqs s -> on_key k n s -> on_key k n s1.
Proof. intros E (x & sl & Hx & H). exists x, sl. rewrite E. auto. Qed.

Lemma on_key_resolve i a n s :
  on_key k n s -> on_key k n (set_acqs (alter (resolve_step i) a) s).
Proof.
  intros (x & sl & Hx & Hin & Hk). unfold on_key. cbn [acqs set_acqs].
  destruct (decide (a = n)) as [->|Hne].
  - exists (resolve_step i x),
      (if decide (s_item sl = i)
       then mkSlot (s_key sl) (s_queue sl) (s_item sl) true else sl).
    split; [rewrite list_lookup_alter_eq, Hx; reflexivity|]. split.
    + cbn [a_slots resolve_step].
      exact (list_elem_of_fmap_2
               (fun sl => if decide (s_item sl = i)
                          then mkSlot (s_key sl) (s_queue sl) (s_item sl) true
                          else sl) _ sl Hin).
    + destruct (decide (s_item sl = i)); exact Hk.
  - exists x, sl. rewrite list_lookup_alter_ne by exact Hne. auto.
Qed.

Lemma on_key_next_w sl n s : on_key k n s -> on_key k n (next_w sl s).
Proof.
  intros H. unfold next_w.
  destruct (items s !! s_item sl) as [[r steps|r c|r]|]; try exact H.
  destruct (pop_step steps) as [rest [a|]].
  - apply on_key_resolve. exact H.
  - eapply on_key_acqs; [|exact H]. rewrite acqs_advance. reflexivity.
Qed.

Lemma on_key_next_r sl n s : on_key k n s -> on_key k n (next_r sl s).
Proof.
  intros H. unfold next_r.
  destruct (items s !! s_item sl) as [[r steps|r c|r]|]; try exact H.
  case_decide.
  - eapply on_key_acqs; [|exact H]. rewrite acqs_advance. reflexivity.
  - exact H.
Qed.

Lemma on_key_next_all kd sls n : forall s,
  on_key k n s -> on_key k n (next_all kd sls s).
Proof.
  unfold next_all. induction sls as [|sl sls IH]; intros s H; [exact H|].
  cbn [foldl]. apply IH.
  destruct kd; auto using on_key_next_w, on_key_next_r.
Qed.

Lemma on_key_insert n m x x' s :
  acqs s !! m = Some x -> a_slots x' = a_slots x ->
  on_key k n s -> on_key k n (set_acqs (<[m := x']>) s).
Proof.
  intros Hm Hs (y & sl & Hy & Hin & Hk). unfold on_key.
  cbn [acqs set_acqs].
  destruct (decide (m = n)) as [->|Hne].
  - exists x', sl. rewrite list_lookup_insert_eq by (eapply lookup_lt_Some, Hm).
    rewrite Hs. split; [reflexivity|]. split; [congruence|exact Hk].
  - exists y, sl. rewrite list_lookup_insert_ne by exact Hne. auto.
Qed.

Lemma on_key_acquire kd key sig n s :
  on_key k n s -> on_key k n (acquire kd key sig s).1.
Proof.
  intros (x & sl & Hx & Hin & Hk). unfold acquire.
  pose proof (acqs_getQueueEntries key s) as Ha1.
  destruct (getQueueEntries key s) as [s1 es].
  pose proof (acqs_arrive_all kd (length (acqs s)) es s1) as Ha2.
  destruct (arrive_all kd (length (acqs s)) es s1) as [s2 sls].
  cbn [fst snd] in *. exists x, sl. split; [|auto].
  destruct sig as [[[] r]|]; cbn [fst acqs set_acqs]; try exact Hx;
    rewrite Ha2, Ha1; apply lookup_app_l_Some; exact Hx.
Qed.

(** The slots a call took on [k] stay with it. *)
Lemma on_key_fire e n s s' :
  fire e s = Some s' -> on_key k n s -> on_key k n s'.
Proof.
  intros Hfire H.
  destruct e as [key sig|key sig|m|m|m|m|m|m]; cbn [fire] in Hfire.
  - injection Hfire as <-. apply on_key_acquire. exact H.
  - injection Hfire as <-. apply on_key_acquire. exact H.
  - destruct (barriers s !! m) as [b|]; [|discriminate].
    cbn [mbind option_bind] in Hfire.
    destruct (items s !! b_item b) as [it|]; [|discriminate].
    cbn [mbind option_bind] in Hfire.
    destruct (item_ready it && negb (b_fired b)); [|discriminate].
    injection Hfire as <-. eapply on_key_acqs; [|exact H].
    rewrite acqs_advance. reflexivity.
  - destruct (acqs s !! m) as [a|] eqn:Ea; [|discriminate].
    cbn [mbind option_bind] in Hfire.
    destruct (a_result a); try discriminate.
    destruct (acq_ready s a); [|discriminate].
    injection Hfire as <-. apply (on_key_insert n m a); auto.
  - destruct (acqs s !! m) as [a|] eqn:Ea; [|discriminate].
    cbn [mbind option_bind] in Hfire.
    destruct (a_result a); try discriminate.
    destruct (a_signal a); [|discriminate].
    injection Hfire as <-. apply (on_key_insert n m a); auto.
  - destruct (acqs s !! m) as [a|] eqn:Ea; [|discriminate].
    cbn [mbind option_bind] in Hfire.
    destruct (a_result a); try discriminate.
    injection Hfire as <-. apply (on_key_insert n m a); auto.
  - destruct (acqs s !! m) as [a|] eqn:Ea; [|discriminate].
    cbn [mbind option_bind] in Hfire.
    destruct (a_result a); try discriminate.
    injection Hfire as <-. apply (on_key_insert n m a); auto.
  - destruct (acqs s !! m) as [a|] eqn:Ea; [|discriminate].
    cbn [mbind option_bind] in Hfire.
    destruct (acq_ready s a && Lock.resolved (a_lock a)
              && negb (a_released a)); [|discriminate].
    injection Hfire as <-. apply on_key_next_all.
    apply (on_key_insert n m a); auto.
Qed.

Lemma on_key_run es n : forall s s',
  run es s = Some s' -> on_key k n s -> on_key k n s'.
Proof.
  induction es as [|e es IH]; intros s s' Hrun H.
  - injection Hrun as <-. exact H.
  - cbn [run] in Hrun. destruct (fire e s) as [s1|] eqn:Ef; [|discriminate].
    cbn [mbind option_bind] in Hrun.
    exact (IH s1 s' Hrun (on_key_fire e n s s1 Ef H)).
Qed.

(** The entries of a call that asks for [k] or for every key include the
    one of [k]. *)
Lemma covering_entries key s :
  held k s -> key = Some k \/ key = None ->
  (Some k, 1%nat) ∈ (getQueueEntries key s).2.
Proof.
  intros [Hc _] [->| ->]; unfold getQueueEntries.
  - rewrite (c_mapped k s Hc). apply list_elem_of_here.
  - pose proof (c_mapped k s Hc) as Hm.
    destruct (partialQueue s) as [|e m] eqn:E; [discriminate|].
    cbn [snd]. apply map_get_elem in Hm as (e0 & Hin & <- & He2).
    rewrite <- He2.
    exact (list_elem_of_fmap_2
             (fun e : string * nat => (Some e.1, e.2)) _ e0 Hin).
Qed.

Lemma covering_call kd key sig s :
  held k s -> key = Some k \/ key = None -> live sig ->
  on_key k (length (acqs s)) (acquire kd key sig s).1.
Proof.
  intros H Hkey Hlive. unfold acquire.
  assert (Hmain :
    on_key k (length (acqs s))
      (let '(s1, entries) := getQueueEntries key s in
       let '(s2, slots) := arrive_all kd (length (acqs s)) entries s1 in
       (set_acqs (fun l => l ++
          [mkAcquirer kd slots Pending Lock.create (reason <$> sig)
             false]) s2,
        @inl nat error (length (acqs s)))).1).
  { pose proof (covering_entries key s H Hkey) as Hin.
    destruct (held_entries k key s H) as (_ & He & Ha1).
    destruct (getQueueEntries key s) as [s1 es]. cbn [fst snd] in *.
    assert (Hfree : Forall (fun e : option string * nat =>
                              e.2 <> globalQueue) es).
    { eapply Forall_impl; [exact He|]. intros e [_ Hb].
      unfold globalQueue. lia. }
    destruct (arrive_all_fans kd (length (acqs s)) es s1 Hfree)
      as (_ & _ & _ & Hsl).
    pose proof (acqs_arrive_all kd (length (acqs s)) es s1) as Ha2.
    destruct (arrive_all kd (length (acqs s)) es s1) as [s2 sls].
    cbn [fst snd] in *. rewrite <- Hsl in Hin.
    apply list_elem_of_fmap in Hin as (sl & Esl & Hin).
    exists (mkAcquirer kd sls Pending Lock.create (reason <$> sig) false), sl.
    split; [|split; [exact Hin|]].
    - cbn [acqs set_acqs]. apply list_lookup_middle. congruence.
    - unfold slot_entry in Esl. congruence. }
  destruct sig as [[[] r]|]; [discriminate Hlive|exact Hmain|exact Hmain].
Qed.

(** X14: The first call on a new mux is [lock(k)], and its release
    reaction has not run.  A later call of [lock] or [rLock] that asks for
    [k] or gives no key, with a signal that is not aborted, is recorded
    under the next number and is not fulfilled, whatever else happens
    before and after it. *)
Theorem later_call_on_key_waits (es es' : list event) (call : event)
    (s1 s : state) :
  forallb quiet es = true -> forallb quiet es' = true ->
  run (Lock (Some k) None :: es) init = Some s1 ->
  covers k call ->
  run (call :: es') s1 = Some s ->
  exists x, acqs s !! length (acqs s1) = Some x /\ a_result x <> Fulfilled.
Proof.
  intros Hes Hes' Hrun1 Hcall Hrun.
  destruct (held_after_first k es s1 Hes Hrun1) as [H1 Hlen1].
  assert (Hq : quiet call = true) by (destruct call; try reflexivity;
    destruct Hcall).
  assert (Hall : forallb quiet (call :: es') = true)
    by (cbn [forallb]; rewrite Hq; exact Hes').
  destruct (held_run k (call :: es') s1 s H1 Hlen1 Hall Hrun) as [H _].
  assert (Hon : on_key k (length (acqs s1)) s).
  { cbn [run] in Hrun. destruct (fire call s1) as [s2|] eqn:Ef;
      [|discriminate]. cbn [mbind option_bind] in Hrun.
    apply (on_key_run es' _ s2 s Hrun).
    destruct call as [key sig|key sig| | | | | |]; try destruct Hcall;
      cbn [fire] in Ef; injection Ef as <-; apply covering_call; assumption. }
  destruct Hon as (x & sl & Hx & Hin & Hk).
  exists x. split; [exact Hx|].
  exact (held_slot_waits k s _ x sl H Hlen1 Hx Hin Hk).
Qed.

End KeyHoldCalls.

Section KeyHoldCallsExample.
Import Keyed KeyedMap KeyHold.

Lemma later_call_on_key_waits_witness :
  exists x,
    acqs (default init
            (run [Lock (Some "k") None; Barrier 0%nat; Ready 0%nat;
                  RLock None None; Unlock 0%nat; Lock (Some "b") None]
               init)) !! 1%nat = Some x
    /\ a_result x <> Fulfilled.
Proof.
  refine (later_call_on_key_waits "k"
    [Barrier 0%nat; Ready 0%nat]
    [Unlock 0%nat; Lock (Some "b") None]
    (RLock None None)
    (default init
       (run [Lock (Some "k") None; Barrier 0%nat; Ready 0%nat] init))
    (default init
       (run [Lock (Some "k") None; Barrier 0%nat; Ready 0%nat;
             RLock None None; Unlock 0%nat; Lock (Some "b") None] init))
    _ _ _ _ _);
    first [reflexivity | split; [right; reflexivity|exact I]].
Defined.

End KeyHoldCallsExample.

(** * The release bookkeeping *)

(** ** On a mux, what is resolved stays resolved *)

Section KeyedReadyKept.
Import Keyed KeyedReady.

Lemma KeyedInv_same_call_next_all_back k sls s m a1 :
  acqs (next_all k sls s) !! m = Some a1 ->
  exists a0, acqs s !! m = Some a0 /\ a_result a0 = a_result a1.
Proof.
  intros H. pose proof (same_call_next_all k sls s) as HF.
  destruct (Forall2_lookup_r _ _ _ _ _ HF H) as (a0 & Ha0 & Hs).
  exists a0. split; [exact Ha0|]. exact (proj1 Hs).
Qed.

Lemma items_kept_refl its : items_kept its its.
Proof. intros i it H. exists it. auto. Qed.

Lemma items_kept_trans a b c :
  items_kept a b -> items_kept b c -> items_kept a c.
Proof.
  intros H1 H2 i it Hi. destruct (H1 i it Hi) as (it1 & Hi1 & Hr1).
  destruct (H2 i it1 Hi1) as (it2 & Hi2 & Hr2). exists it2. auto.
Qed.

Lemma items_kept_insert its i it it' :
  its !! i = Some it -> (item_ready it = true -> item_ready it' = true) ->
  items_kept its (<[i := it']> its).
Proof.
  intros Hi Hr j x Hj. destruct (decide (i = j)) as [->|Hne].
  - exists it'. rewrite list_lookup_insert_eq by (eapply lookup_lt_Some, Hi).
    split; [reflexivity|]. assert (x = it) by congruence. subst x. exact Hr.
  - exists x. rewrite list_lookup_insert_ne by exact Hne. auto.
Qed.

Lemma items_kept_start its i : items_kept its (alter item_start i its).
Proof.
  intros j x Hj. destruct (decide (i = j)) as [->|Hne].
  - exists (item_start x). rewrite list_lookup_alter_eq, Hj.
    split; [reflexivity|]. intros _. destruct x; reflexivity.
  - exists x. rewrite list_lookup_alter_ne by exact Hne. auto.
Qed.

Lemma items_kept_app its l : items_kept its (its ++ l).
Proof.
  intros j x Hj. exists x. split; [|auto].
  apply lookup_app_l_Some. exact Hj.
Qed.

Lemma slots_kept_refl sls : Forall2 slot_kept sls sls.
Proof. induction sls; constructor; [split; auto|assumption]. Qed.

Lemma slots_kept_trans a b c :
  Forall2 slot_kept a b -> Forall2 slot_kept b c -> Forall2 slot_kept a c.
Proof.
  intros H. revert c. induction H as [|x y a b [Hxy1 Hxy2] _ IH];
    intros c Hc; inversion Hc as [|? z ? c' [Hyz1 Hyz2] Hc']; subst;
    constructor; [split; [congruence|auto]|auto].
Qed.

Lemma stays_refl s : kept s s.
Proof.
  split; [apply items_kept_refl|]. intros n a Ha. exists a.
  split; [exact Ha|apply slots_kept_refl].
Qed.

Lemma stays_trans s1 s2 s3 : kept s1 s2 -> kept s2 s3 -> kept s1 s3.
Proof.
  intros [I1 A1] [I2 A2]. split; [eapply items_kept_trans; eauto|].
  intros n a Ha. destruct (A1 n a Ha) as (a1 & Ha1 & S1).
  destruct (A2 n a1 Ha1) as (a2 & Ha2 & S2). exists a2.
  split; [exact Ha2|eapply slots_kept_trans; eauto].
Qed.

Lemma stays_same s s' :
  items_kept (items s) (items s') -> acqs s' = acqs s -> kept s s'.
Proof.
  intros HI HA. split; [exact HI|]. intros n a Ha. exists a. rewrite HA.
  split; [exact Ha|apply slots_kept_refl].
Qed.

Lemma stays_ready s s' n a :
  kept s s' -> acqs s !! n = Some a -> acq_ready s a = true ->
  exists a', acqs s' !! n = Some a' /\ acq_ready s' a' = true.
Proof.
  intros [HI HA] Ha Hr. destruct (HA n a Ha) as (a' & Ha' & HS).
  exists a'. split; [exact Ha'|]. unfold acq_ready in *.
  induction HS as [|sl sl' sls sls' [Hi Hs] _ IH]; [reflexivity|].
  cbn [forallb] in *. apply andb_true_iff in Hr as [Hsl Hr].
  rewrite (IH Hr), andb_true_r. unfold slot_ready in *. rewrite Hi.
  destruct (items s !! s_item sl) as [it|] eqn:E; [|discriminate].
  destruct (HI _ _ E) as (it' & -> & Hrd).
  apply andb_true_iff in Hsl as [H1 H2]. rewrite (Hrd H1), (Hs H2).
  reflexivity.
Qed.

Lemma stays_resolve i w s : kept s (set_acqs (alter (resolve_step i) w) s).
Proof.
  split; [apply items_kept_refl|]. intros n a Ha. cbn [acqs set_acqs].
  destruct (decide (w = n)) as [->|Hne].
  - exists (resolve_step i a). rewrite list_lookup_alter_eq, Ha.
    split; [reflexivity|]. cbn [a_slots resolve_step].
    induction (a_slots a) as [|sl sls IH]; constructor; [|exact IH].
    destruct (decide (s_item sl = i)); split; auto.
  - exists a. rewrite list_lookup_alter_ne by exact Hne.
    split; [exact Ha|apply slots_kept_refl].
Qed.

Lemma stays_insert_acq n x x' s :
  acqs s !! n = Some x -> a_slots x' = a_slots x ->
  kept s (set_acqs (<[n := x']>) s).
Proof.
  intros Hx Hs. split; [apply items_kept_refl|]. intros m a Ha.
  cbn [acqs set_acqs]. destruct (decide (n = m)) as [->|Hne].
  - exists x'. rewrite list_lookup_insert_eq by (eapply lookup_lt_Some, Hx).
    split; [reflexivity|]. assert (a = x) by congruence. subst a.
    rewrite Hs. apply slots_kept_refl.
  - exists a. rewrite list_lookup_insert_ne by exact Hne.
    split; [exact Ha|apply slots_kept_refl].
Qed.

Lemma stays_app_acq x s : kept s (set_acqs (fun l => l ++ [x]) s).
Proof.
  split; [apply items_kept_refl|]. intros m a Ha. exists a.
  cbn [acqs set_acqs]. split; [|apply slots_kept_refl].
  apply lookup_app_l_Some. exact Ha.
Qed.

Lemma stays_advance key q s : kept s (advance key q s).
Proof.
  apply stays_same; [|apply acqs_advance]. unfold advance.
  repeat case_match; cbn [items set_items set_queues set_partial];
    first [apply items_kept_start | apply items_kept_refl].
Qed.

Lemma stays_push q it s : kept s (push_item q it s).
Proof. apply stays_same; [apply items_kept_app|reflexivity]. Qed.

Lemma stays_next_w sl s : kept s (next_w sl s).
Proof.
  unfold next_w.
  destruct (items s !! s_item sl) as [[r steps|r c|r]|] eqn:E;
    try apply stays_refl.
  assert (H1 : kept s (set_items (<[s_item sl := ItemW r (pop_step steps).1]>)
                         s)).
  { apply stays_same; [|reflexivity].
    eapply items_kept_insert; [exact E|auto]. }
  destruct (pop_step steps) as [rest [w|]]; cbn [fst] in H1.
  - eapply stays_trans; [exact H1|apply stays_resolve].
  - eapply stays_trans; [exact H1|apply stays_advance].
Qed.

Lemma stays_next_r sl s : kept s (next_r sl s).
Proof.
  unfold next_r.
  destruct (items s !! s_item sl) as [[r steps|r c|r]|] eqn:E;
    try apply stays_refl.
  assert (H1 : kept s (set_items (<[s_item sl := ItemR r (c - 1)]>) s)).
  { apply stays_same; [|reflexivity].
    eapply items_kept_insert; [exact E|auto]. }
  case_decide; [|exact H1].
  eapply stays_trans; [exact H1|apply stays_advance].
Qed.

Lemma stays_next_all k sls : forall s, kept s (next_all k sls s).
Proof.
  unfold next_all. induction sls as [|sl sls IH]; intros s;
    [apply stays_refl|].
  cbn [foldl]. eapply stays_trans; [|apply IH].
  destruct k; auto using stays_next_w, stays_next_r.
Qed.

Lemma stays_arrive_w a e s : kept s (arrive_w a e s).1.
Proof.
  destruct e as [key q]. unfold arrive_w.
  assert (Hin : forall i s1, kept s s1 ->
    kept s (match items s1 !! i with
            | Some (ItemW r []) =>
                (set_items (<[i := ItemW r [StepNext]]>) s1,
                 mkSlot key q i true)
            | Some (ItemW r steps) =>
                (set_items (<[i := ItemW r (steps ++ [StepResolve a])]>) s1,
                 mkSlot key q i false)
            | _ => (s1, mkSlot key q i false)
            end).1).
  { intros i s1 H1.
    destruct (items s1 !! i) as [[r [|st0 st]|r c|r]|] eqn:E; cbn [fst];
      try exact H1; (eapply stays_trans; [exact H1|]);
      (apply stays_same; [|reflexivity]);
      (eapply items_kept_insert; [exact E|auto]). }
  destruct (last (default [] (queues s !! q))) as [l|].
  - destruct (items s !! l) as [[r steps|r c|r]|];
      first [apply Hin, stays_refl | apply Hin, stays_push].
  - apply Hin, stays_push.
Qed.

Lemma stays_arrive_r a e s : kept s (arrive_r a e s).1.
Proof.
  destruct e as [key q]. unfold arrive_r.
  assert (Hin : forall i s1, kept s s1 ->
    kept s (match items s1 !! i with
            | Some (ItemR r n) =>
                (set_items (<[i := ItemR r (n + 1)]>) s1, mkSlot key q i true)
            | _ => (s1, mkSlot key q i true)
            end).1).
  { intros i s1 H1.
    destruct (items s1 !! i) as [[r st|r c|r]|] eqn:E; cbn [fst];
      try exact H1; (eapply stays_trans; [exact H1|]);
      (apply stays_same; [|reflexivity]);
      (eapply items_kept_insert; [exact E|auto]). }
  destruct (last (default [] (queues s !! q))) as [l|].
  - destruct (items s !! l) as [[r steps|r c|r]|];
      first [apply Hin, stays_refl | apply Hin, stays_push].
  - apply Hin, stays_push.
Qed.

Lemma stays_arrive_all k a es : forall s, kept s (arrive_all k a es s).1.
Proof.
  induction es as [|e es IH]; intros s; cbn [arrive_all];
    [apply stays_refl|].
  assert (H1 : kept s (match k with
                       | TW => arrive_w a e s
                       | _ => arrive_r a e s
                       end).1)
    by (destruct k; auto using stays_arrive_w, stays_arrive_r).
  destruct (match k with TW => arrive_w a e s | _ => arrive_r a e s end)
    as [s1 sl].
  specialize (IH s1). destruct (arrive_all k a es s1) as [s2 sls].
  cbn [fst] in *. eapply stays_trans; eauto.
Qed.

Lemma stays_getQueueEntries key s : kept s (getQueueEntries key s).1.
Proof.
  unfold getQueueEntries. destruct key as [k|].
  - destruct (map_get k (partialQueue s)); [apply stays_refl|].
    destruct (last (default [] (queues s !! globalQueue))) as [g|].
    + destruct (items s !! g) as [[r st|r c|r]|]; cbn [fst];
        (apply stays_same; [|reflexivity]);
        first [apply items_kept_refl | apply items_kept_app].
    + cbn [fst]. apply stays_same; [apply items_kept_app|reflexivity].
  - destruct (partialQueue s); apply stays_refl.
Qed.

Lemma stays_acquire k key sig s : kept s (acquire k key sig s).1.
Proof.
  unfold acquire.
  pose proof (stays_getQueueEntries key s) as H1.
  destruct (getQueueEntries key s) as [s1 es].
  pose proof (stays_arrive_all k (length (acqs s)) es s1) as H2.
  destruct (arrive_all k (length (acqs s)) es s1) as [s2 sls].
  cbn [fst] in *.
  destruct sig as [[[] r]|]; cbn [fst]; try apply stays_refl;
    (eapply stays_trans; [exact H1|]); (eapply stays_trans; [exact H2|]);
    apply stays_app_acq.
Qed.

(** A fulfilled call stays ready. *)
Lemma granted_ready_step e s s' :
  granted_ready s -> fire e s = Some s' -> granted_ready s'.
Proof.
  intros HG Hfire. unfold granted_ready in *.
  assert (Hold : forall s1, kept s s1 ->
    (forall n a1, acqs s1 !! n = Some a1 -> a_result a1 = Fulfilled ->
       acq_ready s1 a1 = true
       \/ exists a, acqs s !! n = Some a /\ a_result a = Fulfilled) ->
    Forall (fun a => a_result a = Fulfilled -> acq_ready s1 a = true)
      (acqs s1)).
  { intros s1 Hk Hback. apply Forall_lookup. intros n a1 Ha1 Hf.
    destruct (Hback n a1 Ha1 Hf) as [Hr|(a & Ha & Hfa)]; [exact Hr|].
    pose proof (Forall_lookup_1 _ _ _ _ HG Ha Hfa) as Hra.
    destruct (stays_ready s s1 n a Hk Ha Hra) as (a' & Ha' & Hr').
    congruence. }
  assert (Hnew : forall k key sig,
    Forall (fun a => a_result a = Fulfilled ->
                     acq_ready (acquire k key sig s).1 a = true)
      (acqs (acquire k key sig s).1)).
  { intros k key sig. apply Hold; [apply stays_acquire|].
    intros n a1 Ha1 Hf. right.
    destruct (acquire_acqs k key sig s) as [E|[sls E]]; rewrite E in Ha1.
    - exists a1. auto.
    - apply lookup_app_Some in Ha1 as [Ha1|[_ Ha1]]; [exists a1; auto|].
      destruct (n - length (acqs s))%nat; [|discriminate].
      injection Ha1 as <-. discriminate. }
  assert (Hins : forall m am x,
    acqs s !! m = Some am -> a_slots x = a_slots am ->
    (a_result x = Fulfilled -> a_result am = Fulfilled \/ acq_ready s am = true) ->
    Forall (fun a => a_result a = Fulfilled ->
                     acq_ready (set_acqs (<[m := x]>) s) a = true)
      (acqs (set_acqs (<[m := x]>) s))).
  { intros m am x Hm Hs Hr.
    apply Hold; [eapply stays_insert_acq; eauto|].
    intros n a1 Ha1 Hf. cbn [acqs set_acqs] in Ha1.
    destruct (decide (m = n)) as [->|Hne].
    - rewrite list_lookup_insert_eq in Ha1 by (eapply lookup_lt_Some, Hm).
      injection Ha1 as <-. destruct (Hr Hf) as [H|H]; [right; eauto|].
      left. unfold acq_ready in *. rewrite Hs. exact H.
    - rewrite list_lookup_insert_ne in Ha1 by exact Hne. right. eauto. }
  destruct e as [key sig|key sig|n|n|n|n|n|n]; cbn [fire] in Hfire.
  - injection Hfire as <-. apply Hnew.
  - injection Hfire as <-. apply Hnew.
  - destruct (barriers s !! n) as [b|]; [|discriminate].
    cbn [mbind option_bind] in Hfire.
    destruct (items s !! b_item b) as [it|]; [|discriminate].
    cbn [mbind option_bind] in Hfire.
    destruct (item_ready it && negb (b_fired b)); [|discriminate].
    injection Hfire as <-. apply Hold.
    + eapply stays_trans; [|apply stays_advance].
      apply stays_same; [apply items_kept_refl|reflexivity].
    + intros m a1 Ha1 Hf. right. rewrite acqs_advance in Ha1. eauto.
  - destruct (acqs s !! n) as [a|] eqn:Ea; [|discriminate].
    cbn [mbind option_bind] in Hfire.
    destruct (a_result a) eqn:Er; try discriminate.
    destruct (acq_ready s a) eqn:Erdy; [|discriminate].
    injection Hfire as <-. apply (Hins n a); auto.
  - destruct (acqs s !! n) as [a|] eqn:Ea; [|discriminate].
    cbn [mbind option_bind] in Hfire.
    destruct (a_result a) eqn:Er; try discriminate.
    destruct (a_signal a); [|discriminate].
    injection Hfire as <-. apply (Hins n a); auto. discriminate.
  - destruct (acqs s !! n) as [a|] eqn:Ea; [|discriminate].
    cbn [mbind option_bind] in Hfire.
    destruct (a_result a) eqn:Er; try discriminate.
    injection Hfire as <-. apply (Hins n a); auto.
  - destruct (acqs s !! n) as [a|] eqn:Ea; [|discriminate].
    cbn [mbind option_bind] in Hfire.
    destruct (a_result a) eqn:Er; try discriminate.
    injection Hfire as <-. apply (Hins n a); auto.
  - destruct (acqs s !! n) as [a|] eqn:Ea; [|discriminate].
    cbn [mbind option_bind] in Hfire.
    destruct (acq_ready s a && Lock.resolved (a_lock a)
              && negb (a_released a)) eqn:Ec; [|discriminate].
    injection Hfire as <-.
    apply andb_true_iff in Ec as [Ec _]. apply andb_true_iff in Ec as [Erdy _].
    apply Hold.
    + eapply stays_trans; [|apply stays_next_all].
      eapply stays_insert_acq; [exact Ea|reflexivity].
    + intros m a1 Ha1 Hf.
      pose proof (KeyedInv_same_call_next_all_back (a_kind a) (a_slots a)
                    (set_acqs (<[n := set_released a]>) s) m a1 Ha1)
        as (a0 & Ha0 & Hr0).
      cbn [acqs set_acqs] in Ha0.
      destruct (decide (n = m)) as [->|Hne].
      * rewrite list_lookup_insert_eq in Ha0 by (eapply lookup_lt_Some, Ea).
        injection Ha0 as <-. cbn [a_result set_released] in Hr0.
        right. exists a. split; [exact Ea|congruence].
      * rewrite list_lookup_insert_ne in Ha0 by exact Hne.
        right. exists a0. split; [exact Ha0|congruence].
Qed.

Lemma granted_ready_run es s :
  run es init = Some s -> granted_ready s.
Proof.
  apply (run_invariant granted_ready).
  - intros e t t' H Hf. exact (granted_ready_step e t t' H Hf).
  - constructor.
Qed.

End KeyedReadyKept.

(** ** On an owner: a fulfilled [manualLock] has started, and every
    acquirer sits on an item of its kind *)

Section InstanceEffects.
Import Instance InstanceInv InstanceEffect.

Lemma granted_started_same a b :
  same_call a b -> granted_started a -> granted_started b.
Proof.
  intros (_ & _ & _ & Hp & Hm) H m Hbm Hr. rewrite <- Hp.
  apply (H m); congruence.
Qed.

Lemma Forall_granted_started_same l1 l2 :
  Forall2 same_call l1 l2 ->
  Forall granted_started l1 -> Forall granted_started l2.
Proof.
  induction 1; intros HF; inversion HF; subst; constructor;
    eauto using granted_started_same.
Qed.

Lemma granted_started_step e s s' :
  Forall granted_started (acqs s) -> fire e s = Some s' ->
  Forall granted_started (acqs s').
Proof.
  intros HF Hfire.
  assert (Happ : forall x,
    (forall m, a_manual x = Some m -> m_result m <> Fulfilled) ->
    Forall granted_started (acqs s ++ [x])).
  { intros x Hx. apply Forall_app. split; [exact HF|].
    constructor; [|constructor]. intros m Hm Hr. destruct (Hx m Hm Hr). }
  assert (Halt : forall n h,
    (forall m, m_result (h m) = Fulfilled -> m_result m = Fulfilled) ->
    Forall granted_started (alter (set_manual h) n (acqs s))).
  { intros n h Hh. apply Forall_alter; [exact HF|].
    intros a _ Ha m Hm Hr. cbn in Hm. cbn [a_phase set_manual].
    destruct (a_manual a) as [m0|] eqn:E; [|discriminate].
    injection Hm as <-. apply (Ha m0 E). auto. }
  destruct e as [|k|k sig|n|n|n|n|n]; cbn [fire] in Hfire.
  - injection Hfire as <-. rewrite acqs_initializeInstance. exact HF.
  - injection Hfire as <-.
    destruct (acqs_classMethod k None s) as [->|(x & -> & Hp & Hm)];
      [exact HF|].
    apply Happ. intros m Hxm. congruence.
  - injection Hfire as <-.
    destruct (acqs_manualLock k sig s) as [->|(x & -> & Hp & Hm)];
      [exact HF|].
    apply Happ. intros m Hxm. rewrite Hm in Hxm. injection Hxm as <-.
    discriminate.
  - destruct (acqs s !! n) as [a|] eqn:Ha; [|discriminate].
    cbn [mbind option_bind] in Hfire.
    destruct (a_phase a); try discriminate.
    destruct (acq_ready s a); [|discriminate]. injection Hfire as <-.
    unfold start. cbn [acqs set_acqs assign_context set_owner set_ctxs].
    apply Forall_insert; [exact HF|]. intros m _ _. discriminate.
  - destruct (acqs s !! n) as [a|] eqn:Ha; [|discriminate].
    cbn [mbind option_bind] in Hfire.
    assert (Hs' : a_phase a = Running /\ s' = finish n a s).
    { destruct (a_phase a), (a_manual a) as [mm|]; try discriminate;
        [destruct (Lock.resolved (m_lock mm)); [|discriminate]|];
        injection Hfire as <-; auto. }
    destruct Hs' as [Hrun ->]. unfold finish.
    eapply Forall_granted_started_same; [apply instance_same_call_next|].
    cbn [acqs set_acqs assign_context set_owner].
    apply Forall_insert; [exact HF|]. intros m _ _. discriminate.
  - destruct (acqs s !! n) as [a|] eqn:Ha; [|discriminate].
    cbn [mbind option_bind] in Hfire.
    destruct (a_manual a) as [mm|] eqn:Hmm; [|discriminate].
    cbn [mbind option_bind] in Hfire.
    destruct (m_result mm) eqn:Hr, (m_signal mm); try discriminate.
    injection Hfire as <-. apply Halt. intros m. discriminate.
  - destruct (acqs s !! n) as [a|] eqn:Ha; [|discriminate].
    cbn [mbind option_bind] in Hfire.
    destruct (a_manual a) as [mm|] eqn:Hmm; [|discriminate].
    cbn [mbind option_bind] in Hfire.
    destruct (m_result mm) eqn:Hr; try discriminate.
    injection Hfire as <-. apply Halt. auto.
  - destruct (acqs s !! n) as [a|] eqn:Ha; [|discriminate].
    cbn [mbind option_bind] in Hfire.
    destruct (a_manual a) as [mm|] eqn:Hmm; [|discriminate].
    cbn [mbind option_bind] in Hfire.
    destruct (m_result mm) eqn:Hr; try discriminate.
    injection Hfire as <-. apply Halt. auto.
Qed.

Lemma granted_started_run es s :
  run es init = Some s -> Forall granted_started (acqs s).
Proof.
  apply (instance_run_invariant (fun s => Forall granted_started (acqs s))).
  - intros e t t' H Hf. exact (granted_started_step e t t' H Hf).
  - constructor.
Qed.

(** After [unlock] the release reaction of a started acquisition is
    enabled. *)
Lemma manual_release_enabled_after_unlock es s s1 n a :
  run es init = Some s -> acqs s !! n = Some a -> a_phase a <> Finished ->
  fire (Unlock n) s = Some s1 ->
  fire (Finish n) s1
  = Some (finish n (set_manual (on_lock Lock.unlock) a) s1).
Proof.
  intros Hreach Ha Hp Hfire.
  apply (instance_fire_on_lock_inv Lock.unlock) in Hfire
    as (a0 & m & Ha0 & Hm & Hres & -> & Ha1).
  assert (a0 = a) by congruence. subst a0.
  pose proof (Forall_lookup_1 _ _ _ _ (granted_started_run es s Hreach) Ha
                m Hm Hres) as Hnw.
  cbn [fire]. rewrite Ha1. cbn [mbind option_bind].
  change (a_phase (set_manual (on_lock Lock.unlock) a)) with (a_phase a).
  change (a_manual (set_manual (on_lock Lock.unlock) a))
    with (on_lock Lock.unlock <$> a_manual a).
  rewrite Hm. cbn [fmap option_fmap option_map m_lock on_lock Lock.unlock
                     Lock.resolve Lock.resolved].
  destruct (a_phase a); [contradiction|reflexivity|contradiction].
Qed.

Lemma tag_at_insert_same its i x j t :
  tag_at its i = Some t -> item_tag x = t ->
  tag_at (<[i := x]> its) j = tag_at its j.
Proof.
  intros Ht Hx. apply tag_at_insert. intros old Hold. unfold tag_at in Ht.
  rewrite Hold in Ht. cbn in Ht. congruence.
Qed.

Lemma kind_items its its' l :
  (forall j, is_Some (tag_at its j) -> tag_at its' j = tag_at its j) ->
  Forall (item_of_kind its) l -> Forall (item_of_kind its') l.
Proof.
  intros H HF. eapply Forall_impl; [exact HF|].
  intros a [Hk Ht]. split; [exact Hk|].
  rewrite H; [exact Ht|]. rewrite Ht. eauto.
Qed.

Lemma kind_alter its (f : acquirer -> acquirer) n l :
  (forall a, a_kind (f a) = a_kind a /\ a_item (f a) = a_item a) ->
  Forall (item_of_kind its) l -> Forall (item_of_kind its) (alter f n l).
Proof.
  intros Hf HF. apply Forall_alter; [exact HF|].
  intros a _ [Hk Ht]. destruct (Hf a) as [E1 E2]. unfold item_of_kind.
  rewrite E1, E2. split; assumption.
Qed.

Lemma kind_insert its n a x l :
  l !! n = Some a -> a_kind x = a_kind a -> a_item x = a_item a ->
  Forall (item_of_kind its) l -> Forall (item_of_kind its) (<[n := x]> l).
Proof.
  intros Ha Hk Hi HF. apply Forall_insert; [exact HF|].
  destruct (Forall_lookup_1 _ _ _ _ HF Ha) as [H1 H2].
  split; [congruence|]. rewrite Hk, Hi. exact H2.
Qed.

Lemma kind_advance c s :
  Forall (item_of_kind (items s)) (acqs s) ->
  Forall (item_of_kind (items (advance c s))) (acqs (advance c s)).
Proof.
  intros HF. rewrite instance_acqs_advance. unfold advance.
  repeat case_match; cbn [items set_items set_ctxs]; try exact HF.
  eapply kind_items; [|exact HF]. intros j _. apply tag_at_start.
Qed.

Lemma kind_next k i c s :
  Forall (item_of_kind (items s)) (acqs s) ->
  Forall (item_of_kind (items (next k i c s))) (acqs (next k i c s)).
Proof.
  intros HF.
  assert (Hw : Forall (item_of_kind (items (next_w i c s)))
                 (acqs (next_w i c s))).
  { unfold next_w.
    destruct (items s !! i) as [[r steps|r n|r]|] eqn:E; try exact HF.
    assert (H1 : Forall (item_of_kind
                   (<[i := ItemW r (pop_step steps).1]> (items s))) (acqs s)).
    { eapply kind_items; [|exact HF]. intros j _.
      apply (tag_at_insert_same _ _ _ _ TW); [|reflexivity].
      unfold tag_at. rewrite E. reflexivity. }
    destruct (pop_step steps) as [rest [w|]]; cbn [fst] in H1.
    - cbn [items acqs set_acqs set_items]. apply kind_alter; [|exact H1].
      intros a. split; reflexivity.
    - apply kind_advance. exact H1. }
  assert (Hr : Forall (item_of_kind (items (next_r i c s)))
                 (acqs (next_r i c s))).
  { unfold next_r.
    destruct (items s !! i) as [[r steps|r n|r]|] eqn:E; try exact HF.
    assert (H1 : Forall (item_of_kind (<[i := ItemR r (n - 1)]> (items s)))
                   (acqs s)).
    { eapply kind_items; [|exact HF]. intros j _.
      apply (tag_at_insert_same _ _ _ _ TR); [|reflexivity].
      unfold tag_at. rewrite E. reflexivity. }
    case_decide; [|exact H1]. apply kind_advance. exact H1. }
  destruct k; assumption.
Qed.

Lemma kind_arrive_w c cx m s :
  Forall (item_of_kind (items s)) (acqs s) ->
  Forall (item_of_kind (items (arrive_w c cx m s).1))
    (acqs (arrive_w c cx m s).1).
Proof.
  intros HF. unfold arrive_w.
  assert (Hin : forall i s1,
    acqs s1 = acqs s -> Forall (item_of_kind (items s1)) (acqs s) ->
    Forall (item_of_kind
      (items (match items s1 !! i with
              | Some (ItemW r []) =>
                  (set_acqs (fun l =>
                     l ++ [mkAcquirer TW c i None Waiting m])
                     (set_items (<[i := ItemW r [StepNext]]>) s1),
                   Queued (length (acqs s)))
              | Some (ItemW r steps) =>
                  (set_acqs (fun l =>
                     l ++ [mkAcquirer TW c i (Some false) Waiting m])
                     (set_items
                        (<[i := ItemW r
                                  (steps ++ [StepResolve (length (acqs s))])]>)
                        s1),
                   Queued (length (acqs s)))
              | _ => (s, Threw UnreachableError)
              end).1))
      (acqs (match items s1 !! i with
             | Some (ItemW r []) =>
                 (set_acqs (fun l =>
                    l ++ [mkAcquirer TW c i None Waiting m])
                    (set_items (<[i := ItemW r [StepNext]]>) s1),
                  Queued (length (acqs s)))
             | Some (ItemW r steps) =>
                 (set_acqs (fun l =>
                    l ++ [mkAcquirer TW c i (Some false) Waiting m])
                    (set_items
                       (<[i := ItemW r
                                 (steps ++ [StepResolve (length (acqs s))])]>)
                       s1),
                  Queued (length (acqs s)))
             | _ => (s, Threw UnreachableError)
             end).1)).
  { intros i s1 Ha H1.
    destruct (items s1 !! i) as [[r [|st0 st]|r n|r]|] eqn:E; cbn [fst];
      try exact HF;
      cbn [items acqs set_acqs set_items]; rewrite Ha;
      (apply Forall_app; split;
       [eapply kind_items; [|exact H1]; intros j _;
        apply (tag_at_insert_same _ _ _ _ TW); [|reflexivity];
        unfold tag_at; rewrite E; reflexivity
       |constructor; [|constructor]; split; [discriminate|];
        cbn [a_item a_kind]; unfold tag_at;
        rewrite list_lookup_insert_eq by (eapply lookup_lt_Some, E);
        reflexivity]). }
  assert (Hpush : forall it,
    Forall (item_of_kind
      (items (set_ctxs (alter (set_queue (fun q => q ++ [length (items s)])) c)
                (set_items (fun l => l ++ [it]) s)))) (acqs s)).
  { intros it. cbn [items set_ctxs set_items].
    eapply kind_items; [|exact HF]. intros j Hj. apply tag_at_app. exact Hj. }
  cbv beta zeta.
  destruct (last (queue cx)) as [l|].
  - pose proof (Hin l s eq_refl HF) as Hl.
    destruct (items s !! l) as [[r steps|r n|r]|]; try exact HF.
    + exact Hl.
    + apply (Hin (length (items s)) _); [reflexivity|apply Hpush].
  - apply (Hin (length (items s)) _); [reflexivity|apply Hpush].
Qed.

Lemma kind_arrive_r c cx m s :
  Forall (item_of_kind (items s)) (acqs s) ->
  Forall (item_of_kind (items (arrive_r c cx m s).1))
    (acqs (arrive_r c cx m s).1).
Proof.
  intros HF. unfold arrive_r.
  assert (Hin : forall i s1,
    acqs s1 = acqs s -> Forall (item_of_kind (items s1)) (acqs s) ->
    Forall (item_of_kind
      (items (match items s1 !! i with
              | Some (ItemR r n) =>
                  (set_acqs (fun l =>
                     l ++ [mkAcquirer TR c i None Waiting m])
                     (set_items (<[i := ItemR r (n + 1)]>) s1),
                   Queued (length (acqs s)))
              | _ => (s, Threw UnreachableError)
              end).1))
      (acqs (match items s1 !! i with
             | Some (ItemR r n) =>
                 (set_acqs (fun l =>
                    l ++ [mkAcquirer TR c i None Waiting m])
                    (set_items (<[i := ItemR r (n + 1)]>) s1),
                  Queued (length (acqs s)))
             | _ => (s, Threw UnreachableError)
             end).1)).
  { intros i s1 Ha H1.
    destruct (items s1 !! i) as [[r st|r n|r]|] eqn:E; cbn [fst];
      try exact HF;
      cbn [items acqs set_acqs set_items]; rewrite Ha;
      (apply Forall_app; split;
       [eapply kind_items; [|exact H1]; intros j _;
        apply (tag_at_insert_same _ _ _ _ TR); [|reflexivity];
        unfold tag_at; rewrite E; reflexivity
       |constructor; [|constructor]; split; [discriminate|];
        cbn [a_item a_kind]; unfold tag_at;
        rewrite list_lookup_insert_eq by (eapply lookup_lt_Some, E);
        reflexivity]). }
  assert (Hpush : forall it,
    Forall (item_of_kind
      (items (set_ctxs (alter (set_queue (fun q => q ++ [length (items s)])) c)
                (set_items (fun l => l ++ [it]) s)))) (acqs s)).
  { intros it. cbn [items set_ctxs set_items].
    eapply kind_items; [|exact HF]. intros j Hj. apply tag_at_app. exact Hj. }
  cbv beta zeta.
  destruct (last (queue cx)) as [l|].
  - pose proof (Hin l s eq_refl HF) as Hl.
    destruct (items s !! l) as [[r steps|r n|r]|]; try exact HF.
    + apply (Hin (length (items s)) _); [reflexivity|apply Hpush].
    + exact Hl.
  - apply (Hin (length (items s)) _); [reflexivity|apply Hpush].
Qed.

Lemma kind_classMethod k m s :
  Forall (item_of_kind (items s)) (acqs s) ->
  Forall (item_of_kind (items (classMethod k m s).1))
    (acqs (classMethod k m s).1).
Proof.
  intros HF. unfold classMethod.
  destruct (owner s ≫= (fun c => (c,.) <$> ctxs s !! c)) as [[c cx]|];
    [|exact HF].
  destruct k; [destruct (lockType cx) as [[]|]; try exact HF| |];
    first [apply kind_arrive_w | apply kind_arrive_r]; exact HF.
Qed.

Lemma kind_step e s s' :
  Forall (item_of_kind (items s)) (acqs s) -> fire e s = Some s' ->
  Forall (item_of_kind (items s')) (acqs s').
Proof.
  intros HF Hfire.
  assert (Hinit : Forall (item_of_kind (items (initializeInstance s)))
                    (acqs (initializeInstance s))).
  { unfold initializeInstance. destruct (owner s); exact HF. }
  destruct e as [|k|k sig|n|n|n|n|n]; cbn [fire] in Hfire.
  - injection Hfire as <-. exact Hinit.
  - injection Hfire as <-. apply kind_classMethod. exact HF.
  - injection Hfire as <-. unfold manualLock.
    destruct sig as [[[] r]|]; try exact HF;
      apply kind_classMethod; exact Hinit.
  - destruct (acqs s !! n) as [a|] eqn:Ha; [|discriminate].
    cbn [mbind option_bind] in Hfire.
    destruct (a_phase a); try discriminate.
    destruct (acq_ready s a); [|discriminate]. injection Hfire as <-.
    unfold start. cbn [items acqs set_acqs assign_context set_owner set_ctxs].
    eapply kind_insert; [exact Ha|reflexivity|reflexivity|exact HF].
  - destruct (acqs s !! n) as [a|] eqn:Ha; [|discriminate].
    cbn [mbind option_bind] in Hfire.
    assert (Hs' : s' = finish n a s).
    { destruct (a_phase a), (a_manual a) as [mm|]; try discriminate;
        [destruct (Lock.resolved (m_lock mm)); [|discriminate]|];
        injection Hfire as <-; auto. }
    subst s'. unfold finish. apply kind_next.
    cbn [items acqs set_acqs assign_context set_owner].
    eapply kind_insert; [exact Ha|reflexivity|reflexivity|exact HF].
  - destruct (acqs s !! n) as [a|] eqn:Ha; [|discriminate].
    cbn [mbind option_bind] in Hfire.
    destruct (a_manual a) as [mm|] eqn:Hmm; [|discriminate].
    cbn [mbind option_bind] in Hfire.
    destruct (m_result mm) eqn:Hr, (m_signal mm); try discriminate.
    injection Hfire as <-. cbn [items acqs set_acqs].
    apply kind_alter; [|exact HF]. intros x. split; reflexivity.
  - destruct (acqs s !! n) as [a|] eqn:Ha; [|discriminate].
    cbn [mbind option_bind] in Hfire.
    destruct (a_manual a) as [mm|] eqn:Hmm; [|discriminate].
    cbn [mbind option_bind] in Hfire.
    destruct (m_result mm) eqn:Hr; try discriminate.
    injection Hfire as <-. cbn [items acqs set_acqs].
    apply kind_alter; [|exact HF]. intros x. split; reflexivity.
  - destruct (acqs s !! n) as [a|] eqn:Ha; [|discriminate].
    cbn [mbind option_bind] in Hfire.
    destruct (a_manual a) as [mm|] eqn:Hmm; [|discriminate].
    cbn [mbind option_bind] in Hfire.
    destruct (m_result mm) eqn:Hr; try discriminate.
    injection Hfire as <-. cbn [items acqs set_acqs].
    apply kind_alter; [|exact HF]. intros x. split; reflexivity.
Qed.

Lemma kind_run es s :
  run es init = Some s -> Forall (item_of_kind (items s)) (acqs s).
Proof.
  apply (instance_run_invariant
           (fun s => Forall (item_of_kind (items s)) (acqs s))).
  - intros e t t' H Hf. exact (kind_step e t t' H Hf).
  - constructor.
Qed.

Lemma advance_shifted c s : shifted c s (advance c s).
Proof.
  unfold shifted, advance.
  repeat case_match; cbn [ctxs set_items set_ctxs];
    rewrite list_lookup_alter_eq; destruct (ctxs s !! c); reflexivity.
Qed.

Lemma advance_writer_item c s i r st :
  items s !! i = Some (ItemW r st) ->
  exists r', items (advance c s) !! i = Some (ItemW r' st).
Proof.
  intros Hi. unfold advance.
  repeat case_match; cbn [items set_items set_ctxs]; [|eauto].
  match goal with
  | |- context [alter item_start ?h _] =>
      destruct (decide (h = i)) as [->|Hne]
  end.
  - rewrite list_lookup_alter_eq, Hi. cbn. eauto.
  - rewrite list_lookup_alter_ne by exact Hne. eauto.
Qed.

Lemma advance_reader_item c s i r n :
  items s !! i = Some (ItemR r n) ->
  exists r', items (advance c s) !! i = Some (ItemR r' n).
Proof.
  intros Hi. unfold advance.
  repeat case_match; cbn [items set_items set_ctxs]; [|eauto].
  match goal with
  | |- context [alter item_start ?h _] =>
      destruct (decide (h = i)) as [->|Hne]
  end.
  - rewrite list_lookup_alter_eq, Hi. cbn. eauto.
  - rewrite list_lookup_alter_ne by exact Hne. eauto.
Qed.

(** What the [finally] callback of an acquisition does to its item. *)
Lemma finish_released n a s :
  item_of_kind (items s) a -> released a s (finish n a s).
Proof.
  intros [Hk Ht]. unfold released, finish, next.
  set (s0 := set_acqs (<[n := set_phase Finished a]>)
               (assign_context (a_ctx a) s)).
  assert (Hi0 : items s0 = items s) by reflexivity.
  assert (Hc0 : ctxs s0 = ctxs s) by reflexivity.
  destruct (a_kind a) eqn:Ek; [| |contradiction].
  - apply tag_at_W in Ht as (r & st & Hi). exists r, st.
    unfold next_w. rewrite Hi0, Hi.
    assert (Hlt : (a_item a < length (items s0))%nat)
      by (rewrite Hi0; eapply lookup_lt_Some, Hi).
    destruct (pop_step st) as [rest [w|]] eqn:Ep; cbn [fst snd].
    + exists r. split; [first [reflexivity | exact Hi]|]. split.
      * cbn [items set_acqs set_items]. apply list_lookup_insert_eq.
        exact Hlt.
      * intros x Hx. cbn [acqs set_acqs set_items] in Hx.
        rewrite list_lookup_alter_eq in Hx.
        destruct (acqs s0 !! w); [|discriminate]. injection Hx as <-.
        reflexivity.
    + destruct (advance_writer_item (a_ctx a)
                  (set_items (<[a_item a := ItemW r rest]>) s0)
                  (a_item a) r rest) as [r' Hr'].
      { cbn [items set_items]. apply list_lookup_insert_eq. exact Hlt. }
      exists r'. split; [first [reflexivity | exact Hi]|]. split; [exact Hr'|].
      pose proof (advance_shifted (a_ctx a)
                    (set_items (<[a_item a := ItemW r rest]>) s0)) as Hs.
      unfold shifted in *. cbn [ctxs set_items] in Hs. rewrite Hc0 in Hs.
      exact Hs.
  - apply tag_at_R in Ht as (r & c & Hi).
    unfold next_r. rewrite Hi0, Hi.
    assert (Hlt : (a_item a < length (items s0))%nat)
      by (rewrite Hi0; eapply lookup_lt_Some, Hi).
    case_decide as Hz.
    + destruct (advance_reader_item (a_ctx a)
                  (set_items (<[a_item a := ItemR r (c - 1)]>) s0)
                  (a_item a) r (c - 1)) as [r' Hr'].
      { cbn [items set_items]. apply list_lookup_insert_eq. exact Hlt. }
      exists r, c, r'. split; [first [reflexivity | exact Hi]|]. split; [exact Hr'|].
      intros _.
      pose proof (advance_shifted (a_ctx a)
                    (set_items (<[a_item a := ItemR r (c - 1)]>) s0)) as Hs.
      unfold shifted in *. cbn [ctxs set_items] in Hs. rewrite Hc0 in Hs.
      exact Hs.
    + exists r, c, r. split; [first [reflexivity | exact Hi]|]. split.
      * cbn [items set_items]. apply list_lookup_insert_eq. exact Hlt.
      * intros Hc. contradiction.
Qed.

(** A finished acquisition stays finished. *)
Lemma finished_stays e s s' n a :
  fire e s = Some s' -> acqs s !! n = Some a -> a_phase a = Finished ->
  exists a', acqs s' !! n = Some a' /\ a_phase a' = Finished.
Proof.
  intros Hfire Ha Hp.
  destruct (instance_fire_acq e s s' n a Hfire Ha) as (a' & Ha' & _ & _ & Hs).
  exists a'. split; [exact Ha'|].
  destruct (decide (about e = Some n)) as [Hab|Hab].
  - destruct e as [|k|k sig|m|m|m|m|m]; try discriminate;
      injection Hab as ->; cbn [fire] in Hfire; rewrite Ha in Hfire;
      cbn [mbind option_bind] in Hfire.
    + rewrite Hp in Hfire. discriminate.
    + rewrite Hp in Hfire. discriminate.
    + destruct (a_manual a) as [mm|]; [|discriminate].
      cbn [mbind option_bind] in Hfire.
      destruct (m_result mm), (m_signal mm); try discriminate.
      injection Hfire as <-. cbn [acqs set_acqs] in Ha'.
      rewrite list_lookup_alter_eq, Ha in Ha'. injection Ha' as <-. exact Hp.
    + destruct (a_manual a) as [mm|]; [|discriminate].
      cbn [mbind option_bind] in Hfire.
      destruct (m_result mm); try discriminate.
      injection Hfire as <-. cbn [acqs set_acqs] in Ha'.
      rewrite list_lookup_alter_eq, Ha in Ha'. injection Ha' as <-. exact Hp.
    + destruct (a_manual a) as [mm|]; [|discriminate].
      cbn [mbind option_bind] in Hfire.
      destruct (m_result mm); try discriminate.
      injection Hfire as <-. cbn [acqs set_acqs] in Ha'.
      rewrite list_lookup_alter_eq, Ha in Ha'. injection Ha' as <-. exact Hp.
  - destruct (Hs Hab) as (_ & _ & _ & <- & _). exact Hp.
Qed.

Lemma finished_forever es : forall s s' n a,
  run es s = Some s' -> acqs s !! n = Some a -> a_phase a = Finished ->
  fire (Finish n) s' = None.
Proof.
  induction es as [|e es IH]; intros s s' n a Hrun Ha Hp.
  - injection Hrun as <-. eapply instance_fire_Finish_finished; eauto.
  - cbn [run] in Hrun. destruct (fire e s) as [s1|] eqn:Ef; [|discriminate].
    cbn [mbind option_bind] in Hrun.
    destruct (finished_stays e s s1 n a Ef Ha Hp) as (a1 & Ha1 & Hp1).
    exact (IH s1 s' n a1 Hrun Ha1 Hp1).
Qed.

End InstanceEffects.

(** ** On a mux: what [next] does to the item and the queue of its
    slot, and what it leaves alone *)

Section KeyedEffects.
Import Keyed KeyedInv KeyedReady KeyedEffect.

Lemma alike_refl it : alike it it.
Proof. destruct it; reflexivity. Qed.

Lemma alike_trans a b c : alike a b -> alike b c -> alike a c.
Proof. destruct a, b, c; cbn; congruence || tauto. Qed.

Lemma alike_start it : alike it (item_start it).
Proof. destruct it; reflexivity. Qed.

Lemma alike_tag a b : alike a b -> item_tag a = item_tag b.
Proof. destruct a, b; cbn; tauto || reflexivity. Qed.

Lemma off_refl i q s : off i q s s.
Proof.
  split; [|reflexivity]. intros j _.
  destruct (items s !! j); [apply alike_refl|exact I].
Qed.

Lemma off_same i q s s' :
  items s' = items s -> queues s' = queues s -> off i q s s'.
Proof.
  intros HI HQ. split; [|intros q' _; rewrite HQ; reflexivity].
  intros j _. rewrite HI.
  destruct (items s !! j); [apply alike_refl|exact I].
Qed.

Lemma off_trans i q s1 s2 s3 : off i q s1 s2 -> off i q s2 s3 -> off i q s1 s3.
Proof.
  intros [I1 Q1] [I2 Q2]. split.
  - intros j Hj. specialize (I1 j Hj). specialize (I2 j Hj).
    destruct (items s1 !! j), (items s2 !! j), (items s3 !! j);
      try contradiction; try exact I. eapply alike_trans; eauto.
  - intros q' Hq. rewrite (Q2 q' Hq). exact (Q1 q' Hq).
Qed.

Lemma advance_items key q s :
  items (advance key q s) = items s
  \/ exists h, items (advance key q s) = alter item_start h (items s).
Proof.
  unfold advance.
  repeat case_match; cbn [items set_items set_queues set_partial]; eauto.
Qed.

Lemma off_advance i key q s : off i q s (advance key q s).
Proof.
  split.
  - intros j _. destruct (advance_items key q s) as [->|[h ->]].
    + destruct (items s !! j); [apply alike_refl|exact I].
    + destruct (decide (h = j)) as [->|Hne].
      * rewrite list_lookup_alter_eq.
        destruct (items s !! j); [apply alike_start|exact I].
      * rewrite list_lookup_alter_ne by exact Hne.
        destruct (items s !! j); [apply alike_refl|exact I].
  - intros q' Hq. unfold advance.
    repeat case_match; cbn [queues set_items set_queues set_partial];
      apply list_lookup_alter_ne; congruence.
Qed.

Lemma off_insert i q it s :
  (i < length (items s))%nat -> off i q s (set_items (<[i := it]>) s).
Proof.
  intros Hlt. split; [|reflexivity]. intros j Hj. cbn [items set_items].
  rewrite list_lookup_insert_ne by congruence.
  destruct (items s !! j); [apply alike_refl|exact I].
Qed.

Lemma off_next_w sl s : off (s_item sl) (s_queue sl) s (next_w sl s).
Proof.
  unfold next_w.
  destruct (items s !! s_item sl) as [[r steps|r c|r]|] eqn:E;
    try apply off_refl.
  assert (Hlt : (s_item sl < length (items s))%nat)
    by (eapply lookup_lt_Some, E).
  destruct (pop_step steps) as [rest [w|]].
  - eapply off_trans; [apply off_insert; exact Hlt|].
    apply off_same; reflexivity.
  - eapply off_trans; [apply off_insert; exact Hlt|apply off_advance].
Qed.

Lemma off_next_r sl s : off (s_item sl) (s_queue sl) s (next_r sl s).
Proof.
  unfold next_r.
  destruct (items s !! s_item sl) as [[r steps|r c|r]|] eqn:E;
    try apply off_refl.
  assert (Hlt : (s_item sl < length (items s))%nat)
    by (eapply lookup_lt_Some, E).
  case_decide.
  - eapply off_trans; [apply off_insert; exact Hlt|apply off_advance].
  - apply off_insert. exact Hlt.
Qed.

Lemma advance_queue_shifted key q s : shifted q s (advance key q s).
Proof.
  unfold shifted, advance.
  repeat case_match; cbn [queues set_items set_queues set_partial];
    apply list_lookup_alter_eq.
Qed.

Lemma advance_alike key q s i it :
  items s !! i = Some it ->
  exists it', items (advance key q s) !! i = Some it' /\ alike it it'.
Proof.
  intros Hi. destruct (decide (i = S i)) as [Hx|_]; [lia|].
  destruct (off_advance (S i) key q s) as [HI _].
  specialize (HI i ltac:(lia)). rewrite Hi in HI.
  destruct (items (advance key q s) !! i) as [it'|]; [|contradiction].
  eauto.
Qed.

(** One [next] of [lock]. *)
Lemma next_w_released sl s :
  tag_at (items s) (s_item sl) = Some TW ->
  writer_released sl s (next_w sl s).
Proof.
  intros Ht. apply tag_at_W in Ht as (r & st & Hi). exists r, st.
  unfold next_w. rewrite Hi.
  assert (Hlt : (s_item sl < length (items s))%nat)
    by (eapply lookup_lt_Some, Hi).
  destruct (pop_step st) as [rest [w|]] eqn:Ep; cbn [fst snd].
  - exists r. split; [reflexivity|]. split.
    + cbn [items set_acqs set_items]. apply list_lookup_insert_eq. exact Hlt.
    + intros x sl' Hx Hin Hitem. cbn [acqs set_acqs set_items] in Hx.
      rewrite list_lookup_alter_eq in Hx.
      destruct (acqs s !! w); [|discriminate]. injection Hx as <-.
      cbn [a_slots resolve_step] in Hin.
      apply list_elem_of_fmap in Hin as (sl0 & -> & _).
      destruct (decide (s_item sl0 = s_item sl)) as [E|E]; [reflexivity|].
      contradiction.
  - destruct (advance_alike (s_key sl) (s_queue sl)
                (set_items (<[s_item sl := ItemW r rest]>) s)
                (s_item sl) (ItemW r rest)) as (it' & Hit' & Hal).
    { cbn [items set_items]. apply list_lookup_insert_eq. exact Hlt. }
    destruct it' as [r' st'| |]; try contradiction. cbn in Hal. subst st'.
    exists r'. split; [reflexivity|]. split; [exact Hit'|].
    exact (advance_queue_shifted (s_key sl) (s_queue sl)
             (set_items (<[s_item sl := ItemW r rest]>) s)).
Qed.

(** One [next] of [rLock]. *)
Lemma next_r_released sl s :
  tag_at (items s) (s_item sl) = Some TR ->
  reader_released sl s (next_r sl s).
Proof.
  intros Ht. apply tag_at_R in Ht as (r & c & Hi).
  unfold next_r. rewrite Hi.
  assert (Hlt : (s_item sl < length (items s))%nat)
    by (eapply lookup_lt_Some, Hi).
  case_decide as Hz.
  - destruct (advance_alike (s_key sl) (s_queue sl)
                (set_items (<[s_item sl := ItemR r (c - 1)]>) s)
                (s_item sl) (ItemR r (c - 1))) as (it' & Hit' & Hal).
    { cbn [items set_items]. apply list_lookup_insert_eq. exact Hlt. }
    destruct it' as [|r' c'|]; try contradiction. cbn in Hal. subst c'.
    exists r, c, r'. split; [exact Hi|]. split; [exact Hit'|]. intros _.
    exact (advance_queue_shifted (s_key sl) (s_queue sl)
             (set_items (<[s_item sl := ItemR r (c - 1)]>) s)).
  - exists r, c, r. split; [exact Hi|]. split.
    + cbn [items set_items]. apply list_lookup_insert_eq. exact Hlt.
    + intros Hc. contradiction.
Qed.

Lemma next_one_back k sl s w x :
  acqs (match k with TW => next_w sl s | _ => next_r sl s end) !! w = Some x ->
  exists x1, acqs s !! w = Some x1
    /\ Forall2 slot_kept (a_slots x1) (a_slots x).
Proof.
  intros Hx.
  assert (Hst : kept s (match k with TW => next_w sl s | _ => next_r sl s end))
    by (destruct k; auto using stays_next_w, stays_next_r).
  assert (Hlen : length (acqs s)
                 = length (acqs (match k with
                                 | TW => next_w sl s
                                 | _ => next_r sl s
                                 end))).
  { destruct k; eapply Forall2_length;
      first [apply same_call_next_w | apply same_call_next_r]. }
  destruct (lookup_lt_is_Some_2 (acqs s) w) as [x1 Hx1].
  { rewrite Hlen. eapply lookup_lt_Some, Hx. }
  destruct (proj2 Hst w x1 Hx1) as (x' & Hx' & HS).
  exists x1. split; [exact Hx1|]. congruence.
Qed.

Lemma off_lookup i q s s' j it :
  off i q s s' -> j <> i -> items s !! j = Some it ->
  exists it', items s' !! j = Some it' /\ alike it it'.
Proof.
  intros [HI _] Hj Hit. specialize (HI j Hj). rewrite Hit in HI.
  destruct (items s' !! j) as [it'|]; [eauto|contradiction].
Qed.

Lemma off_lookup_back i q s s' j it' :
  off i q s s' -> j <> i -> items s' !! j = Some it' ->
  exists it, items s !! j = Some it /\ alike it it'.
Proof.
  intros [HI _] Hj Hit. specialize (HI j Hj). rewrite Hit in HI.
  destruct (items s !! j) as [it|]; [eauto|contradiction].
Qed.

Lemma off_tag i q s s' j :
  off i q s s' -> j <> i -> tag_at (items s') j = tag_at (items s) j.
Proof.
  intros [HI _] Hj. specialize (HI j Hj). unfold tag_at.
  destruct (items s !! j), (items s' !! j); try contradiction;
    [|reflexivity].
  cbn. f_equal. symmetry. apply alike_tag. exact HI.
Qed.

(** The work done on a slot is not undone by [next] of a slot on another
    item and another queue. *)
Lemma released_later k sl s s1 s2 i q :
  slot_released k sl s s1 -> off i q s1 s2 ->
  i <> s_item sl -> q <> s_queue sl ->
  (forall w x, acqs s2 !! w = Some x ->
     exists x1, acqs s1 !! w = Some x1
       /\ Forall2 slot_kept (a_slots x1) (a_slots x)) ->
  slot_released k sl s s2.
Proof.
  intros H Hoff Hi Hq Hback.
  assert (Hsh : shifted (s_queue sl) s s1 -> shifted (s_queue sl) s s2).
  { unfold shifted. intros <-. apply (proj2 Hoff). congruence. }
  assert (Hw : writer_released sl s s1 -> writer_released sl s s2).
  { intros (r & st & r1 & H0 & H1 & H2).
    destruct (off_lookup i q s1 s2 _ _ Hoff (not_eq_sym Hi) H1)
      as ([r2 st2| |] & Hit2 & Hal); try contradiction.
    cbn in Hal. subst st2. exists r, st, r2.
    split; [exact H0|]. split; [exact Hit2|].
    destruct ((pop_step st).2) as [w|]; [|auto].
    intros x sl' Hx Hin Hitem.
    destruct (Hback w x Hx) as (x1 & Hx1 & HS).
    apply list_elem_of_lookup in Hin as [p Hp].
    destruct (Forall2_lookup_r _ _ _ _ _ HS Hp) as (sl1 & Hp1 & [E1 E2]).
    apply E2. apply (H2 x1 sl1 Hx1); [|congruence].
    eapply list_elem_of_lookup_2, Hp1. }
  assert (Hr : reader_released sl s s1 -> reader_released sl s s2).
  { intros (r & c & r1 & H0 & H1 & H2).
    destruct (off_lookup i q s1 s2 _ _ Hoff (not_eq_sym Hi) H1)
      as ([|r2 c2|] & Hit2 & Hal); try contradiction.
    cbn in Hal. subst c2. exists r, c, r2.
    split; [exact H0|]. split; [exact Hit2|]. auto. }
  destruct k; cbn [slot_released] in *; auto.
Qed.

(** The work done on a slot after [next] of a slot on another item and
    another queue. *)
Lemma released_earlier k sl s s1 s2 i q :
  slot_released k sl s1 s2 -> off i q s s1 ->
  i <> s_item sl -> q <> s_queue sl ->
  slot_released k sl s s2.
Proof.
  intros H Hoff Hi Hq.
  assert (Hsh : shifted (s_queue sl) s1 s2 -> shifted (s_queue sl) s s2).
  { unfold shifted. intros ->. f_equal. apply (proj2 Hoff). congruence. }
  assert (Hw : writer_released sl s1 s2 -> writer_released sl s s2).
  { intros (r & st & r1 & H0 & H1 & H2).
    destruct (off_lookup_back i q s s1 _ _ Hoff (not_eq_sym Hi) H0)
      as ([r0 st0| |] & Hit0 & Hal); try contradiction.
    cbn in Hal. subst st0. exists r0, st, r1.
    split; [exact Hit0|]. split; [exact H1|].
    destruct ((pop_step st).2) as [w|]; auto. }
  assert (Hr : reader_released sl s1 s2 -> reader_released sl s s2).
  { intros (r & c & r1 & H0 & H1 & H2).
    destruct (off_lookup_back i q s s1 _ _ Hoff (not_eq_sym Hi) H0)
      as ([|r0 c0|] & Hit0 & Hal); try contradiction.
    cbn in Hal. subst c0. exists r0, c, r1.
    split; [exact Hit0|]. split; [exact H1|]. auto. }
  destruct k; cbn [slot_released] in *; auto.
Qed.

Lemma next_one_released k sl s :
  slot_of_kind (items s) k sl ->
  slot_released k sl s (match k with TW => next_w sl s | _ => next_r sl s end).
Proof.
  unfold slot_of_kind. destruct k; cbn [kind_tag slot_released];
    auto using next_w_released, next_r_released.
Qed.

Lemma off_next_one k sl s :
  off (s_item sl) (s_queue sl) s
    (match k with TW => next_w sl s | _ => next_r sl s end).
Proof. destruct k; auto using off_next_w, off_next_r. Qed.

Lemma released_through k sl rest : forall s s1,
  Forall (fun sl' => s_item sl' <> s_item sl /\ s_queue sl' <> s_queue sl)
    rest ->
  slot_released k sl s s1 -> slot_released k sl s (next_all k rest s1).
Proof.
  induction rest as [|sl' rest IH]; intros s s1 Hne H; [exact H|].
  apply Forall_cons in Hne as [[Hi Hq] Hne].
  unfold next_all. cbn [foldl].
  apply (IH s _ Hne).
  eapply released_later;
    [exact H|apply (off_next_one k sl' s1)|exact Hi|exact Hq|].
  intros w x. apply next_one_back.
Qed.

(** [nextFuncList.forEach(next => next())] over slots on pairwise
    different items and queues does the work of [next] on each of them. *)
Lemma next_all_released k sls : forall s,
  apart sls -> Forall (slot_of_kind (items s) k) sls ->
  released k sls s (next_all k sls s).
Proof.
  induction sls as [|sl rest IH]; intros s [Hi Hq] Hk; [constructor|].
  cbn [fmap list_fmap] in Hi, Hq.
  apply NoDup_cons in Hi as [Hi1 Hi]. apply NoDup_cons in Hq as [Hq1 Hq].
  apply Forall_cons in Hk as [Hk1 Hk].
  assert (Hne : Forall (fun sl' => s_item sl' <> s_item sl
                                   /\ s_queue sl' <> s_queue sl) rest).
  { apply Forall_forall. intros sl' Hin. split; intros E.
    - apply Hi1. rewrite <- E. apply list_elem_of_fmap_2. exact Hin.
    - apply Hq1. rewrite <- E. apply list_elem_of_fmap_2. exact Hin. }
  set (s1 := match k with TW => next_w sl s | _ => next_r sl s end).
  assert (Hoff : off (s_item sl) (s_queue sl) s s1)
    by apply off_next_one.
  change (next_all k (sl :: rest) s) with (next_all k rest s1).
  constructor.
  - apply released_through; [exact Hne|]. apply next_one_released. exact Hk1.
  - assert (Hk' : Forall (slot_of_kind (items s1) k) rest).
    { rewrite Forall_forall in *. intros sl' Hin. unfold slot_of_kind.
      rewrite (off_tag _ _ s s1 _ Hoff (proj1 (Hne sl' Hin))).
      exact (Hk sl' Hin). }
    pose proof (IH s1 (conj Hi Hq) Hk') as Hrest.
    unfold released in *. rewrite Forall_forall in *. intros sl' Hin.
    destruct (Hne sl' Hin) as [E1 E2].
    eapply released_earlier; [exact (Hrest sl' Hin)|exact Hoff| |];
      congruence.
Qed.

(** The release reaction, when it runs, does the work of [next] on every
    slot of the call. *)
Lemma fire_Release_effect s n a s3 :
  acqs s !! n = Some a -> fire (Release n) s = Some s3 ->
  apart (a_slots a) -> Forall (slot_of_kind (items s) (a_kind a)) (a_slots a) ->
  released (a_kind a) (a_slots a) s s3.
Proof.
  intros Ha Hfire Hap Hk. rewrite (fire_Release_eq s n a Ha) in Hfire.
  destruct (acq_ready s a && Lock.resolved (a_lock a) && negb (a_released a));
    [|discriminate].
  injection Hfire as <-.
  exact (next_all_released (a_kind a) (a_slots a)
           (set_acqs (<[n := set_released a]>) s) Hap Hk).
Qed.

End KeyedEffects.

(** ** On a mux: the slots of one call are on different items and
    queues *)

Section KeyedApartSteps.
Import Keyed KeyedMap KeyedEffect KeyedApart.

Lemma same_tags_kept s s' : same_tags s s' -> tags_kept s s'.
Proof. intros [_ H] j _. apply H. Qed.

Lemma tags_kept_refl s : tags_kept s s.
Proof. intros j _. reflexivity. Qed.

Lemma tags_kept_trans s1 s2 s3 :
  tags_kept s1 s2 -> tags_kept s2 s3 -> tags_kept s1 s3.
Proof.
  intros H1 H2 j Hj. rewrite H2; [auto|]. rewrite H1; assumption.
Qed.

Lemma same_tags_insert i it s :
  (forall old, items s !! i = Some old -> item_tag it = item_tag old) ->
  same_tags s (set_items (<[i := it]>) s).
Proof.
  intros H. split; [apply length_insert|]. intros j. cbn [items set_items].
  apply tag_at_insert. exact H.
Qed.

Lemma same_tags_start h s : same_tags s (set_items (alter item_start h) s).
Proof.
  split; [apply length_alter|]. intros j. apply tag_at_start.
Qed.

Lemma queues_apart_items s s' :
  queues_apart s -> same_tags s s' -> queues s' = queues s ->
  partialQueue s' = partialQueue s -> queues_apart s'.
Proof.
  intros (H1 & H2 & H3) [HL HT] HQ HP. split; [rewrite HP; exact H1|].
  split.
  - intros q l i Hl Hi. rewrite HL. rewrite HQ in Hl. eauto.
  - intros q1 q2 l1 l2 i Hne Hl1 Hl2 Hi1 Hi2. rewrite HT.
    rewrite HQ in Hl1, Hl2. eauto.
Qed.

Lemma queues_apart_shift q s :
  queues_apart s -> queues_apart (set_queues (alter (drop 1) q) s).
Proof.
  intros (H1 & H2 & H3). split; [exact H1|].
  assert (Hsub : forall q' l i,
    alter (drop 1) q (queues s) !! q' = Some l -> i ∈ l ->
    exists l0, queues s !! q' = Some l0 /\ i ∈ l0).
  { intros q' l i Hl Hi. destruct (decide (q = q')) as [->|Hne].
    - rewrite list_lookup_alter_eq in Hl.
      destruct (queues s !! q') as [l0|]; [|discriminate].
      injection Hl as <-. exists l0. split; [reflexivity|].
      destruct l0; [exact Hi|]. cbn [drop] in Hi. rewrite drop_0 in Hi.
      apply list_elem_of_further. exact Hi.
    - rewrite list_lookup_alter_ne in Hl by exact Hne. eauto. }
  split.
  - intros q' l i Hl Hi. cbn [queues items set_queues] in *.
    destruct (Hsub q' l i Hl Hi) as (l0 & Hl0 & Hi0). eauto.
  - intros q1 q2 l1 l2 i Hne Hl1 Hl2 Hi1 Hi2.
    cbn [queues items set_queues] in *.
    destruct (Hsub q1 l1 i Hl1 Hi1) as (m1 & Hm1 & Hj1).
    destruct (Hsub q2 l2 i Hl2 Hi2) as (m2 & Hm2 & Hj2). eauto.
Qed.

Lemma queues_apart_delete k s :
  queues_apart s -> queues_apart (set_partial (map_delete k) s).
Proof.
  intros (H1 & H2 & H3). split; [|split; assumption].
  cbn [partialQueue set_partial]. unfold map_delete.
  induction (partialQueue s) as [|e m IH]; [constructor|].
  cbn [fmap list_fmap] in H1. apply NoDup_cons in H1 as [Hn Hm].
  destruct (decide (e.1 ≠ k)) as [Hk|Hk].
  - rewrite filter_cons_True by exact Hk. cbn [fmap list_fmap].
    apply NoDup_cons. split; [|auto]. intros Hin. apply Hn.
    apply list_elem_of_fmap in Hin as (x & -> & Hx).
    apply list_elem_of_filter in Hx as [_ Hx].
    apply list_elem_of_fmap_2. exact Hx.
  - rewrite filter_cons_False by exact Hk. auto.
Qed.

Lemma queues_apart_advance key q s :
  queues_apart s -> queues_apart (advance key q s).
Proof.
  intros H. unfold advance.
  pose proof (queues_apart_shift q s H) as H1.
  destruct (queues (set_queues (alter (drop 1) q) s) !! q ≫= head) as [h|].
  - eapply queues_apart_items;
      [exact H1|apply same_tags_start|reflexivity|reflexivity].
  - destruct key; [apply queues_apart_delete|]; exact H1.
Qed.

Lemma tags_kept_advance key q s : tags_kept s (advance key q s).
Proof.
  intros j _. destruct (advance_items key q s) as [->|[h ->]];
    [reflexivity|apply tag_at_start].
Qed.

Lemma queues_apart_push q it s :
  queues_apart s -> queues_apart (push_item q it s).
Proof.
  intros (H1 & H2 & H3). split; [exact H1|].
  assert (Hmem : forall q' l i,
    queues (push_item q it s) !! q' = Some l -> i ∈ l ->
    (exists l0, queues s !! q' = Some l0 /\ i ∈ l0)
    \/ (q' = q /\ i = length (items s))).
  { intros q' l i Hl Hi. unfold push_item in Hl.
    cbn [queues set_queues set_items] in Hl.
    destruct (decide (q = q')) as [->|Hne].
    - rewrite list_lookup_alter_eq in Hl.
      destruct (queues s !! q') as [l0|]; [|discriminate].
      injection Hl as <-. apply elem_of_app in Hi as [Hi|Hi]; [eauto|].
      apply list_elem_of_singleton in Hi. auto.
    - rewrite list_lookup_alter_ne in Hl by exact Hne. eauto. }
  assert (Hlen : length (items (push_item q it s)) = S (length (items s))).
  { unfold push_item. cbn [items set_queues set_items]. rewrite length_app.
    cbn [length]. lia. }
  split.
  - intros q' l i Hl Hi. rewrite Hlen.
    destruct (Hmem q' l i Hl Hi) as [(l0 & Hl0 & Hi0)|[_ ->]]; [|lia].
    pose proof (H2 q' l0 i Hl0 Hi0). lia.
  - intros q1 q2 l1 l2 i Hne Hl1 Hl2 Hi1 Hi2.
    destruct (Hmem q1 l1 i Hl1 Hi1) as [(m1 & Hm1 & Hj1)|[E1 F1]];
      destruct (Hmem q2 l2 i Hl2 Hi2) as [(m2 & Hm2 & Hj2)|[E2 F2]].
    + unfold push_item. cbn [items set_queues set_items].
      rewrite tag_at_app; [eauto|]. rewrite (H3 q1 q2 m1 m2 i); eauto.
    + pose proof (H2 q1 m1 _ Hm1 Hj1). lia.
    + pose proof (H2 q2 m2 _ Hm2 Hj2). lia.
    + congruence.
Qed.

Lemma tags_kept_push q it s : tags_kept s (push_item q it s).
Proof.
  intros j Hj. unfold push_item. cbn [items set_queues set_items].
  apply tag_at_app. exact Hj.
Qed.

Lemma slots_ok_tags s s' :
  slots_ok s -> tags_kept s s' -> acqs s' = acqs s -> slots_ok s'.
Proof.
  intros H HT HA. unfold slots_ok in *. rewrite HA.
  eapply Forall_impl; [exact H|]. intros a [Hap Hk]. split; [exact Hap|].
  eapply Forall_impl; [exact Hk|]. intros sl Hsl. unfold slot_of_kind in *.
  rewrite HT; [exact Hsl|]. rewrite Hsl. eauto.
Qed.

Lemma slots_ok_resolve i w s :
  slots_ok s -> slots_ok (set_acqs (alter (resolve_step i) w) s).
Proof.
  intros H. unfold slots_ok in *. cbn [acqs items set_acqs].
  apply Forall_alter; [exact H|]. intros a _ [[Hi Hq] Hk].
  cbn [a_slots a_kind resolve_step].
  assert (Ei : s_item <$> ((fun sl => if decide (s_item sl = i)
                  then mkSlot (s_key sl) (s_queue sl) (s_item sl) true
                  else sl) <$> a_slots a) = s_item <$> a_slots a).
  { rewrite <- list_fmap_compose. apply list_fmap_ext. intros ? sl _. cbn.
    destruct (decide (s_item sl = i)); reflexivity. }
  assert (Eq : s_queue <$> ((fun sl => if decide (s_item sl = i)
                  then mkSlot (s_key sl) (s_queue sl) (s_item sl) true
                  else sl) <$> a_slots a) = s_queue <$> a_slots a).
  { rewrite <- list_fmap_compose. apply list_fmap_ext. intros ? sl _. cbn.
    destruct (decide (s_item sl = i)); reflexivity. }
  split; [split; [rewrite Ei|rewrite Eq]; assumption|].
  apply Forall_fmap. eapply Forall_impl; [exact Hk|]. intros sl Hsl.
  unfold slot_of_kind in *. cbn.
  destruct (decide (s_item sl = i)); exact Hsl.
Qed.

Lemma slots_ok_insert n x x' s :
  acqs s !! n = Some x -> a_slots x' = a_slots x -> a_kind x' = a_kind x ->
  slots_ok s -> slots_ok (set_acqs (<[n := x']>) s).
Proof.
  intros Hx Hs Hk H. unfold slots_ok in *. cbn [acqs items set_acqs].
  apply Forall_insert; [exact H|]. rewrite Hs, Hk.
  exact (Forall_lookup_1 _ _ _ _ H Hx).
Qed.

Lemma queues_apart_acqs f s : queues_apart s -> queues_apart (set_acqs f s).
Proof. intros H. exact H. Qed.

Lemma queues_apart_barriers f s :
  queues_apart s -> queues_apart (set_barriers f s).
Proof. intros H. exact H. Qed.

Lemma apart_next_w sl s :
  queues_apart s /\ slots_ok s ->
  queues_apart (next_w sl s) /\ slots_ok (next_w sl s).
Proof.
  intros [HQ HS]. unfold next_w.
  destruct (items s !! s_item sl) as [[r steps|r c|r]|] eqn:E; auto.
  assert (Hst : same_tags s
                  (set_items (<[s_item sl := ItemW r (pop_step steps).1]>) s)).
  { apply same_tags_insert. intros old Ho. rewrite E in Ho.
    injection Ho as <-. reflexivity. }
  assert (H1 : queues_apart
                 (set_items (<[s_item sl := ItemW r (pop_step steps).1]>) s))
    by (eapply queues_apart_items; eauto).
  assert (H2 : slots_ok
                 (set_items (<[s_item sl := ItemW r (pop_step steps).1]>) s))
    by (eapply slots_ok_tags; [exact HS|apply same_tags_kept, Hst|reflexivity]).
  destruct (pop_step steps) as [rest [w|]]; cbn [fst] in *.
  - split; [exact H1|apply slots_ok_resolve; exact H2].
  - split; [apply queues_apart_advance; exact H1|].
    eapply slots_ok_tags;
      [exact H2|apply tags_kept_advance|apply acqs_advance].
Qed.

Lemma apart_next_r sl s :
  queues_apart s /\ slots_ok s ->
  queues_apart (next_r sl s) /\ slots_ok (next_r sl s).
Proof.
  intros [HQ HS]. unfold next_r.
  destruct (items s !! s_item sl) as [[r steps|r c|r]|] eqn:E; auto.
  assert (Hst : same_tags s
                  (set_items (<[s_item sl := ItemR r (c - 1)]>) s)).
  { apply same_tags_insert. intros old Ho. rewrite E in Ho.
    injection Ho as <-. reflexivity. }
  assert (H1 : queues_apart (set_items (<[s_item sl := ItemR r (c - 1)]>) s))
    by (eapply queues_apart_items; eauto).
  assert (H2 : slots_ok (set_items (<[s_item sl := ItemR r (c - 1)]>) s))
    by (eapply slots_ok_tags; [exact HS|apply same_tags_kept, Hst|reflexivity]).
  case_decide; [|auto].
  split; [apply queues_apart_advance; exact H1|].
  eapply slots_ok_tags; [exact H2|apply tags_kept_advance|apply acqs_advance].
Qed.

Lemma apart_next_all k sls : forall s,
  queues_apart s /\ slots_ok s ->
  queues_apart (next_all k sls s) /\ slots_ok (next_all k sls s).
Proof.
  unfold next_all. induction sls as [|sl sls IH]; intros s H; [exact H|].
  cbn [foldl]. apply IH. destruct k; auto using apart_next_w, apart_next_r.
Qed.

(** One turn of the loop of [lock] or [rLock] either writes the last
    item of the queue again or pushes a fresh item. *)
Lemma arrive_w_shape a key q s :
  (exists l r st it' b,
     last (default [] (queues s !! q)) = Some l
     /\ items s !! l = Some (ItemW r st) /\ item_tag it' = TW
     /\ arrive_w a (key, q) s
        = (set_items (<[l := it']>) s, mkSlot key q l b))
  \/ (exists it' b,
        item_tag it' = TW
        /\ arrive_w a (key, q) s
           = (push_item q it' s, mkSlot key q (length (items s)) b)).
Proof.
  unfold arrive_w.
  assert (Hpush : forall r0,
    exists it' b, item_tag it' = TW
      /\ match items (push_item q (ItemW r0 []) s) !! length (items s) with
         | Some (ItemW r []) =>
             (set_items (<[length (items s) := ItemW r [StepNext]]>)
                (push_item q (ItemW r0 []) s),
              mkSlot key q (length (items s)) true)
         | Some (ItemW r steps) =>
             (set_items (<[length (items s) :=
                             ItemW r (steps ++ [StepResolve a])]>)
                (push_item q (ItemW r0 []) s),
              mkSlot key q (length (items s)) false)
         | _ => (push_item q (ItemW r0 []) s,
                 mkSlot key q (length (items s)) false)
         end
         = (push_item q it' s, mkSlot key q (length (items s)) b)).
  { intros r0. rewrite lookup_push_fresh. rewrite push_then_set.
    exists (ItemW r0 [StepNext]), true. split; reflexivity. }
  destruct (last (default [] (queues s !! q))) as [l|] eqn:El.
  - destruct (items s !! l) as [[r st|r c|r]|] eqn:Eit;
      try (right; apply Hpush).
    left. rewrite Eit. destruct st as [|st0 st].
    + exists l, r, [], (ItemW r [StepNext]), true. auto.
    + exists l, r, (st0 :: st),
        (ItemW r ((st0 :: st) ++ [StepResolve a])), false. auto.
  - right. apply Hpush.
Qed.

Lemma arrive_r_shape a key q s :
  (exists l r c it' b,
     last (default [] (queues s !! q)) = Some l
     /\ items s !! l = Some (ItemR r c) /\ item_tag it' = TR
     /\ arrive_r a (key, q) s
        = (set_items (<[l := it']>) s, mkSlot key q l b))
  \/ (exists it' b,
        item_tag it' = TR
        /\ arrive_r a (key, q) s
           = (push_item q it' s, mkSlot key q (length (items s)) b)).
Proof.
  unfold arrive_r.
  assert (Hpush : forall r0,
    exists it' b, item_tag it' = TR
      /\ match items (push_item q (ItemR r0 0) s) !! length (items s) with
         | Some (ItemR r n) =>
             (set_items (<[length (items s) := ItemR r (n + 1)]>)
                (push_item q (ItemR r0 0) s),
              mkSlot key q (length (items s)) true)
         | _ => (push_item q (ItemR r0 0) s,
                 mkSlot key q (length (items s)) true)
         end
         = (push_item q it' s, mkSlot key q (length (items s)) b)).
  { intros r0. rewrite lookup_push_fresh. rewrite push_then_set.
    exists (ItemR r0 (0 + 1)), true. split; reflexivity. }
  destruct (last (default [] (queues s !! q))) as [l|] eqn:El.
  - destruct (items s !! l) as [[r st|r c|r]|] eqn:Eit;
      try (right; apply Hpush).
    left. rewrite Eit.
    exists l, r, c, (ItemR r (c + 1)), true. auto.
  - right. apply Hpush.
Qed.

Lemma arrive_shape kd a key q s :
  (exists l it0 it' b,
     last (default [] (queues s !! q)) = Some l
     /\ items s !! l = Some it0 /\ item_tag it0 = kind_tag kd
     /\ item_tag it' = kind_tag kd
     /\ match kd with
        | TW => arrive_w a (key, q) s
        | _ => arrive_r a (key, q) s
        end = (set_items (<[l := it']>) s, mkSlot key q l b))
  \/ (exists it' b,
        item_tag it' = kind_tag kd
        /\ match kd with
           | TW => arrive_w a (key, q) s
           | _ => arrive_r a (key, q) s
           end = (push_item q it' s, mkSlot key q (length (items s)) b)).
Proof.
  destruct kd; cbn [kind_tag].
  - destruct (arrive_w_shape a key q s)
      as [(l & r & st & it' & b & H1 & H2 & H3 & H4)|(it' & b & H1 & H2)];
      [left; exists l, (ItemW r st), it', b|right; exists it', b]; auto.
  - destruct (arrive_r_shape a key q s)
      as [(l & r & c & it' & b & H1 & H2 & H3 & H4)|(it' & b & H1 & H2)];
      [left; exists l, (ItemR r c), it', b|right; exists it', b]; auto.
  - destruct (arrive_r_shape a key q s)
      as [(l & r & c & it' & b & H1 & H2 & H3 & H4)|(it' & b & H1 & H2)];
      [left; exists l, (ItemR r c), it', b|right; exists it', b]; auto.
Qed.

Lemma members_kept_refl s : members_kept s s.
Proof. intros q l i Hl Hi. eauto. Qed.

Lemma members_kept_trans s1 s2 s3 :
  members_kept s1 s2 -> members_kept s2 s3 -> members_kept s1 s3.
Proof.
  intros H1 H2 q l i Hl Hi. destruct (H1 q l i Hl Hi) as (l' & Hl' & Hi').
  eauto.
Qed.

Lemma members_kept_push q it s : members_kept s (push_item q it s).
Proof.
  intros q' l i Hl Hi. unfold push_item. cbn [queues set_queues set_items].
  destruct (decide (q = q')) as [->|Hne].
  - rewrite list_lookup_alter_eq, Hl. eexists. split; [reflexivity|].
    apply elem_of_app. auto.
  - rewrite list_lookup_alter_ne by exact Hne. eauto.
Qed.

(** One turn of the loop, on a queue array of the store. *)
Lemma apart_arrive kd a key q s :
  (q < length (queues s))%nat -> queues_apart s ->
  let r := match kd with
           | TW => arrive_w a (key, q) s
           | _ => arrive_r a (key, q) s
           end in
  queues_apart r.1 /\ tags_kept s r.1 /\ acqs r.1 = acqs s
  /\ members_kept s r.1 /\ length (queues r.1) = length (queues s)
  /\ s_queue r.2 = q /\ slot_of_kind (items r.1) kd r.2
  /\ slot_queued r.1 r.2.
Proof.
  intros Hq HQ.
  destruct (arrive_shape kd a key q s)
    as [(l & it0 & it' & b & H1 & H2 & H3 & H4 & ->)|(it' & b & H1 & ->)];
    cbn [fst snd s_queue s_item].
  - assert (Hst : same_tags s (set_items (<[l := it']>) s)).
    { apply same_tags_insert. intros old Ho. congruence. }
    split; [eapply queues_apart_items; eauto|].
    split; [apply same_tags_kept, Hst|]. split; [reflexivity|].
    split; [intros q' l' i Hl Hi; exists l'; auto|]. split; [reflexivity|].
    split; [reflexivity|]. split.
    + unfold slot_of_kind, tag_at. cbn [s_item items set_items].
      rewrite list_lookup_insert_eq by (eapply lookup_lt_Some, H2).
      cbn. congruence.
    + unfold slot_queued. cbn [s_queue s_item queues set_items].
      destruct (queues s !! q) as [ql|]; [|discriminate].
      exists ql. split; [reflexivity|]. cbn [default from_option id] in H1.
      rewrite last_lookup in H1. eapply list_elem_of_lookup_2, H1.
  - split; [apply queues_apart_push; exact HQ|].
    split; [apply tags_kept_push|]. split; [reflexivity|].
    split; [apply members_kept_push|]. split.
    { unfold push_item. cbn [queues set_queues set_items].
      apply length_alter. }
    split; [reflexivity|]. split.
    + unfold slot_of_kind. cbn [s_item]. unfold push_item.
      cbn [items set_queues set_items]. rewrite tag_at_new. congruence.
    + unfold slot_queued, push_item.
      cbn [s_queue s_item queues set_queues set_items].
      destruct (lookup_lt_is_Some_2 (queues s) q Hq) as [ql Hql].
      rewrite list_lookup_alter_eq, Hql. eexists. split; [reflexivity|].
      apply elem_of_app. right. apply list_elem_of_here.
Qed.

Lemma kind_tag_not_barrier kd : kind_tag kd <> TG.
Proof. destruct kd; discriminate. Qed.

(** The loop of [lock] or [rLock] over entries on pairwise different
    queue arrays. *)
Lemma apart_arrive_all kd a es : forall s,
  queues_apart s -> Forall (fun e => (e.2 < length (queues s))%nat) es ->
  NoDup es.*2 ->
  let r := arrive_all kd a es s in
  queues_apart r.1 /\ tags_kept s r.1 /\ acqs r.1 = acqs s
  /\ members_kept s r.1 /\ length (queues r.1) = length (queues s)
  /\ s_queue <$> r.2 = es.*2
  /\ Forall (slot_of_kind (items r.1) kd) r.2
  /\ Forall (slot_queued r.1) r.2
  /\ NoDup (s_item <$> r.2).
Proof.
  induction es as [|[key q] es IH]; intros s HQ Hb Hn; cbn zeta.
  - cbn [arrive_all fst snd fmap list_fmap]. split; [exact HQ|].
    split; [apply tags_kept_refl|]. split; [reflexivity|].
    split; [apply members_kept_refl|]. split; [reflexivity|].
    split; [reflexivity|]. repeat split; constructor.
  - apply Forall_cons in Hb as [Hq Hb]. cbn [snd] in Hq.
    cbn [fmap list_fmap snd] in Hn. apply NoDup_cons in Hn as [Hq1 Hn].
    cbn [arrive_all].
    pose proof (apart_arrive kd a key q s Hq HQ) as H1. cbn zeta in H1.
    destruct (match kd with
              | TW => arrive_w a (key, q) s
              | _ => arrive_r a (key, q) s
              end) as [s1 sl].
    cbn [fst snd] in H1.
    destruct H1 as (Q1 & T1 & A1 & M1 & L1 & E1 & K1 & S1).
    assert (Hb1 : Forall (fun e : option string * nat =>
                            (e.2 < length (queues s1))%nat) es)
      by (rewrite L1; exact Hb).
    specialize (IH s1 Q1 Hb1 Hn). cbn zeta in IH.
    destruct (arrive_all kd a es s1) as [s2 sls]. cbn [fst snd] in *.
    destruct IH as (Q2 & T2 & A2 & M2 & L2 & E2 & K2 & S2 & N2).
    split; [exact Q2|]. split; [eapply tags_kept_trans; eauto|].
    split; [congruence|]. split; [eapply members_kept_trans; eauto|].
    split; [congruence|]. cbn [fmap list_fmap].
    split; [rewrite E1, E2; reflexivity|].
    assert (K1' : slot_of_kind (items s2) kd sl).
    { unfold slot_of_kind in *. rewrite T2; [exact K1|]. rewrite K1. eauto. }
    assert (S1' : slot_queued s2 sl).
    { destruct S1 as (l & Hl & Hi). destruct (M2 _ _ _ Hl Hi) as (l' & ? & ?).
      exists l'. auto. }
    split; [constructor; assumption|]. split; [constructor; assumption|].
    apply NoDup_cons. split; [|exact N2]. intros Hin.
    apply list_elem_of_fmap in Hin as (sl' & Eit & Hin').
    rewrite Forall_forall in K2, S2.
    destruct (S2 sl' Hin') as (l' & Hl' & Hi').
    destruct S1' as (l & Hl & Hi).
    assert (Hne : s_queue sl <> s_queue sl').
    { intros E. apply Hq1. rewrite <- E2, <- E1, E.
      apply list_elem_of_fmap_2. exact Hin'. }
    destruct Q2 as (_ & _ & Hsh).
    rewrite Eit in Hi.
    pose proof (Hsh _ _ _ _ _ Hne Hl Hl' Hi Hi') as Hg.
    pose proof (K2 sl' Hin') as Hk. unfold slot_of_kind in Hk.
    rewrite Hg in Hk. injection Hk as Hk.
    exact (kind_tag_not_barrier kd (eq_sym Hk)).
Qed.

Lemma apart_new_queue k g s :
  map_ok s -> queues_apart s -> tag_at (items s) g = Some TG ->
  queues_apart
    (set_partial (fun m => m ++ [(k, length (queues s))])
       (set_barriers (fun l => l ++ [mkBarrier g (length (queues s)) k false])
          (set_queues (fun l => l ++ [[g]]) s))).
Proof.
  intros [M1 M2] (H1 & H2 & H3) Hg.
  assert (Hmem : forall q l i,
    (queues s ++ [[g]]) !! q = Some l -> i ∈ l ->
    queues s !! q = Some l \/ (q = length (queues s) /\ i = g)).
  { intros q l i Hl Hi. apply lookup_app_Some in Hl as [Hl|[Hge Hl]]; [auto|].
    right. destruct (q - length (queues s))%nat eqn:E; [|discriminate].
    injection Hl as <-. apply list_elem_of_singleton in Hi.
    split; [lia|exact Hi]. }
  split; [|split];
    cbn [partialQueue queues items set_partial set_barriers set_queues].
  - rewrite fmap_app. cbn [fmap list_fmap snd]. apply NoDup_app.
    split; [exact H1|]. split; [|apply NoDup_singleton].
    intros x Hx Hx'. apply list_elem_of_singleton in Hx'. subst x.
    apply list_elem_of_fmap in Hx as (e & He & Hin).
    rewrite Forall_forall in M2. pose proof (M2 e Hin). lia.
  - intros q l i Hl Hi. destruct (Hmem q l i Hl Hi) as [Hl0|[_ ->]]; [eauto|].
    unfold tag_at in Hg. destruct (items s !! g) eqn:E; [|discriminate].
    eapply lookup_lt_Some, E.
  - intros q1 q2 l1 l2 i Hne Hl1 Hl2 Hi1 Hi2.
    destruct (Hmem q1 l1 i Hl1 Hi1) as [Hm1|[E1 ->]]; [|exact Hg].
    destruct (Hmem q2 l2 i Hl2 Hi2) as [Hm2|[E2 ->]]; [eauto|exact Hg].
Qed.

(** [#getQueueEntries]: the entries are on pairwise different queue
    arrays of the store. *)
Lemma apart_entries key s :
  map_ok s -> queues_apart s ->
  let r := getQueueEntries key s in
  queues_apart r.1 /\ tags_kept s r.1 /\ acqs r.1 = acqs s
  /\ Forall (fun e => (e.2 < length (queues r.1))%nat) r.2
  /\ NoDup r.2.*2.
Proof.
  intros HM HQ. cbn zeta. unfold getQueueEntries.
  destruct key as [k|].
  - destruct (map_get k (partialQueue s)) as [q|] eqn:E.
    + cbn [fst snd]. split; [exact HQ|]. split; [apply tags_kept_refl|].
      split; [reflexivity|]. split.
      * apply Forall_singleton. cbn [snd].
        apply map_get_Some in E as (e & He & <-).
        destruct HM as [_ HM]. rewrite Forall_forall in HM.
        pose proof (HM e He). lia.
      * cbn [fmap list_fmap snd]. apply NoDup_singleton.
    + assert (Hfin : forall g s1,
        map_ok s1 -> queues_apart s1 -> tags_kept s s1 ->
        acqs s1 = acqs s -> tag_at (items s1) g = Some TG ->
        let r := (set_partial (fun m => m ++ [(k, length (queues s1))])
                    (set_barriers
                       (fun l => l ++ [mkBarrier g (length (queues s1)) k
                                         false])
                       (set_queues (fun l => l ++ [[g]]) s1)),
                  [(Some k, length (queues s1))]) in
        queues_apart r.1 /\ tags_kept s r.1 /\ acqs r.1 = acqs s
        /\ Forall (fun e : option string * nat =>
                     (e.2 < length (queues r.1))%nat) r.2
        /\ NoDup r.2.*2).
      { intros g s1 M1 Q1 T1 A1 Hg. cbn zeta. cbn [fst snd].
        split; [apply apart_new_queue; assumption|].
        split; [exact T1|]. split; [exact A1|]. split.
        - apply Forall_singleton.
          cbn [snd queues set_partial set_barriers set_queues].
          rewrite length_app. cbn [length]. lia.
        - cbn [fmap list_fmap snd]. apply NoDup_singleton. }
      assert (Hpush : forall r0,
        let r := (set_partial
                    (fun m => m ++ [(k, length (queues
                       (push_item globalQueue (ItemG r0) s)))])
                    (set_barriers
                       (fun l => l ++ [mkBarrier (length (items s))
                          (length (queues (push_item globalQueue (ItemG r0) s)))
                          k false])
                       (set_queues (fun l => l ++ [[length (items s)]])
                          (push_item globalQueue (ItemG r0) s))),
                  [(Some k, length (queues
                      (push_item globalQueue (ItemG r0) s)))]) in
        queues_apart r.1 /\ tags_kept s r.1 /\ acqs r.1 = acqs s
        /\ Forall (fun e : option string * nat =>
                     (e.2 < length (queues r.1))%nat) r.2
        /\ NoDup r.2.*2).
      { intros r0. apply Hfin.
        - apply map_ok_push. exact HM.
        - apply queues_apart_push. exact HQ.
        - apply tags_kept_push.
        - reflexivity.
        - unfold push_item. cbn [items set_queues set_items].
          apply tag_at_new. }
      destruct (last (default [] (queues s !! globalQueue))) as [i|].
      * destruct (items s !! i) as [[r st|r c|r]|] eqn:Ei;
          try apply Hpush.
        apply Hfin; [exact HM|exact HQ|apply tags_kept_refl|reflexivity|].
        unfold tag_at. rewrite Ei. reflexivity.
      * apply Hpush.
  - destruct (partialQueue s) as [|e m] eqn:E; cbn [fst snd].
    + split; [exact HQ|]. split; [apply tags_kept_refl|].
      split; [reflexivity|]. split.
      * apply Forall_singleton. cbn [snd]. unfold globalQueue.
        destruct HM as [HM _]. lia.
      * cbn [fmap list_fmap snd]. apply NoDup_singleton.
    + split; [exact HQ|]. split; [apply tags_kept_refl|].
      split; [reflexivity|].
      destruct HM as [_ HM]. destruct HQ as (HN & _ & _).
      rewrite E in HM, HN. split.
      * apply Forall_fmap. eapply Forall_impl; [exact HM|].
        intros x Hx. cbn in *. lia.
      * rewrite <- list_fmap_compose.
        replace (snd ∘ (fun e0 : string * nat => (Some e0.1, e0.2)))
          with (@snd string nat) by reflexivity.
        exact HN.
Qed.

(** A call of [lock] or [rLock]. *)
Lemma apart_acquire kd key sig s :
  map_ok s -> queues_apart s /\ slots_ok s ->
  queues_apart (acquire kd key sig s).1 /\ slots_ok (acquire kd key sig s).1.
Proof.
  intros HM [HQ HS]. unfold acquire.
  assert (Hmain :
    let r := (let '(s1, entries) := getQueueEntries key s in
              let '(s2, slots) :=
                arrive_all kd (length (acqs s)) entries s1 in
              (set_acqs (fun l => l ++
                 [mkAcquirer kd slots Pending Lock.create (reason <$> sig)
                    false]) s2,
               @inl nat error (length (acqs s)))) in
    queues_apart r.1 /\ slots_ok r.1).
  { cbn zeta.
    pose proof (apart_entries key s HM HQ) as H1. cbn zeta in H1.
    destruct (getQueueEntries key s) as [s1 es]. cbn [fst snd] in H1.
    destruct H1 as (Q1 & T1 & A1 & B1 & N1).
    pose proof (apart_arrive_all kd (length (acqs s)) es s1 Q1 B1 N1) as H2.
    cbn zeta in H2.
    destruct (arrive_all kd (length (acqs s)) es s1) as [s2 sls].
    cbn [fst snd] in *.
    destruct H2 as (Q2 & T2 & A2 & _ & _ & E2 & K2 & _ & N2).
    split; [exact Q2|].
    assert (HS2 : slots_ok s2).
    { eapply slots_ok_tags; [exact HS| |congruence].
      eapply tags_kept_trans; eauto. }
    unfold slots_ok in *. cbn [acqs items set_acqs].
    apply Forall_app. split; [exact HS2|].
    apply Forall_singleton. cbn [a_slots a_kind].
    split; [|exact K2]. split; [exact N2|]. rewrite E2. exact N1. }
  destruct sig as [[[] r]|]; [auto|exact Hmain|exact Hmain].
Qed.

Lemma apart_step e s s' :
  map_ok s -> queues_apart s /\ slots_ok s -> fire e s = Some s' ->
  queues_apart s' /\ slots_ok s'.
Proof.
  intros HM H Hfire. pose proof H as [HQ HS].
  destruct e as [key sig|key sig|n|n|n|n|n|n]; cbn [fire] in Hfire.
  - injection Hfire as <-. apply apart_acquire; assumption.
  - injection Hfire as <-. apply apart_acquire; assumption.
  - destruct (barriers s !! n) as [b|]; [|discriminate].
    cbn [mbind option_bind] in Hfire.
    destruct (items s !! b_item b) as [it|]; [|discriminate].
    cbn [mbind option_bind] in Hfire.
    destruct (item_ready it && negb (b_fired b)); [|discriminate].
    injection Hfire as <-. split.
    + apply queues_apart_advance, queues_apart_barriers. exact HQ.
    + eapply slots_ok_tags;
        [exact HS| |rewrite acqs_advance; reflexivity].
      intros j Hj.
      exact (tags_kept_advance (Some (b_key b)) (b_queue b)
               (set_barriers (<[n := set_fired b]>) s) j Hj).
  - destruct (acqs s !! n) as [a|] eqn:Ea; [|discriminate].
    cbn [mbind option_bind] in Hfire.
    destruct (a_result a); try discriminate.
    destruct (acq_ready s a); [|discriminate].
    injection Hfire as <-. split; [exact HQ|].
    eapply slots_ok_insert; eauto.
  - destruct (acqs s !! n) as [a|] eqn:Ea; [|discriminate].
    cbn [mbind option_bind] in Hfire.
    destruct (a_result a); try discriminate.
    destruct (a_signal a); [|discriminate].
    injection Hfire as <-. split; [exact HQ|].
    eapply slots_ok_insert; eauto.
  - destruct (acqs s !! n) as [a|] eqn:Ea; [|discriminate].
    cbn [mbind option_bind] in Hfire.
    destruct (a_result a); try discriminate.
    injection Hfire as <-. split; [exact HQ|].
    eapply slots_ok_insert; eauto.
  - destruct (acqs s !! n) as [a|] eqn:Ea; [|discriminate].
    cbn [mbind option_bind] in Hfire.
    destruct (a_result a); try discriminate.
    injection Hfire as <-. split; [exact HQ|].
    eapply slots_ok_insert; eauto.
  - destruct (acqs s !! n) as [a|] eqn:Ea; [|discriminate].
    cbn [mbind option_bind] in Hfire.
    destruct (acq_ready s a && Lock.resolved (a_lock a)
              && negb (a_released a)); [|discriminate].
    injection Hfire as <-. apply apart_next_all. split; [exact HQ|].
    eapply slots_ok_insert; eauto.
Qed.

Lemma apart_run es s :
  run es init = Some s -> queues_apart s /\ slots_ok s.
Proof.
  intros Hrun.
  assert (H : map_ok s /\ queues_apart s /\ slots_ok s).
  { revert Hrun.
    apply (run_invariant (fun s => map_ok s /\ queues_apart s /\ slots_ok s)).
    - intros e t t' [HM H] Hf. split; [eapply map_ok_step; eauto|].
      eapply apart_step; eauto.
    - split; [apply map_ok_init|]. split; [|constructor].
      split; [constructor|]. split.
      + intros q l i Hl Hi. destruct q; [|discriminate].
        injection Hl as <-. apply elem_of_nil in Hi. contradiction.
      + intros q1 q2 l1 l2 i _ Hl1 _ Hi1. destruct q1; [|discriminate].
        injection Hl1 as <-. apply elem_of_nil in Hi1. contradiction. }
  exact (proj2 H).
Qed.

(** On a mux, whenever the release reaction of a call runs, it does the
    work of [next] on every slot of the call. *)
Lemma reachable_release_effect es s n a s3 :
  run es init = Some s -> acqs s !! n = Some a ->
  fire (Release n) s = Some s3 ->
  released (a_kind a) (a_slots a) s s3.
Proof.
  intros Hrun Ha Hfire. destruct (apart_run es s Hrun) as [_ HS].
  destruct (Forall_lookup_1 _ _ _ _ HS Ha) as [Hap Hk].
  eapply fire_Release_effect; eauto.
Qed.

End KeyedApartSteps.

(** ** The release reaction runs when the lock is released, and once *)

Section KeyedReleaseOnce.
Import Keyed KeyedInv KeyedReady KeyedEffect.

Lemma released_kept e s s' n a :
  fire e s = Some s' -> acqs s !! n = Some a -> a_released a = true ->
  exists a', acqs s' !! n = Some a' /\ a_released a' = true.
Proof.
  intros Hfire Ha Hr.
  destruct (fire_acq e s s' n a Hfire Ha) as (a' & Ha' & _ & _ & Hs).
  exists a'. split; [exact Ha'|].
  assert (Hlt : (n < length (acqs s))%nat) by (eapply lookup_lt_Some, Ha).
  destruct (decide (about e = Some n)) as [Hab|Hab].
  - destruct e as [key sig|key sig|m|m|m|m|m|m]; try discriminate;
      injection Hab as ->; cbn [fire] in Hfire; rewrite Ha in Hfire;
      cbn [mbind option_bind] in Hfire.
    + destruct (a_result a); try discriminate.
      destruct (acq_ready s a); [|discriminate].
      injection Hfire as <-. cbn [acqs set_acqs] in Ha'.
      rewrite list_lookup_insert_eq in Ha' by exact Hlt.
      injection Ha' as <-. exact Hr.
    + destruct (a_result a), (a_signal a); try discriminate.
      injection Hfire as <-. cbn [acqs set_acqs] in Ha'.
      rewrite list_lookup_insert_eq in Ha' by exact Hlt.
      injection Ha' as <-. exact Hr.
    + destruct (a_result a); try discriminate.
      injection Hfire as <-. cbn [acqs set_acqs] in Ha'.
      rewrite list_lookup_insert_eq in Ha' by exact Hlt.
      injection Ha' as <-. exact Hr.
    + destruct (a_result a); try discriminate.
      injection Hfire as <-. cbn [acqs set_acqs] in Ha'.
      rewrite list_lookup_insert_eq in Ha' by exact Hlt.
      injection Ha' as <-. exact Hr.
    + rewrite Hr, andb_false_r in Hfire. discriminate.
  - destruct (Hs Hab) as (_ & _ & _ & <- & _). exact Hr.
Qed.

Lemma released_forever es : forall s s' n a,
  run es s = Some s' -> acqs s !! n = Some a -> a_released a = true ->
  fire (Release n) s' = None.
Proof.
  induction es as [|e es IH]; intros s s' n a Hrun Ha Hr.
  - injection Hrun as <-. eapply fire_Release_released; eauto.
  - cbn [run] in Hrun. destruct (fire e s) as [s1|] eqn:Ef; [|discriminate].
    cbn [mbind option_bind] in Hrun.
    destruct (released_kept e s s1 n a Ef Ha Hr) as (a1 & Ha1 & Hr1).
    exact (IH s1 s' n a1 Hrun Ha1 Hr1).
Qed.

(** After [unlock] the release reaction of a call that has not been
    released is enabled. *)
Lemma keyed_release_enabled_after_unlock es s s1 n a :
  run es init = Some s -> acqs s !! n = Some a -> a_released a = false ->
  fire (Unlock n) s = Some s1 ->
  acqs s1 !! n = Some (on_lock Lock.unlock a)
  /\ fire (Release n) s1
     = Some (next_all (a_kind a) (a_slots a)
               (set_acqs (<[n := set_released (on_lock Lock.unlock a)]>) s1)).
Proof.
  intros Hreach Ha Hnr Hfire.
  apply (fire_on_lock_inv Lock.unlock) in Hfire
    as (a0 & Ha0 & Hres & -> & Ha1).
  assert (a0 = a) by congruence. subst a0. split; [exact Ha1|].
  pose proof (Forall_lookup_1 _ _ _ _ (granted_ready_run es s Hreach) Ha Hres)
    as Hrdy.
  rewrite (fire_Release_eq _ n _ Ha1).
  rewrite (acq_ready_items _ s (on_lock Lock.unlock a)) by reflexivity.
  change (acq_ready s (on_lock Lock.unlock a)) with (acq_ready s a).
  rewrite Hrdy. cbn [a_lock on_lock Lock.unlock Lock.resolve Lock.resolved
                       a_released andb]. rewrite Hnr. reflexivity.
Qed.

(** Release through the lock object of the keyed mux, in a state the mux
    can reach. *)
Lemma keyed_unlock_releases es s s1 n a :
  run es init = Some s -> acqs s !! n = Some a -> a_released a = false ->
  fire (Unlock n) s = Some s1 ->
  exists s2 s3 s3',
    fire (Release n) s1 = Some s3
    /\ released (a_kind a) (a_slots a) s1 s3
    /\ fire (Unlock n) s1 = Some s2
    /\ fire (Release n) s2 = Some s3'
    /\ queues_of s3' = queues_of s3
    /\ forall es' t, run es' s3 = Some t -> fire (Release n) t = None.
Proof.
  intros Hreach Ha Hnr Hfire.
  destruct (keyed_release_enabled_after_unlock es s s1 n a Hreach Ha Hnr Hfire)
    as [Ha1 Hrel].
  destruct (keyed_unlock_twice_releases_once s s1 n Hfire)
    as (_ & (s2 & Hu2 & _ & Heq) & _).
  rewrite Hrel in Heq.
  destruct (fire (Release n) s2) as [s3'|] eqn:Hrel2; [|discriminate].
  cbn [fmap option_fmap option_map] in Heq.
  assert (Hq : queues_of s3'
               = queues_of (next_all (a_kind a) (a_slots a)
                   (set_acqs (<[n := set_released (on_lock Lock.unlock a)]>)
                      s1))) by congruence.
  clear Heq. rename Hq into Heq.
  exists s2, (next_all (a_kind a) (a_slots a)
                (set_acqs (<[n := set_released (on_lock Lock.unlock a)]>) s1)),
    s3'.
  split; [exact Hrel|]. split.
  - assert (Hreach1 : run (es ++ [Unlock n]) init = Some s1).
    { rewrite keyed_run_app, Hreach. cbn [mbind option_bind run].
      rewrite Hfire. reflexivity. }
    exact (reachable_release_effect _ s1 n _ _ Hreach1 Ha1 Hrel).
  - split; [exact Hu2|]. split; [exact Hrel2|]. split; [exact Heq|].
    intros es' t Ht.
    destruct (released_stays (a_kind a) (a_slots a)
                (set_acqs (<[n := set_released (on_lock Lock.unlock a)]>) s1)
                n (set_released (on_lock Lock.unlock a)))
      as (a3 & Ha3 & Hr3).
    + cbn [acqs set_acqs]. apply list_lookup_insert_eq.
      eapply lookup_lt_Some, Ha1.
    + reflexivity.
    + exact (released_forever es' _ t n a3 Ht Ha3 Hr3).
Qed.

End KeyedReleaseOnce.

Section InstanceReleaseOnce.
Import Instance InstanceInv InstanceEffect.

(** Release through the lock object of [manualLock], in a state the owner
    can reach. *)
Lemma manual_unlock_releases es s s1 n a :
  run es init = Some s -> acqs s !! n = Some a -> a_phase a <> Finished ->
  fire (Unlock n) s = Some s1 ->
  exists s2 s3 s3',
    fire (Finish n) s1 = Some s3
    /\ released a s1 s3
    /\ fire (Unlock n) s1 = Some s2
    /\ fire (Finish n) s2 = Some s3'
    /\ queues_of s3' = queues_of s3
    /\ forall es' t, run es' s3 = Some t -> fire (Finish n) t = None.
Proof.
  intros Hreach Ha Hp Hfire.
  pose proof (manual_release_enabled_after_unlock es s s1 n a Hreach Ha Hp
                Hfire) as Hfin.
  destruct (manual_unlock_twice_releases_once s s1 n Hfire)
    as (_ & (s2 & Hu2 & _ & Heq) & Honce).
  rewrite Hfin in Heq.
  destruct (fire (Finish n) s2) as [s3'|] eqn:Hfin2; [|discriminate].
  cbn [fmap option_fmap option_map] in Heq.
  assert (Hq : queues_of s3'
               = queues_of (finish n (set_manual (on_lock Lock.unlock) a) s1))
    by congruence.
  clear Heq. rename Hq into Heq.
  exists s2, (finish n (set_manual (on_lock Lock.unlock) a) s1), s3'.
  split; [exact Hfin|]. split.
  - apply (finish_released n (set_manual (on_lock Lock.unlock) a) s1).
    pose proof (Forall_lookup_1 _ _ _ _ (kind_run es s Hreach) Ha) as Hk.
    apply (instance_fire_on_lock_inv Lock.unlock) in Hfire
      as (a0 & m & Ha0 & Hm & Hres & -> & Ha1).
    exact Hk.
  - split; [exact Hu2|]. split; [exact Hfin2|]. split; [exact Heq|].
    intros es' t Ht.
    destruct (instance_fire_Finish_inv s1 n _ Hfin)
      as (b & Hb & _ & _ & a3 & Ha3 & Hp3 & _).
    exact (finished_forever es' _ t n a3 Ht Ha3 Hp3).
Qed.

End InstanceReleaseOnce.

(** C7: once [unlock] was called on the lock object of acquisition [n], of
    the keyed mux (first and second part) or of [manualLock] (third and
    fourth part), disposing it changes nothing at all; calling [unlock]
    again leaves the queues as they are and the release bookkeeping then
    produces the same queues as after one [unlock]; and once the release
    bookkeeping has run it cannot run again, whatever further [unlock] or
    dispose calls are made, none of which changes the queues.  In every
    state the mux or the owner can reach, when the bookkeeping of the
    acquisition has not run yet: after [unlock] it is enabled and does the
    work of [next] on the item of every slot (a count goes down by one,
    steps are consumed up to the first resolver, the queue loses its head
    when nothing is left); after a second [unlock] it is enabled as well and
    leaves the same queues; and once it has run it never runs again. *)
Theorem unlock_twice_releases_once (n : nat) :
  (forall s s1,
     Keyed.fire (Keyed.Unlock n) s = Some s1 ->
     Keyed.fire (Keyed.Dispose n) s1 = Some s1
     /\ (exists s2, Keyed.fire (Keyed.Unlock n) s1 = Some s2
           /\ KeyedInv.queues_of s2 = KeyedInv.queues_of s1
           /\ KeyedInv.queues_of <$> Keyed.fire (Keyed.Release n) s2
              = KeyedInv.queues_of <$> Keyed.fire (Keyed.Release n) s1)
     /\ (forall s3, Keyed.fire (Keyed.Release n) s1 = Some s3 ->
           Keyed.fire (Keyed.Release n) s3 = None
           /\ forall e s4, e = Keyed.Unlock n \/ e = Keyed.Dispose n ->
                Keyed.fire e s3 = Some s4 ->
                KeyedInv.queues_of s4 = KeyedInv.queues_of s3
                /\ Keyed.fire (Keyed.Release n) s4 = None))
  /\ (forall es s s1 a,
        Keyed.run es Keyed.init = Some s ->
        Keyed.acqs s !! n = Some a -> Keyed.a_released a = false ->
        Keyed.fire (Keyed.Unlock n) s = Some s1 ->
        exists s2 s3 s3',
          Keyed.fire (Keyed.Release n) s1 = Some s3
          /\ KeyedEffect.released (Keyed.a_kind a) (Keyed.a_slots a) s1 s3
          /\ Keyed.fire (Keyed.Unlock n) s1 = Some s2
          /\ Keyed.fire (Keyed.Release n) s2 = Some s3'
          /\ KeyedInv.queues_of s3' = KeyedInv.queues_of s3
          /\ forall es' t, Keyed.run es' s3 = Some t ->
               Keyed.fire (Keyed.Release n) t = None)
  /\ (forall s s1,
        Instance.fire (Instance.Unlock n) s = Some s1 ->
        Instance.fire (Instance.Dispose n) s1 = Some s1
        /\ (exists s2, Instance.fire (Instance.Unlock n) s1 = Some s2
              /\ InstanceInv.queues_of s2 = InstanceInv.queues_of s1
              /\ InstanceInv.queues_of <$> Instance.fire (Instance.Finish n) s2
                 = InstanceInv.queues_of
                     <$> Instance.fire (Instance.Finish n) s1)
        /\ (forall s3, Instance.fire (Instance.Finish n) s1 = Some s3 ->
              Instance.fire (Instance.Finish n) s3 = None
              /\ forall e s4, e = Instance.Unlock n \/ e = Instance.Dispose n ->
                   Instance.fire e s3 = Some s4 ->
                   InstanceInv.queues_of s4 = InstanceInv.queues_of s3
                   /\ Instance.fire (Instance.Finish n) s4 = None))
  /\ (forall es s s1 a,
        Instance.run es Instance.init = Some s ->
        Instance.acqs s !! n = Some a ->
        Instance.a_phase a <> Instance.Finished ->
        Instance.fire (Instance.Unlock n) s = Some s1 ->
        exists s2 s3 s3',
          Instance.fire (Instance.Finish n) s1 = Some s3
          /\ InstanceEffect.released a s1 s3
          /\ Instance.fire (Instance.Unlock n) s1 = Some s2
          /\ Instance.fire (Instance.Finish n) s2 = Some s3'
          /\ InstanceInv.queues_of s3' = InstanceInv.queues_of s3
          /\ forall es' t, Instance.run es' s3 = Some t ->
               Instance.fire (Instance.Finish n) t = None).
Proof.
  split; [|split; [|split]].
  - intros s s1. apply keyed_unlock_twice_releases_once.
  - intros es s s1 a. apply keyed_unlock_releases.
  - intros s s1. apply manual_unlock_twice_releases_once.
  - intros es s s1 a. apply manual_unlock_releases.
Qed.

(** An unkeyed lock is held and unlocked: its release reaction runs, the
    steps of its writer item are consumed and the global queue loses its
    head. *)
Lemma unlock_twice_releases_once_witness :
  exists s2 s3 s3',
    Keyed.fire (Keyed.Release 0%nat)
      (default Keyed.init (Keyed.fire (Keyed.Unlock 0%nat) unkeyed_held))
    = Some s3
    /\ KeyedEffect.released TW [Keyed.mkSlot None 0 0 true]
         (default Keyed.init (Keyed.fire (Keyed.Unlock 0%nat) unkeyed_held))
         s3
    /\ Keyed.fire (Keyed.Unlock 0%nat)
         (default Keyed.init (Keyed.fire (Keyed.Unlock 0%nat) unkeyed_held))
       = Some s2
    /\ Keyed.fire (Keyed.Release 0%nat) s2 = Some s3'
    /\ KeyedInv.queues_of s3' = KeyedInv.queues_of s3
    /\ forall es' t, Keyed.run es' s3 = Some t ->
         Keyed.fire (Keyed.Release 0%nat) t = None.
Proof.
  apply (proj1 (proj2 (unlock_twice_releases_once 0%nat))
           [Keyed.Lock None None; Keyed.Ready 0%nat] unkeyed_held
           (default Keyed.init (Keyed.fire (Keyed.Unlock 0%nat) unkeyed_held))
           (Keyed.mkAcquirer TW [Keyed.mkSlot None 0 0 true] Fulfilled
              Lock.create None false));
    reflexivity.
Defined.

Section KeyedCancelEffect.
Import Keyed KeyedInv KeyedEffect.

(** The release reaction of a canceled call does the work of [next] on
    every slot the call took. *)
Lemma keyed_canceled_release_effect es0 es s0 s1 s' n a :
  run es0 init = Some s0 ->
  fire (Abort n) s0 = Some s1 ->
  run es s1 = Some s' ->
  acqs s' !! n = Some a ->
  is_Some (fire (Release n) s') ->
  exists s3, fire (Release n) s' = Some s3
    /\ released (a_kind a) (a_slots a) s' s3.
Proof.
  intros H0 Hab Hrun Ha [s3 H3]. exists s3. split; [exact H3|].
  apply (reachable_release_effect (es0 ++ [Abort n] ++ es) s' n a s3);
    [|exact Ha|exact H3].
  change ([Abort n] ++ es) with (Abort n :: es).
  rewrite keyed_run_app, H0. cbn [mbind option_bind run].
  rewrite Hab. cbn [mbind option_bind]. exact Hrun.
Qed.

End KeyedCancelEffect.

Section InstanceCancelEffect.
Import Instance InstanceInv InstanceWf InstanceEffect.

Lemma well_formed_run es s :
  run es init = Some s -> well_formed s.
Proof.
  apply (instance_run_invariant well_formed).
  - intros e t t'. apply wf_step.
  - apply wf_init.
Qed.

(** The context that [start] appends is none of the contexts a queued
    acquirer remembers. *)
Lemma released_before_start n a0 a s s3 :
  (a_ctx a < length (ctxs s))%nat ->
  released a (start n a0 s) s3 -> released a s s3.
Proof.
  intros Hlt. unfold released.
  assert (Hc : ctxs (start n a0 s) !! a_ctx a = ctxs s !! a_ctx a).
  { unfold start. cbn [ctxs set_acqs assign_context set_owner set_ctxs].
    apply lookup_app_l. exact Hlt. }
  assert (Hs : shifted (a_ctx a) (start n a0 s) s3 -> shifted (a_ctx a) s s3).
  { unfold shifted. rewrite Hc. auto. }
  destruct (a_kind a).
  - intros (r & steps & r' & H1 & H2 & H3). exists r, steps, r'.
    split; [exact H1|]. split; [exact H2|].
    destruct (pop_step steps).2; [exact H3|auto].
  - intros (r & c & r' & H1 & H2 & H3). exists r, c, r'. auto.
  - intros (r & c & r' & H1 & H2 & H3). exists r, c, r'. auto.
Qed.

(** Once its turn has come, the callbacks of a canceled [manualLock] run
    one after the other, and [next] does its work on the item. *)
Lemma manual_canceled_release_effect es0 es s0 s1 s' n a :
  run es0 init = Some s0 ->
  fire (Abort n) s0 = Some s1 ->
  run es s1 = Some s' ->
  acqs s' !! n = Some a ->
  is_Some (run [Start n; Finish n] s') ->
  exists t s3, fire (Start n) s' = Some t
    /\ fire (Finish n) t = Some s3
    /\ released a s' s3.
Proof.
  intros H0 Hab Hrun Ha [s3 H3].
  assert (Hreach : run (es0 ++ [Abort n] ++ es) init = Some s').
  { change ([Abort n] ++ es) with (Abort n :: es).
    rewrite run_app, H0. cbn [mbind option_bind run].
    rewrite Hab. cbn [mbind option_bind]. exact Hrun. }
  cbn [run] in H3.
  destruct (fire (Start n) s') as [t|] eqn:Hst; [|discriminate].
  cbn [mbind option_bind] in H3.
  destruct (fire (Finish n) t) as [s3'|] eqn:Hfi; [|discriminate].
  cbn [mbind option_bind] in H3. injection H3 as ->.
  exists t, s3. split; [reflexivity|]. split; [exact Hfi|].
  pose proof (well_formed_run _ _ Hreach) as (_ & _ & _ & Hwf).
  destruct (Forall_lookup_1 _ _ _ _ Hwf Ha) as [_ Hlt].
  pose proof (kind_run _ _ Hreach) as Hk.
  pose proof (Forall_lookup_1 _ _ _ _ Hk Ha) as Hka.
  assert (Hn : (n < length (acqs s'))%nat) by (eapply lookup_lt_Some, Ha).
  cbn [fire] in Hst. rewrite Ha in Hst. cbn [mbind option_bind] in Hst.
  destruct (a_phase a); try discriminate.
  destruct (acq_ready s' a); [|discriminate].
  injection Hst as <-.
  set (f := fun m : manual =>
              match m_result m with
              | Pending => mkManual Fulfilled (m_lock m) (m_signal m)
              | _ => m
              end).
  assert (Hat : acqs (start n a s') !! n
                = Some (set_manual f (set_phase Running a))).
  { unfold start. cbn [acqs set_acqs assign_context set_owner set_ctxs].
    apply list_lookup_insert_eq. exact Hn. }
  cbn [fire] in Hfi. rewrite Hat in Hfi. cbn [mbind option_bind] in Hfi.
  assert (Hs3 : s3 = finish n (set_manual f (set_phase Running a))
                       (start n a s')).
  { destruct (a_manual (set_manual f (set_phase Running a))) as [m|];
      [destruct (Lock.resolved (m_lock m)); [|discriminate]|];
      injection Hfi as <-; reflexivity. }
  apply (released_before_start n a a s' s3 Hlt).
  rewrite Hs3.
  apply (finish_released n (set_manual f (set_phase Running a))
           (start n a s')).
  exact Hka.
Qed.

End InstanceCancelEffect.

(** C6: let the signal of an acquisition fire while its call is pending,
    in a state reachable from a new keyed mux (first part) or from a new
    owner of the instance form used through [manualLock] (second part), and
    let any events that are not about that acquisition follow.  Then the
    call is rejected with the signal's reason and stays so whatever happens
    later (no lock object is handed out, so the caller's critical section
    never runs); the queues are at every moment those of the run in which
    the signal did not fire; once the acquirer's turn comes its release
    bookkeeping runs and does the work of [next] on the item of every slot
    of the canceled acquirer (the count of a reader item goes down by one
    and the queue loses its head at zero; the steps of a writer item are
    consumed up to the first resolver, whose acquirer is woken, and the
    queue loses its head when no resolver is left); and it leaves the
    queues exactly as the uncancelled run leaves them when the acquisition
    completes, is unlocked at once and released. *)
Theorem canceled_waiter_still_releases (n : nat) :
  (forall es0 es s0 s1 s',
     Keyed.run es0 Keyed.init = Some s0 ->
     Keyed.fire (Keyed.Abort n) s0 = Some s1 ->
     Forall (fun e => KeyedInv.about e <> Some n) es ->
     Keyed.run es s1 = Some s' ->
     exists r a s'',
       Keyed.acqs s' !! n = Some a
       /\ Keyed.a_signal a = Some r
       /\ Keyed.a_result a = Rejected (AbortReason r)
       /\ Keyed.run es s0 = Some s''
       /\ KeyedInv.queues_of s' = KeyedInv.queues_of s''
       /\ KeyedInv.queues_of <$> Keyed.fire (Keyed.Release n) s'
          = KeyedInv.queues_of
              <$> Keyed.run [Keyed.Ready n; Keyed.Unlock n; Keyed.Release n] s''
       /\ (Keyed.acq_ready s' a = true ->
           exists s3, Keyed.fire (Keyed.Release n) s' = Some s3
             /\ KeyedEffect.released (Keyed.a_kind a) (Keyed.a_slots a) s' s3)
       /\ (forall es' t, Keyed.run es' s' = Some t ->
             Keyed.a_result <$> Keyed.acqs t !! n
             = Some (Rejected (AbortReason r))))
  /\ (forall es0 es s0 s1 s',
        Instance.run es0 Instance.init = Some s0 ->
        Instance.fire (Instance.Abort n) s0 = Some s1 ->
        Forall (fun e => InstanceInv.about e <> Some n) es ->
        Instance.run es s1 = Some s' ->
        exists r a m s'',
          Instance.acqs s' !! n = Some a
          /\ Instance.a_manual a = Some m
          /\ Instance.m_signal m = Some r
          /\ Instance.m_result m = Rejected (AbortReason r)
          /\ Instance.run es s0 = Some s''
          /\ InstanceInv.queues_of s' = InstanceInv.queues_of s''
          /\ InstanceInv.queues_of
               <$> Instance.run [Instance.Start n; Instance.Finish n] s'
             = InstanceInv.queues_of
                 <$> Instance.run [Instance.Start n; Instance.Unlock n;
                                   Instance.Finish n] s''
          /\ (Instance.acq_ready s' a = true ->
              exists t s3, Instance.fire (Instance.Start n) s' = Some t
                /\ Instance.fire (Instance.Finish n) t = Some s3
                /\ InstanceEffect.released a s' s3)
          /\ (forall es' t, Instance.run es' s' = Some t ->
                exists a' m', Instance.acqs t !! n = Some a'
                  /\ Instance.a_manual a' = Some m'
                  /\ Instance.m_result m' = Rejected (AbortReason r))).
Proof.
  split.
  - intros es0 es s0 s1 s' H0 Hab Hes Hrun.
    destruct (keyed_canceled_waiter_still_releases es0 es s0 s1 s' n
                H0 Hab Hes Hrun)
      as (r & a & s'' & Ha & Hsig & Hres & Hr'' & Hq & Heq & Hen & Hst).
    exists r, a, s''. repeat (split; [assumption|]).
    split; [|exact Hst].
    intros Hrd.
    exact (keyed_canceled_release_effect es0 es s0 s1 s' n a H0 Hab Hrun Ha
             (Hen Hrd)).
  - intros es0 es s0 s1 s' H0 Hab Hes Hrun.
    destruct (manual_canceled_waiter_still_releases es0 es s0 s1 s' n
                H0 Hab Hes Hrun)
      as (r & a & m & s'' & Ha & Hm & Hsig & Hres & Hr'' & Hq & Heq & Hen
          & Hst).
    exists r, a, m, s''. repeat (split; [assumption|]).
    split; [|exact Hst].
    intros Hrd.
    exact (manual_canceled_release_effect es0 es s0 s1 s' n a H0 Hab Hrun Ha
             (Hen Hrd)).
Qed.

(** Two writers ask for one key, the signal of the second fires while it
    waits, and the first is released: the release reaction of the second
    runs, consumes the steps of the writer item and shifts the queue of
    the key. *)
Lemma canceled_waiter_still_releases_witness :
  exists r a s3,
    Keyed.acqs (default Keyed.init
      (Keyed.run (two_writers_one_key ++ [Keyed.Abort 1%nat] ++ first_writer_done)
         Keyed.init)) !! 1%nat = Some a
    /\ Keyed.a_signal a = Some r
    /\ Keyed.a_result a = Rejected (AbortReason r)
    /\ Keyed.fire (Keyed.Release 1%nat)
         (default Keyed.init
            (Keyed.run
               (two_writers_one_key ++ [Keyed.Abort 1%nat] ++ first_writer_done)
               Keyed.init)) = Some s3
    /\ KeyedEffect.released (Keyed.a_kind a) (Keyed.a_slots a)
         (default Keyed.init
            (Keyed.run
               (two_writers_one_key ++ [Keyed.Abort 1%nat] ++ first_writer_done)
               Keyed.init)) s3.
Proof.
  destruct (proj1 (canceled_waiter_still_releases 1%nat)
    two_writers_one_key first_writer_done
    (default Keyed.init (Keyed.run two_writers_one_key Keyed.init))
    (default Keyed.init
       (Keyed.run (two_writers_one_key ++ [Keyed.Abort 1%nat]) Keyed.init))
    (default Keyed.init
       (Keyed.run (two_writers_one_key ++ [Keyed.Abort 1%nat] ++ first_writer_done)
          Keyed.init)))
    as (r & a & s'' & H1 & H2 & H3 & _ & _ & _ & H7 & _).
  - reflexivity.
  - reflexivity.
  - repeat constructor; discriminate.
  - reflexivity.
  - destruct H7 as (s3 & H8 & H9).
    + vm_compute in H1. injection H1 as <-. reflexivity.
    + exists r, a, s3. auto.
Defined.
